(** * ads-js: positional linked lists, preorder traversal and quick-select

    A shallow embedding of the TypeScript sources
    - [src/lists/singly-linked-list.class.ts]
    - [src/lists/doubly-linked-list.class.ts]
    - [src/trees/preorder-traversal.ts]
    - [src/searches/quick-select.ts]

    JavaScript objects live in a store: a node is an address into a finite
    map, a reference comparison [a === b] is equality of addresses, and an
    absent reference ([undefined]) is [None].  Methods are computations in a
    state-and-exception monad; a [throw] keeps the store as it is at the
    moment of the throw. *)

From Stdlib Require Import ZArith Lia.
From stdpp Require Import base option list gmap.
From stdpp Require Import sorting.

Local Open Scope Z_scope.
#[local] Set Warnings "-clear-no-such-hyp,-unused-intro-pattern".

(** ** Errors and the state-and-exception monad *)

(** [ADSError] is one class in the source, told apart by its message. *)
Inductive ADSError : Set :=
| EmptyContainer   (* new ADSError('List is empty') *)
| InvalidPosition  (* raised by validate() *)
| EmptyArray       (* new ADSError('Can not select from an empty array') *)
| OutOfBounds      (* new ADSError('Can not select item from outside of the array bounds') *)
| NotEmpty         (* addRoot() on a tree that has a root *)
| SlotOccupied.    (* addLeft()/addRight() on an occupied child slot *)

(** What can stop a computation: a thrown [ADSError], or one of the two ways
    the model itself can get stuck (reading through an address that is not in
    the store, or a loop that outlives its fuel). *)
Inductive Exn : Set :=
| Throw (e : ADSError)
| DanglingRef
| OutOfFuel.

Inductive Res (A : Type) : Type :=
| Ok (a : A)
| Err (e : Exn).
Arguments Ok {A} a.
Arguments Err {A} e.

Definition M (S A : Type) : Type := S → S * Res A.

Definition ret {S A} (a : A) : M S A := λ s, (s, Ok a).

Definition bind {S A B} (m : M S A) (k : A → M S B) : M S B :=
  λ s, match m s with
       | (s', Ok a) => k a s'
       | (s', Err e) => (s', Err e)
       end.

Definition throw {S A} (e : ADSError) : M S A := λ s, (s, Err (Throw e)).
Definition stuck {S A} (e : Exn) : M S A := λ s, (s, Err e).
Definition get {S} : M S S := λ s, (s, Ok s).
Definition modify {S} (f : S → S) : M S unit := λ s, (f s, Ok tt).

Declare Scope m_scope.
Delimit Scope m_scope with M.
Notation "x <- c ;; k" := (bind c (λ x, k))
  (at level 100, c at next level, right associativity) : m_scope.
Notation "c ;;; k" := (bind c (λ _, k))
  (at level 100, right associativity) : m_scope.
Local Open Scope m_scope.

(** *** Where a computation can throw

    [pure m]: [m] never changes the state.  [no_throw m]: [m] never throws
    an [ADSError].  [safe m]: when [m] throws an [ADSError], the state is the
    one it started from. *)
Section Throw.
Context {S : Type}.

Definition pure {A} (m : M S A) : Prop := ∀ s, (m s).1 = s.
Definition no_throw {A} (m : M S A) : Prop :=
  ∀ s s' e, m s ≠ (s', Err (Throw e)).
Definition safe {A} (m : M S A) : Prop :=
  ∀ s s' e, m s = (s', Err (Throw e)) → s' = s.

Lemma safe_bind_ret {A B} (m : M S A) (f : A → B) :
  safe m → safe (bind m (λ r, ret (f r))).
Proof.
  intros Hm s s' e. unfold bind, ret.
  destruct (m s) as [s1 [a|x]] eqn:E; [done|].
  intros [= -> ->]. by eapply Hm.
Qed.

Lemma pure_ret {A} (a : A) : pure (ret (S:=S) a).
Proof. done. Qed.
Lemma pure_throw {A} e : pure (throw (S:=S) (A:=A) e).
Proof. done. Qed.
Lemma pure_stuck {A} e : pure (stuck (S:=S) (A:=A) e).
Proof. done. Qed.
Lemma pure_get : pure (get (S:=S)).
Proof. done. Qed.
Lemma pure_bind {A B} (m : M S A) (k : A → M S B) :
  pure m → (∀ a, pure (k a)) → pure (bind m k).
Proof.
  intros Hm Hk s. unfold bind. specialize (Hm s).
  destruct (m s) as [s1 [a|x]]; simpl in *; subst; [apply Hk|done].
Qed.

Lemma no_throw_ret {A} (a : A) : no_throw (ret (S:=S) a).
Proof. done. Qed.
Lemma no_throw_get : no_throw (get (S:=S)).
Proof. done. Qed.
Lemma no_throw_modify f : no_throw (modify (S:=S) f).
Proof. done. Qed.
Lemma no_throw_stuck {A} x :
  (∀ e, x ≠ Throw e) → no_throw (stuck (S:=S) (A:=A) x).
Proof. intros Hx s s' e [= _ E]. by eapply Hx. Qed.
Lemma no_throw_bind {A B} (m : M S A) (k : A → M S B) :
  no_throw m → (∀ a, no_throw (k a)) → no_throw (bind m k).
Proof.
  intros Hm Hk s s' e. unfold bind. specialize (Hm s).
  destruct (m s) as [s1 [a|x]]; [apply Hk|].
  intros [= -> ->]. by eapply Hm.
Qed.

Lemma safe_no_throw {A} (m : M S A) : no_throw m → safe m.
Proof. intros Hm s s' e E. by apply Hm in E. Qed.
Lemma safe_pure {A} (m : M S A) : pure m → safe m.
Proof. intros Hm s s' e E. specialize (Hm s). by rewrite E in Hm. Qed.
Lemma safe_bind {A B} (m : M S A) (k : A → M S B) :
  pure m → (∀ a, safe (k a)) → safe (bind m k).
Proof.
  intros Hm Hk s s' e. unfold bind. specialize (Hm s).
  destruct (m s) as [s1 [a|x]]; simpl in *; subst.
  - apply Hk.
  - by intros [= ->].
Qed.

End Throw.

(** Addresses of nodes in the store and identities of containers. *)
Abbreviation addr := nat (only parsing).
Abbreviation cid := nat (only parsing).

(** Modelled from the spec: the [Position] class ([src/position.class.ts] is
    not among the sources).  A position is a handle made of a reference to one
    internal node and a back-reference to the container that produced it. *)
Record Position : Set := mkPosition {
  pos_node : addr;
  pos_container : cid;
}.

Global Instance Position_eq_dec : EqDecision Position.
Proof. solve_decision. Defined.

(** ** Chains of successor links

    Both list classes walk [head], [head.next], ... until the link is absent.
    The lemmas of this section are about such walks over any view [N] of the
    successor fields of a store: [N a = None] when [a] is no node,
    [N a = Some None] when [a.next] is absent. *)

Section Chain.

Definition links : Type := nat → option (option nat).

(** [seg N o ch e]: starting at reference [o] and following successor links,
    one visits exactly the nodes [ch], none of them deprecated, and arrives
    at reference [e]. *)
Fixpoint seg (N : links) (o : option nat) (ch : list nat) (e : option nat)
  : Prop :=
  match ch with
  | [] => o = e
  | a :: r => o = Some a ∧ ∃ nx, N a = Some nx ∧ nx ≠ Some a ∧ seg N nx r e
  end.

(** A chain is a walk that ends at an absent link. *)
Definition chain (N : links) (o : option nat) (ch : list nat) : Prop :=
  seg N o ch None.

(** Following links from a live node never comes back. *)
Definition ranked (N : links) (rank : nat → nat) : Prop :=
  ∀ a m, N a = Some (Some m) → m ≠ a → (rank m < rank a)%nat.

Lemma seg_app N o l1 l2 e :
  seg N o (l1 ++ l2) e ↔ ∃ mid, seg N o l1 mid ∧ seg N mid l2 e.
Proof.
  revert o. induction l1 as [|a l1 IH]; intros o; simpl.
  - split; [intros H; by exists o|intros (mid & -> & H); done].
  - split.
    + intros (-> & nx & Hn & Hl & H). apply IH in H as (mid & H1 & H2).
      exists mid. split; [|done]. split; [done|]. by exists nx.
    + intros (mid & (-> & nx & Hn & Hl & H1) & H2). split; [done|].
      exists nx. split; [done|]. split; [done|]. apply IH. by exists mid.
Qed.

Lemma seg_frame N N' o ch e :
  (∀ a, a ∈ ch → N' a = N a) → seg N o ch e → seg N' o ch e.
Proof.
  revert o. induction ch as [|a r IH]; intros o HN; simpl; [done|].
  intros (-> & nx & Hn & Hl & H). split; [done|]. exists nx.
  split; [rewrite HN; [done|by left]|]. split; [done|].
  apply IH; [|done]. intros b Hb. apply HN. by right.
Qed.

Lemma seg_det N o ch1 ch2 :
  seg N o ch1 None → seg N o ch2 None → ch1 = ch2.
Proof.
  revert o ch2. induction ch1 as [|a r IH]; intros o [|b r2]; simpl.
  - done.
  - intros -> (? & _). done.
  - intros (-> & _) ?. done.
  - intros (-> & nx & Hn & _ & H1) ([= <-] & nx2 & Hn2 & _ & H2).
    assert (nx2 = nx) as -> by congruence. f_equal. by eapply IH.
Qed.

Lemma seg_start N o ch e : seg N o ch e → ch ≠ [] → o = head ch.
Proof. destruct ch; simpl; [done|]. by intros (-> & _). Qed.

Lemma seg_live N o ch e a :
  seg N o ch e → a ∈ ch → is_Some (N a) ∧ N a ≠ Some (Some a).
Proof.
  revert o. induction ch as [|b r IH]; intros o; simpl.
  - intros _ Ha. by apply elem_of_nil in Ha.
  - intros (-> & nx & Hn & Hl & H) Ha. apply elem_of_cons in Ha as [->|Ha].
    + rewrite Hn. split; [done|congruence].
    + by eapply IH.
Qed.

(** The successor of a node of the walk is on the walk, or is its end. *)
Lemma seg_succ N o ch e a m :
  seg N o ch e → a ∈ ch → N a = Some (Some m) → m ∈ ch ∨ e = Some m.
Proof.
  revert o. induction ch as [|b r IH]; intros o; simpl.
  - intros _ Ha. by apply elem_of_nil in Ha.
  - intros (-> & nx & Hn & Hl & H) Ha Hm.
    apply elem_of_cons in Ha as [->|Ha].
    + assert (nx = Some m) as -> by congruence.
      destruct r as [|c r]; simpl in H.
      * by right.
      * destruct H as ([= <-] & _). left. right. by left.
    + destruct (IH _ H Ha Hm) as [?|?]; [left; by right|by right].
Qed.

(** Every node of the walk but its start has a predecessor on the walk. *)
Lemma seg_pred N o ch e m :
  seg N o ch e → m ∈ ch → o = Some m ∨ ∃ w, w ∈ ch ∧ N w = Some (Some m).
Proof.
  revert o. induction ch as [|b r IH]; intros o; simpl.
  - intros _ Ha. by apply elem_of_nil in Ha.
  - intros (-> & nx & Hn & Hl & H) Ha.
    apply elem_of_cons in Ha as [->|Ha]; [by left|right].
    destruct (IH _ H Ha) as [->|(w & Hw & Hwm)].
    + exists b. split; [by left|done].
    + exists w. split; [by right|done].
Qed.

Lemma chain_last N o ch a :
  chain N o ch → last ch = Some a → N a = Some None.
Proof.
  unfold chain. revert o. induction ch as [|b r IH]; intros o; simpl; [done|].
  intros (-> & nx & Hn & Hl & H). destruct r as [|c r].
  - simpl in *. intros [= <-]. congruence.
  - intros Hlast. by eapply IH.
Qed.

Lemma chain_last_inv N o ch a :
  chain N o ch → a ∈ ch → N a = Some None → last ch = Some a.
Proof.
  unfold chain. revert o. induction ch as [|b r IH]; intros o; simpl.
  - intros _ Ha. by apply elem_of_nil in Ha.
  - intros (-> & nx & Hn & Hl & H) Ha Hnone. destruct r as [|c r].
    + apply list_elem_of_singleton in Ha as ->. done.
    + apply elem_of_cons in Ha as [->|Ha].
      * simpl in H. destruct H as (-> & _). congruence.
      * by eapply IH.
Qed.

Lemma seg_rank N rank o ch e a b :
  ranked N rank → seg N o ch e → o = Some a → b ∈ ch →
  (rank b ≤ rank a)%nat.
Proof.
  intros Hr. revert o a. induction ch as [|c r IH]; intros o a; simpl.
  - intros _ _ Hb. by apply elem_of_nil in Hb.
  - intros (-> & nx & Hn & Hl & H) [= <-] Hb.
    apply elem_of_cons in Hb as [->|Hb]; [done|].
    destruct r as [|d r]; [by apply elem_of_nil in Hb|].
    pose proof H as (-> & _).
    assert (rank d < rank c)%nat by (apply Hr; [done|congruence]).
    pose proof (IH _ d H eq_refl Hb). lia.
Qed.

Lemma seg_NoDup N rank o ch e : ranked N rank → seg N o ch e → NoDup ch.
Proof.
  intros Hr. revert o. induction ch as [|c r IH]; intros o; simpl.
  - intros _. constructor.
  - intros (-> & nx & Hn & Hl & H). constructor; [|by eapply IH].
    intros Hc. destruct r as [|d r]; [by apply elem_of_nil in Hc|].
    pose proof H as (-> & _).
    assert (rank d < rank c)%nat by (apply Hr; [done|congruence]).
    pose proof (seg_rank _ _ _ _ _ d c Hr H eq_refl Hc). lia.
Qed.

(** From a live node of a ranked view whose live nodes only link to live
    nodes, the walk along successor links ends. *)
Lemma chain_exists N rank :
  ranked N rank →
  (∀ a m, N a = Some (Some m) → m ≠ a →
          is_Some (N m) ∧ N m ≠ Some (Some m)) →
  ∀ o, (∀ a, o = Some a → is_Some (N a) ∧ N a ≠ Some (Some a)) →
  ∃ ch, chain N o ch.
Proof.
  intros Hr Hcl.
  assert (∀ k a, (rank a < k)%nat → is_Some (N a) → N a ≠ Some (Some a) →
                 ∃ ch, chain N (Some a) ch) as Hk.
  { induction k as [|k IH]; intros a Hlt [nx Hn] Hl; [lia|].
    destruct nx as [m|].
    - assert (m ≠ a) by congruence.
      destruct (Hcl _ _ Hn) as [Hm1 Hm2]; [done|].
      destruct (IH m) as [ch Hch]; [|done|done|].
      { pose proof (Hr _ _ Hn). lia. }
      exists (a :: ch). split; [done|]. exists (Some m).
      split; [done|]. split; [congruence|done].
    - exists [a]. split; [done|]. exists None. done. }
  intros [a|] Ho.
  - destruct (Ho a eq_refl). by apply (Hk (S (rank a))); [lia| |].
  - by exists [].
Qed.

(** The nodes of a walk after a new node [n] was linked in behind [p]. *)
Fixpoint insert_after (p n : nat) (ch : list nat) : list nat :=
  match ch with
  | [] => []
  | a :: r => if decide (a = p) then a :: n :: r else a :: insert_after p n r
  end.

Lemma insert_after_split l1 p l2 n :
  p ∉ l1 → insert_after p n (l1 ++ p :: l2) = l1 ++ p :: n :: l2.
Proof.
  induction l1 as [|a l1 IH]; simpl; intros Hp.
  - by rewrite decide_True.
  - rewrite decide_False by set_solver. rewrite IH by set_solver. done.
Qed.

Lemma seg_nil_end N o ch : seg N o ch None → o = None → ch = [].
Proof. destruct ch; simpl; [done|]. intros (-> & _) ?. done. Qed.

Lemma seg_end_nil N o ch : seg N o ch None → ch = [] → o = None.
Proof. intros H ->. done. Qed.

(** [reach N o a]: node [a] is met when following successor links from
    reference [o]. *)
Inductive reach (N : links) : option nat → nat → Prop :=
| reach_start a : reach N (Some a) a
| reach_step a m b :
    N a = Some (Some m) → reach N (Some m) b → reach N (Some a) b.

Lemma chain_reach N o ch a : chain N o ch → reach N o a ↔ a ∈ ch.
Proof.
  unfold chain. intros Hch. split.
  - intros Hr. revert ch Hch.
    induction Hr as [a|a m b Ham Hr IH]; intros [|c r]; simpl; try done.
    + intros ([= <-] & _). by left.
    + intros ([= <-] & nx & Hn & _ & H).
      assert (nx = Some m) as -> by congruence.
      right. by apply IH.
  - revert o Hch. induction ch as [|c r IH]; intros o; simpl.
    + intros _ Ha. by apply elem_of_nil in Ha.
    + intros (-> & nx & Hn & Hl & H) Ha.
      apply elem_of_cons in Ha as [->|Ha]; [constructor|].
      destruct r as [|d r]; [by apply elem_of_nil in Ha|].
      pose proof H as (-> & _).
      eapply reach_step; [done|]. by apply IH.
Qed.

End Chain.

(** Proof steps shared by the two list developments: use the facts known
    about an optional node once the node is known, then close the goal. *)
Ltac inst :=
  repeat match goal with
  | H : ∀ p, Some ?x = Some p → _ |- _ => specialize (H x eq_refl)
  | H : ∀ p, None = Some p → _ |- _ => clear H
  | H : @None ?A = None → _ |- _ => specialize (H eq_refl)
  | H : Some _ = None → _ |- _ => clear H
  end.
Ltac fin := inst; repeat split; solve [done | congruence | lia].

(** ** Singly linked list *)

Module Singly.
Section Singly.
Context {T : Type}.

(** [class Node<T>]: element, next. *)
Record Node : Type := mkNode {
  element : T;
  next : option addr;
}.

(** The list object ([head], [tail], [size] are the protected fields of
    [PositionalListAbstract]) together with the store of its nodes. *)
Record SList : Type := mkSList {
  heap : gmap nat Node;
  head : option addr;
  tail : option addr;
  size : Z;
  self : cid;
}.

Definition set_heap (f : gmap nat Node → gmap nat Node) (l : SList) : SList :=
  mkSList (f (heap l)) (head l) (tail l) (size l) (self l).
Definition set_head (v : option addr) (l : SList) : SList :=
  mkSList (heap l) v (tail l) (size l) (self l).
Definition set_tail (v : option addr) (l : SList) : SList :=
  mkSList (heap l) (head l) v (size l) (self l).
Definition set_size (v : Z) (l : SList) : SList :=
  mkSList (heap l) (head l) (tail l) v (self l).

(** [new SinglyLinkedList()] for the container identity [c]. *)
Definition empty (c : cid) : SList := mkSList ∅ None None 0 c.

(** *** Store primitives *)

Definition load (a : addr) : M SList Node :=
  λ l, match heap l !! a with
       | Some nd => (l, Ok nd)
       | None => (l, Err DanglingRef)
       end.

Definition store (a : addr) (nd : Node) : M SList unit :=
  modify (set_heap <[a := nd]>).

(** [new Node(element, next)] *)
Definition new_Node (e : T) (nx : option addr) : M SList addr :=
  λ l, let a := fresh (dom (heap l)) in
       (set_heap <[a := mkNode e nx]> l, Ok a).

Definition get_next (a : addr) : M SList (option addr) :=
  nd <- load a ;; ret (next nd).
Definition get_element (a : addr) : M SList T :=
  nd <- load a ;; ret (element nd).
Definition put_next (a : addr) (v : option addr) : M SList unit :=
  nd <- load a ;; store a (mkNode (element nd) v).
Definition put_element (a : addr) (e : T) : M SList unit :=
  nd <- load a ;; store a (mkNode e (next nd)).

Definition this_head : M SList (option addr) := λ l, (l, Ok (head l)).
Definition this_tail : M SList (option addr) := λ l, (l, Ok (tail l)).
Definition put_head (v : option addr) : M SList unit := modify (set_head v).
Definition put_tail (v : option addr) : M SList unit := modify (set_tail v).
Definition size_incr : M SList unit := modify (λ l, set_size (size l + 1) l).
Definition size_decr : M SList unit := modify (λ l, set_size (size l - 1) l).

(** A reference the source uses as a node without a test: the model is
    stuck if it is absent. *)
Definition the_node (o : option addr) : M SList addr :=
  match o with
  | Some a => ret a
  | None => stuck DanglingRef
  end.

(** *** Positions *)

(** [isDeprecated(node)]: [node.next === node]. *)
Definition isDeprecated (node : addr) : M SList bool :=
  nx <- get_next node ;; ret (bool_decide (nx = Some node)).

(** Modelled from the spec: [createPosition] of [PositionalListAbstract]
    ([src/lists/positional-list.class.ts] is not among the sources): a new
    handle on the node, owned by this list. *)
Definition createPosition (node : addr) : M SList Position :=
  λ l, (l, Ok (mkPosition node (self l))).

(** Modelled from the spec: [validate] of [PositionalListAbstract].  It fails
    with [InvalidPosition] when the position's owning container is not the
    container performing the validation, or when the referenced node is
    marked deprecated; it has no side effect and returns the node. *)
Definition validate (p : Position) : M SList addr :=
  l <- get ;;
  if bool_decide (pos_container p = self l) then
    d <- isDeprecated (pos_node p) ;;
    if d then throw InvalidPosition else ret (pos_node p)
  else throw InvalidPosition.

(** *** The methods of [SinglyLinkedList] *)

Definition addAfter (p : Position) (e : T) : M SList Position :=
  node <- validate p ;;
  (* node.next = new Node(element, node.next) *)
  nx <- get_next node ;;
  n <- new_Node e nx ;;
  put_next node (Some n) ;;;
  (* if (node === this.tail) this.tail = node.next *)
  t <- this_tail ;;
  (if bool_decide (t = Some node)
   then nx' <- get_next node ;; put_tail nx'
   else ret tt) ;;;
  size_incr ;;;
  nx' <- get_next node ;;
  n' <- the_node nx' ;;
  createPosition n'.

Definition addFirst (e : T) : M SList Position :=
  h <- this_head ;;
  match h with
  | None =>
      (* this.tail = this.head = new Node(element) *)
      n <- new_Node e None ;;
      put_head (Some n) ;;;
      put_tail (Some n)
  | Some _ =>
      (* this.head = new Node(element, this.head) *)
      n <- new_Node e h ;;
      put_head (Some n)
  end ;;;
  size_incr ;;;
  h' <- this_head ;;
  n' <- the_node h' ;;
  createPosition n'.

Definition addLast (e : T) : M SList Position :=
  t <- this_tail ;;
  match t with
  | None =>
      (* this.tail = this.head = new Node(element) *)
      n <- new_Node e None ;;
      put_head (Some n) ;;;
      put_tail (Some n)
  | Some tl =>
      (* this.tail = this.tail.next = new Node(element) *)
      n <- new_Node e None ;;
      put_next tl (Some n) ;;;
      put_tail (Some n)
  end ;;;
  size_incr ;;;
  t' <- this_tail ;;
  n' <- the_node t' ;;
  createPosition n'.

(** The [while (node)] loop of [clear]: [node.next = node; node = next]. *)
Fixpoint clear_loop (fuel : nat) (node : option addr) : M SList unit :=
  match node with
  | None => ret tt
  | Some a =>
      match fuel with
      | O => stuck OutOfFuel
      | S fuel' =>
          nx <- get_next a ;;
          put_next a (Some a) ;;;
          clear_loop fuel' nx
      end
  end.

Definition clear (fuel : nat) (instant : bool) : M SList unit :=
  h <- this_head ;;
  (if negb instant && bool_decide (is_Some h) then clear_loop fuel h else ret tt) ;;;
  put_tail None ;;;
  put_head None ;;;
  modify (set_size 0).

Definition getAfter (p : Position) : M SList (option Position) :=
  node <- validate p ;;
  nx <- get_next node ;;
  match nx with
  | Some n => q <- createPosition n ;; ret (Some q)
  | None => ret None
  end.

Definition getFirst : M SList (option Position) :=
  h <- this_head ;;
  match h with
  | Some n => q <- createPosition n ;; ret (Some q)
  | None => ret None
  end.

Definition getLast : M SList (option Position) :=
  t <- this_tail ;;
  match t with
  | Some n => q <- createPosition n ;; ret (Some q)
  | None => ret None
  end.

Definition removeFirst : M SList T :=
  h <- this_head ;;
  match h with
  | None => throw EmptyContainer
  | Some hd =>
      (* this.head = this.head.next *)
      nx <- get_next hd ;;
      put_head nx ;;;
      (* if (!this.head) delete this.tail *)
      h' <- this_head ;;
      (if bool_decide (h' = None) then put_tail None else ret tt) ;;;
      put_next hd (Some hd) ;;;
      size_decr ;;;
      get_element hd
  end.

Definition replace (p : Position) (e : T) : M SList T :=
  node <- validate p ;;
  replacedElement <- get_element node ;;
  put_element node e ;;;
  ret replacedElement.

(** [for (const el of elements) this.addLast(el)] of the constructor. *)
Fixpoint addLast_all (elements : list T) : M SList unit :=
  match elements with
  | [] => ret tt
  | el :: rest => addLast el ;;; addLast_all rest
  end.

Definition new_list (c : cid) (elements : list T) : SList * Res unit :=
  addLast_all elements (empty c).

(** The generator [*[Symbol.iterator]]: the elements it yields, in order.
    [None] when the loop outlives its fuel or leaves the store. *)
Fixpoint iterate_from (fuel : nat) (h : gmap nat Node) (node : option addr)
  : option (list T) :=
  match node with
  | None => Some []
  | Some a =>
      match fuel with
      | O => None
      | S fuel' =>
          match h !! a with
          | None => None
          | Some nd => cons (element nd) <$> iterate_from fuel' h (next nd)
          end
      end
  end.

Definition iterate (fuel : nat) (l : SList) : option (list T) :=
  iterate_from fuel (heap l) (head l).


(** *** Running the store primitives *)

Definition with_next (v : option addr) (nd : Node) : Node :=
  mkNode (element nd) v.
Definition with_element (e : T) (nd : Node) : Node :=
  mkNode e (next nd).

Lemma sl_alter_as_insert (f : Node → Node) (h : gmap nat Node) a nd :
  h !! a = Some nd → <[a := f nd]> h = alter f a h.
Proof.
  intros Ha. apply map_eq. intros j.
  rewrite lookup_alter, lookup_insert.
  case_decide; subst; [by rewrite Ha|done].
Qed.

(** Field views of the store, as for the doubly linked list. *)
Definition nxt (h : gmap nat Node) (a : addr) : option (option addr) :=
  next <$> h !! a.
Definition elt (h : gmap nat Node) (a : addr) : option T :=
  element <$> h !! a.

Definition deprecated (h : gmap nat Node) (a : addr) : bool :=
  bool_decide (nxt h a = Some (Some a)).

(** A live node of the store: allocated and not deprecated. *)
Definition live (h : gmap nat Node) (a : addr) : Prop :=
  is_Some (nxt h a) ∧ nxt h a ≠ Some (Some a).

Lemma sl_nxt_is_Some h a : is_Some (nxt h a) ↔ is_Some (h !! a).
Proof. unfold nxt. by rewrite fmap_is_Some. Qed.
Lemma elt_is_Some h a : is_Some (elt h a) ↔ is_Some (h !! a).
Proof. unfold elt. by rewrite fmap_is_Some. Qed.

Lemma sl_get_next_nxt a l :
  get_next a l
  = (l, match nxt (heap l) a with Some x => Ok x | None => Err DanglingRef end).
Proof. unfold get_next, bind, load, nxt. by destruct (heap l !! a). Qed.

Lemma sl_get_element_elt a l :
  get_element a l
  = (l, match elt (heap l) a with Some x => Ok x | None => Err DanglingRef end).
Proof. unfold get_element, bind, load, elt. by destruct (heap l !! a). Qed.

Lemma sl_put_next_run a v l :
  is_Some (nxt (heap l) a) →
  put_next a v l = (set_heap (alter (with_next v) a) l, Ok tt).
Proof.
  intros [nd H]%sl_nxt_is_Some. unfold put_next, bind, store, modify, load.
  rewrite H. unfold set_heap.
  by rewrite <- (sl_alter_as_insert (with_next v) _ _ _ H).
Qed.

Lemma sl_put_element_run a e l :
  is_Some (nxt (heap l) a) →
  put_element a e l = (set_heap (alter (with_element e) a) l, Ok tt).
Proof.
  intros [nd H]%sl_nxt_is_Some. unfold put_element, bind, store, modify, load.
  rewrite H. unfold set_heap.
  by rewrite <- (sl_alter_as_insert (with_element e) _ _ _ H).
Qed.

Lemma sl_nxt_alter_next h v i j :
  nxt (alter (with_next v) i h) j
  = if decide (i = j) then (λ _, v) <$> nxt h j else nxt h j.
Proof.
  unfold nxt. rewrite lookup_alter.
  case_decide; subst; [|done]. by destruct (h !! j).
Qed.
Lemma sl_nxt_alter_element h e i j : nxt (alter (with_element e) i h) j = nxt h j.
Proof.
  unfold nxt. rewrite lookup_alter.
  case_decide; subst; [|done]. by destruct (h !! j).
Qed.
Lemma sl_nxt_insert h nd i j :
  nxt (<[i := nd]> h) j = if decide (i = j) then Some (next nd) else nxt h j.
Proof. unfold nxt. rewrite lookup_insert. by case_decide. Qed.
Lemma sl_elt_insert h nd i j :
  elt (<[i := nd]> h) j = if decide (i = j) then Some (element nd) else elt h j.
Proof. unfold elt. rewrite lookup_insert. by case_decide. Qed.
Lemma sl_elt_alter_next h v i j : elt (alter (with_next v) i h) j = elt h j.
Proof.
  unfold elt. rewrite lookup_alter.
  case_decide; subst; [|done]. by destruct (h !! j).
Qed.
Lemma sl_elt_alter_element h e i j :
  elt (alter (with_element e) i h) j
  = if decide (i = j) then (λ _, e) <$> elt h j else elt h j.
Proof.
  unfold elt. rewrite lookup_alter.
  case_decide; subst; [|done]. by destruct (h !! j).
Qed.

Lemma sl_nxt_fresh h : nxt h (fresh (dom h)) = None.
Proof. unfold nxt. by rewrite (not_elem_of_dom_1 h _ (is_fresh (dom h))). Qed.

Lemma sl_validate_spec p l :
  validate p l
  = (l, if bool_decide (pos_container p = self l) then
          match nxt (heap l) (pos_node p) with
          | None => Err DanglingRef
          | Some nx =>
              if bool_decide (nx = Some (pos_node p))
              then Err (Throw InvalidPosition) else Ok (pos_node p)
          end
        else Err (Throw InvalidPosition)).
Proof.
  unfold validate, bind, get, isDeprecated, bind. simpl.
  case_bool_decide; [|done].
  rewrite sl_get_next_nxt. destruct (nxt (heap l) (pos_node p)); [|done].
  simpl. by case_bool_decide.
Qed.

(** A position is valid for a list when [validate] accepts it. *)
Definition valid (p : Position) (l : SList) : Prop :=
  validate p l = (l, Ok (pos_node p)).

Lemma sl_valid_iff p l :
  valid p l ↔ pos_container p = self l ∧ live (heap l) (pos_node p).
Proof.
  unfold valid, live. rewrite sl_validate_spec.
  case_bool_decide; [|naive_solver].
  destruct (nxt (heap l) (pos_node p)) as [nx|]; [|naive_solver].
  case_bool_decide; naive_solver.
Qed.

Lemma sl_invalid_iff p l :
  validate p l = (l, Err (Throw InvalidPosition))
  ↔ pos_container p ≠ self l
    ∨ nxt (heap l) (pos_node p) = Some (Some (pos_node p)).
Proof.
  rewrite sl_validate_spec.
  case_bool_decide; [|naive_solver].
  destruct (nxt (heap l) (pos_node p)) as [nx|]; [|naive_solver].
  case_bool_decide; naive_solver.
Qed.

Lemma sl_validate_cases p l :
  (valid p l ∧ pos_container p = self l ∧ live (heap l) (pos_node p))
  ∨ (∃ x, validate p l = (l, Err x) ∧ x ≠ OutOfFuel
          ∧ (x = DanglingRef → nxt (heap l) (pos_node p) = None)).
Proof.
  destruct (decide (pos_container p = self l ∧ live (heap l) (pos_node p)))
    as [H|H].
  - left. split; [by apply sl_valid_iff|done].
  - right. unfold live in H. rewrite sl_validate_spec.
    case_bool_decide.
    + destruct (nxt (heap l) (pos_node p)) as [nx|] eqn:E.
      * case_bool_decide; [by eexists|]. destruct H. split; [done|].
        split; [done|congruence].
      * by eexists.
    + by eexists.
Qed.

(** *** The list after each change *)

Definition link_next (o v : option addr) (h : gmap nat Node) : gmap nat Node :=
  match o with Some p => alter (with_next v) p h | None => h end.

(** After a new node with successor [succ] was linked in behind [pred] (or
    put in front when [pred] is absent). *)
Definition inserted (e : T) (pred succ : option addr) (l : SList) : SList :=
  let n := fresh (dom (heap l)) in
  mkSList
    (link_next pred (Some n) (<[n := mkNode e succ]> (heap l)))
    (match pred with Some _ => head l | None => Some n end)
    (if decide (pred = tail l) then Some n else tail l)
    (size l + 1)
    (self l).

(** After [removeFirst] took off the head [hd], whose successor was [nx]. *)
Definition removed (hd : addr) (nx : option addr) (l : SList) : SList :=
  mkSList
    (alter (with_next (Some hd)) hd (heap l))
    nx
    (match nx with Some _ => tail l | None => None end)
    (size l - 1)
    (self l).

Definition replaced (n : addr) (e : T) (l : SList) : SList :=
  set_heap (alter (with_element e) n) l.

Lemma sl_nxt_inserted e pred succ l j :
  (∀ p, pred = Some p → is_Some (nxt (heap l) p)) →
  nxt (heap (inserted e pred succ l)) j
  = if decide (j = fresh (dom (heap l))) then Some succ
    else if decide (pred = Some j) then Some (Some (fresh (dom (heap l))))
    else nxt (heap l) j.
Proof.
  intros Hp. pose proof (sl_nxt_fresh (heap l)) as Hn. simpl.
  destruct pred as [p|]; simpl.
  - destruct (Hp p eq_refl) as [x Hx].
    rewrite sl_nxt_alter_next, sl_nxt_insert.
    repeat case_decide; simplify_eq; try done.
    by rewrite Hx.
  - rewrite sl_nxt_insert. repeat case_decide; simplify_eq; done.
Qed.

Lemma sl_elt_inserted e pred succ l j :
  elt (heap (inserted e pred succ l)) j
  = if decide (j = fresh (dom (heap l))) then Some e else elt (heap l) j.
Proof.
  simpl.
  assert (∀ v h, elt (link_next pred v h) j = elt h j) as ->.
  { intros v h. destruct pred; simpl; [apply sl_elt_alter_next|done]. }
  rewrite sl_elt_insert. repeat case_decide; simplify_eq; done.
Qed.

Lemma nxt_removed hd nx l j :
  is_Some (nxt (heap l) hd) →
  nxt (heap (removed hd nx l)) j
  = if decide (j = hd) then Some (Some hd) else nxt (heap l) j.
Proof.
  intros [x Hx]. simpl. rewrite sl_nxt_alter_next.
  repeat case_decide; simplify_eq; try done. by rewrite Hx.
Qed.

Lemma elt_removed hd nx l j : elt (heap (removed hd nx l)) j = elt (heap l) j.
Proof. simpl. apply sl_elt_alter_next. Qed.


(** *** The invariant of every singly linked list

    It holds whatever public methods were called, [clear(true)] included. *)
Record inv (l : SList) : Prop := mkInv {
  (* the head is live *)
  inv_head : ∀ a, head l = Some a →
    is_Some (nxt (heap l) a) ∧ nxt (heap l) a ≠ Some (Some a);
  (* the tail has no successor *)
  inv_tail : ∀ a, tail l = Some a → nxt (heap l) a = Some None;
  (* head and tail are absent together *)
  inv_ends : head l = None ↔ tail l = None;
  (* the successor of a live node is live *)
  inv_next : ∀ a m, nxt (heap l) a = Some (Some m) → m ≠ a →
    is_Some (nxt (heap l) m) ∧ nxt (heap l) m ≠ Some (Some m);
  (* no live node links to the head *)
  inv_nohead : ∀ a m, nxt (heap l) a = Some (Some m) → m ≠ a →
    head l ≠ Some m;
  (* no two live nodes link to the same node *)
  inv_inj : ∀ a b m, nxt (heap l) a = Some (Some m) →
    nxt (heap l) b = Some (Some m) → m ≠ a → m ≠ b → a = b;
  (* following successor links from a live node never comes back *)
  inv_rank : ∃ rank : nat → nat, ranked (nxt (heap l)) rank;
}.

Lemma sl_inv_empty c : inv (empty c).
Proof.
  split; simpl; try done.
  all: try (intros a m; unfold nxt; by rewrite lookup_empty).
  all: try (intros a b m; unfold nxt; by rewrite lookup_empty).
  exists (λ _, O). intros a m. unfold nxt. by rewrite lookup_empty.
Qed.

(** What the public methods pass when they link in a node: [pred] is live
    and [succ] is its successor, or [succ] is the head. *)
Definition can_insert (l : SList) (pred succ : option addr) : Prop :=
  (∀ p, pred = Some p → nxt (heap l) p = Some succ ∧ succ ≠ Some p) ∧
  (pred = None → succ = head l).

Lemma sl_inserted_inv e pred succ l :
  inv l → can_insert l pred succ → inv (inserted e pred succ l).
Proof.
  intros Hi [Hp Hs].
  assert (Hp' : ∀ p, pred = Some p → is_Some (nxt (heap l) p)).
  { intros p E. destruct (Hp p E) as [-> _]. done. }
  pose proof (sl_nxt_fresh (heap l)) as Hfn.
  assert (HH : head (inserted e pred succ l)
               = match pred with Some _ => head l | None => Some (fresh (dom (heap l))) end)
    by done.
  assert (HT : tail (inserted e pred succ l)
               = if decide (pred = tail l) then Some (fresh (dom (heap l))) else tail l)
    by done.
  assert (HN : ∀ j, nxt (heap (inserted e pred succ l)) j
               = if decide (j = fresh (dom (heap l))) then Some succ
                 else if decide (pred = Some j)
                      then Some (Some (fresh (dom (heap l))))
                      else nxt (heap l) j).
  { intros j. by apply sl_nxt_inserted. }
  set (l' := inserted e pred succ l) in *. clearbody l'.
  set (n := fresh (dom (heap l))) in *. clearbody n.
  destruct Hi as [Hhd Htl Hends Hnx Hnh Hinj [rank Hrk]].
  assert (Hp1 : ∀ p, pred = Some p → nxt (heap l) p = Some succ)
    by (intros ? E; apply (Hp _ E)).
  assert (Hp2 : ∀ p, pred = Some p → succ ≠ Some p)
    by (intros ? E; apply (Hp _ E)).
  assert (Hsn : succ ≠ Some n).
  { intros ->. destruct pred as [p|].
    - specialize (Hp1 _ eq_refl).
      destruct (Hnx p n Hp1) as [[x Hx] _]; [|congruence].
      intros <-. congruence.
    - specialize (Hs eq_refl). symmetry in Hs.
      destruct (Hhd _ Hs) as [[x Hx] _]. congruence. }
  assert (Hpn : pred ≠ Some n).
  { intros E. destruct (Hp' n E) as [x Hx]. congruence. }
  assert (Hto : ∀ a, nxt (heap l) a = Some (Some n) → False).
  { intros a Ha. destruct (decide (n = a)) as [<-|Hne]; [congruence|].
    destruct (Hnx _ _ Ha Hne) as [[x Hx] _]. congruence. }
  clear Hp. split.
  - intros a. rewrite HH, HN. intros Ha. clear HH HT HN.
    destruct pred as [p|]; simplify_eq.
    + destruct (Hhd a Ha) as [Ha1 Ha2].
      repeat case_decide; simplify_eq; try fin.
    + rewrite decide_True by done. split; [done|congruence].
  - intros a. rewrite HT, HN. intros Ha. clear HH HT HN.
    case_decide as Hpt; simplify_eq.
    + rewrite decide_True by done. f_equal.
      destruct (tail l) as [t|] eqn:Et.
      * specialize (Hp1 _ eq_refl). specialize (Htl _ eq_refl). congruence.
      * rewrite (Hs eq_refl). by apply Hends.
    + pose proof (Htl a Ha) as Ha1.
      repeat case_decide; simplify_eq; try fin.
  - rewrite HH, HT. clear HH HT HN. destruct pred as [p|].
    + case_decide as Hpt; [|done].
      split; [|done]. intros E. apply Hends in E. congruence.
    + case_decide as Hpt; [done|].
      split; [done|]. intros E. congruence.
  - intros a m. rewrite !HN. intros Ha Hne. clear HH HT HN.
    repeat case_decide; simplify_eq; try fin.
    all: try (exfalso; by eapply Hto).
    all: try (destruct (Hnx _ _ Ha Hne) as [Hm1 Hm2]); try fin.
    all: inst.
    all: try (destruct pred as [p|]; inst).
    all: try (assert (m ≠ p) by congruence;
              destruct (Hnx p m) as [Hm1 Hm2]; [done|done|]; try fin).
    all: try (symmetry in Hs; by apply Hhd).
  - intros a m. rewrite HH, !HN. intros Ha Hne. clear HH HT HN.
    repeat case_decide; simplify_eq; try fin.
    all: try (exfalso; by eapply Hto).
    all: destruct pred as [p|]; inst; simplify_eq; try fin.
    all: try (eapply Hnh; [|done]; done).
    all: try (intros [= ->]; fin).
    all: try (apply (Hnh p); [done|congruence]).
    all: try (intros E; destruct (Hhd _ E) as [[x Hx] _]; congruence).
  - intros a b m. rewrite !HN. intros Ha Hb Hna Hnb. clear HH HT HN.
    repeat case_decide; simplify_eq; try fin.
    all: try (exfalso; by eapply Hto).
    all: try (by eapply Hinj).
    all: destruct pred as [p|]; inst; simplify_eq.
    all: try (exfalso; assert (b = p) by (eapply Hinj; [done|done|done|congruence]); congruence).
    all: try (exfalso; assert (a = p) by (eapply Hinj; [done|done|done|congruence]); congruence).
    all: try (exfalso; symmetry in Hs; by eapply Hnh).
  - exists (λ x, if decide (x = n)
                 then match succ with Some s => 2 * rank s + 3 | None => 0 end
                 else 2 * rank x + 2)%nat.
    intros a m. rewrite !HN. intros Ha Hne. clear HH HT HN.
    repeat case_decide; simplify_eq; try fin.
    all: try (exfalso; by eapply Hto).
    all: try (pose proof (Hrk _ _ Ha Hne)); try fin.
    all: inst.
    all: try (destruct succ as [s|]; [|lia]).
    all: try (assert (rank s < rank a)%nat by (apply Hrk; congruence)).
    all: try lia.
Qed.


Lemma removed_inv hd nx l :
  inv l → head l = Some hd → nxt (heap l) hd = Some nx →
  inv (removed hd nx l).
Proof.
  intros Hi Hh Hx.
  assert (HH : head (removed hd nx l) = nx) by done.
  assert (HT : tail (removed hd nx l)
               = match nx with Some _ => tail l | None => None end) by done.
  assert (HN : ∀ j, nxt (heap (removed hd nx l)) j
               = if decide (j = hd) then Some (Some hd) else nxt (heap l) j).
  { intros j. apply nxt_removed. by rewrite Hx. }
  set (l' := removed hd nx l) in *. clearbody l'.
  destruct Hi as [Hhd Htl Hends Hnx Hnh Hinj [rank Hrk]].
  destruct (Hhd _ Hh) as [_ Hlive].
  assert (Hxh : nx ≠ Some hd) by congruence.
  split.
  - intros a. rewrite HH, HN. intros ->.
    rewrite decide_False by congruence.
    apply (Hnx hd); [done|congruence].
  - intros a. rewrite HT, HN. intros Ha.
    destruct nx as [m|]; [|done]. pose proof (Htl _ Ha).
    rewrite decide_False; [done|]. intros ->. congruence.
  - rewrite HH, HT. destruct nx as [m|]; [|done].
    split; [done|]. intros E. apply Hends in E. congruence.
  - intros a m. rewrite !HN. intros Ha Hne.
    destruct (decide (a = hd)) as [->|Hah]; [congruence|].
    destruct (Hnx _ _ Ha Hne) as [Hm1 Hm2].
    rewrite decide_False; [done|]. intros ->.
    by apply (Hnh _ _ Ha Hne).
  - intros a m. rewrite HH, !HN. intros Ha Hne ->.
    destruct (decide (a = hd)) as [->|Hah]; [congruence|].
    apply Hah. eapply Hinj; [done|done|done|congruence].
  - intros a b m. rewrite !HN. intros Ha Hb Hna Hnb.
    destruct (decide (a = hd)) as [->|Hah]; [congruence|].
    destruct (decide (b = hd)) as [->|Hbh]; [congruence|].
    by eapply Hinj.
  - exists rank. intros a m. rewrite !HN. intros Ha Hne.
    destruct (decide (a = hd)) as [->|Hah]; [congruence|].
    by apply Hrk.
Qed.

Lemma sl_replaced_inv n e l : inv l → inv (replaced n e l).
Proof.
  intros [Hhd Htl Hends Hnx Hnh Hinj Hrk]. split; simpl; try done.
  - intros a. rewrite sl_nxt_alter_element. apply Hhd.
  - intros a. rewrite sl_nxt_alter_element. apply Htl.
  - intros a m. rewrite !sl_nxt_alter_element. apply Hnx.
  - intros a m. rewrite !sl_nxt_alter_element. apply Hnh.
  - intros a b m. rewrite !sl_nxt_alter_element. apply Hinj.
  - destruct Hrk as [rank Hrk]. exists rank. intros a m.
    rewrite sl_nxt_alter_element. apply Hrk.
Qed.

(** *** [clear] *)

Definition deprecate_all (ch : list addr) (h : gmap nat Node) : gmap nat Node :=
  fold_left (λ h a, alter (with_next (Some a)) a h) ch h.

Lemma sl_nxt_deprecate_all ch h j :
  nxt (deprecate_all ch h) j
  = if decide (j ∈ ch) then (λ _, Some j) <$> nxt h j else nxt h j.
Proof.
  revert h. induction ch as [|a r IH]; intros h; simpl.
  - destruct (decide (j ∈ [])) as [H|]; [by apply elem_of_nil in H|done].
  - rewrite IH, sl_nxt_alter_next.
    repeat case_decide; subst; try done; try set_solver.
    by destruct (nxt h j).
Qed.

Lemma sl_elt_deprecate_all ch h j : elt (deprecate_all ch h) j = elt h j.
Proof.
  revert h. induction ch as [|a r IH]; intros h; simpl; [done|].
  by rewrite IH, sl_elt_alter_next.
Qed.

Lemma sl_clear_loop_run ch : ∀ l o fuel,
  chain (nxt (heap l)) o ch → NoDup ch → (length ch ≤ fuel)%nat →
  clear_loop fuel o l = (set_heap (deprecate_all ch) l, Ok tt).
Proof.
  unfold chain. induction ch as [|a r IH]; intros l o fuel; simpl.
  - intros -> _ _. destruct fuel; simpl; unfold ret; by destruct l.
  - intros (-> & nx & Hn & Hl & H) [Ha Hnd]%NoDup_cons Hf.
    destruct fuel as [|fuel]; simpl; [lia|].
    unfold bind. rewrite sl_get_next_nxt, Hn.
    rewrite sl_put_next_run by (by rewrite Hn).
    rewrite (IH _ nx); [by destruct l| |done|lia].
    simpl. eapply seg_frame; [|done]. intros b Hb.
    rewrite sl_nxt_alter_next. case_decide; [by subst|done].
Qed.

Lemma sl_clear_loop_short ch : ∀ l o fuel,
  chain (nxt (heap l)) o ch → NoDup ch → (fuel < length ch)%nat →
  ∃ l', clear_loop fuel o l = (l', Err OutOfFuel).
Proof.
  unfold chain. induction ch as [|a r IH]; intros l o fuel; simpl.
  - intros _ _ ?. lia.
  - intros (-> & nx & Hn & Hl & H) [Ha Hnd]%NoDup_cons Hf.
    destruct fuel as [|fuel]; simpl; [by eexists|].
    unfold bind. rewrite sl_get_next_nxt, Hn.
    rewrite sl_put_next_run by (by rewrite Hn).
    destruct (IH (set_heap (alter (with_next (Some a)) a) l) nx fuel)
      as [l' ->]; [|done|lia|by eexists].
    simpl. eapply seg_frame; [|done]. intros b Hb.
    rewrite sl_nxt_alter_next. case_decide; [by subst|done].
Qed.

Lemma sl_inv_chain l :
  inv l → ∃ ch, chain (nxt (heap l)) (head l) ch ∧ NoDup ch.
Proof.
  intros Hi. destruct (inv_rank _ Hi) as [rank Hr].
  destruct (chain_exists _ _ Hr) with (o := head l) as [ch Hch].
  - apply (inv_next _ Hi).
  - apply (inv_head _ Hi).
  - exists ch. split; [done|]. by eapply seg_NoDup.
Qed.

Definition cleared (ch : list addr) (l : SList) : SList :=
  mkSList (deprecate_all ch (heap l)) None None 0 (self l).
Definition reset (l : SList) : SList :=
  mkSList (heap l) None None 0 (self l).

Lemma sl_clear_instant_run fuel l : clear fuel true l = (reset l, Ok tt).
Proof. done. Qed.

Lemma sl_clear_run fuel ch l :
  chain (nxt (heap l)) (head l) ch → NoDup ch → (length ch ≤ fuel)%nat →
  clear fuel false l = (cleared ch l, Ok tt).
Proof.
  intros Hch Hnd Hf. unfold clear, bind, this_head. simpl.
  destruct (head l) as [a|] eqn:E; simpl.
  - rewrite (sl_clear_loop_run ch) by done. done.
  - unfold chain in Hch. destruct ch as [|b r]; simpl in Hch; [done|].
    by destruct Hch.
Qed.

Lemma sl_clear_short fuel ch l :
  chain (nxt (heap l)) (head l) ch → NoDup ch → (fuel < length ch)%nat →
  ∃ l', clear fuel false l = (l', Err OutOfFuel).
Proof.
  intros Hch Hnd Hf. unfold clear, bind, this_head. simpl.
  destruct (head l) as [a|] eqn:E; simpl.
  - destruct (sl_clear_loop_short ch l (Some a) fuel) as [l' ->];
      [done|done|done|by eexists].
  - unfold chain in Hch. destruct ch as [|b r]; simpl in *; [lia|].
    by destruct Hch.
Qed.

Lemma sl_reset_inv l : inv l → inv (reset l).
Proof.
  intros [Hhd Htl Hends Hnx Hnh Hinj Hrk]. split; simpl; done.
Qed.

Lemma sl_cleared_inv ch l :
  inv l → chain (nxt (heap l)) (head l) ch → inv (cleared ch l).
Proof.
  intros Hi Hch. pose proof Hi as [Hhd Htl Hends Hnx Hnh Hinj [rank Hrk]].
  assert (Hin : ∀ a m, a ∉ ch → m ∈ ch →
                       nxt (heap l) a = Some (Some m) → m ≠ a → False).
  { intros a m Ha Hm Ham Hne.
    destruct (seg_pred _ _ _ _ _ Hch Hm) as [Hh|(w & Hw & Hwm)].
    - by apply (Hnh _ _ Ham Hne).
    - assert (m ≠ w).
      { intros ->. destruct (seg_live _ _ _ _ _ Hch Hw). congruence. }
      assert (a = w) as -> by by eapply Hinj. done. }
  assert (Hold : ∀ a m, nxt (heap (cleared ch l)) a = Some (Some m) → m ≠ a →
                        (a ∉ ch) ∧ nxt (heap l) a = Some (Some m)).
  { intros a m. simpl. rewrite sl_nxt_deprecate_all. intros Ha Hne.
    destruct (decide (a ∈ ch)) as [Hach|Hach]; [|done].
    destruct (nxt (heap l) a); simpl in Ha; congruence. }
  split; simpl; try done.
  - intros a m Ha Hne. destruct (Hold _ _ Ha Hne) as [Hach Ha'].
    rewrite sl_nxt_deprecate_all.
    destruct (decide (m ∈ ch)) as [Hmch|Hmch]; [exfalso; by eapply Hin|].
    by apply (Hnx a).
  - intros a b m Ha Hb Hna Hnb.
    destruct (Hold _ _ Ha Hna) as [_ Ha'].
    destruct (Hold _ _ Hb Hnb) as [_ Hb']. by eapply Hinj.
  - exists rank. intros a m Ha Hne. destruct (Hold _ _ Ha Hne) as [_ Ha'].
    by apply Hrk.
Qed.


(** *** What each method does, as an equation on the whole list *)

Lemma sl_addAfter_cases p e l :
  inv l →
  (∃ x, validate p l = (l, Err x) ∧ addAfter p e l = (l, Err x)
        ∧ x ≠ OutOfFuel) ∨
  (valid p l ∧ ∃ nx, nxt (heap l) (pos_node p) = Some nx ∧
     can_insert l (Some (pos_node p)) nx ∧
     addAfter p e l
     = (inserted e (Some (pos_node p)) nx l,
        Ok (mkPosition (fresh (dom (heap l))) (self l)))).
Proof.
  intros Hi. unfold addAfter.
  destruct (sl_validate_cases p l) as [(Hv & Hc & Ha & Hl)|(x & Hx & Hf & _)].
  - right. split; [done|]. unfold bind at 1. rewrite Hv.
    destruct Ha as [nx Hnx]. exists nx. split; [done|].
    split; [split; [|done]; intros ? [= <-]; split; congruence|].
    pose proof (sl_nxt_fresh (heap l)) as Hfn.
    set (node := pos_node p) in *.
    assert (node ≠ fresh (dom (heap l))) as Hne by congruence.
    unfold bind at 1. rewrite sl_get_next_nxt, Hnx.
    unfold bind at 1. unfold new_Node.
    unfold bind at 1. rewrite sl_put_next_run.
    2:{ simpl. rewrite sl_nxt_insert, decide_False by done. by rewrite Hnx. }
    unfold bind at 1. unfold this_tail. simpl tail.
    assert (Hn' : nxt (alter (with_next (Some (fresh (dom (heap l))))) node
                         (<[fresh (dom (heap l)) := mkNode e nx]> (heap l))) node
                  = Some (Some (fresh (dom (heap l))))).
    { rewrite sl_nxt_alter_next, decide_True by done.
      rewrite sl_nxt_insert, decide_False by done. by rewrite Hnx. }
    unfold inserted. fold node.
    case_bool_decide as Ht.
    + rewrite decide_True by done.
      unfold bind. rewrite sl_get_next_nxt. simpl. rewrite Hn'. simpl.
      rewrite sl_get_next_nxt. simpl. rewrite Hn'. simpl. done.
    + rewrite decide_False by done.
      unfold bind. simpl.
      rewrite sl_get_next_nxt. simpl. rewrite Hn'. simpl. done.
  - left. exists x. unfold bind. by rewrite Hx.
Qed.

Lemma sl_addFirst_run e l :
  inv l →
  can_insert l None (head l) ∧
  addFirst e l
  = (inserted e None (head l) l,
     Ok (mkPosition (fresh (dom (heap l))) (self l))).
Proof.
  intros Hi. split; [by split|].
  unfold addFirst, inserted, bind, this_head. simpl.
  destruct (head l) as [h|] eqn:E; simpl.
  - rewrite decide_False; [done|]. intros Ht. symmetry in Ht.
    apply (inv_ends _ Hi) in Ht. congruence.
  - rewrite decide_True; [done|]. symmetry. by apply (inv_ends _ Hi).
Qed.

Lemma sl_addLast_run e l :
  inv l →
  can_insert l (tail l) None ∧
  addLast e l
  = (inserted e (tail l) None l,
     Ok (mkPosition (fresh (dom (heap l))) (self l))).
Proof.
  intros Hi.
  assert (Hci : can_insert l (tail l) None).
  { split.
    - intros q E. split; [by apply (inv_tail _ Hi)|done].
    - intros E. symmetry. by apply (inv_ends _ Hi). }
  split; [done|].
  unfold addLast, inserted, bind, this_tail. rewrite decide_True by done.
  destruct (tail l) as [t|] eqn:E; simpl.
  - pose proof (inv_tail _ Hi _ E) as Ht.
    pose proof (sl_nxt_fresh (heap l)) as Hfn.
    rewrite sl_put_next_run; [done|]. simpl.
    rewrite sl_nxt_insert, decide_False by congruence. by rewrite Ht.
  - done.
Qed.

Lemma sl_removeFirst_cases l :
  inv l →
  (head l = None ∧ removeFirst l = (l, Err (Throw EmptyContainer))) ∨
  (∃ hd nx old, head l = Some hd ∧ nxt (heap l) hd = Some nx ∧
     elt (heap l) hd = Some old ∧
     removeFirst l = (removed hd nx l, Ok old)).
Proof.
  intros Hi. unfold removeFirst, bind, this_head.
  destruct (head l) as [hd|] eqn:E; [right|by left].
  destruct (inv_head _ Hi _ E) as [[nx Hx] Hl].
  pose proof Hx as Hx'. unfold nxt in Hx'.
  destruct (heap l !! hd) as [nd|] eqn:End; [|done].
  exists hd, nx, (element nd). split; [done|]. split; [done|].
  split; [unfold elt; by rewrite End|].
  rewrite sl_get_next_nxt, Hx. simpl.
  assert (∀ l0 : SList, heap l0 = heap l →
            put_next hd (Some hd) l0
            = (set_heap (alter (with_next (Some hd)) hd) l0, Ok tt)) as Hput.
  { intros l0 E0. apply sl_put_next_run. rewrite E0, Hx. done. }
  assert (elt (alter (with_next (Some hd)) hd (heap l)) hd
          = Some (element nd)) as He.
  { rewrite sl_elt_alter_next. unfold elt. by rewrite End. }
  unfold removed. destruct nx as [m|]; simpl.
  - rewrite Hput by done. simpl. rewrite sl_get_element_elt. simpl.
    by rewrite He.
  - rewrite Hput by done. simpl. rewrite sl_get_element_elt. simpl.
    by rewrite He.
Qed.

Lemma sl_getAfter_state p l : (getAfter p l).1 = l.
Proof.
  unfold getAfter, bind. rewrite sl_validate_spec.
  case_bool_decide; [|done].
  destruct (nxt (heap l) (pos_node p)) as [nx|] eqn:E; [|done].
  case_bool_decide; [done|]. rewrite sl_get_next_nxt, E. by destruct nx.
Qed.

Lemma sl_getFirst_run l :
  getFirst l = (l, Ok ((λ n, mkPosition n (self l)) <$> head l)).
Proof. unfold getFirst, bind, this_head. by destruct (head l). Qed.

Lemma sl_getLast_run l :
  getLast l = (l, Ok ((λ n, mkPosition n (self l)) <$> tail l)).
Proof. unfold getLast, bind, this_tail. by destruct (tail l). Qed.

Lemma sl_replace_cases p e l :
  (∃ x, validate p l = (l, Err x) ∧ replace p e l = (l, Err x)
        ∧ x ≠ OutOfFuel) ∨
  (valid p l ∧ ∃ old, elt (heap l) (pos_node p) = Some old ∧
     replace p e l = (replaced (pos_node p) e l, Ok old)).
Proof.
  unfold replace, bind.
  destruct (sl_validate_cases p l) as [(Hv & Hc & Ha & Hl)|(x & Hx & Hf & _)].
  - right. split; [done|]. rewrite Hv.
    pose proof Ha as [nd Hn]%sl_nxt_is_Some.
    exists (element nd). split; [unfold elt; by rewrite Hn|].
    rewrite sl_get_element_elt. unfold elt. rewrite Hn. simpl.
    by rewrite sl_put_element_run.
  - left. exists x. by rewrite Hx.
Qed.


(** *** Sequences of calls *)

(** One call of a public method. *)
Inductive Op : Type :=
| AddAfter (p : Position) (e : T)
| AddFirst (e : T)
| AddLast (e : T)
| Clear (fuel : nat) (instant : bool)
| GetAfter (p : Position)
| GetFirst
| GetLast
| RemoveFirst
| Replace (p : Position) (e : T).

(** What a call returns. *)
Inductive Ret : Type :=
| RPos (p : Position)
| ROpt (o : option Position)
| RElt (e : T)
| RUnit.

Definition exec (op : Op) : M SList Ret :=
  match op with
  | AddAfter p e => r <- addAfter p e ;; ret (RPos r)
  | AddFirst e => r <- addFirst e ;; ret (RPos r)
  | AddLast e => r <- addLast e ;; ret (RPos r)
  | Clear fuel instant => clear fuel instant ;;; ret RUnit
  | GetAfter p => r <- getAfter p ;; ret (ROpt r)
  | GetFirst => r <- getFirst ;; ret (ROpt r)
  | GetLast => r <- getLast ;; ret (ROpt r)
  | RemoveFirst => r <- removeFirst ;; ret (RElt r)
  | Replace p e => r <- replace p e ;; ret (RElt r)
  end.

(** One step of the life of a list: some call that came to an end (the
    fuel of the model sufficed). *)
Definition step (l l' : SList) : Prop :=
  ∃ op r, exec op l = (l', r) ∧ r ≠ Err OutOfFuel.

(** The lists one can get from [new SinglyLinkedList()] by public calls. *)
Definition reachable (c : cid) (l : SList) : Prop := rtc step (empty c) l.

Lemma sl_bind_ret_state {A B} (m : M SList A) (f : A → B) l :
  (bind m (λ r, ret (f r)) l).1 = (m l).1.
Proof. unfold bind, ret. by destruct (m l) as [l' [a|x]]. Qed.

Lemma sl_bind_ret_res {A B} (m : M SList A) (f : A → B) l :
  (bind m (λ r, ret (f r)) l).2
  = match (m l).2 with Ok a => Ok (f a) | Err x => Err x end.
Proof. unfold bind, ret. by destruct (m l) as [l' [a|x]]. Qed.

(** Every call leaves the list as it was or changes it in one of five
    ways; the flag tells [clear(true)] from the other four. *)
Inductive change (l : SList) : bool → SList → Prop :=
| change_none : change l false l
| change_insert e pred succ :
    can_insert l pred succ → change l false (inserted e pred succ l)
| change_remove hd nx :
    head l = Some hd → nxt (heap l) hd = Some nx →
    change l false (removed hd nx l)
| change_clear ch :
    chain (nxt (heap l)) (head l) ch → change l false (cleared ch l)
| change_reset : change l true (reset l)
| change_replace n e : change l false (replaced n e l).

Definition instant_clear (op : Op) : bool :=
  match op with Clear _ true => true | _ => false end.

Lemma sl_exec_change op l l' r :
  inv l → exec op l = (l', r) → r ≠ Err OutOfFuel →
  change l (instant_clear op) l'.
Proof.
  intros Hi He Hr.
  assert (l' = (exec op l).1) as -> by by rewrite He.
  assert (r = (exec op l).2) as -> by by rewrite He.
  clear He. destruct op; simpl in *; rewrite sl_bind_ret_state;
    rewrite sl_bind_ret_res in Hr.
  - destruct (sl_addAfter_cases p e l Hi)
      as [(x & _ & -> & _)|(_ & nx & _ & ? & ->)]; by constructor.
  - destruct (sl_addFirst_run e l Hi) as [? ->]. by constructor.
  - destruct (sl_addLast_run e l Hi) as [? ->]. by constructor.
  - destruct instant.
    + rewrite sl_clear_instant_run. constructor.
    + destruct (sl_inv_chain _ Hi) as (ch & Hch & Hnd).
      destruct (decide (length ch ≤ fuel)%nat).
      * rewrite (sl_clear_run _ ch) by done. by constructor.
      * destruct (sl_clear_short fuel ch l) as [l' E]; [done|done|lia|].
        rewrite E in Hr. done.
  - rewrite sl_getAfter_state. constructor.
  - rewrite sl_getFirst_run. constructor.
  - rewrite sl_getLast_run. constructor.
  - destruct (sl_removeFirst_cases l Hi)
      as [[_ ->]|(hd & nx & old & ? & ? & _ & ->)]; by constructor.
  - destruct (sl_replace_cases p e l)
      as [(x & _ & -> & _)|(_ & old & _ & ->)]; constructor.
Qed.

Lemma sl_change_inv l b l' : inv l → change l b l' → inv l'.
Proof.
  intros Hi [].
  - done.
  - by apply sl_inserted_inv.
  - by apply removed_inv.
  - by apply sl_cleared_inv.
  - by apply sl_reset_inv.
  - by apply sl_replaced_inv.
Qed.

Lemma sl_exec_inv op l l' r :
  inv l → exec op l = (l', r) → r ≠ Err OutOfFuel → inv l'.
Proof. intros Hi He Hr. eapply sl_change_inv; [done|]. by eapply sl_exec_change. Qed.

Lemma sl_step_inv l l' : inv l → step l l' → inv l'.
Proof. intros Hi (op & r & He & Hr). by eapply sl_exec_inv. Qed.

Lemma sl_steps_inv l l' : inv l → rtc step l l' → inv l'.
Proof. intros Hi Hs. induction Hs; [done|]. eauto using sl_step_inv. Qed.

Lemma sl_reachable_inv c l : reachable c l → inv l.
Proof. apply sl_steps_inv, sl_inv_empty. Qed.

(** *** Which nodes are live after a change *)

Lemma sl_inserted_live e pred succ l j :
  inv l → can_insert l pred succ →
  live (heap (inserted e pred succ l)) j
  ↔ j = fresh (dom (heap l)) ∨ live (heap l) j.
Proof.
  intros Hi [Hp Hs]. unfold live.
  pose proof (sl_nxt_fresh (heap l)) as Hfn.
  rewrite sl_nxt_inserted.
  2:{ intros q E. destruct (Hp q E) as [-> _]. done. }
  repeat case_decide; simplify_eq.
  - split; [by left|]. intros _. split; [done|].
    intros [= ->]. destruct pred as [p|].
    + destruct (Hp _ eq_refl) as [Hn Hne].
      destruct (inv_next _ Hi _ _ Hn) as [[x Hx] _]; congruence.
    + specialize (Hs eq_refl). symmetry in Hs.
      destruct (inv_head _ Hi _ Hs) as [[x Hx] _]. congruence.
  - destruct (Hp _ eq_refl) as [E1 E2]. rewrite E1.
    split.
    + intros _. right. split; [done|congruence].
    + intros _. split; [done|congruence].
  - split; [by right|]. by intros [?|?].
Qed.

Lemma removed_live hd nx l j :
  is_Some (nxt (heap l) hd) →
  live (heap (removed hd nx l)) j ↔ j ≠ hd ∧ live (heap l) j.
Proof.
  intros Hh. unfold live. rewrite nxt_removed by done.
  case_decide; subst; naive_solver.
Qed.

Lemma sl_cleared_live ch l j :
  live (heap (cleared ch l)) j ↔ (j ∉ ch) ∧ live (heap l) j.
Proof.
  unfold live. simpl. rewrite sl_nxt_deprecate_all.
  case_decide.
  - destruct (nxt (heap l) j); simpl; naive_solver.
  - naive_solver.
Qed.

Lemma sl_replaced_live n e l j :
  live (heap (replaced n e l)) j ↔ live (heap l) j.
Proof. unfold live. simpl. by rewrite sl_nxt_alter_element. Qed.

Lemma sl_change_self l b l' : change l b l' → self l' = self l.
Proof. by intros []. Qed.

(** A deprecated node stays deprecated, whatever is called next. *)
Lemma sl_change_deprecated l b l' j :
  inv l → change l b l' →
  nxt (heap l) j = Some (Some j) → nxt (heap l') j = Some (Some j).
Proof.
  intros Hi Hc Hj. destruct Hc as [|e pred succ Hci|hd nx Hh Hx|ch Hch| |n e].
  - done.
  - pose proof (sl_nxt_fresh (heap l)) as Hfn. destruct Hci as [Hp Hs].
    rewrite sl_nxt_inserted.
    2:{ intros q E. destruct (Hp q E) as [-> _]. done. }
    repeat case_decide; simplify_eq; try done; try congruence.
    destruct (Hp _ eq_refl). congruence.
  - rewrite nxt_removed by (by rewrite Hx). case_decide; [by subst|done].
  - simpl. rewrite sl_nxt_deprecate_all, Hj. by case_decide.
  - done.
  - simpl. by rewrite sl_nxt_alter_element.
Qed.

Lemma sl_steps_deprecated l l' j :
  inv l → rtc step l l' →
  nxt (heap l) j = Some (Some j) →
  nxt (heap l') j = Some (Some j) ∧ self l' = self l.
Proof.
  intros Hi Hs. induction Hs as [|l1 l2 l3 (op & r & He & Hr) Hs IH]; [done|].
  intros Hj. pose proof (sl_exec_change _ _ _ _ Hi He Hr) as Hc.
  destruct IH as [IH1 IH2].
  - by eapply sl_change_inv.
  - by eapply sl_change_deprecated.
  - split; [done|]. rewrite IH2. by eapply sl_change_self.
Qed.

(** *** Lists built without [clear(true)] *)

Definition strict (l : SList) (ch : list addr) : Prop :=
  inv l ∧ chain (nxt (heap l)) (head l) ch ∧ tail l = last ch ∧
  size l = Z.of_nat (length ch) ∧ ∀ a, live (heap l) a → a ∈ ch.

Lemma sl_strict_empty c : strict (empty c) [].
Proof.
  split; [apply sl_inv_empty|]. repeat split; try done.
  intros a [[x Hx] _]. unfold nxt in Hx. simpl in Hx.
  by rewrite lookup_empty in Hx.
Qed.

Lemma sl_strict_NoDup l ch : strict l ch → NoDup ch.
Proof.
  intros (Hi & Hch & _). destruct (inv_rank _ Hi) as [rank Hr].
  by eapply seg_NoDup.
Qed.

Lemma sl_strict_det l ch1 ch2 : strict l ch1 → strict l ch2 → ch1 = ch2.
Proof. intros (_ & H1 & _) (_ & H2 & _). by eapply seg_det. Qed.

(** The chain after a node was linked in. *)
Definition spliced (pred : option addr) (n : addr) (ch : list addr)
  : list addr :=
  match pred with
  | Some p => insert_after p n ch
  | None => n :: ch
  end.

(** The chain from [head] and [tail] after a node was linked in behind a
    node of the chain, or in front. *)
Lemma inserted_chain e pred succ l ch :
  inv l → chain (nxt (heap l)) (head l) ch → tail l = last ch →
  can_insert l pred succ → (∀ p, pred = Some p → p ∈ ch) →
  chain (nxt (heap (inserted e pred succ l))) (head (inserted e pred succ l))
    (spliced pred (fresh (dom (heap l))) ch) ∧
  tail (inserted e pred succ l)
  = last (spliced pred (fresh (dom (heap l))) ch) ∧
  length (spliced pred (fresh (dom (heap l))) ch) = S (length ch) ∧
  (∀ a, a ∈ spliced pred (fresh (dom (heap l))) ch
        ↔ a = fresh (dom (heap l)) ∨ a ∈ ch).
Proof.
  intros Hi Hch Htl Hci Hpin.
  assert (Hnd : NoDup ch).
  { destruct (inv_rank _ Hi) as [rank Hr]. by eapply seg_NoDup. }
  pose proof (sl_nxt_fresh (heap l)) as Hfn.
  assert (HN : ∀ j, nxt (heap (inserted e pred succ l)) j
               = if decide (j = fresh (dom (heap l))) then Some succ
                 else if decide (pred = Some j)
                      then Some (Some (fresh (dom (heap l))))
                      else nxt (heap l) j).
  { intros j. apply sl_nxt_inserted. intros q E.
    destruct Hci as [Hp _]. destruct (Hp q E) as [-> _]. done. }
  assert (HH : head (inserted e pred succ l)
               = match pred with Some _ => head l
                 | None => Some (fresh (dom (heap l))) end) by done.
  assert (HT : tail (inserted e pred succ l)
               = if decide (pred = tail l) then Some (fresh (dom (heap l)))
                 else tail l) by done.
  set (l' := inserted e pred succ l) in *. clearbody l'.
  set (n := fresh (dom (heap l))) in *.
  assert (Hn : n ∉ ch).
  { intros Hin. destruct (seg_live _ _ _ _ _ Hch Hin) as [[x Hx] _]. congruence. }
  assert (Hsn : succ ≠ Some n).
  { intros ->. destruct Hci as [Hp Hs]. destruct pred as [p|].
    - destruct (Hp _ eq_refl) as [Hpn Hne].
      destruct (inv_next _ Hi _ _ Hpn) as [[x Hx] _]; congruence.
    - specialize (Hs eq_refl). symmetry in Hs.
      destruct (inv_head _ Hi _ Hs) as [[x Hx] _]. congruence. }
  unfold spliced. rewrite HH, HT.
  destruct Hci as [Hp Hs]. destruct pred as [p|].
  - destruct (Hp p eq_refl) as [Hpn Hpl].
    destruct (list_elem_of_split _ _ (Hpin p eq_refl)) as (l1 & l2 & ->).
    apply NoDup_app in Hnd as (Hnd1 & Hnd12 & Hnd2).
    apply NoDup_cons in Hnd2 as [Hp2 Hnd2].
    assert (Hp1 : p ∉ l1).
    { intros Hin. apply (Hnd12 _ Hin). by left. }
    rewrite insert_after_split by done.
    unfold chain in Hch. apply seg_app in Hch as (mid & Hs1 & Hs2).
    simpl in Hs2. destruct Hs2 as (-> & nx & Hnx & _ & Hs2).
    assert (nx = succ) as -> by congruence.
    repeat split.
    + unfold chain. apply seg_app. exists (Some p). split.
      * eapply seg_frame; [|done]. intros j Hj. rewrite HN.
        rewrite decide_False by set_solver.
        rewrite decide_False; [done|]. intros [= <-]. done.
      * simpl. split; [done|]. exists (Some n). split.
        { rewrite HN, decide_False, decide_True; [done|done|].
          intros ->. set_solver. }
        split; [intros [= E]; set_solver|].
        split; [done|]. exists succ. split.
        { by rewrite HN, decide_True. }
        split; [done|].
        eapply seg_frame; [|done]. intros j Hj. rewrite HN.
        rewrite decide_False by set_solver.
        rewrite decide_False; [done|]. intros [= <-]. done.
    + rewrite Htl, !last_app_cons. destruct l2 as [|b l2].
      * by rewrite decide_True.
      * rewrite decide_False; [done|]. simpl. intros E.
        apply Hp2. symmetry in E. by apply last_Some_elem_of in E.
    + rewrite !length_app. simpl. lia.
    + set_solver.
    + set_solver.
  - rewrite (Hs eq_refl) in *. repeat split.
    + exists (head l). split; [by rewrite HN, decide_True|].
      split; [congruence|].
      eapply seg_frame; [|done]. intros j Hj. rewrite HN.
      rewrite decide_False; [done|]. intros ->. done.
    + rewrite Htl. destruct ch as [|b r].
      * by rewrite decide_True.
      * rewrite decide_False; [done|]. rewrite last_cons.
        by destruct (last r).
    + set_solver.
    + set_solver.
Qed.

Lemma sl_inserted_strict e pred succ l ch :
  strict l ch → can_insert l pred succ →
  strict (inserted e pred succ l) (spliced pred (fresh (dom (heap l))) ch).
Proof.
  intros (Hi & Hch & Htl & Hsz & Hcov) Hci.
  destruct (inserted_chain e pred succ l ch) as (Hch' & Htl' & Hlen & Hin);
    [done..| |].
  { intros p ->. destruct Hci as [Hp _]. destruct (Hp p eq_refl) as [Hpn Hne].
    apply Hcov. split; [by rewrite Hpn|congruence]. }
  split; [by apply sl_inserted_inv|]. split; [done|]. split; [done|].
  split.
  - rewrite Hlen. simpl. lia.
  - intros a Ha. apply Hin. apply (sl_inserted_live e) in Ha; [|done..].
    destruct Ha as [?|?]; [by left|right; by apply Hcov].
Qed.

(** The chain from [head] and [tail] after [removeFirst]. *)
Lemma removed_chain hd nx l ch :
  inv l → chain (nxt (heap l)) (head l) ch → tail l = last ch →
  head l = Some hd → nxt (heap l) hd = Some nx →
  ∃ r, ch = hd :: r ∧
       chain (nxt (heap (removed hd nx l))) (head (removed hd nx l)) r ∧
       tail (removed hd nx l) = last r.
Proof.
  intros Hi Hch Htl Hh Hx.
  assert (Hnd : NoDup ch).
  { destruct (inv_rank _ Hi) as [rank Hr]. by eapply seg_NoDup. }
  unfold chain in Hch. rewrite Hh in Hch.
  destruct ch as [|a r]; simpl in Hch; [done|].
  destruct Hch as ([= <-] & nx' & Hnx' & _ & Hch).
  assert (nx' = nx) as -> by congruence.
  apply NoDup_cons in Hnd as [Hhr Hnd].
  exists r. split; [done|]. split.
  - eapply seg_frame; [|done]. intros j Hj.
    rewrite nxt_removed by (by rewrite Hx).
    rewrite decide_False; [done|]. intros ->. done.
  - simpl. destruct nx as [m|].
    + rewrite Htl. destruct r as [|b r]; [done|]. done.
    + by rewrite (seg_nil_end _ _ _ Hch eq_refl).
Qed.

Lemma removed_strict hd nx l ch :
  strict l ch → head l = Some hd → nxt (heap l) hd = Some nx →
  ∃ r, ch = hd :: r ∧ strict (removed hd nx l) r.
Proof.
  intros Hst Hh Hx. pose proof (sl_strict_NoDup _ _ Hst) as Hnd.
  destruct Hst as (Hi & Hch & Htl & Hsz & Hcov).
  destruct (removed_chain _ _ _ _ Hi Hch Htl Hh Hx) as (r & -> & Hch' & Htl').
  exists r. split; [done|]. split; [by apply removed_inv|].
  split; [done|]. split; [done|]. split.
  - simpl. rewrite Hsz. simpl length. lia.
  - intros j Hj. apply removed_live in Hj as [Hne Hj]; [|by rewrite Hx].
    apply Hcov in Hj. set_solver.
Qed.

Lemma sl_cleared_strict l ch : strict l ch → strict (cleared ch l) [].
Proof.
  intros (Hi & Hch & Htl & Hsz & Hcov).
  split; [by apply sl_cleared_inv|]. repeat split.
  intros a Ha. apply sl_cleared_live in Ha as [Hn Ha]. by apply Hcov in Ha.
Qed.

Lemma sl_replaced_strict n e l ch : strict l ch → strict (replaced n e l) ch.
Proof.
  intros (Hi & Hch & Htl & Hsz & Hcov).
  split; [by apply sl_replaced_inv|]. repeat split; try done.
  - eapply seg_frame; [|done]. intros j _. simpl. apply sl_nxt_alter_element.
  - intros a Ha. apply sl_replaced_live in Ha. by apply Hcov.
Qed.

Lemma sl_change_strict l l' ch :
  strict l ch → change l false l' → ∃ ch', strict l' ch'.
Proof.
  intros Hst Hc. inversion Hc; subst.
  - by exists ch.
  - eexists. by apply sl_inserted_strict.
  - destruct (removed_strict _ _ _ _ Hst H H0) as (r & _ & ?). eauto.
  - exists []. destruct Hst as (Hi & Hch & Hrest).
    assert (ch0 = ch) as -> by by eapply seg_det.
    by apply sl_cleared_strict.
  - exists ch. by apply sl_replaced_strict.
Qed.

Lemma sl_exec_strict op l l' r ch :
  strict l ch → exec op l = (l', r) → r ≠ Err OutOfFuel →
  instant_clear op = false → ∃ ch', strict l' ch'.
Proof.
  intros Hst He Hr Hop. pose proof Hst as (Hi & _).
  pose proof (sl_exec_change _ _ _ _ Hi He Hr) as Hc. rewrite Hop in Hc.
  by eapply sl_change_strict.
Qed.


(** *** Lists built by the adding and removing methods *)

(** The calls that add or remove one element. *)
Definition structural (op : Op) : bool :=
  match op with
  | AddAfter _ _ | AddFirst _ | AddLast _ | RemoveFirst => true
  | _ => false
  end.

(** The list after a sequence of calls (a call that throws leaves the list
    as it is at the throw). *)
Fixpoint run (ops : list Op) (l : SList) : SList :=
  match ops with
  | [] => l
  | op :: rest => run rest (exec op l).1
  end.

(** A step that is not [clear(true)], and the lists built by such steps. *)
Definition quiet_step (l l' : SList) : Prop :=
  ∃ op r, exec op l = (l', r) ∧ r ≠ Err OutOfFuel ∧ instant_clear op = false.

Definition built (c : cid) (l : SList) : Prop := rtc quiet_step (empty c) l.

Lemma sl_quiet_step_step l l' : quiet_step l l' → step l l'.
Proof. intros (op & r & He & Hr & _). by exists op, r. Qed.

Lemma sl_built_reachable c l : built c l → reachable c l.
Proof.
  unfold built, reachable. intros H.
  eapply rtc_subrel; [|done]. apply sl_quiet_step_step.
Qed.

Lemma sl_quiet_steps_strict l l' ch :
  strict l ch → rtc quiet_step l l' → ∃ ch', strict l' ch'.
Proof.
  intros Hst Hs. revert ch Hst.
  induction Hs as [|l1 l2 l3 (op & r & He & Hr & Hq) Hs IH]; intros ch Hst.
  - by exists ch.
  - destruct (sl_exec_strict _ _ _ _ _ Hst He Hr Hq) as [ch' Hst']. eauto.
Qed.

Lemma sl_built_strict c l : built c l → ∃ ch, strict l ch.
Proof. apply (sl_quiet_steps_strict _ _ []), sl_strict_empty. Qed.

Lemma sl_structural_quiet op l :
  inv l → structural op = true → quiet_step l (exec op l).1.
Proof.
  intros Hi Hop. exists op, (exec op l).2.
  split; [by destruct (exec op l)|].
  split; [|by destruct op].
  destruct op; try done; simpl; rewrite sl_bind_ret_res.
  - destruct (sl_addAfter_cases p e l Hi)
      as [(x & _ & -> & ?)|(_ & nx & _ & ? & ->)]; simpl; congruence.
  - by destruct (sl_addFirst_run e l Hi) as [? ->].
  - by destruct (sl_addLast_run e l Hi) as [? ->].
  - destruct (sl_removeFirst_cases l Hi)
      as [[_ ->]|(hd & nx & old & ? & ? & _ & ->)]; done.
Qed.

Lemma sl_run_built c ops l :
  built c l → Forall (λ op, structural op = true) ops → built c (run ops l).
Proof.
  intros Hb Hops. revert l Hb.
  induction Hops as [|op ops Hop Hops IH]; intros l Hb; simpl; [done|].
  apply IH. eapply rtc_r; [done|].
  apply sl_structural_quiet; [|done].
  by eapply sl_reachable_inv, sl_built_reachable.
Qed.

(** On such a list [size] counts the live nodes one meets from [head]. *)
Lemma sl_strict_size l ch :
  strict l ch →
  NoDup ch ∧
  (∀ a, a ∈ ch ↔ reach (nxt (heap l)) (head l) a ∧ live (heap l) a) ∧
  size l = Z.of_nat (length ch).
Proof.
  intros Hst. split; [by eapply sl_strict_NoDup|].
  destruct Hst as (Hi & Hch & Htl & Hsz & Hcov). split; [|done].
  intros a. split.
  - intros Ha. split; [by apply (chain_reach _ _ _ _ Hch)|].
    by eapply seg_live.
  - intros [_ Ha]. by apply Hcov.
Qed.

(** *** Construction from an array, and iteration *)

(** [els] are the elements held by the nodes [ch], in order. *)
Definition holds (h : gmap nat Node) (ch : list addr) (els : list T) : Prop :=
  Forall2 (λ a e, elt h a = Some e) ch els.

Lemma sl_iterate_from_chain h o ch els fuel :
  chain (nxt h) o ch → holds h ch els → (length ch ≤ fuel)%nat →
  iterate_from fuel h o = Some els.
Proof.
  unfold chain, holds. intros Hch Hels. revert o fuel Hch.
  induction Hels as [|a e ch els Hae Hels IH]; intros o fuel; simpl.
  - intros -> _. by destruct fuel.
  - intros (-> & nx & Hn & _ & Hch) Hf.
    destruct fuel as [|fuel]; [lia|]. simpl.
    unfold nxt in Hn. unfold elt in Hae.
    destruct (h !! a) as [nd|]; [|done]. simpl in *.
    assert (next nd = nx) as -> by congruence.
    rewrite (IH nx fuel) by (done || lia). simpl. congruence.
Qed.

Lemma sl_spliced_last t ch n :
  NoDup ch → t = last ch → spliced t n ch = ch ++ [n].
Proof.
  intros Hnd ->. unfold spliced.
  destruct (last ch) as [t|] eqn:E.
  - apply last_Some in E as [l1 ->].
    apply NoDup_app in Hnd as (_ & Hd & _).
    rewrite insert_after_split; [by rewrite <- app_assoc|].
    intros Hin. apply (Hd _ Hin). by left.
  - apply last_None in E as ->. done.
Qed.

Lemma sl_addLast_strict e l ch els :
  strict l ch → holds (heap l) ch els →
  ∃ n, addLast e l
       = (inserted e (tail l) None l, Ok (mkPosition n (self l))) ∧
       strict (inserted e (tail l) None l) (ch ++ [n]) ∧
       holds (heap (inserted e (tail l) None l)) (ch ++ [n]) (els ++ [e]).
Proof.
  intros Hst Hels. pose proof Hst as (Hi & Hch & Htl & _).
  destruct (sl_addLast_run e l Hi) as [Hci Hrun].
  exists (fresh (dom (heap l))). split; [done|].
  assert (Hn : fresh (dom (heap l)) ∉ ch).
  { intros Hin. destruct (seg_live _ _ _ _ _ Hch Hin) as [[x Hx] _].
    pose proof (sl_nxt_fresh (heap l)). congruence. }
  split.
  - rewrite <- (sl_spliced_last (tail l)) by (done || by eapply sl_strict_NoDup).
    by apply sl_inserted_strict.
  - apply Forall2_app.
    + eapply Forall2_same_length_lookup_2; [by eapply Forall2_length|].
      intros i a x Ha Hx. rewrite sl_elt_inserted.
      rewrite decide_False.
      * by eapply (Forall2_lookup_lr _ _ _ _ _ _ Hels).
      * intros ->. apply Hn. by eapply list_elem_of_lookup_2.
    + constructor; [|constructor]. rewrite sl_elt_inserted.
      by rewrite decide_True.
Qed.

Lemma sl_addLast_all_strict arr : ∀ l ch els,
  strict l ch → holds (heap l) ch els →
  ∃ l' ch', addLast_all arr l = (l', Ok tt) ∧ self l' = self l ∧
            strict l' (ch ++ ch') ∧ holds (heap l') (ch ++ ch') (els ++ arr).
Proof.
  induction arr as [|e arr IH]; intros l ch els Hst Hels; simpl.
  - exists l, []. rewrite !app_nil_r. done.
  - destruct (sl_addLast_strict e _ _ _ Hst Hels) as (n & Hrun & Hst' & Hels').
    destruct (IH _ _ _ Hst' Hels') as (l' & ch' & Hrun' & Hself & Hst'' & Hels'').
    exists l', (n :: ch'). unfold bind. rewrite Hrun, Hrun'.
    rewrite <- app_assoc in Hst''. rewrite <- !app_assoc in Hels''.
    simpl in Hst'', Hels''.
    split; [done|]. split; [by rewrite Hself|]. by split.
Qed.


(** *** A call that throws leaves the list untouched *)

Lemma sl_pure_load a : pure (load a).
Proof. intros l. unfold load. by destruct (heap l !! a). Qed.
Lemma sl_no_throw_load a : no_throw (load a).
Proof. intros l l' e. unfold load. by destruct (heap l !! a). Qed.
Lemma sl_no_throw_new_Node e nx : no_throw (new_Node e nx).
Proof. done. Qed.
Lemma sl_pure_this_head : pure this_head.
Proof. done. Qed.
Lemma sl_pure_this_tail : pure this_tail.
Proof. done. Qed.
Lemma sl_no_throw_this_head : no_throw this_head.
Proof. done. Qed.
Lemma sl_no_throw_this_tail : no_throw this_tail.
Proof. done. Qed.
Lemma sl_pure_createPosition n : pure (createPosition n).
Proof. done. Qed.
Lemma sl_no_throw_createPosition n : no_throw (createPosition n).
Proof. done. Qed.

Ltac no_throw_step :=
  first
    [ apply no_throw_bind | apply no_throw_ret | apply no_throw_get
    | apply no_throw_modify | apply sl_no_throw_load | apply sl_no_throw_new_Node
    | apply sl_no_throw_this_head | apply sl_no_throw_this_tail
    | apply sl_no_throw_createPosition
    | apply no_throw_stuck; discriminate
    | match goal with
      | |- no_throw (match ?x with _ => _ end) => destruct x
      | |- no_throw (if ?x then _ else _) => destruct x
      | |- ∀ _, _ => intro
      end ].
Ltac pure_step :=
  first
    [ apply pure_bind | apply pure_ret | apply pure_get | apply pure_throw
    | apply pure_stuck | apply sl_pure_load | apply sl_pure_this_head
    | apply sl_pure_this_tail | apply sl_pure_createPosition
    | match goal with
      | |- pure (match ?x with _ => _ end) => destruct x
      | |- pure (if ?x then _ else _) => destruct x
      | |- ∀ _, _ => intro
      end ].

Lemma sl_pure_validate p : pure (validate p).
Proof. repeat pure_step. Qed.

Lemma sl_no_throw_clear_loop fuel : ∀ node, no_throw (clear_loop fuel node).
Proof.
  induction fuel as [|fuel IH]; intros [a|]; simpl; repeat no_throw_step.
  apply IH.
Qed.

Lemma sl_no_throw_clear fuel instant : no_throw (clear fuel instant).
Proof.
  unfold clear. apply no_throw_bind; [apply sl_no_throw_this_head|]. intros h.
  apply no_throw_bind; [|repeat no_throw_step].
  destruct (negb instant && bool_decide (is_Some h));
    [apply sl_no_throw_clear_loop|apply no_throw_ret].
Qed.

(** Every method validates before it writes. *)
Lemma sl_safe_exec op : safe (exec op).
Proof.
  destruct op; simpl; apply safe_bind_ret;
    unfold addAfter, addFirst, addLast, the_node.
  - apply safe_bind; [apply sl_pure_validate|]. intros node.
    apply safe_no_throw. repeat no_throw_step.
  - apply safe_no_throw. repeat no_throw_step.
  - apply safe_no_throw. repeat no_throw_step.
  - apply safe_no_throw. apply sl_no_throw_clear.
  - apply safe_pure. repeat pure_step.
  - apply safe_pure. repeat pure_step.
  - apply safe_pure. repeat pure_step.
  - apply safe_bind; [apply sl_pure_this_head|]. intros [n|].
    + apply safe_no_throw. repeat no_throw_step.
    + apply safe_pure. repeat pure_step.
  - apply safe_bind; [apply sl_pure_validate|]. intros node.
    apply safe_no_throw. repeat no_throw_step.
Qed.


(** *** Positions after a removal *)

Definition is_removal (op : Op) : bool :=
  match op with
  | RemoveFirst => true
  | _ => false
  end.

(** The node whose element the call removes. *)
Definition removed_node (op : Op) (l : SList) : option addr :=
  match op with
  | RemoveFirst => head l
  | _ => None
  end.

Lemma sl_valid_replace p x l :
  valid p l →
  ∃ old, elt (heap l) (pos_node p) = Some old ∧
         replace p x l = (replaced (pos_node p) x l, Ok old) ∧
         valid p (replaced (pos_node p) x l).
Proof.
  intros Hv.
  destruct (sl_replace_cases p x l) as [(y & Hy & _)|(_ & old & Ho & Hr)].
  - unfold valid in Hv. congruence.
  - exists old. split; [done|]. split; [done|].
    apply sl_valid_iff. apply sl_valid_iff in Hv as [Hc Hl].
    split; [done|]. by apply sl_replaced_live.
Qed.

Lemma sl_liveness_after l l' n :
  inv l' → self l' = self l → nxt (heap l') n = Some (Some n) →
  (∀ j, live (heap l') j ↔ j ≠ n ∧ live (heap l) j) →
  isDeprecated n l' = (l', Ok true) ∧
  (∀ l'' p, rtc step l' l'' → pos_node p = n →
            validate p l'' = (l'', Err (Throw InvalidPosition))) ∧
  (∀ p, valid p l → pos_node p ≠ n →
        valid p l' ∧
        ∀ x, ∃ old, elt (heap l') (pos_node p) = Some old ∧
                    replace p x l' = (replaced (pos_node p) x l', Ok old) ∧
                    valid p (replaced (pos_node p) x l')).
Proof.
  intros Hi' Hself Hn Hlive. split.
  { unfold isDeprecated, bind, ret. rewrite sl_get_next_nxt, Hn.
    by rewrite bool_decide_true. }
  split.
  - intros l'' p Hs <-.
    destruct (sl_steps_deprecated _ _ _ Hi' Hs Hn) as [Hd _].
    apply sl_invalid_iff. by right.
  - intros p Hv Hne.
    assert (valid p l') as Hv'.
    { apply sl_valid_iff. apply sl_valid_iff in Hv as [Hc Hl].
      split; [congruence|]. by apply Hlive. }
    split; [done|]. intros x. by apply sl_valid_replace.
Qed.

(** After a removal every position on the removed node is invalid for good,
    and every other valid position stays valid and can be used by
    [replace]. *)
Lemma sl_removal_liveness c l op l' e :
  reachable c l → is_removal op = true → exec op l = (l', Ok (RElt e)) →
  ∃ n, removed_node op l = Some n ∧ elt (heap l) n = Some e ∧
    isDeprecated n l' = (l', Ok true) ∧
    (∀ l'' p, rtc step l' l'' → pos_node p = n →
              validate p l'' = (l'', Err (Throw InvalidPosition))) ∧
    (∀ p, valid p l → pos_node p ≠ n →
          valid p l' ∧
          ∀ x, ∃ old, elt (heap l') (pos_node p) = Some old ∧
                      replace p x l' = (replaced (pos_node p) x l', Ok old) ∧
                      valid p (replaced (pos_node p) x l')).
Proof.
  intros Hr Hop He. pose proof (sl_reachable_inv _ _ Hr) as Hi.
  destruct op; try done; simpl in He; unfold bind, ret in He.
  destruct (sl_removeFirst_cases l Hi)
    as [[_ E]|(hd & nx & old & Hh & Hx & Ho & E)]; rewrite E in He; [done|].
  injection He as <- <-. exists hd. split; [done|]. split; [done|].
  apply sl_liveness_after.
  - by apply removed_inv.
  - done.
  - rewrite nxt_removed by (by rewrite Hx). by rewrite decide_True.
  - intros j. apply removed_live. by rewrite Hx.
Qed.


(** *** The tail is the last node of the chain from the head

    This holds for every singly linked list, [clear(true)] included: a
    position on a node that is no longer reachable never is the tail. *)
Definition tailed (l : SList) : Prop :=
  ∃ ch, chain (nxt (heap l)) (head l) ch ∧ tail l = last ch.

Lemma tailed_empty c : tailed (empty c).
Proof. by exists []. Qed.

Lemma change_tailed l b l' : inv l → tailed l → change l b l' → tailed l'.
Proof.
  intros Hi (ch & Hch & Htl) Hc.
  destruct Hc as [|e pred succ Hci|hd nx Hh Hx|ch0 Hch0| |n e].
  - by exists ch.
  - assert (Hsome : (∀ p, pred = Some p → p ∈ ch) →
                    tailed (inserted e pred succ l)).
    { intros Hin.
      destruct (inserted_chain e pred succ l ch) as (Hch' & Htl' & _);
        [done..|]. by eexists. }
    destruct pred as [p|]; [|by apply Hsome].
    destruct (decide (p ∈ ch)) as [Hin|Hp].
    { apply Hsome. by intros ? [= <-]. }
    exists ch. destruct Hci as [Hp1 _].
    destruct (Hp1 p eq_refl) as [Hpn Hne].
    pose proof (sl_nxt_fresh (heap l)) as Hfn. split.
    + eapply seg_frame; [|done]. intros j Hj.
      rewrite sl_nxt_inserted by (intros ? [= <-]; by rewrite Hpn).
      rewrite decide_False.
      { rewrite decide_False; [done|]. intros [= <-]. done. }
      intros ->. destruct (seg_live _ _ _ _ _ Hch Hj) as [[x Hx] _].
      congruence.
    + simpl. rewrite decide_False; [done|]. rewrite Htl. intros E.
      symmetry in E. by apply last_Some_elem_of in E.
  - destruct (removed_chain _ _ _ _ Hi Hch Htl Hh Hx) as (r & _ & ? & ?).
    by exists r.
  - by exists [].
  - by exists [].
  - exists ch. split; [|done].
    eapply seg_frame; [|done]. intros j _. simpl. apply sl_nxt_alter_element.
Qed.

Lemma steps_tailed l l' : inv l → tailed l → rtc step l l' → tailed l'.
Proof.
  intros Hi Ht Hs. induction Hs as [|l1 l2 l3 (op & r & He & Hr) Hs IH];
    [done|].
  pose proof (sl_exec_change _ _ _ _ Hi He Hr) as Hc.
  apply IH; [by eapply sl_change_inv|by eapply change_tailed].
Qed.

Lemma reachable_tailed c l : reachable c l → tailed l.
Proof. apply steps_tailed; [apply sl_inv_empty|apply tailed_empty]. Qed.

(** *** [addAfter] on the position of the last element *)

Lemma sl_addAfter_last e l p :
  inv l → getLast l = (l, Ok (Some p)) →
  ∃ l' q, addAfter p e l = (l', Ok q) ∧
          getLast l' = (l', Ok (Some q)) ∧
          elt (heap l') (pos_node q) = Some e.
Proof.
  intros Hi Hg. rewrite sl_getLast_run in Hg.
  destruct (tail l) as [t|] eqn:Et; [|done]. simpl in Hg.
  injection Hg as <-.
  pose proof (inv_tail _ Hi _ Et) as Hn.
  destruct (sl_addAfter_cases (mkPosition t (self l)) e l Hi)
    as [(x & Hx & _)|(_ & nx & Hnx & _ & Hrun)].
  { assert (valid (mkPosition t (self l)) l) as Hv.
    { apply sl_valid_iff. split; [done|]. simpl. split; by rewrite Hn. }
    unfold valid in Hv. congruence. }
  simpl in Hnx. assert (nx = None) as -> by congruence.
  eexists _, _. split; [done|]. split.
  - rewrite sl_getLast_run. simpl. by rewrite decide_True.
  - simpl pos_node. rewrite sl_elt_inserted. by rewrite decide_True.
Qed.

(** *** The array constructor followed by iteration *)

Lemma sl_new_list_iterate c arr k :
  ∃ l, new_list c arr = (l, Ok tt) ∧
       iterate (length arr + k) l = Some arr.
Proof.
  destruct (sl_addLast_all_strict arr (empty c) [] [])
    as (l & ch & Hrun & _ & Hst & Hels);
    [apply sl_strict_empty|constructor|].
  exists l. split; [done|].
  destruct Hst as (_ & Hch & _). simpl in *.
  eapply sl_iterate_from_chain; [done|done|].
  apply Forall2_length in Hels. lia.
Qed.

(** *** Size after a sequence of adding and removing calls *)

Lemma sl_run_size c ops :
  Forall (λ op, structural op = true) ops →
  ∃ ch, NoDup ch ∧
        (∀ a, a ∈ ch ↔ reach (nxt (heap (run ops (empty c))))
                               (head (run ops (empty c))) a
                       ∧ live (heap (run ops (empty c))) a) ∧
        size (run ops (empty c)) = Z.of_nat (length ch).
Proof.
  intros Hops.
  destruct (sl_built_strict c (run ops (empty c))) as [ch Hst].
  { apply sl_run_built; [|done]. apply rtc_refl. }
  exists ch. by apply sl_strict_size.
Qed.

(** *** [clear] *)





(** *** The tail after an insertion *)

Lemma sl_insertion_tail c l op l' q :
  reachable c l → exec op l = (l', Ok (RPos q)) →
  ∃ ch, chain (nxt (heap l')) (head l') ch ∧ tail l' = last ch.
Proof.
  intros Hr He. apply (reachable_tailed c).
  eapply rtc_r; [done|]. by exists op, (Ok (RPos q)).
Qed.


Lemma sl_addLast_all_built c arr : ∀ l,
  built c l → built c (addLast_all arr l).1.
Proof.
  induction arr as [|e arr IH]; intros l Hb; simpl; [done|].
  pose proof (sl_reachable_inv _ _ (sl_built_reachable _ _ Hb)) as Hi.
  destruct (sl_addLast_run e l Hi) as [Hci Hrun].
  unfold bind. rewrite Hrun. apply IH.
  eapply rtc_r; [done|].
  exists (AddLast e), (Ok (RPos (mkPosition (fresh (dom (heap l))) (self l)))).
  split; [|done]. simpl. unfold bind, ret. by rewrite Hrun.
Qed.

(** The list made by the constructor is one of the lists built without
    [clear(true)]. *)
Lemma sl_new_list_built c arr : built c (new_list c arr).1.
Proof. apply sl_addLast_all_built, rtc_refl. Qed.

Lemma sl_new_list_reachable c arr : reachable c (new_list c arr).1.
Proof. apply sl_built_reachable, sl_new_list_built. Qed.


(** With an invalid position every method that takes one throws, and
    [removeFirst] throws on an empty list. *)
Lemma sl_invalid_position_throws p e l x :
  validate p l = (l, Err x) →
  addAfter p e l = (l, Err x) ∧ replace p e l = (l, Err x) ∧
  getAfter p l = (l, Err x).
Proof.
  intros H. unfold addAfter, replace, getAfter, bind. by rewrite H.
Qed.

Lemma sl_empty_throws l :
  head l = None → removeFirst l = (l, Err (Throw EmptyContainer)).
Proof. intros H. unfold removeFirst, bind, this_head. by rewrite H. Qed.

End Singly.
Arguments Node : clear implicits.
Arguments SList : clear implicits.
Arguments Op : clear implicits.
Arguments Ret : clear implicits.
End Singly.

(** ** Doubly linked list *)

Module Doubly.
Section Doubly.
Context {T : Type}.

(** [class Node<T>]: element, next, prev. *)
Record Node : Type := mkNode {
  element : T;
  next : option addr;
  prev : option addr;
}.

(** The list object ([head], [tail], [size] are the protected fields of
    [PositionalListAbstract]) together with the store of its nodes. *)
Record DList : Type := mkDList {
  heap : gmap nat Node;
  head : option addr;
  tail : option addr;
  size : Z;
  self : cid;
}.

Definition set_heap (f : gmap nat Node → gmap nat Node) (l : DList) : DList :=
  mkDList (f (heap l)) (head l) (tail l) (size l) (self l).
Definition set_head (v : option addr) (l : DList) : DList :=
  mkDList (heap l) v (tail l) (size l) (self l).
Definition set_tail (v : option addr) (l : DList) : DList :=
  mkDList (heap l) (head l) v (size l) (self l).
Definition set_size (v : Z) (l : DList) : DList :=
  mkDList (heap l) (head l) (tail l) v (self l).

(** [new DoublyLinkedList()] for the container identity [c]. *)
Definition empty (c : cid) : DList := mkDList ∅ None None 0 c.

(** *** Store primitives *)

Definition load (a : addr) : M DList Node :=
  λ l, match heap l !! a with
       | Some nd => (l, Ok nd)
       | None => (l, Err DanglingRef)
       end.

Definition store (a : addr) (nd : Node) : M DList unit :=
  modify (set_heap <[a := nd]>).

(** [new Node(element, next, prev)] *)
Definition new_Node (e : T) (nx pv : option addr) : M DList addr :=
  λ l, let a := fresh (dom (heap l)) in
       (set_heap <[a := mkNode e nx pv]> l, Ok a).

Definition get_next (a : addr) : M DList (option addr) :=
  nd <- load a ;; ret (next nd).
Definition get_prev (a : addr) : M DList (option addr) :=
  nd <- load a ;; ret (prev nd).
Definition get_element (a : addr) : M DList T :=
  nd <- load a ;; ret (element nd).
Definition put_next (a : addr) (v : option addr) : M DList unit :=
  nd <- load a ;; store a (mkNode (element nd) v (prev nd)).
Definition put_prev (a : addr) (v : option addr) : M DList unit :=
  nd <- load a ;; store a (mkNode (element nd) (next nd) v).
Definition put_element (a : addr) (e : T) : M DList unit :=
  nd <- load a ;; store a (mkNode e (next nd) (prev nd)).

Definition this_head : M DList (option addr) := λ l, (l, Ok (head l)).
Definition this_tail : M DList (option addr) := λ l, (l, Ok (tail l)).
Definition put_head (v : option addr) : M DList unit := modify (set_head v).
Definition put_tail (v : option addr) : M DList unit := modify (set_tail v).
(** [this.size++] and [this.size--]; a JavaScript number counts exactly far
    beyond any store, so the counter is an integer (it can go below zero). *)
Definition size_incr : M DList unit := modify (λ l, set_size (size l + 1) l).
Definition size_decr : M DList unit := modify (λ l, set_size (size l - 1) l).

(** *** Positions *)

(** [isDeprecated(node)]: [node.next === node]. *)
Definition isDeprecated (node : addr) : M DList bool :=
  nx <- get_next node ;; ret (bool_decide (nx = Some node)).

(** Modelled from the spec: [createPosition] of [PositionalListAbstract]
    ([src/lists/positional-list.class.ts] is not among the sources): a new
    handle on the node, owned by this list. *)
Definition createPosition (node : addr) : M DList Position :=
  λ l, (l, Ok (mkPosition node (self l))).

(** Modelled from the spec: [validate] of [PositionalListAbstract].  It fails
    with [InvalidPosition] when the position's owning container is not the
    container performing the validation, or when the referenced node is
    marked deprecated; it has no side effect and returns the node. *)
Definition validate (p : Position) : M DList addr :=
  l <- get ;;
  if bool_decide (pos_container p = self l) then
    d <- isDeprecated (pos_node p) ;;
    if d then throw InvalidPosition else ret (pos_node p)
  else throw InvalidPosition.

(** *** The methods of [DoublyLinkedList] *)

Definition insertBetween (e : T) (pred succ : option addr) : M DList addr :=
  node <- new_Node e succ pred ;;
  match pred with
  | Some p => put_next p (Some node)
  | None => put_head (Some node)
  end ;;;
  match succ with
  | Some s => put_prev s (Some node)
  | None => put_tail (Some node)
  end ;;;
  size_incr ;;;
  ret node.

Definition deleteNode (node : addr) : M DList T :=
  pred <- get_prev node ;;
  succ <- get_next node ;;
  match pred with
  | Some p => put_next p succ
  | None => put_head succ
  end ;;;
  match succ with
  | Some s => put_prev s pred
  | None => put_tail pred
  end ;;;
  put_prev node (Some node) ;;;
  put_next node (Some node) ;;;
  size_decr ;;;
  get_element node.

Definition addAfter (p : Position) (e : T) : M DList Position :=
  node <- validate p ;;
  nx <- get_next node ;;
  n <- insertBetween e (Some node) nx ;;
  createPosition n.

Definition addBefore (p : Position) (e : T) : M DList Position :=
  node <- validate p ;;
  pv <- get_prev node ;;
  n <- insertBetween e pv (Some node) ;;
  createPosition n.

Definition addFirst (e : T) : M DList Position :=
  h <- this_head ;;
  n <- insertBetween e None h ;;
  createPosition n.

Definition addLast (e : T) : M DList Position :=
  t <- this_tail ;;
  n <- insertBetween e t None ;;
  createPosition n.

(** The [while (node)] loop of [clear]: [node.next = node; node = next]. *)
Fixpoint clear_loop (fuel : nat) (node : option addr) : M DList unit :=
  match node with
  | None => ret tt
  | Some a =>
      match fuel with
      | O => stuck OutOfFuel
      | S fuel' =>
          nx <- get_next a ;;
          put_next a (Some a) ;;;
          clear_loop fuel' nx
      end
  end.

Definition clear (fuel : nat) (instant : bool) : M DList unit :=
  h <- this_head ;;
  (if negb instant && bool_decide (is_Some h) then clear_loop fuel h else ret tt) ;;;
  put_tail None ;;;
  put_head None ;;;
  modify (set_size 0).

Definition delete (p : Position) : M DList T :=
  node <- validate p ;;
  deleteNode node.

Definition getAfter (p : Position) : M DList (option Position) :=
  node <- validate p ;;
  nx <- get_next node ;;
  match nx with
  | Some n => q <- createPosition n ;; ret (Some q)
  | None => ret None
  end.

Definition getBefore (p : Position) : M DList (option Position) :=
  node <- validate p ;;
  pv <- get_prev node ;;
  match pv with
  | Some n => q <- createPosition n ;; ret (Some q)
  | None => ret None
  end.

Definition getFirst : M DList (option Position) :=
  h <- this_head ;;
  match h with
  | Some n => q <- createPosition n ;; ret (Some q)
  | None => ret None
  end.

Definition getLast : M DList (option Position) :=
  t <- this_tail ;;
  match t with
  | Some n => q <- createPosition n ;; ret (Some q)
  | None => ret None
  end.

Definition removeFirst : M DList T :=
  h <- this_head ;;
  match h with
  | None => throw EmptyContainer
  | Some n => deleteNode n
  end.

Definition removeLast : M DList T :=
  t <- this_tail ;;
  match t with
  | None => throw EmptyContainer
  | Some n => deleteNode n
  end.

Definition replace (p : Position) (e : T) : M DList T :=
  node <- validate p ;;
  replacedElement <- get_element node ;;
  put_element node e ;;;
  ret replacedElement.

(** [for (const el of elements) this.addLast(el)] of the constructor. *)
Fixpoint addLast_all (elements : list T) : M DList unit :=
  match elements with
  | [] => ret tt
  | el :: rest => addLast el ;;; addLast_all rest
  end.

Definition new_list (c : cid) (elements : list T) : DList * Res unit :=
  addLast_all elements (empty c).

(** The generator [*[Symbol.iterator]]: the elements it yields, in order.
    [None] when the loop outlives its fuel or leaves the store. *)
Fixpoint iterate_from (fuel : nat) (h : gmap nat Node) (node : option addr)
  : option (list T) :=
  match node with
  | None => Some []
  | Some a =>
      match fuel with
      | O => None
      | S fuel' =>
          match h !! a with
          | None => None
          | Some nd => cons (element nd) <$> iterate_from fuel' h (next nd)
          end
      end
  end.

Definition iterate (fuel : nat) (l : DList) : option (list T) :=
  iterate_from fuel (heap l) (head l).


(** *** Running the store primitives *)

Definition with_next (v : option addr) (nd : Node) : Node :=
  mkNode (element nd) v (prev nd).
Definition with_prev (v : option addr) (nd : Node) : Node :=
  mkNode (element nd) (next nd) v.
Definition with_element (e : T) (nd : Node) : Node :=
  mkNode e (next nd) (prev nd).

Lemma alter_as_insert (f : Node → Node) (h : gmap nat Node) a nd :
  h !! a = Some nd → <[a := f nd]> h = alter f a h.
Proof.
  intros Ha. apply map_eq. intros j.
  rewrite lookup_alter, lookup_insert.
  case_decide; subst; [by rewrite Ha|done].
Qed.

Lemma load_run a nd l : heap l !! a = Some nd → load a l = (l, Ok nd).
Proof. intros H. unfold load. by rewrite H. Qed.

Lemma get_next_run a nd l :
  heap l !! a = Some nd → get_next a l = (l, Ok (next nd)).
Proof. intros H. unfold get_next, bind. by rewrite (load_run _ _ _ H). Qed.

Lemma get_prev_run a nd l :
  heap l !! a = Some nd → get_prev a l = (l, Ok (prev nd)).
Proof. intros H. unfold get_prev, bind. by rewrite (load_run _ _ _ H). Qed.

Lemma get_element_run a nd l :
  heap l !! a = Some nd → get_element a l = (l, Ok (element nd)).
Proof. intros H. unfold get_element, bind. by rewrite (load_run _ _ _ H). Qed.

Lemma put_next_run a v l :
  is_Some (heap l !! a) →
  put_next a v l = (set_heap (alter (with_next v) a) l, Ok tt).
Proof.
  intros [nd H]. unfold put_next, bind, store, modify.
  rewrite (load_run _ _ _ H). unfold set_heap.
  by rewrite <- (alter_as_insert (with_next v) _ _ _ H).
Qed.

Lemma put_prev_run a v l :
  is_Some (heap l !! a) →
  put_prev a v l = (set_heap (alter (with_prev v) a) l, Ok tt).
Proof.
  intros [nd H]. unfold put_prev, bind, store, modify.
  rewrite (load_run _ _ _ H). unfold set_heap.
  by rewrite <- (alter_as_insert (with_prev v) _ _ _ H).
Qed.

Lemma put_element_run a e l :
  is_Some (heap l !! a) →
  put_element a e l = (set_heap (alter (with_element e) a) l, Ok tt).
Proof.
  intros [nd H]. unfold put_element, bind, store, modify.
  rewrite (load_run _ _ _ H). unfold set_heap.
  by rewrite <- (alter_as_insert (with_element e) _ _ _ H).
Qed.

Lemma lookup_alter_is_Some (f : Node → Node) (h : gmap nat Node) i j :
  is_Some (alter f i h !! j) ↔ is_Some (h !! j).
Proof.
  rewrite lookup_alter. case_decide; subst; [|done].
  by rewrite fmap_is_Some.
Qed.

Lemma get_element_run' a e l :
  element <$> heap l !! a = Some e → get_element a l = (l, Ok e).
Proof.
  intros H. destruct (heap l !! a) as [nd|] eqn:E; [|done].
  rewrite (get_element_run _ _ _ E). simpl in H. congruence.
Qed.

Lemma element_alter_next (h : gmap nat Node) v i j :
  element <$> alter (with_next v) i h !! j = element <$> h !! j.
Proof.
  rewrite lookup_alter. case_decide; subst; [|done]. by destruct (h !! j).
Qed.

Lemma element_alter_prev (h : gmap nat Node) v i j :
  element <$> alter (with_prev v) i h !! j = element <$> h !! j.
Proof.
  rewrite lookup_alter. case_decide; subst; [|done]. by destruct (h !! j).
Qed.

Lemma fresh_heap_None (h : gmap nat Node) : h !! fresh (dom h) = None.
Proof. apply not_elem_of_dom, is_fresh. Qed.

(** The store after [pred.next = v] / [succ.prev = v] on an optional node. *)
Definition link_next (o v : option addr) (h : gmap nat Node) : gmap nat Node :=
  match o with Some p => alter (with_next v) p h | None => h end.
Definition link_prev (o v : option addr) (h : gmap nat Node) : gmap nat Node :=
  match o with Some s => alter (with_prev v) s h | None => h end.

(** The list after a successful [insertBetween(e, pred, succ)]. *)
Definition inserted (e : T) (pred succ : option addr) (l : DList) : DList :=
  let n := fresh (dom (heap l)) in
  mkDList
    (link_prev succ (Some n)
       (link_next pred (Some n) (<[n := mkNode e succ pred]> (heap l))))
    (match pred with Some _ => head l | None => Some n end)
    (match succ with Some _ => tail l | None => Some n end)
    (size l + 1)
    (self l).

Lemma insertBetween_run e pred succ l :
  (∀ p, pred = Some p → is_Some (heap l !! p)) →
  (∀ s, succ = Some s → is_Some (heap l !! s)) →
  insertBetween e pred succ l
  = (inserted e pred succ l, Ok (fresh (dom (heap l)))).
Proof.
  intros Hp Hs.
  pose proof (fresh_heap_None (heap l)) as Hn.
  unfold insertBetween, inserted, bind, new_Node.
  destruct pred as [p|], succ as [s|]; simpl.
  - destruct (Hp p eq_refl) as [pd Hpd]. destruct (Hs s eq_refl) as [sd Hsd].
    rewrite put_next_run; [|simpl; rewrite lookup_insert_ne; [eauto|congruence]].
    rewrite put_prev_run; [done|simpl].
    apply lookup_alter_is_Some. rewrite lookup_insert_ne; [eauto|congruence].
  - destruct (Hp p eq_refl) as [pd Hpd].
    rewrite put_next_run; [done|simpl; rewrite lookup_insert_ne; [eauto|congruence]].
  - destruct (Hs s eq_refl) as [sd Hsd].
    unfold put_head, modify; simpl.
    rewrite put_prev_run; [done|simpl; rewrite lookup_insert_ne; [eauto|congruence]].
  - done.
Qed.

(** The list after a successful [deleteNode(node)], where [nd] is the node's
    record before the call. *)
Definition deleted (n : addr) (nd : Node) (l : DList) : DList :=
  mkDList
    (alter (with_next (Some n)) n
       (alter (with_prev (Some n)) n
          (link_prev (next nd) (prev nd)
             (link_next (prev nd) (next nd) (heap l)))))
    (match prev nd with Some _ => head l | None => next nd end)
    (match next nd with Some _ => tail l | None => prev nd end)
    (size l - 1)
    (self l).

Lemma deleteNode_run n nd l :
  heap l !! n = Some nd →
  (∀ p, prev nd = Some p → is_Some (heap l !! p)) →
  (∀ s, next nd = Some s → is_Some (heap l !! s)) →
  deleteNode n l = (deleted n nd l, Ok (element nd)).
Proof.
  intros Hn Hp Hs.
  unfold deleteNode, deleted, bind.
  rewrite (get_prev_run _ _ _ Hn), (get_next_run _ _ _ Hn).
  assert (He : ∀ h : gmap nat Node,
             element <$> h !! n = Some (element nd) →
             element <$> alter (with_next (Some n)) n
                           (alter (with_prev (Some n)) n h) !! n
             = Some (element nd)).
  { intros h. by rewrite !element_alter_next, !element_alter_prev. }
  assert (He0 : element <$> heap l !! n = Some (element nd)) by by rewrite Hn.
  destruct (prev nd) as [p|] eqn:Ep, (next nd) as [s|] eqn:Es; simpl.
  - rewrite put_next_run by eauto.
    rewrite put_prev_run by (simpl; apply lookup_alter_is_Some; eauto).
    rewrite put_prev_run by (simpl; rewrite !lookup_alter_is_Some; eauto).
    rewrite put_next_run by (simpl; rewrite !lookup_alter_is_Some; eauto).
    simpl. apply get_element_run'. simpl. apply He.
    by rewrite element_alter_prev, element_alter_next.
  - rewrite put_next_run by eauto.
    unfold put_tail, modify; simpl.
    rewrite put_prev_run by (simpl; rewrite !lookup_alter_is_Some; eauto).
    rewrite put_next_run by (simpl; rewrite !lookup_alter_is_Some; eauto).
    simpl. apply get_element_run'. simpl. apply He.
    by rewrite element_alter_next.
  - unfold put_head, modify; simpl.
    rewrite put_prev_run by (simpl; eauto).
    rewrite put_prev_run by (simpl; rewrite !lookup_alter_is_Some; eauto).
    rewrite put_next_run by (simpl; rewrite !lookup_alter_is_Some; eauto).
    simpl. apply get_element_run'. simpl. apply He.
    by rewrite element_alter_prev.
  - unfold put_head, put_tail, modify; simpl.
    rewrite put_prev_run by (simpl; eauto).
    rewrite put_next_run by (simpl; rewrite !lookup_alter_is_Some; eauto).
    simpl. apply get_element_run'. simpl. by apply He.
Qed.


(** *** Field views of the store

    [nxt h a] is what [a.next] reads in store [h]: [None] when [a] is not a
    node of the store, [Some None] for an absent successor. *)
Definition nxt (h : gmap nat Node) (a : addr) : option (option addr) :=
  next <$> h !! a.
Definition prv (h : gmap nat Node) (a : addr) : option (option addr) :=
  prev <$> h !! a.
Definition elt (h : gmap nat Node) (a : addr) : option T :=
  element <$> h !! a.

(** A node is deprecated when its successor link points at itself. *)
Definition deprecated (h : gmap nat Node) (a : addr) : bool :=
  bool_decide (nxt h a = Some (Some a)).

Lemma nxt_is_Some h a : is_Some (nxt h a) ↔ is_Some (h !! a).
Proof. unfold nxt. by rewrite fmap_is_Some. Qed.
Lemma prv_is_Some h a : is_Some (prv h a) ↔ is_Some (h !! a).
Proof. unfold prv. by rewrite fmap_is_Some. Qed.
Lemma prv_nxt_is_Some h a : is_Some (prv h a) ↔ is_Some (nxt h a).
Proof. by rewrite prv_is_Some, nxt_is_Some. Qed.

Lemma nxt_alter_next h v i j :
  nxt (alter (with_next v) i h) j
  = if decide (i = j) then (λ _, v) <$> nxt h j else nxt h j.
Proof.
  unfold nxt. rewrite lookup_alter.
  case_decide; subst; [|done]. by destruct (h !! j).
Qed.
Lemma nxt_alter_prev h v i j : nxt (alter (with_prev v) i h) j = nxt h j.
Proof.
  unfold nxt. rewrite lookup_alter.
  case_decide; subst; [|done]. by destruct (h !! j).
Qed.
Lemma nxt_alter_element h e i j : nxt (alter (with_element e) i h) j = nxt h j.
Proof.
  unfold nxt. rewrite lookup_alter.
  case_decide; subst; [|done]. by destruct (h !! j).
Qed.
Lemma prv_alter_prev h v i j :
  prv (alter (with_prev v) i h) j
  = if decide (i = j) then (λ _, v) <$> prv h j else prv h j.
Proof.
  unfold prv. rewrite lookup_alter.
  case_decide; subst; [|done]. by destruct (h !! j).
Qed.
Lemma prv_alter_next h v i j : prv (alter (with_next v) i h) j = prv h j.
Proof.
  unfold prv. rewrite lookup_alter.
  case_decide; subst; [|done]. by destruct (h !! j).
Qed.
Lemma prv_alter_element h e i j : prv (alter (with_element e) i h) j = prv h j.
Proof.
  unfold prv. rewrite lookup_alter.
  case_decide; subst; [|done]. by destruct (h !! j).
Qed.
Lemma nxt_insert h nd i j :
  nxt (<[i := nd]> h) j = if decide (i = j) then Some (next nd) else nxt h j.
Proof. unfold nxt. rewrite lookup_insert. by case_decide. Qed.
Lemma prv_insert h nd i j :
  prv (<[i := nd]> h) j = if decide (i = j) then Some (prev nd) else prv h j.
Proof. unfold prv. rewrite lookup_insert. by case_decide. Qed.
Lemma elt_insert h nd i j :
  elt (<[i := nd]> h) j = if decide (i = j) then Some (element nd) else elt h j.
Proof. unfold elt. rewrite lookup_insert. by case_decide. Qed.
Lemma elt_alter_next h v i j : elt (alter (with_next v) i h) j = elt h j.
Proof. apply element_alter_next. Qed.
Lemma elt_alter_prev h v i j : elt (alter (with_prev v) i h) j = elt h j.
Proof. apply element_alter_prev. Qed.
Lemma elt_alter_element h e i j :
  elt (alter (with_element e) i h) j
  = if decide (i = j) then (λ _, e) <$> elt h j else elt h j.
Proof.
  unfold elt. rewrite lookup_alter.
  case_decide; subst; [|done]. by destruct (h !! j).
Qed.

Lemma nxt_fresh h : nxt h (fresh (dom h)) = None.
Proof. unfold nxt. by rewrite fresh_heap_None. Qed.
Lemma prv_fresh h : prv h (fresh (dom h)) = None.
Proof. unfold prv. by rewrite fresh_heap_None. Qed.

(** The links of the store after [insertBetween]. *)
Lemma nxt_inserted e pred succ l j :
  (∀ p, pred = Some p → is_Some (nxt (heap l) p)) →
  nxt (heap (inserted e pred succ l)) j
  = if decide (j = fresh (dom (heap l))) then Some succ
    else if decide (pred = Some j) then Some (Some (fresh (dom (heap l))))
    else nxt (heap l) j.
Proof.
  intros Hp. pose proof (nxt_fresh (heap l)) as Hn. simpl.
  assert (nxt (link_prev succ (Some (fresh (dom (heap l))))
                 (link_next pred (Some (fresh (dom (heap l))))
                    (<[fresh (dom (heap l)) := mkNode e succ pred]> (heap l)))) j
          = nxt (link_next pred (Some (fresh (dom (heap l))))
                    (<[fresh (dom (heap l)) := mkNode e succ pred]> (heap l))) j)
    as ->.
  { destruct succ; simpl; [apply nxt_alter_prev|done]. }
  destruct pred as [p|]; simpl.
  - destruct (Hp p eq_refl) as [x Hx].
    rewrite nxt_alter_next, nxt_insert.
    repeat case_decide; simplify_eq; try done.
    by rewrite Hx.
  - rewrite nxt_insert. repeat case_decide; simplify_eq; done.
Qed.

Lemma prv_inserted e pred succ l j :
  (∀ s, succ = Some s → is_Some (prv (heap l) s)) →
  prv (heap (inserted e pred succ l)) j
  = if decide (j = fresh (dom (heap l))) then Some pred
    else if decide (succ = Some j) then Some (Some (fresh (dom (heap l))))
    else prv (heap l) j.
Proof.
  intros Hs. pose proof (prv_fresh (heap l)) as Hn. simpl.
  assert (∀ h, prv (link_next pred (Some (fresh (dom (heap l)))) h) j = prv h j)
    as Hnx.
  { intros h. destruct pred; simpl; [apply prv_alter_next|done]. }
  destruct succ as [s|]; simpl.
  - destruct (Hs s eq_refl) as [x Hx].
    rewrite prv_alter_prev, Hnx, prv_insert.
    repeat case_decide; simplify_eq; try done.
    by rewrite Hx.
  - rewrite Hnx, prv_insert. repeat case_decide; simplify_eq; done.
Qed.

Lemma elt_inserted e pred succ l j :
  elt (heap (inserted e pred succ l)) j
  = if decide (j = fresh (dom (heap l))) then Some e else elt (heap l) j.
Proof.
  simpl.
  assert (∀ v h, elt (link_prev succ v h) j = elt h j) as ->.
  { intros v h. destruct succ; simpl; [apply elt_alter_prev|done]. }
  assert (∀ v h, elt (link_next pred v h) j = elt h j) as ->.
  { intros v h. destruct pred; simpl; [apply elt_alter_next|done]. }
  rewrite elt_insert. repeat case_decide; simplify_eq; done.
Qed.

(** The links of the store after [deleteNode]. *)
Lemma nxt_deleted n nd l j :
  heap l !! n = Some nd →
  (∀ p, prev nd = Some p → is_Some (nxt (heap l) p)) →
  nxt (heap (deleted n nd l)) j
  = if decide (j = n) then Some (Some n)
    else if decide (prev nd = Some j) then Some (next nd)
    else nxt (heap l) j.
Proof.
  intros Hn Hp. simpl.
  rewrite nxt_alter_next, nxt_alter_prev.
  assert (∀ v h, nxt (link_prev (next nd) v h) j = nxt h j) as Hpv.
  { intros v h. destruct (next nd); simpl; [apply nxt_alter_prev|done]. }
  rewrite Hpv.
  destruct (prev nd) as [p|]; simpl.
  - destruct (Hp p eq_refl) as [x Hx]. rewrite nxt_alter_next.
    repeat case_decide; simplify_eq; try done.
    + rewrite Hx. done.
    + unfold nxt. by rewrite Hn.
    + by rewrite Hx.
  - repeat case_decide; simplify_eq; try done.
    unfold nxt. by rewrite Hn.
Qed.

Lemma prv_deleted n nd l j :
  heap l !! n = Some nd →
  (∀ s, next nd = Some s → is_Some (prv (heap l) s)) →
  prv (heap (deleted n nd l)) j
  = if decide (j = n) then Some (Some n)
    else if decide (next nd = Some j) then Some (prev nd)
    else prv (heap l) j.
Proof.
  intros Hn Hs. simpl.
  rewrite prv_alter_next, prv_alter_prev.
  assert (∀ v h, prv (link_next (prev nd) v h) j = prv h j) as Hnx.
  { intros v h. destruct (prev nd); simpl; [apply prv_alter_next|done]. }
  destruct (next nd) as [s|]; simpl.
  - destruct (Hs s eq_refl) as [x Hx]. rewrite prv_alter_prev, Hnx.
    repeat case_decide; simplify_eq; try done.
    + rewrite Hx. done.
    + unfold prv. by rewrite Hn.
    + by rewrite Hx.
  - rewrite Hnx. repeat case_decide; simplify_eq; try done.
    unfold prv. by rewrite Hn.
Qed.

Lemma elt_deleted n nd l j : elt (heap (deleted n nd l)) j = elt (heap l) j.
Proof.
  simpl. rewrite elt_alter_next, elt_alter_prev.
  assert (∀ o v h, elt (link_prev o v h) j = elt h j) as ->.
  { intros o v h. destruct o; simpl; [apply elt_alter_prev|done]. }
  assert (∀ o v h, elt (link_next o v h) j = elt h j) as ->.
  { intros o v h. destruct o; simpl; [apply elt_alter_next|done]. }
  done.
Qed.


(* use the back-link clause of the invariant at some live node *)
Ltac use_prev Hpv :=
  match goal with
  | Hx : prv ?h ?x = Some (Some _) |- _ =>
      let Hl' := fresh in
      assert (Hl' : nxt h x ≠ Some (Some x)) by (inst; congruence);
      pose proof (Hpv _ _ Hx Hl'); fin
  end.

(** *** The invariant of every doubly linked list

    It holds whatever public methods were called, [clear(true)] included
    (after which nodes that are not reachable from [head] can still be
    live and can be spliced on through the positions that hold them). *)
Record inv (l : DList) : Prop := mkInv {
  (* the head has no predecessor and is not deprecated *)
  inv_head : ∀ a, head l = Some a →
    prv (heap l) a = Some None ∧ nxt (heap l) a ≠ Some (Some a);
  (* the tail has no successor *)
  inv_tail : ∀ a, tail l = Some a → nxt (heap l) a = Some None;
  (* the successor of a live node is live and links back to it *)
  inv_next : ∀ a m, nxt (heap l) a = Some (Some m) → m ≠ a →
    prv (heap l) m = Some (Some a) ∧ nxt (heap l) m ≠ Some (Some m);
  (* the predecessor of a live node links forward to it *)
  inv_prev : ∀ a m, prv (heap l) a = Some (Some m) →
    nxt (heap l) a ≠ Some (Some a) → nxt (heap l) m = Some (Some a);
  (* following successor links from a live node never comes back *)
  inv_rank : ∃ rank : nat → nat, ∀ a m,
    nxt (heap l) a = Some (Some m) → m ≠ a → (rank m < rank a)%nat;
}.

Lemma inv_empty c : inv (empty c).
Proof.
  split; simpl; try done.
  exists (λ _, O). intros a m. unfold nxt. by rewrite lookup_empty.
Qed.

(** A live node of the store: allocated and not deprecated. *)
Definition live (h : gmap nat Node) (a : addr) : Prop :=
  is_Some (nxt h a) ∧ nxt h a ≠ Some (Some a).

Lemma inv_prev_live l a m :
  inv l → prv (heap l) a = Some (Some m) → live (heap l) a → live (heap l) m.
Proof.
  intros Hi Hp [_ Hl]. pose proof (inv_prev _ Hi _ _ Hp Hl) as Hm.
  split; [by rewrite Hm|]. rewrite Hm. intros [= ->]. by rewrite Hm in Hl.
Qed.

Lemma inv_next_live l a m :
  inv l → nxt (heap l) a = Some (Some m) → live (heap l) a → live (heap l) m.
Proof.
  intros Hi Hn [_ Hl].
  assert (m ≠ a) as Hne by (intros ->; done).
  destruct (inv_next _ Hi _ _ Hn Hne) as [Hp Hm].
  split; [|done]. apply prv_nxt_is_Some. by rewrite Hp.
Qed.

Lemma inserted_inv e pred succ l :
  inv l →
  (∀ p, pred = Some p → nxt (heap l) p = Some succ ∧ succ ≠ Some p) →
  (∀ s, succ = Some s →
        prv (heap l) s = Some pred ∧ nxt (heap l) s ≠ Some (Some s)) →
  inv (inserted e pred succ l).
Proof.
  intros Hi Hp Hs.
  assert (Hp' : ∀ p, pred = Some p → is_Some (nxt (heap l) p)).
  { intros p E. destruct (Hp p E) as [-> _]. done. }
  assert (Hs' : ∀ s, succ = Some s → is_Some (prv (heap l) s)).
  { intros s E. destruct (Hs s E) as [-> _]. done. }
  pose proof (nxt_fresh (heap l)) as Hfn.
  pose proof (prv_fresh (heap l)) as Hfp.
  set (n := fresh (dom (heap l))) in *.
  assert (Hsn : succ ≠ Some n).
  { intros E. destruct (Hs' n E) as [x Hx]. congruence. }
  assert (Hpn : pred ≠ Some n).
  { intros E. destruct (Hp' n E) as [x Hx]. congruence. }
  destruct Hi as [Hhd Htl Hnx Hpv [rank Hrk]].
  assert (Hp1 : ∀ p, pred = Some p → nxt (heap l) p = Some succ) by (intros ? E; first [apply (Hp _ E)|apply (Hs _ E)]).
  assert (Hp2 : ∀ p, pred = Some p → succ ≠ Some p) by (intros ? E; first [apply (Hp _ E)|apply (Hs _ E)]).
  assert (Hs1 : ∀ s, succ = Some s → prv (heap l) s = Some pred) by (intros ? E; first [apply (Hp _ E)|apply (Hs _ E)]).
  assert (Hs2 : ∀ s, succ = Some s → nxt (heap l) s ≠ Some (Some s)) by (intros ? E; first [apply (Hp _ E)|apply (Hs _ E)]).
  clear Hp Hs.
  split.
  - intros a Ha.
    rewrite nxt_inserted, prv_inserted by done. fold n.
    simpl in Ha. destruct pred as [p|]; simplify_eq.
    + destruct (Hhd a Ha) as [Ha1 Ha2].
      repeat case_decide; simplify_eq; try fin.
    + repeat case_decide; simplify_eq; try fin.
  - intros a Ha.
    rewrite nxt_inserted by done. fold n.
    simpl in Ha. destruct succ as [s|]; simplify_eq.
    + pose proof (Htl a Ha) as Ha1.
      repeat case_decide; simplify_eq; try fin.
    + repeat case_decide; simplify_eq; try fin.
  - intros a m.
    rewrite !nxt_inserted, prv_inserted by done. fold n.
    intros Ha Hne.
    repeat case_decide; simplify_eq; try fin.
    all: try (destruct (Hnx _ _ Ha Hne) as [Hm1 Hm2]); try fin.
  - intros a m.
    rewrite !nxt_inserted, prv_inserted by done. fold n.
    intros Ha Hl.
    repeat case_decide; simplify_eq; try fin.
    all: try (pose proof (Hpv _ _ Ha Hl) as Hm1); try fin.
    all: try use_prev Hpv.
  - exists (λ x, if decide (x = n)
                 then match succ with Some s => 2 * rank s + 3 | None => 0 end
                 else 2 * rank x + 2)%nat.
    intros a m.
    rewrite !nxt_inserted by done. fold n.
    intros Ha Hne.
    repeat case_decide; simplify_eq; try fin.
    all: try (pose proof (Hrk _ _ Ha Hne)); try fin.
    all: try (destruct (Hnx _ _ Ha Hne); congruence).
    all: inst.
    all: try (destruct succ as [s|]; [|lia]).
    all: try (assert (rank s < rank a)%nat by (apply Hrk; congruence)).
    all: try lia.
Qed.


Lemma deleted_inv n nd l :
  inv l → heap l !! n = Some nd → next nd ≠ Some n → inv (deleted n nd l).
Proof.
  intros Hi Hn Hlive.
  assert (Hnn : nxt (heap l) n = Some (next nd)) by (unfold nxt; by rewrite Hn).
  assert (Hnp : prv (heap l) n = Some (prev nd)) by (unfold prv; by rewrite Hn).
  assert (Hlive' : nxt (heap l) n ≠ Some (Some n)) by congruence.
  destruct Hi as [Hhd Htl Hnx Hpv [rank Hrk]].
  destruct nd as [e0 nx pv]; simpl in *.
  assert (F1 : ∀ p, pv = Some p → nxt (heap l) p = Some (Some n)).
  { intros p E. apply Hpv; congruence. }
  assert (F1' : ∀ p, pv = Some p → p ≠ n).
  { intros p E ->. specialize (F1 _ E). congruence. }
  assert (F2n : ∀ s, nx = Some s → s ≠ n) by congruence.
  assert (F2 : ∀ s, nx = Some s → prv (heap l) s = Some (Some n)).
  { intros s E. apply Hnx; [congruence|by apply F2n]. }
  assert (F2' : ∀ s, nx = Some s → nxt (heap l) s ≠ Some (Some s)).
  { intros s E. apply (Hnx n); [congruence|by apply F2n]. }
  assert (F3 : ∀ p s, pv = Some p → nx = Some s →
                      (rank s < rank p)%nat).
  { intros p s Ep Es.
    assert (rank s < rank n)%nat by (apply Hrk; [congruence|by apply F2n]).
    assert (rank n < rank p)%nat by (apply Hrk; [by apply F1|]; intros E; by apply (F1' p)).
    lia. }
  assert (Hp' : ∀ p, pv = Some p → is_Some (nxt (heap l) p)).
  { intros p E. rewrite (F1 _ E). done. }
  assert (Hs' : ∀ s, nx = Some s → is_Some (prv (heap l) s)).
  { intros s E. rewrite (F2 _ E). done. }
  split.
  - intros a Ha.
    rewrite nxt_deleted, prv_deleted by done. simpl.
    simpl in Ha. destruct pv as [p|]; simplify_eq.
    + destruct (Hhd a Ha) as [Ha1 Ha2].
      repeat case_decide; simplify_eq; try fin.
    + repeat case_decide; simplify_eq; try fin.
  - intros a Ha.
    rewrite nxt_deleted by done. simpl.
    simpl in Ha. destruct nx as [s|]; simplify_eq.
    + pose proof (Htl a Ha) as Ha1.
      repeat case_decide; simplify_eq; try fin.
    + repeat case_decide; simplify_eq; try fin.
  - intros a m.
    rewrite !nxt_deleted, prv_deleted by done. simpl.
    intros Ha Hne.
    repeat case_decide; simplify_eq; try fin.
    all: try (destruct (Hnx _ _ Ha Hne) as [Hm1 Hm2]); try fin.
  - intros a m.
    rewrite !nxt_deleted, prv_deleted by done. simpl.
    intros Ha Hl.
    repeat case_decide; simplify_eq; try fin.
    all: try (pose proof (Hpv _ _ Ha Hl) as Hm1); try fin.
    all: try use_prev Hpv.
  - exists rank.
    intros a m.
    rewrite !nxt_deleted by done. simpl.
    intros Ha Hne.
    repeat case_decide; simplify_eq; try fin.
    all: try (pose proof (Hrk _ _ Ha Hne)); try fin.
    by apply F3.
Qed.


(** *** What each method does, as an equation on the whole list *)

Lemma get_next_nxt a l :
  get_next a l
  = (l, match nxt (heap l) a with Some x => Ok x | None => Err DanglingRef end).
Proof. unfold get_next, bind, load, nxt. by destruct (heap l !! a). Qed.

Lemma get_prev_prv a l :
  get_prev a l
  = (l, match prv (heap l) a with Some x => Ok x | None => Err DanglingRef end).
Proof. unfold get_prev, bind, load, prv. by destruct (heap l !! a). Qed.

Lemma get_element_elt a l :
  get_element a l
  = (l, match elt (heap l) a with Some x => Ok x | None => Err DanglingRef end).
Proof. unfold get_element, bind, load, elt. by destruct (heap l !! a). Qed.

Lemma validate_spec p l :
  validate p l
  = (l, if bool_decide (pos_container p = self l) then
          match nxt (heap l) (pos_node p) with
          | None => Err DanglingRef
          | Some nx =>
              if bool_decide (nx = Some (pos_node p))
              then Err (Throw InvalidPosition) else Ok (pos_node p)
          end
        else Err (Throw InvalidPosition)).
Proof.
  unfold validate, bind, get, isDeprecated, bind. simpl.
  case_bool_decide; [|done].
  rewrite get_next_nxt. destruct (nxt (heap l) (pos_node p)); [|done].
  simpl. by case_bool_decide.
Qed.

(** A position is valid for a list when [validate] accepts it. *)
Definition valid (p : Position) (l : DList) : Prop :=
  validate p l = (l, Ok (pos_node p)).

Lemma valid_iff p l :
  valid p l ↔ pos_container p = self l ∧ live (heap l) (pos_node p).
Proof.
  unfold valid, live. rewrite validate_spec.
  case_bool_decide; [|naive_solver].
  destruct (nxt (heap l) (pos_node p)) as [nx|]; [|naive_solver].
  case_bool_decide; naive_solver.
Qed.

Lemma invalid_iff p l :
  validate p l = (l, Err (Throw InvalidPosition))
  ↔ pos_container p ≠ self l
    ∨ nxt (heap l) (pos_node p) = Some (Some (pos_node p)).
Proof.
  rewrite validate_spec.
  case_bool_decide; [|naive_solver].
  destruct (nxt (heap l) (pos_node p)) as [nx|]; [|naive_solver].
  case_bool_decide; naive_solver.
Qed.

Lemma validate_cases p l :
  (valid p l ∧ pos_container p = self l ∧ live (heap l) (pos_node p))
  ∨ (∃ x, validate p l = (l, Err x) ∧ x ≠ OutOfFuel
          ∧ (x = DanglingRef → nxt (heap l) (pos_node p) = None)).
Proof.
  destruct (decide (pos_container p = self l ∧ live (heap l) (pos_node p)))
    as [H|H].
  - left. split; [by apply valid_iff|done].
  - right. unfold live in H. rewrite validate_spec.
    case_bool_decide.
    + destruct (nxt (heap l) (pos_node p)) as [nx|] eqn:E.
      * case_bool_decide; [by eexists|]. destruct H. split; [done|].
        split; [done|congruence].
      * by eexists.
    + by eexists.
Qed.

(** The arguments [insertBetween] gets from the public methods: [pred] and
    [succ] are live, and linked to one another. *)
Definition can_insert (l : DList) (pred succ : option addr) : Prop :=
  (∀ p, pred = Some p → nxt (heap l) p = Some succ ∧ succ ≠ Some p) ∧
  (∀ s, succ = Some s →
        prv (heap l) s = Some pred ∧ nxt (heap l) s ≠ Some (Some s)).

Lemma can_insert_run e pred succ l :
  can_insert l pred succ →
  insertBetween e pred succ l
  = (inserted e pred succ l, Ok (fresh (dom (heap l)))).
Proof.
  intros [Hp Hs]. apply insertBetween_run.
  - intros q E. apply nxt_is_Some. destruct (Hp q E) as [-> _]. done.
  - intros s E. apply prv_is_Some. destruct (Hs s E) as [-> _]. done.
Qed.

Lemma can_insert_inv e pred succ l :
  inv l → can_insert l pred succ → inv (inserted e pred succ l).
Proof. intros Hi [Hp Hs]. by apply inserted_inv. Qed.

Lemma addAfter_cases p e l :
  inv l →
  (∃ x, validate p l = (l, Err x) ∧ addAfter p e l = (l, Err x)
        ∧ x ≠ OutOfFuel) ∨
  (valid p l ∧ ∃ nx, nxt (heap l) (pos_node p) = Some nx ∧
     can_insert l (Some (pos_node p)) nx ∧
     addAfter p e l
     = (inserted e (Some (pos_node p)) nx l,
        Ok (mkPosition (fresh (dom (heap l))) (self l)))).
Proof.
  intros Hi. unfold addAfter, bind.
  destruct (validate_cases p l) as [(Hv & Hc & Ha & Hl)|(x & Hx & Hf & _)].
  - right. split; [done|]. rewrite Hv.
    destruct Ha as [nx Hnx]. exists nx. split; [done|].
    rewrite get_next_nxt, Hnx.
    assert (Hci : can_insert l (Some (pos_node p)) nx).
    { split.
      - intros ? [= <-]. split; congruence.
      - intros s ->. apply (inv_next _ Hi); [done|]. intros ->. congruence. }
    split; [done|]. by rewrite can_insert_run.
  - left. exists x. by rewrite Hx.
Qed.

Lemma addBefore_cases p e l :
  inv l →
  (∃ x, validate p l = (l, Err x) ∧ addBefore p e l = (l, Err x)
        ∧ x ≠ OutOfFuel) ∨
  (valid p l ∧ ∃ pv, prv (heap l) (pos_node p) = Some pv ∧
     can_insert l pv (Some (pos_node p)) ∧
     addBefore p e l
     = (inserted e pv (Some (pos_node p)) l,
        Ok (mkPosition (fresh (dom (heap l))) (self l)))).
Proof.
  intros Hi. unfold addBefore, bind.
  destruct (validate_cases p l) as [(Hv & Hc & Ha & Hl)|(x & Hx & Hf & _)].
  - right. split; [done|]. rewrite Hv.
    apply prv_nxt_is_Some in Ha. destruct Ha as [pv Hpv]. exists pv.
    split; [done|].
    rewrite get_prev_prv, Hpv.
    assert (Hci : can_insert l pv (Some (pos_node p))).
    { split.
      - intros q ->. pose proof (inv_prev _ Hi _ _ Hpv Hl) as Hq.
        split; [done|]. intros [= E]. congruence.
      - intros ? [= <-]. split; congruence. }
    split; [done|]. by rewrite can_insert_run.
  - left. exists x. by rewrite Hx.
Qed.

Lemma addFirst_run e l :
  inv l →
  can_insert l None (head l) ∧
  addFirst e l
  = (inserted e None (head l) l,
     Ok (mkPosition (fresh (dom (heap l))) (self l))).
Proof.
  intros Hi.
  assert (Hci : can_insert l None (head l)).
  { split; [done|]. intros s E. by apply (inv_head _ Hi). }
  split; [done|]. unfold addFirst, bind, this_head.
  by rewrite can_insert_run.
Qed.

Lemma addLast_run e l :
  inv l →
  can_insert l (tail l) None ∧
  addLast e l
  = (inserted e (tail l) None l,
     Ok (mkPosition (fresh (dom (heap l))) (self l))).
Proof.
  intros Hi.
  assert (Hci : can_insert l (tail l) None).
  { split; [|done]. intros q E. split; [by apply (inv_tail _ Hi)|done]. }
  split; [done|]. unfold addLast, bind, this_tail.
  by rewrite can_insert_run.
Qed.

(** [deleteNode] on a live node of a list that satisfies the invariant. *)
Lemma deleteNode_live n l :
  inv l → live (heap l) n →
  ∃ nd, heap l !! n = Some nd ∧ next nd ≠ Some n ∧
        deleteNode n l = (deleted n nd l, Ok (element nd)).
Proof.
  intros Hi [Ha Hl]. apply nxt_is_Some in Ha. destruct Ha as [nd Hn].
  assert (Hnn : nxt (heap l) n = Some (next nd)) by (unfold nxt; by rewrite Hn).
  assert (Hnp : prv (heap l) n = Some (prev nd)) by (unfold prv; by rewrite Hn).
  exists nd. split; [done|]. split; [congruence|].
  apply deleteNode_run; [done| |].
  - intros q E. apply nxt_is_Some. rewrite E in Hnp.
    rewrite (inv_prev _ Hi _ _ Hnp Hl). done.
  - intros s E. apply prv_is_Some. rewrite E in Hnn.
    assert (s ≠ n) by (intros ->; congruence).
    destruct (inv_next _ Hi _ _ Hnn) as [-> _]; done.
Qed.

Lemma delete_cases p l :
  inv l →
  (∃ x, validate p l = (l, Err x) ∧ delete p l = (l, Err x)
        ∧ x ≠ OutOfFuel) ∨
  (valid p l ∧ ∃ nd, heap l !! pos_node p = Some nd ∧
     next nd ≠ Some (pos_node p) ∧
     delete p l = (deleted (pos_node p) nd l, Ok (element nd))).
Proof.
  intros Hi. unfold delete, bind.
  destruct (validate_cases p l) as [(Hv & Hc & Hl)|(x & Hx & Hf & _)].
  - right. split; [done|]. rewrite Hv.
    destruct (deleteNode_live _ _ Hi Hl) as (nd & Hn & Hnl & Hrun).
    by exists nd.
  - left. exists x. by rewrite Hx.
Qed.

Lemma head_live l a : inv l → head l = Some a → live (heap l) a.
Proof.
  intros Hi Ha. destruct (inv_head _ Hi _ Ha) as [Hp Hn].
  split; [|done]. apply prv_nxt_is_Some. by rewrite Hp.
Qed.

Lemma tail_live l a : inv l → tail l = Some a → live (heap l) a.
Proof.
  intros Hi Ha. pose proof (inv_tail _ Hi _ Ha) as Hn.
  split; by rewrite Hn.
Qed.

Lemma removeFirst_cases l :
  inv l →
  (head l = None ∧ removeFirst l = (l, Err (Throw EmptyContainer))) ∨
  (∃ n nd, head l = Some n ∧ heap l !! n = Some nd ∧ next nd ≠ Some n ∧
     removeFirst l = (deleted n nd l, Ok (element nd))).
Proof.
  intros Hi. unfold removeFirst, bind, this_head.
  destruct (head l) as [n|] eqn:E; [right|by left].
  destruct (deleteNode_live _ _ Hi (head_live _ _ Hi E))
    as (nd & Hn & Hnl & Hrun).
  by exists n, nd.
Qed.

Lemma removeLast_cases l :
  inv l →
  (tail l = None ∧ removeLast l = (l, Err (Throw EmptyContainer))) ∨
  (∃ n nd, tail l = Some n ∧ heap l !! n = Some nd ∧ next nd ≠ Some n ∧
     removeLast l = (deleted n nd l, Ok (element nd))).
Proof.
  intros Hi. unfold removeLast, bind, this_tail.
  destruct (tail l) as [n|] eqn:E; [right|by left].
  destruct (deleteNode_live _ _ Hi (tail_live _ _ Hi E))
    as (nd & Hn & Hnl & Hrun).
  by exists n, nd.
Qed.

(** *** [clear] *)

(** The store after the loop of [clear] has walked the nodes [ch]. *)
Definition deprecate_all (ch : list addr) (h : gmap nat Node) : gmap nat Node :=
  fold_left (λ h a, alter (with_next (Some a)) a h) ch h.

Lemma nxt_deprecate_all ch h j :
  nxt (deprecate_all ch h) j
  = if decide (j ∈ ch) then (λ _, Some j) <$> nxt h j else nxt h j.
Proof.
  revert h. induction ch as [|a r IH]; intros h; simpl.
  - destruct (decide (j ∈ [])) as [H|]; [by apply elem_of_nil in H|done].
  - rewrite IH, nxt_alter_next.
    repeat case_decide; subst; try done; try set_solver.
    by destruct (nxt h j).
Qed.

Lemma prv_deprecate_all ch h j : prv (deprecate_all ch h) j = prv h j.
Proof.
  revert h. induction ch as [|a r IH]; intros h; simpl; [done|].
  by rewrite IH, prv_alter_next.
Qed.

Lemma elt_deprecate_all ch h j : elt (deprecate_all ch h) j = elt h j.
Proof.
  revert h. induction ch as [|a r IH]; intros h; simpl; [done|].
  by rewrite IH, elt_alter_next.
Qed.

Lemma set_heap_id l : set_heap (λ h, h) l = l.
Proof. by destruct l. Qed.

(** The loop ends as soon as the fuel covers the chain from its start. *)
Lemma clear_loop_run ch : ∀ l o fuel,
  chain (nxt (heap l)) o ch → NoDup ch → (length ch ≤ fuel)%nat →
  clear_loop fuel o l = (set_heap (deprecate_all ch) l, Ok tt).
Proof.
  unfold chain. induction ch as [|a r IH]; intros l o fuel; simpl.
  - intros -> _ _. destruct fuel; simpl; unfold ret; by destruct l.
  - intros (-> & nx & Hn & Hl & H) [Ha Hnd]%NoDup_cons Hf.
    destruct fuel as [|fuel]; simpl; [lia|].
    unfold bind. rewrite get_next_nxt, Hn.
    rewrite put_next_run by (apply nxt_is_Some; by rewrite Hn).
    rewrite (IH _ nx); [by destruct l| |done|lia].
    simpl. eapply seg_frame; [|done]. intros b Hb.
    rewrite nxt_alter_next. case_decide; [by subst|done].
Qed.

(** With less fuel the model gives up (the source has no such outcome). *)
Lemma clear_loop_short ch : ∀ l o fuel,
  chain (nxt (heap l)) o ch → NoDup ch → (fuel < length ch)%nat →
  ∃ l', clear_loop fuel o l = (l', Err OutOfFuel).
Proof.
  unfold chain. induction ch as [|a r IH]; intros l o fuel; simpl.
  - intros _ _ ?. lia.
  - intros (-> & nx & Hn & Hl & H) [Ha Hnd]%NoDup_cons Hf.
    destruct fuel as [|fuel]; simpl; [by eexists|].
    unfold bind. rewrite get_next_nxt, Hn.
    rewrite put_next_run by (apply nxt_is_Some; by rewrite Hn).
    destruct (IH (set_heap (alter (with_next (Some a)) a) l) nx fuel)
      as [l' ->]; [|done|lia|by eexists].
    simpl. eapply seg_frame; [|done]. intros b Hb.
    rewrite nxt_alter_next. case_decide; [by subst|done].
Qed.


Lemma inv_ranked l : inv l → ∃ rank, ranked (nxt (heap l)) rank.
Proof. intros Hi. destruct (inv_rank _ Hi) as [rank Hr]. by exists rank. Qed.

(** Under the invariant the walk from [head] ends and meets no node twice. *)
Lemma inv_chain l :
  inv l → ∃ ch, chain (nxt (heap l)) (head l) ch ∧ NoDup ch.
Proof.
  intros Hi. destruct (inv_ranked _ Hi) as [rank Hr].
  destruct (chain_exists _ _ Hr) with (o := head l) as [ch Hch].
  - intros a m Ha Hne. destruct (inv_next _ Hi _ _ Ha Hne) as [Hp Hm].
    split; [|done]. apply prv_nxt_is_Some. by rewrite Hp.
  - intros a Ha. by apply head_live.
  - exists ch. split; [done|]. by eapply seg_NoDup.
Qed.

(** The list after [clear(false)], where [ch] is the chain from its head,
    and after [clear(true)]. *)
Definition cleared (ch : list addr) (l : DList) : DList :=
  mkDList (deprecate_all ch (heap l)) None None 0 (self l).
Definition reset (l : DList) : DList :=
  mkDList (heap l) None None 0 (self l).

Lemma clear_instant_run fuel l : clear fuel true l = (reset l, Ok tt).
Proof. done. Qed.

Lemma clear_run fuel ch l :
  chain (nxt (heap l)) (head l) ch → NoDup ch → (length ch ≤ fuel)%nat →
  clear fuel false l = (cleared ch l, Ok tt).
Proof.
  intros Hch Hnd Hf. unfold clear, bind, this_head. simpl.
  destruct (head l) as [a|] eqn:E; simpl.
  - rewrite (clear_loop_run ch) by done. done.
  - unfold chain in Hch. destruct ch as [|b r]; simpl in Hch; [done|].
    by destruct Hch.
Qed.

Lemma clear_short fuel ch l :
  chain (nxt (heap l)) (head l) ch → NoDup ch → (fuel < length ch)%nat →
  ∃ l', clear fuel false l = (l', Err OutOfFuel).
Proof.
  intros Hch Hnd Hf. unfold clear, bind, this_head. simpl.
  destruct (head l) as [a|] eqn:E; simpl.
  - destruct (clear_loop_short ch l (Some a) fuel) as [l' ->];
      [done|done|done|by eexists].
  - unfold chain in Hch. destruct ch as [|b r]; simpl in *; [lia|].
    by destruct Hch.
Qed.

Lemma reset_inv l : inv l → inv (reset l).
Proof.
  intros [Hhd Htl Hnx Hpv Hrk]. split; simpl; done.
Qed.

Lemma cleared_inv ch l :
  inv l → chain (nxt (heap l)) (head l) ch → inv (cleared ch l).
Proof.
  intros Hi Hch. pose proof Hi as [Hhd Htl Hnx Hpv [rank Hrk]].
  assert (Hin : ∀ a m, a ∉ ch → m ∈ ch →
                       nxt (heap l) a = Some (Some m) → m ≠ a → False).
  { intros a m Ha Hm Ham Hne.
    destruct (Hnx _ _ Ham Hne) as [Hpm _].
    destruct (seg_pred _ _ _ _ _ Hch Hm) as [Hh|(w & Hw & Hwm)].
    - destruct (Hhd _ Hh) as [Hp _]. congruence.
    - assert (m ≠ w).
      { intros ->. destruct (seg_live _ _ _ _ _ Hch Hw). congruence. }
      destruct (Hnx _ _ Hwm) as [Hpw _]; [done|]. congruence. }
  split; simpl; try done.
  - intros a m. rewrite !nxt_deprecate_all, prv_deprecate_all.
    intros Ha Hne.
    destruct (decide (a ∈ ch)) as [Hach|Hach].
    { destruct (nxt (heap l) a); simpl in Ha; congruence. }
    destruct (Hnx _ _ Ha Hne) as [Hpm Hm]. split; [done|].
    destruct (decide (m ∈ ch)) as [Hmch|Hmch]; [|done].
    exfalso. by eapply Hin.
  - intros a m. rewrite !nxt_deprecate_all, prv_deprecate_all.
    intros Ha Hl.
    destruct (decide (a ∈ ch)) as [Hach|Hach].
    { destruct (seg_live _ _ _ _ _ Hch Hach) as [[x Hx] _].
      rewrite Hx in Hl. done. }
    pose proof (Hpv _ _ Ha Hl) as Hm.
    destruct (decide (m ∈ ch)) as [Hmch|Hmch]; [|done].
    exfalso.
    destruct (seg_succ _ _ _ _ _ _ Hch Hmch Hm) as [?|?]; done.
  - exists rank. intros a m. rewrite !nxt_deprecate_all.
    intros Ha Hne. apply Hrk; [|done].
    destruct (decide (a ∈ ch)); [|done].
    destruct (nxt (heap l) a); simpl in Ha; congruence.
Qed.


(** *** Reading methods and [replace] *)

Lemma getAfter_state p l : (getAfter p l).1 = l.
Proof.
  unfold getAfter, bind. rewrite validate_spec.
  case_bool_decide; [|done].
  destruct (nxt (heap l) (pos_node p)) as [nx|] eqn:E; [|done].
  case_bool_decide; [done|]. rewrite get_next_nxt, E. by destruct nx.
Qed.

Lemma getBefore_state p l : (getBefore p l).1 = l.
Proof.
  unfold getBefore, bind. rewrite validate_spec.
  case_bool_decide; [|done].
  destruct (nxt (heap l) (pos_node p)) as [nx|] eqn:E; [|done].
  case_bool_decide; [done|]. rewrite get_prev_prv.
  destruct (prv (heap l) (pos_node p)) as [[?|]|]; done.
Qed.

Lemma getFirst_run l :
  getFirst l = (l, Ok ((λ n, mkPosition n (self l)) <$> head l)).
Proof. unfold getFirst, bind, this_head. by destruct (head l). Qed.

Lemma getLast_run l :
  getLast l = (l, Ok ((λ n, mkPosition n (self l)) <$> tail l)).
Proof. unfold getLast, bind, this_tail. by destruct (tail l). Qed.

(** The list after a successful [replace]. *)
Definition replaced (n : addr) (e : T) (l : DList) : DList :=
  set_heap (alter (with_element e) n) l.

Lemma replace_cases p e l :
  (∃ x, validate p l = (l, Err x) ∧ replace p e l = (l, Err x)
        ∧ x ≠ OutOfFuel) ∨
  (valid p l ∧ ∃ old, elt (heap l) (pos_node p) = Some old ∧
     replace p e l = (replaced (pos_node p) e l, Ok old)).
Proof.
  unfold replace, bind.
  destruct (validate_cases p l) as [(Hv & Hc & Ha & Hl)|(x & Hx & Hf & _)].
  - right. split; [done|]. rewrite Hv.
    apply nxt_is_Some in Ha. destruct Ha as [nd Hn].
    exists (element nd). split; [unfold elt; by rewrite Hn|].
    rewrite (get_element_run _ _ _ Hn).
    by rewrite put_element_run by eauto.
  - left. exists x. by rewrite Hx.
Qed.

Lemma replaced_inv n e l : inv l → inv (replaced n e l).
Proof.
  intros [Hhd Htl Hnx Hpv Hrk]. split; simpl.
  - intros a. rewrite nxt_alter_element, prv_alter_element. apply Hhd.
  - intros a. rewrite nxt_alter_element. apply Htl.
  - intros a m. rewrite !nxt_alter_element, prv_alter_element. apply Hnx.
  - intros a m. rewrite !nxt_alter_element, prv_alter_element. apply Hpv.
  - destruct Hrk as [rank Hrk]. exists rank. intros a m.
    rewrite nxt_alter_element. apply Hrk.
Qed.

(** *** Sequences of calls *)

(** One call of a public method. *)
Inductive Op : Type :=
| AddAfter (p : Position) (e : T)
| AddBefore (p : Position) (e : T)
| AddFirst (e : T)
| AddLast (e : T)
| Clear (fuel : nat) (instant : bool)
| Delete (p : Position)
| GetAfter (p : Position)
| GetBefore (p : Position)
| GetFirst
| GetLast
| RemoveFirst
| RemoveLast
| Replace (p : Position) (e : T).

(** What a call returns. *)
Inductive Ret : Type :=
| RPos (p : Position)
| ROpt (o : option Position)
| RElt (e : T)
| RUnit.

Definition exec (op : Op) : M DList Ret :=
  match op with
  | AddAfter p e => r <- addAfter p e ;; ret (RPos r)
  | AddBefore p e => r <- addBefore p e ;; ret (RPos r)
  | AddFirst e => r <- addFirst e ;; ret (RPos r)
  | AddLast e => r <- addLast e ;; ret (RPos r)
  | Clear fuel instant => clear fuel instant ;;; ret RUnit
  | Delete p => r <- delete p ;; ret (RElt r)
  | GetAfter p => r <- getAfter p ;; ret (ROpt r)
  | GetBefore p => r <- getBefore p ;; ret (ROpt r)
  | GetFirst => r <- getFirst ;; ret (ROpt r)
  | GetLast => r <- getLast ;; ret (ROpt r)
  | RemoveFirst => r <- removeFirst ;; ret (RElt r)
  | RemoveLast => r <- removeLast ;; ret (RElt r)
  | Replace p e => r <- replace p e ;; ret (RElt r)
  end.

(** One step of the life of a list: some call that came to an end (the
    fuel of the model sufficed). *)
Definition step (l l' : DList) : Prop :=
  ∃ op r, exec op l = (l', r) ∧ r ≠ Err OutOfFuel.

(** The lists one can get from [new DoublyLinkedList()] by public calls. *)
Definition reachable (c : cid) (l : DList) : Prop := rtc step (empty c) l.

Lemma bind_ret_state {A B} (m : M DList A) (f : A → B) l :
  (bind m (λ r, ret (f r)) l).1 = (m l).1.
Proof. unfold bind, ret. by destruct (m l) as [l' [a|x]]. Qed.

Lemma bind_ret_res {A B} (m : M DList A) (f : A → B) l :
  (bind m (λ r, ret (f r)) l).2
  = match (m l).2 with Ok a => Ok (f a) | Err x => Err x end.
Proof. unfold bind, ret. by destruct (m l) as [l' [a|x]]. Qed.

(** *** Lists built without [clear(true)]

    [strict l ch]: the invariant holds, [ch] is the chain from [head], [tail]
    is its last node, [size] is its length, and every live node of the store
    is on it. *)
Definition strict (l : DList) (ch : list addr) : Prop :=
  inv l ∧ chain (nxt (heap l)) (head l) ch ∧ tail l = last ch ∧
  size l = Z.of_nat (length ch) ∧ ∀ a, live (heap l) a → a ∈ ch.

Lemma strict_empty c : strict (empty c) [].
Proof.
  split; [apply inv_empty|]. repeat split; try done.
  intros a [[x Hx] _]. unfold nxt in Hx. simpl in Hx.
  by rewrite lookup_empty in Hx.
Qed.

Lemma strict_NoDup l ch : strict l ch → NoDup ch.
Proof.
  intros (Hi & Hch & _). destruct (inv_ranked _ Hi) as [rank Hr].
  by eapply seg_NoDup.
Qed.

Lemma strict_det l ch1 ch2 : strict l ch1 → strict l ch2 → ch1 = ch2.
Proof. intros (_ & H1 & _) (_ & H2 & _). by eapply seg_det. Qed.

(** On a list built without [clear(true)], a validated node without
    predecessor is the head. *)
Lemma strict_no_prev_head l ch a :
  strict l ch → live (heap l) a → prv (heap l) a = Some None →
  head l = Some a.
Proof.
  intros (Hi & Hch & _ & _ & Hcov) Ha Hp.
  destruct (seg_pred _ _ _ _ _ Hch (Hcov _ Ha)) as [?|(w & Hw & Hwa)]; [done|].
  assert (a ≠ w).
  { intros ->. destruct (seg_live _ _ _ _ _ Hch Hw). congruence. }
  destruct (inv_next _ Hi _ _ Hwa) as [Hpa _]; [done|]. congruence.
Qed.

(** Every call leaves the list as it was or changes it in one of five
    ways; the flag tells [clear(true)] from the other four. *)
Inductive change (l : DList) : bool → DList → Prop :=
| change_none : change l false l
| change_insert e pred succ :
    can_insert l pred succ →
    (∀ ch, strict l ch → pred = None → succ = head l) →
    change l false (inserted e pred succ l)
| change_delete n nd :
    heap l !! n = Some nd → next nd ≠ Some n →
    change l false (deleted n nd l)
| change_clear ch :
    chain (nxt (heap l)) (head l) ch → change l false (cleared ch l)
| change_reset : change l true (reset l)
| change_replace n e : change l false (replaced n e l).

Definition instant_clear (op : Op) : bool :=
  match op with Clear _ true => true | _ => false end.

Lemma exec_change op l l' r :
  inv l → exec op l = (l', r) → r ≠ Err OutOfFuel →
  change l (instant_clear op) l'.
Proof.
  intros Hi He Hr.
  assert (l' = (exec op l).1) as -> by by rewrite He.
  assert (r = (exec op l).2) as -> by by rewrite He.
  clear He. destruct op; simpl in *; rewrite bind_ret_state;
    rewrite bind_ret_res in Hr.
  - destruct (addAfter_cases p e l Hi)
      as [(x & _ & -> & _)|(_ & nx & _ & ? & ->)]; by constructor.
  - destruct (addBefore_cases p e l Hi)
      as [(x & _ & -> & _)|(Hv & pv & Hpv & ? & ->)]; constructor; [done|].
    intros ch Hst ->. symmetry. eapply strict_no_prev_head; [done| |done].
    by apply valid_iff in Hv as [_ ?].
  - destruct (addFirst_run e l Hi) as [? ->]. by constructor.
  - destruct (addLast_run e l Hi) as [? ->]. constructor; [done|].
    intros ch (_ & Hch & Htl & _) E. rewrite E in Htl. symmetry in Htl.
    apply last_None in Htl as ->. done.
  - destruct instant.
    + rewrite clear_instant_run. constructor.
    + destruct (inv_chain _ Hi) as (ch & Hch & Hnd).
      destruct (decide (length ch ≤ fuel)%nat).
      * rewrite (clear_run _ ch) by done. by constructor.
      * destruct (clear_short fuel ch l) as [l' E]; [done|done|lia|].
        rewrite E in Hr. done.
  - destruct (delete_cases p l Hi)
      as [(x & _ & -> & _)|(_ & nd & ? & ? & ->)]; by constructor.
  - rewrite getAfter_state. constructor.
  - rewrite getBefore_state. constructor.
  - rewrite getFirst_run. constructor.
  - rewrite getLast_run. constructor.
  - destruct (removeFirst_cases l Hi)
      as [[_ ->]|(n & nd & _ & ? & ? & ->)]; by constructor.
  - destruct (removeLast_cases l Hi)
      as [[_ ->]|(n & nd & _ & ? & ? & ->)]; by constructor.
  - destruct (replace_cases p e l)
      as [(x & _ & -> & _)|(_ & old & _ & ->)]; constructor.
Qed.

Lemma change_inv l b l' : inv l → change l b l' → inv l'.
Proof.
  intros Hi [].
  - done.
  - by apply can_insert_inv.
  - by apply deleted_inv.
  - by apply cleared_inv.
  - by apply reset_inv.
  - by apply replaced_inv.
Qed.

Lemma exec_inv op l l' r :
  inv l → exec op l = (l', r) → r ≠ Err OutOfFuel → inv l'.
Proof. intros Hi He Hr. eapply change_inv; [done|]. by eapply exec_change. Qed.

Lemma step_inv l l' : inv l → step l l' → inv l'.
Proof. intros Hi (op & r & He & Hr). by eapply exec_inv. Qed.

Lemma steps_inv l l' : inv l → rtc step l l' → inv l'.
Proof. intros Hi Hs. induction Hs; [done|]. eauto using step_inv. Qed.

Lemma reachable_inv c l : reachable c l → inv l.
Proof. apply steps_inv, inv_empty. Qed.


(** *** Which nodes are live after a change *)

Lemma inserted_live e pred succ l j :
  can_insert l pred succ →
  live (heap (inserted e pred succ l)) j
  ↔ j = fresh (dom (heap l)) ∨ live (heap l) j.
Proof.
  intros [Hp Hs]. unfold live.
  pose proof (nxt_fresh (heap l)) as Hfn.
  pose proof (prv_fresh (heap l)) as Hfp.
  rewrite nxt_inserted.
  2:{ intros q E. destruct (Hp q E) as [-> _]. done. }
  repeat case_decide; simplify_eq.
  - split; [by left|]. intros _. split; [done|].
    intros [= E]. destruct (Hs _ E) as [E' _]. congruence.
  - destruct (Hp _ eq_refl) as [E1 E2]. rewrite E1.
    split.
    + intros _. right. split; [done|congruence].
    + intros _. split; [done|congruence].
  - split; [by right|]. by intros [?|?].
Qed.

Lemma deleted_live n nd l j :
  inv l → heap l !! n = Some nd → next nd ≠ Some n →
  live (heap (deleted n nd l)) j ↔ j ≠ n ∧ live (heap l) j.
Proof.
  intros Hi Hn Hl. unfold live.
  assert (Hnn : nxt (heap l) n = Some (next nd)) by (unfold nxt; by rewrite Hn).
  assert (Hnp : prv (heap l) n = Some (prev nd)) by (unfold prv; by rewrite Hn).
  assert (Hl' : nxt (heap l) n ≠ Some (Some n)) by congruence.
  assert (F1 : ∀ q, prev nd = Some q → nxt (heap l) q = Some (Some n)).
  { intros q E. apply (inv_prev _ Hi); congruence. }
  rewrite nxt_deleted; [|done|].
  2:{ intros q E. rewrite (F1 q E). done. }
  repeat case_decide; simplify_eq.
  - split; [by intros [_ ?]|by intros [? _]].
  - rewrite (F1 _ H0).
    split; [intros _; split; [done|]; split; [done|congruence]|].
    intros _. split; [done|]. intros [= E].
    destruct (inv_rank _ Hi) as [rank Hr].
    assert (rank j < rank n)%nat by (apply Hr; congruence).
    assert (rank n < rank j)%nat by (apply Hr; [by apply F1|congruence]).
    lia.
  - split; [done|by intros [_ ?]].
Qed.

Lemma cleared_live ch l j :
  live (heap (cleared ch l)) j ↔ (j ∉ ch) ∧ live (heap l) j.
Proof.
  unfold live. simpl. rewrite nxt_deprecate_all.
  case_decide.
  - destruct (nxt (heap l) j); simpl; naive_solver.
  - naive_solver.
Qed.

Lemma replaced_live n e l j :
  live (heap (replaced n e l)) j ↔ live (heap l) j.
Proof. unfold live. simpl. by rewrite nxt_alter_element. Qed.

Lemma change_self l b l' : change l b l' → self l' = self l.
Proof. by intros []. Qed.

(** A deprecated node stays deprecated, whatever is called next. *)
Lemma change_deprecated l b l' j :
  inv l → change l b l' →
  nxt (heap l) j = Some (Some j) → nxt (heap l') j = Some (Some j).
Proof.
  intros Hi Hc Hj. destruct Hc as [|e pred succ Hci _|n nd Hn Hl|ch Hch| |n e].
  - done.
  - pose proof (nxt_fresh (heap l)) as Hfn. destruct Hci as [Hp Hs].
    rewrite nxt_inserted.
    2:{ intros q E. destruct (Hp q E) as [-> _]. done. }
    repeat case_decide; simplify_eq; try done; try congruence.
    destruct (Hp _ eq_refl). congruence.
  - rewrite nxt_deleted; [|done|].
    + repeat case_decide; simplify_eq; try done.
      assert (prv (heap l) n = Some (Some j)) as Hp
        by (unfold prv; rewrite Hn; simpl; by f_equal).
      assert (nxt (heap l) n ≠ Some (Some n)) as Hnl
        by (unfold nxt; rewrite Hn; simpl; congruence).
      pose proof (inv_prev _ Hi _ _ Hp Hnl). congruence.
    + intros q E.
      assert (prv (heap l) n = Some (Some q)) as Hp
        by (unfold prv; rewrite Hn; simpl; by f_equal).
      assert (nxt (heap l) n ≠ Some (Some n)) as Hnl
        by (unfold nxt; rewrite Hn; simpl; congruence).
      rewrite (inv_prev _ Hi _ _ Hp Hnl). done.
  - simpl. rewrite nxt_deprecate_all, Hj. by case_decide.
  - done.
  - simpl. by rewrite nxt_alter_element.
Qed.

Lemma steps_deprecated l l' j :
  inv l → rtc step l l' →
  nxt (heap l) j = Some (Some j) →
  nxt (heap l') j = Some (Some j) ∧ self l' = self l.
Proof.
  intros Hi Hs. induction Hs as [|l1 l2 l3 (op & r & He & Hr) Hs IH]; [done|].
  intros Hj. pose proof (exec_change _ _ _ _ Hi He Hr) as Hc.
  destruct IH as [IH1 IH2].
  - by eapply change_inv.
  - by eapply change_deprecated.
  - split; [done|]. rewrite IH2. by eapply change_self.
Qed.


(** The chain after [insertBetween(e, pred, succ)]. *)
Definition spliced (pred : option addr) (n : addr) (ch : list addr)
  : list addr :=
  match pred with
  | Some p => insert_after p n ch
  | None => n :: ch
  end.

Lemma inserted_strict e pred succ l ch :
  strict l ch → can_insert l pred succ → (pred = None → succ = head l) →
  strict (inserted e pred succ l) (spliced pred (fresh (dom (heap l))) ch).
Proof.
  intros Hst Hci Hhd. pose proof (strict_NoDup _ _ Hst) as Hnd.
  destruct Hst as (Hi & Hch & Htl & Hsz & Hcov).
  pose proof (can_insert_inv e _ _ _ Hi Hci) as Hi'.
  pose proof (nxt_fresh (heap l)) as Hfn.
  pose proof (prv_fresh (heap l)) as Hfp.
  set (n := fresh (dom (heap l))) in *.
  assert (Hn : n ∉ ch).
  { intros Hin. destruct (seg_live _ _ _ _ _ Hch Hin) as [[x Hx] _]. congruence. }
  assert (HN : ∀ j, nxt (heap (inserted e pred succ l)) j
               = if decide (j = n) then Some succ
                 else if decide (pred = Some j) then Some (Some n)
                 else nxt (heap l) j).
  { intros j. apply nxt_inserted. intros q E.
    destruct Hci as [Hp _]. destruct (Hp q E) as [-> _]. done. }
  assert (Hsn : succ ≠ Some n).
  { intros E. destruct Hci as [_ Hs]. destruct (Hs _ E) as [Hp _].
    congruence. }
  assert (Hcov' : ∀ a, live (heap (inserted e pred succ l)) a
                       → a = n ∨ a ∈ ch).
  { intros a Ha. apply (inserted_live e) in Ha; [|done].
    destruct Ha as [?|?]; [by left|right; by apply Hcov]. }
  assert (HH : head (inserted e pred succ l)
               = match pred with Some _ => head l | None => Some n end) by done.
  assert (HT : tail (inserted e pred succ l)
               = match succ with Some _ => tail l | None => Some n end) by done.
  assert (HS : size (inserted e pred succ l) = size l + 1) by done.
  set (l' := inserted e pred succ l) in *. clearbody l'.
  split; [done|]. unfold spliced. rewrite HH, HT, HS.
  destruct pred as [p|].
  - destruct Hci as [Hp Hs]. destruct (Hp p eq_refl) as [Hpn Hpl].
    assert (Hpin : p ∈ ch).
    { apply Hcov. split; [by rewrite Hpn|congruence]. }
    apply list_elem_of_split in Hpin as (l1 & l2 & ->).
    apply NoDup_app in Hnd as (Hnd1 & Hnd12 & Hnd2).
    apply NoDup_cons in Hnd2 as [Hp2 Hnd2].
    assert (Hp1 : p ∉ l1).
    { intros Hin. apply (Hnd12 _ Hin). by left. }
    rewrite insert_after_split by done.
    unfold chain in Hch. apply seg_app in Hch as (mid & Hs1 & Hs2).
    simpl in Hs2. destruct Hs2 as (-> & nx & Hnx & _ & Hs2).
    assert (nx = succ) as -> by congruence.
    assert (Hl2 : l2 = [] ↔ succ = None).
    { split; [by eapply seg_end_nil|by eapply seg_nil_end]. }
    repeat split.
    + unfold chain. apply seg_app. exists (Some p). split.
      * eapply seg_frame; [|done]. intros j Hj. rewrite HN.
        rewrite decide_False by set_solver.
        rewrite decide_False; [done|]. intros [= <-]. done.
      * simpl. split; [done|]. exists (Some n). split.
        { rewrite HN, decide_False, decide_True; [done|done|].
          intros ->. set_solver. }
        split; [intros [= E]; set_solver|].
        split; [done|]. exists succ. split.
        { by rewrite HN, decide_True. }
        split; [done|].
        eapply seg_frame; [|done]. intros j Hj. rewrite HN.
        rewrite decide_False by set_solver.
        rewrite decide_False; [done|]. intros [= <-]. done.
    + rewrite Htl, !last_app_cons. destruct succ as [s|].
      * destruct l2 as [|b l2]; [|done].
        destruct Hl2 as [Hl2 _]. by specialize (Hl2 eq_refl).
      * destruct Hl2 as [_ ->]; done.
    + rewrite Hsz, !length_app. simpl. lia.
    + intros a Ha. destruct (Hcov' a Ha) as [->|Hin]; set_solver.
  - rewrite (Hhd eq_refl) in *. repeat split.
    + exists (head l). split; [by rewrite HN, decide_True|].
      split; [congruence|].
      eapply seg_frame; [|done]. intros j Hj. rewrite HN.
      rewrite decide_False; [done|]. intros ->. done.
    + destruct (head l) as [s|] eqn:E.
      * rewrite Htl. destruct ch as [|b r]; [done|]. done.
      * by rewrite (seg_nil_end _ _ _ Hch eq_refl).
    + rewrite Hsz. simpl length. lia.
    + intros a Ha. destruct (Hcov' a Ha) as [->|Hin]; set_solver.
Qed.


Lemma deleted_strict n nd l ch :
  strict l ch → heap l !! n = Some nd → next nd ≠ Some n →
  ∃ l1 l2, ch = l1 ++ n :: l2 ∧ strict (deleted n nd l) (l1 ++ l2).
Proof.
  intros Hst Hn Hl. pose proof (strict_NoDup _ _ Hst) as Hnd.
  destruct Hst as (Hi & Hch & Htl & Hsz & Hcov).
  pose proof (deleted_inv _ _ _ Hi Hn Hl) as Hi'.
  assert (Hnn : nxt (heap l) n = Some (next nd)) by (unfold nxt; by rewrite Hn).
  assert (Hnp : prv (heap l) n = Some (prev nd)) by (unfold prv; by rewrite Hn).
  assert (Hl' : nxt (heap l) n ≠ Some (Some n)) by congruence.
  assert (HN : ∀ j, nxt (heap (deleted n nd l)) j
               = if decide (j = n) then Some (Some n)
                 else if decide (prev nd = Some j) then Some (next nd)
                 else nxt (heap l) j).
  { intros j. apply nxt_deleted; [done|]. intros q E.
    rewrite E in Hnp. rewrite (inv_prev _ Hi _ _ Hnp Hl'). done. }
  assert (Hcov' : ∀ a, live (heap (deleted n nd l)) a → a ≠ n ∧ a ∈ ch).
  { intros a Ha. apply deleted_live in Ha as [? ?]; [|done..].
    split; [done|by apply Hcov]. }
  assert (HH : head (deleted n nd l)
               = match prev nd with Some _ => head l | None => next nd end)
    by done.
  assert (HT : tail (deleted n nd l)
               = match next nd with Some _ => tail l | None => prev nd end)
    by done.
  assert (HS : size (deleted n nd l) = size l - 1) by done.
  set (l' := deleted n nd l) in *. clearbody l'.
  assert (Hin : n ∈ ch) by (apply Hcov; split; [by rewrite Hnn|done]).
  apply list_elem_of_split in Hin as (l1 & l2 & ->).
  exists l1, l2. split; [done|].
  apply NoDup_app in Hnd as (Hnd1 & Hnd12 & Hnd2).
  apply NoDup_cons in Hnd2 as [Hn2 Hnd2].
  assert (Hn1 : n ∉ l1).
  { intros Hin. apply (Hnd12 _ Hin). by left. }
  unfold chain in Hch. apply seg_app in Hch as (mid & Hs1 & Hs2).
  simpl in Hs2. destruct Hs2 as (-> & nx & Hnx & _ & Hs2).
  assert (nx = next nd) as -> by congruence.
  assert (Hl2 : l2 = [] ↔ next nd = None).
  { split; [by eapply seg_end_nil|by eapply seg_nil_end]. }
  split; [done|]. rewrite HH, HT, HS.
  destruct l1 as [|q0 l1' _] using rev_ind.
  - simpl in Hs1. simpl.
    assert (prev nd = None) as Epv.
    { destruct (inv_head _ Hi _ Hs1) as [Hp _]. congruence. }
    rewrite Epv. repeat split.
    + eapply seg_frame; [|done]. intros j Hj. rewrite HN.
      rewrite decide_False by set_solver.
      rewrite decide_False by (by rewrite Epv). done.
    + rewrite Htl. simpl. destruct (next nd) as [s|].
      * destruct l2 as [|b l2]; [|done].
        destruct Hl2 as [Hl2 _]. by specialize (Hl2 eq_refl).
      * destruct Hl2 as [_ ->]; done.
    + rewrite Hsz. simpl length. lia.
    + intros a Ha. destruct (Hcov' a Ha) as [Hne Hin]. set_solver.
  - apply seg_app in Hs1 as (mid & Hs1 & Hs1').
    simpl in Hs1'. destruct Hs1' as (-> & nq & Hnq & Hql & ->).
    assert (n ≠ q0) as Hnq0 by set_solver.
    assert (prev nd = Some q0) as Epv.
    { destruct (inv_next _ Hi _ _ Hnq Hnq0) as [Hp _]. congruence. }
    rewrite Epv.
    assert (Hq2 : q0 ∉ l2).
    { intros Hin. apply (Hnd12 q0); [set_solver|by right]. }
    assert (Hq1 : q0 ∉ l1').
    { apply NoDup_app in Hnd1 as (_ & Hd & _). intros Hin.
      apply (Hd _ Hin). by left. }
    repeat split.
    + unfold chain. rewrite <- app_assoc. apply seg_app.
      exists (Some q0). split.
      * eapply seg_frame; [|done]. intros j Hj. rewrite HN.
        rewrite decide_False by set_solver.
        rewrite decide_False; [done|]. rewrite Epv. intros [= <-]. done.
      * simpl. split; [done|]. exists (next nd). split.
        { rewrite HN, decide_False, decide_True; done. }
        split.
        { intros E. destruct l2 as [|b l2].
          - destruct Hl2 as [Hl2 _]. specialize (Hl2 eq_refl). congruence.
          - simpl in Hs2. destruct Hs2 as (E2 & _). set_solver. }
        eapply seg_frame; [|done]. intros j Hj. rewrite HN.
        rewrite decide_False by set_solver.
        rewrite decide_False; [done|]. rewrite Epv. intros [= <-]. done.
    + rewrite Htl. rewrite last_app_cons. destruct (next nd) as [s|].
      * destruct l2 as [|b l2].
        { destruct Hl2 as [Hl2 _]. by specialize (Hl2 eq_refl). }
        rewrite last_app_cons. done.
      * destruct Hl2 as [_ ->]; [|done].
        rewrite app_nil_r, last_snoc. done.
    + rewrite Hsz. repeat (rewrite !length_app; simpl). lia.
    + intros a Ha. destruct (Hcov' a Ha) as [Hne Hin]. set_solver.
Qed.

Lemma cleared_strict l ch : strict l ch → strict (cleared ch l) [].
Proof.
  intros (Hi & Hch & Htl & Hsz & Hcov).
  split; [by apply cleared_inv|]. repeat split.
  intros a Ha. apply cleared_live in Ha as [Hn Ha]. by apply Hcov in Ha.
Qed.

Lemma replaced_strict n e l ch : strict l ch → strict (replaced n e l) ch.
Proof.
  intros (Hi & Hch & Htl & Hsz & Hcov).
  split; [by apply replaced_inv|]. repeat split; try done.
  - eapply seg_frame; [|done]. intros j _. simpl. apply nxt_alter_element.
  - intros a Ha. apply replaced_live in Ha. by apply Hcov.
Qed.


Lemma change_strict l l' ch :
  strict l ch → change l false l' → ∃ ch', strict l' ch'.
Proof.
  intros Hst Hc. inversion Hc; subst.
  - by exists ch.
  - eexists. apply inserted_strict; eauto.
  - destruct (deleted_strict _ _ _ _ Hst H H0) as (l1 & l2 & _ & ?). eauto.
  - exists []. destruct Hst as (Hi & Hch & Hrest).
    assert (ch0 = ch) as -> by by eapply seg_det.
    by apply cleared_strict.
  - exists ch. by apply replaced_strict.
Qed.

Lemma exec_strict op l l' r ch :
  strict l ch → exec op l = (l', r) → r ≠ Err OutOfFuel →
  instant_clear op = false → ∃ ch', strict l' ch'.
Proof.
  intros Hst He Hr Hop. pose proof Hst as (Hi & _).
  pose proof (exec_change _ _ _ _ Hi He Hr) as Hc. rewrite Hop in Hc.
  by eapply change_strict.
Qed.


(** *** Lists built by the adding and removing methods *)

(** The calls that add or remove one element. *)
Definition structural (op : Op) : bool :=
  match op with
  | AddAfter _ _ | AddBefore _ _ | AddFirst _ | AddLast _
  | Delete _ | RemoveFirst | RemoveLast => true
  | _ => false
  end.

(** The list after a sequence of calls (a call that throws leaves the list
    as it is at the throw). *)
Fixpoint run (ops : list Op) (l : DList) : DList :=
  match ops with
  | [] => l
  | op :: rest => run rest (exec op l).1
  end.

(** A step that is not [clear(true)], and the lists built by such steps. *)
Definition quiet_step (l l' : DList) : Prop :=
  ∃ op r, exec op l = (l', r) ∧ r ≠ Err OutOfFuel ∧ instant_clear op = false.

Definition built (c : cid) (l : DList) : Prop := rtc quiet_step (empty c) l.

Lemma quiet_step_step l l' : quiet_step l l' → step l l'.
Proof. intros (op & r & He & Hr & _). by exists op, r. Qed.

Lemma built_reachable c l : built c l → reachable c l.
Proof.
  unfold built, reachable. intros H.
  eapply rtc_subrel; [|done]. apply quiet_step_step.
Qed.

Lemma quiet_steps_strict l l' ch :
  strict l ch → rtc quiet_step l l' → ∃ ch', strict l' ch'.
Proof.
  intros Hst Hs. revert ch Hst.
  induction Hs as [|l1 l2 l3 (op & r & He & Hr & Hq) Hs IH]; intros ch Hst.
  - by exists ch.
  - destruct (exec_strict _ _ _ _ _ Hst He Hr Hq) as [ch' Hst']. eauto.
Qed.

Lemma built_strict c l : built c l → ∃ ch, strict l ch.
Proof. apply (quiet_steps_strict _ _ []), strict_empty. Qed.

Lemma structural_quiet op l :
  inv l → structural op = true → quiet_step l (exec op l).1.
Proof.
  intros Hi Hop. exists op, (exec op l).2.
  split; [by destruct (exec op l)|].
  split; [|by destruct op].
  destruct op; try done; simpl; rewrite bind_ret_res.
  - destruct (addAfter_cases p e l Hi)
      as [(x & _ & -> & ?)|(_ & nx & _ & ? & ->)]; simpl; congruence.
  - destruct (addBefore_cases p e l Hi)
      as [(x & _ & -> & ?)|(_ & nx & _ & ? & ->)]; simpl; congruence.
  - by destruct (addFirst_run e l Hi) as [? ->].
  - by destruct (addLast_run e l Hi) as [? ->].
  - destruct (delete_cases p l Hi)
      as [(x & _ & -> & ?)|(_ & nd & ? & ? & ->)]; simpl; congruence.
  - destruct (removeFirst_cases l Hi)
      as [[_ ->]|(n & nd & _ & ? & ? & ->)]; done.
  - destruct (removeLast_cases l Hi)
      as [[_ ->]|(n & nd & _ & ? & ? & ->)]; done.
Qed.

Lemma run_built c ops l :
  built c l → Forall (λ op, structural op = true) ops → built c (run ops l).
Proof.
  intros Hb Hops. revert l Hb.
  induction Hops as [|op ops Hop Hops IH]; intros l Hb; simpl; [done|].
  apply IH. eapply rtc_r; [done|].
  apply structural_quiet; [|done].
  by eapply reachable_inv, built_reachable.
Qed.

(** On such a list [size] counts the live nodes one meets from [head]. *)
Lemma strict_size l ch :
  strict l ch →
  NoDup ch ∧
  (∀ a, a ∈ ch ↔ reach (nxt (heap l)) (head l) a ∧ live (heap l) a) ∧
  size l = Z.of_nat (length ch).
Proof.
  intros Hst. split; [by eapply strict_NoDup|].
  destruct Hst as (Hi & Hch & Htl & Hsz & Hcov). split; [|done].
  intros a. split.
  - intros Ha. split; [by apply (chain_reach _ _ _ _ Hch)|].
    by eapply seg_live.
  - intros [_ Ha]. by apply Hcov.
Qed.

(** *** Construction from an array, and iteration *)

(** [els] are the elements held by the nodes [ch], in order. *)
Definition holds (h : gmap nat Node) (ch : list addr) (els : list T) : Prop :=
  Forall2 (λ a e, elt h a = Some e) ch els.

Lemma iterate_from_chain h o ch els fuel :
  chain (nxt h) o ch → holds h ch els → (length ch ≤ fuel)%nat →
  iterate_from fuel h o = Some els.
Proof.
  unfold chain, holds. intros Hch Hels. revert o fuel Hch.
  induction Hels as [|a e ch els Hae Hels IH]; intros o fuel; simpl.
  - intros -> _. by destruct fuel.
  - intros (-> & nx & Hn & _ & Hch) Hf.
    destruct fuel as [|fuel]; [lia|]. simpl.
    unfold nxt in Hn. unfold elt in Hae.
    destruct (h !! a) as [nd|]; [|done]. simpl in *.
    assert (next nd = nx) as -> by congruence.
    rewrite (IH nx fuel) by (done || lia). simpl. congruence.
Qed.

Lemma spliced_last t ch n :
  NoDup ch → t = last ch → spliced t n ch = ch ++ [n].
Proof.
  intros Hnd ->. unfold spliced.
  destruct (last ch) as [t|] eqn:E.
  - apply last_Some in E as [l1 ->].
    apply NoDup_app in Hnd as (_ & Hd & _).
    rewrite insert_after_split; [by rewrite <- app_assoc|].
    intros Hin. apply (Hd _ Hin). by left.
  - apply last_None in E as ->. done.
Qed.

Lemma addLast_strict e l ch els :
  strict l ch → holds (heap l) ch els →
  ∃ n, addLast e l
       = (inserted e (tail l) None l, Ok (mkPosition n (self l))) ∧
       strict (inserted e (tail l) None l) (ch ++ [n]) ∧
       holds (heap (inserted e (tail l) None l)) (ch ++ [n]) (els ++ [e]).
Proof.
  intros Hst Hels. pose proof Hst as (Hi & Hch & Htl & _).
  destruct (addLast_run e l Hi) as [Hci Hrun].
  exists (fresh (dom (heap l))). split; [done|].
  assert (Hn : fresh (dom (heap l)) ∉ ch).
  { intros Hin. destruct (seg_live _ _ _ _ _ Hch Hin) as [[x Hx] _].
    pose proof (nxt_fresh (heap l)). congruence. }
  split.
  - rewrite <- (spliced_last (tail l)) by (done || by eapply strict_NoDup).
    apply inserted_strict; [done|done|].
    intros E. rewrite E in Htl. symmetry in Htl.
    apply last_None in Htl as ->. done.
  - apply Forall2_app.
    + eapply Forall2_same_length_lookup_2; [by eapply Forall2_length|].
      intros i a x Ha Hx. rewrite elt_inserted.
      rewrite decide_False.
      * by eapply (Forall2_lookup_lr _ _ _ _ _ _ Hels).
      * intros ->. apply Hn. by eapply list_elem_of_lookup_2.
    + constructor; [|constructor]. rewrite elt_inserted.
      by rewrite decide_True.
Qed.

Lemma addLast_all_strict arr : ∀ l ch els,
  strict l ch → holds (heap l) ch els →
  ∃ l' ch', addLast_all arr l = (l', Ok tt) ∧ self l' = self l ∧
            strict l' (ch ++ ch') ∧ holds (heap l') (ch ++ ch') (els ++ arr).
Proof.
  induction arr as [|e arr IH]; intros l ch els Hst Hels; simpl.
  - exists l, []. rewrite !app_nil_r. done.
  - destruct (addLast_strict e _ _ _ Hst Hels) as (n & Hrun & Hst' & Hels').
    destruct (IH _ _ _ Hst' Hels') as (l' & ch' & Hrun' & Hself & Hst'' & Hels'').
    exists l', (n :: ch'). unfold bind. rewrite Hrun, Hrun'.
    rewrite <- app_assoc in Hst''. rewrite <- !app_assoc in Hels''.
    simpl in Hst'', Hels''.
    split; [done|]. split; [by rewrite Hself|]. by split.
Qed.


(** *** A call that throws leaves the list untouched *)

Lemma pure_load a : pure (load a).
Proof. intros l. unfold load. by destruct (heap l !! a). Qed.
Lemma no_throw_load a : no_throw (load a).
Proof. intros l l' e. unfold load. by destruct (heap l !! a). Qed.
Lemma no_throw_new_Node e nx pv : no_throw (new_Node e nx pv).
Proof. done. Qed.
Lemma pure_this_head : pure this_head.
Proof. done. Qed.
Lemma pure_this_tail : pure this_tail.
Proof. done. Qed.
Lemma no_throw_this_head : no_throw this_head.
Proof. done. Qed.
Lemma no_throw_this_tail : no_throw this_tail.
Proof. done. Qed.
Lemma pure_createPosition n : pure (createPosition n).
Proof. done. Qed.
Lemma no_throw_createPosition n : no_throw (createPosition n).
Proof. done. Qed.

Ltac no_throw_step :=
  first
    [ apply no_throw_bind | apply no_throw_ret | apply no_throw_get
    | apply no_throw_modify | apply no_throw_load | apply no_throw_new_Node
    | apply no_throw_this_head | apply no_throw_this_tail
    | apply no_throw_createPosition
    | apply no_throw_stuck; discriminate
    | match goal with
      | |- no_throw (match ?x with _ => _ end) => destruct x
      | |- no_throw (if ?x then _ else _) => destruct x
      | |- ∀ _, _ => intro
      end ].
Ltac pure_step :=
  first
    [ apply pure_bind | apply pure_ret | apply pure_get | apply pure_throw
    | apply pure_stuck | apply pure_load | apply pure_this_head
    | apply pure_this_tail | apply pure_createPosition
    | match goal with
      | |- pure (match ?x with _ => _ end) => destruct x
      | |- pure (if ?x then _ else _) => destruct x
      | |- ∀ _, _ => intro
      end ].

Lemma pure_validate p : pure (validate p).
Proof. repeat pure_step. Qed.

Lemma no_throw_clear_loop fuel : ∀ node, no_throw (clear_loop fuel node).
Proof.
  induction fuel as [|fuel IH]; intros [a|]; simpl; repeat no_throw_step.
  apply IH.
Qed.

Lemma no_throw_clear fuel instant : no_throw (clear fuel instant).
Proof.
  unfold clear. apply no_throw_bind; [apply no_throw_this_head|]. intros h.
  apply no_throw_bind; [|repeat no_throw_step].
  destruct (negb instant && bool_decide (is_Some h));
    [apply no_throw_clear_loop|apply no_throw_ret].
Qed.

Lemma no_throw_insertBetween e pred succ : no_throw (insertBetween e pred succ).
Proof. repeat no_throw_step. Qed.

Lemma no_throw_deleteNode n : no_throw (deleteNode n).
Proof. repeat no_throw_step. Qed.

(** Every method validates before it writes. *)
Lemma safe_exec op : safe (exec op).
Proof.
  destruct op; simpl; apply safe_bind_ret.
  - apply safe_bind; [apply pure_validate|]. intros node.
    apply safe_no_throw. repeat no_throw_step.
  - apply safe_bind; [apply pure_validate|]. intros node.
    apply safe_no_throw. repeat no_throw_step.
  - apply safe_no_throw. repeat no_throw_step.
  - apply safe_no_throw. repeat no_throw_step.
  - apply safe_no_throw. apply no_throw_clear.
  - apply safe_bind; [apply pure_validate|]. intros node.
    apply safe_no_throw. repeat no_throw_step.
  - apply safe_pure. repeat pure_step.
  - apply safe_pure. repeat pure_step.
  - apply safe_pure. repeat pure_step.
  - apply safe_pure. repeat pure_step.
  - apply safe_bind; [apply pure_this_head|]. intros [n|].
    + apply safe_no_throw. repeat no_throw_step.
    + apply safe_pure. repeat pure_step.
  - apply safe_bind; [apply pure_this_tail|]. intros [n|].
    + apply safe_no_throw. repeat no_throw_step.
    + apply safe_pure. repeat pure_step.
  - apply safe_bind; [apply pure_validate|]. intros node.
    apply safe_no_throw. repeat no_throw_step.
Qed.


(** *** Positions after a removal *)

Definition is_removal (op : Op) : bool :=
  match op with
  | RemoveFirst | RemoveLast | Delete _ => true
  | _ => false
  end.

(** The node whose element the call removes. *)
Definition removed_node (op : Op) (l : DList) : option addr :=
  match op with
  | RemoveFirst => head l
  | RemoveLast => tail l
  | Delete p => Some (pos_node p)
  | _ => None
  end.

Lemma valid_replace p x l :
  valid p l →
  ∃ old, elt (heap l) (pos_node p) = Some old ∧
         replace p x l = (replaced (pos_node p) x l, Ok old) ∧
         valid p (replaced (pos_node p) x l).
Proof.
  intros Hv.
  destruct (replace_cases p x l) as [(y & Hy & _)|(_ & old & Ho & Hr)].
  - unfold valid in Hv. congruence.
  - exists old. split; [done|]. split; [done|].
    apply valid_iff. apply valid_iff in Hv as [Hc Hl].
    split; [done|]. by apply replaced_live.
Qed.

Lemma liveness_after l l' n :
  inv l' → self l' = self l → nxt (heap l') n = Some (Some n) →
  (∀ j, live (heap l') j ↔ j ≠ n ∧ live (heap l) j) →
  isDeprecated n l' = (l', Ok true) ∧
  (∀ l'' p, rtc step l' l'' → pos_node p = n →
            validate p l'' = (l'', Err (Throw InvalidPosition))) ∧
  (∀ p, valid p l → pos_node p ≠ n →
        valid p l' ∧
        ∀ x, ∃ old, elt (heap l') (pos_node p) = Some old ∧
                    replace p x l' = (replaced (pos_node p) x l', Ok old) ∧
                    valid p (replaced (pos_node p) x l')).
Proof.
  intros Hi' Hself Hn Hlive. split.
  { unfold isDeprecated, bind, ret. rewrite get_next_nxt, Hn.
    by rewrite bool_decide_true. }
  split.
  - intros l'' p Hs <-.
    destruct (steps_deprecated _ _ _ Hi' Hs Hn) as [Hd _].
    apply invalid_iff. by right.
  - intros p Hv Hne.
    assert (valid p l') as Hv'.
    { apply valid_iff. apply valid_iff in Hv as [Hc Hl].
      split; [congruence|]. by apply Hlive. }
    split; [done|]. intros x. by apply valid_replace.
Qed.

Lemma deleted_liveness n nd l :
  inv l → heap l !! n = Some nd → next nd ≠ Some n →
  elt (heap l) n = Some (element nd) ∧
  isDeprecated n (deleted n nd l) = (deleted n nd l, Ok true) ∧
  (∀ l'' p, rtc step (deleted n nd l) l'' → pos_node p = n →
            validate p l'' = (l'', Err (Throw InvalidPosition))) ∧
  (∀ p, valid p l → pos_node p ≠ n →
        valid p (deleted n nd l) ∧
        ∀ x, ∃ old, elt (heap (deleted n nd l)) (pos_node p) = Some old ∧
                    replace p x (deleted n nd l)
                    = (replaced (pos_node p) x (deleted n nd l), Ok old) ∧
                    valid p (replaced (pos_node p) x (deleted n nd l))).
Proof.
  intros Hi Hn Hl. split; [unfold elt; by rewrite Hn|].
  apply liveness_after.
  - by apply deleted_inv.
  - done.
  - rewrite nxt_deleted; [by rewrite decide_True|done|].
    intros q E.
    assert (prv (heap l) n = Some (Some q)) as Hp
      by (unfold prv; rewrite Hn; simpl; by f_equal).
    assert (nxt (heap l) n ≠ Some (Some n)) as Hnl
      by (unfold nxt; rewrite Hn; simpl; congruence).
    rewrite (inv_prev _ Hi _ _ Hp Hnl). done.
  - intros j. by apply deleted_live.
Qed.

(** After a removal every position on the removed node is invalid for good,
    and every other valid position stays valid and can be used by
    [replace]. *)
Lemma removal_liveness c l op l' e :
  reachable c l → is_removal op = true → exec op l = (l', Ok (RElt e)) →
  ∃ n, removed_node op l = Some n ∧ elt (heap l) n = Some e ∧
    isDeprecated n l' = (l', Ok true) ∧
    (∀ l'' p, rtc step l' l'' → pos_node p = n →
              validate p l'' = (l'', Err (Throw InvalidPosition))) ∧
    (∀ p, valid p l → pos_node p ≠ n →
          valid p l' ∧
          ∀ x, ∃ old, elt (heap l') (pos_node p) = Some old ∧
                      replace p x l' = (replaced (pos_node p) x l', Ok old) ∧
                      valid p (replaced (pos_node p) x l')).
Proof.
  intros Hr Hop He. pose proof (reachable_inv _ _ Hr) as Hi.
  destruct op; try done; simpl in He; unfold bind, ret in He.
  - destruct (delete_cases p l Hi)
      as [(x & _ & E & _)|(_ & nd & Hn & Hl & E)]; rewrite E in He; [done|].
    injection He as <- <-. exists (pos_node p). split; [done|].
    by apply deleted_liveness.
  - destruct (removeFirst_cases l Hi)
      as [[_ E]|(n & nd & Hh & Hn & Hl & E)]; rewrite E in He; [done|].
    injection He as <- <-. exists n. split; [done|].
    by apply deleted_liveness.
  - destruct (removeLast_cases l Hi)
      as [[_ E]|(n & nd & Hh & Hn & Hl & E)]; rewrite E in He; [done|].
    injection He as <- <-. exists n. split; [done|].
    by apply deleted_liveness.
Qed.


(** *** [addAfter] on the position of the last element *)

Lemma addAfter_last e l p :
  inv l → getLast l = (l, Ok (Some p)) →
  ∃ l' q, addAfter p e l = (l', Ok q) ∧
          getLast l' = (l', Ok (Some q)) ∧
          elt (heap l') (pos_node q) = Some e.
Proof.
  intros Hi Hg. rewrite getLast_run in Hg.
  destruct (tail l) as [t|] eqn:Et; [|done]. simpl in Hg.
  injection Hg as <-.
  pose proof (inv_tail _ Hi _ Et) as Hn.
  destruct (addAfter_cases (mkPosition t (self l)) e l Hi)
    as [(x & Hx & _)|(_ & nx & Hnx & _ & Hrun)].
  { assert (valid (mkPosition t (self l)) l) as Hv.
    { apply valid_iff. split; [done|]. simpl. split; by rewrite Hn. }
    unfold valid in Hv. congruence. }
  simpl in Hnx. assert (nx = None) as -> by congruence.
  eexists _, _. split; [done|]. split.
  - rewrite getLast_run. simpl. done.
  - simpl pos_node. rewrite elt_inserted. by rewrite decide_True.
Qed.

(** *** The array constructor followed by iteration *)

Lemma new_list_iterate c arr k :
  ∃ l, new_list c arr = (l, Ok tt) ∧
       iterate (length arr + k) l = Some arr.
Proof.
  destruct (addLast_all_strict arr (empty c) [] [])
    as (l & ch & Hrun & _ & Hst & Hels);
    [apply strict_empty|constructor|].
  exists l. split; [done|].
  destruct Hst as (_ & Hch & _). simpl in *.
  eapply iterate_from_chain; [done|done|].
  apply Forall2_length in Hels. lia.
Qed.

(** *** Size after a sequence of adding and removing calls *)

Lemma run_size c ops :
  Forall (λ op, structural op = true) ops →
  ∃ ch, NoDup ch ∧
        (∀ a, a ∈ ch ↔ reach (nxt (heap (run ops (empty c))))
                               (head (run ops (empty c))) a
                       ∧ live (heap (run ops (empty c))) a) ∧
        size (run ops (empty c)) = Z.of_nat (length ch).
Proof.
  intros Hops.
  destruct (built_strict c (run ops (empty c))) as [ch Hst].
  { apply run_built; [|done]. apply rtc_refl. }
  exists ch. by apply strict_size.
Qed.

(** *** [clear] *)





(** *** Forward and backward links mirror one another *)

Lemma reachable_symmetric c l a :
  reachable c l → live (heap l) a →
  (∀ m, nxt (heap l) a = Some (Some m) →
        prv (heap l) m = Some (Some a) ∧ live (heap l) m) ∧
  (∀ m, prv (heap l) a = Some (Some m) →
        nxt (heap l) m = Some (Some a) ∧ live (heap l) m).
Proof.
  intros Hr Ha. pose proof (reachable_inv _ _ Hr) as Hi. split.
  - intros m Hm. split; [|by eapply inv_next_live].
    apply (inv_next _ Hi); [done|]. intros ->. by destruct Ha.
  - intros m Hm. split; [|by eapply inv_prev_live].
    apply (inv_prev _ Hi); [done|]. by destruct Ha.
Qed.

(** *** The tail after an insertion, on a list built without [clear(true)] *)

Lemma insertion_tail c l op l' q :
  built c l → exec op l = (l', Ok (RPos q)) →
  ∃ ch, chain (nxt (heap l')) (head l') ch ∧ tail l' = last ch.
Proof.
  intros Hb He. destruct (built_strict _ _ Hb) as [ch Hst].
  assert (instant_clear op = false) as Hq.
  { destruct op; try done. simpl in He. unfold bind, ret in He.
    by destruct (clear fuel instant l) as [? [|]]. }
  destruct (exec_strict _ _ _ _ _ Hst He) as [ch' (_ & Hch' & Htl' & _)];
    [done|done|].
  by exists ch'.
Qed.


Lemma addLast_all_built c arr : ∀ l,
  built c l → built c (addLast_all arr l).1.
Proof.
  induction arr as [|e arr IH]; intros l Hb; simpl; [done|].
  pose proof (reachable_inv _ _ (built_reachable _ _ Hb)) as Hi.
  destruct (addLast_run e l Hi) as [Hci Hrun].
  unfold bind. rewrite Hrun. apply IH.
  eapply rtc_r; [done|].
  exists (AddLast e), (Ok (RPos (mkPosition (fresh (dom (heap l))) (self l)))).
  split; [|done]. simpl. unfold bind, ret. by rewrite Hrun.
Qed.

(** The list made by the constructor is one of the lists built without
    [clear(true)]. *)
Lemma new_list_built c arr : built c (new_list c arr).1.
Proof. apply addLast_all_built, rtc_refl. Qed.

Lemma new_list_reachable c arr : reachable c (new_list c arr).1.
Proof. apply built_reachable, new_list_built. Qed.


(** With an invalid position every method that takes one throws, and
    [removeFirst] and [removeLast] throw on an empty list. *)
Lemma invalid_position_throws p e l x :
  validate p l = (l, Err x) →
  addAfter p e l = (l, Err x) ∧ addBefore p e l = (l, Err x) ∧
  delete p l = (l, Err x) ∧ replace p e l = (l, Err x) ∧
  getAfter p l = (l, Err x) ∧ getBefore p l = (l, Err x).
Proof.
  intros H. unfold addAfter, addBefore, delete, replace, getAfter, getBefore,
    bind. by rewrite H.
Qed.

Lemma empty_throws l :
  (head l = None → removeFirst l = (l, Err (Throw EmptyContainer))) ∧
  (tail l = None → removeLast l = (l, Err (Throw EmptyContainer))).
Proof.
  split; intros H; unfold removeFirst, removeLast, bind, this_head, this_tail;
    by rewrite H.
Qed.

End Doubly.
Arguments Node : clear implicits.
Arguments DList : clear implicits.
Arguments Op : clear implicits.
Arguments Ret : clear implicits.
End Doubly.

(** ** Quick-select *)

Module QuickSelect.

(** Modelled from the spec: the [ComparisonResult] enumeration of the
    comparators module ([src/comparators] is not among the sources). *)
Inductive ComparisonResult : Set := LESS | EQUAL | GREATER.

Global Instance ComparisonResult_eq_dec : EqDecision ComparisonResult.
Proof. solve_decision. Defined.

Section QuickSelect.
Context {T : Type}.

(** [Math.floor(Math.random() * _arr.length)]: the index picked at the
    [k]-th iteration for a working array of length [len]. *)
Variable random_index : nat → nat → nat.

(** [IComparator<T>] *)
Variable compare : T → T → ComparisonResult.

(** The three arrays filled by [_arr.forEach]. *)
Definition less_of (pivot : T) (_arr : list T) : list T :=
  filter (λ item, compare item pivot = LESS) _arr.
Definition greater_of (pivot : T) (_arr : list T) : list T :=
  filter (λ item, compare item pivot = GREATER) _arr.
Definition equal_of (pivot : T) (_arr : list T) : list T :=
  filter (λ item, compare item pivot ≠ LESS ∧ compare item pivot ≠ GREATER)
    _arr.

(** The [while (_arr.length > 1)] loop and the final [return _arr[0]]; [k]
    counts the iterations done so far.  [Ok None] is JavaScript's
    [undefined]. *)
Fixpoint select_loop (fuel k : nat) (_arr : list T) (_n : Z)
  : Res (option T) :=
  if bool_decide (1 < length _arr)%nat then
    match fuel with
    | O => Err OutOfFuel
    | S fuel' =>
        match _arr !! random_index k (length _arr) with
        | None => Err DanglingRef
        | Some pivot =>
            let less := less_of pivot _arr in
            let equal := equal_of pivot _arr in
            let greater := greater_of pivot _arr in
            if bool_decide (_n ≤ Z.of_nat (length less)) then
              select_loop fuel' (S k) less _n
            else if bool_decide
                      (_n ≤ Z.of_nat (length less) + Z.of_nat (length equal))
            then Ok (Some pivot)
            else
              select_loop fuel' (S k) greater
                (_n - (Z.of_nat (length less) + Z.of_nat (length equal)))
        end
    end
  else Ok (head _arr).

(** [quickSelect(arr, n, compare)]; [n] is an integer. *)
Definition quickSelect (fuel : nat) (arr : list T) (n : Z) : Res (option T) :=
  if bool_decide (length arr = O) then Err (Throw EmptyArray)
  else if bool_decide (n < 0 ∨ Z.of_nat (length arr) ≤ n)%Z
  then Err (Throw OutOfBounds)
  else select_loop fuel 0 arr (n + 1).

(** *** The three arrays split the working array *)

Lemma partition_length pivot (_arr : list T) :
  (length (less_of pivot _arr) + length (equal_of pivot _arr)
   + length (greater_of pivot _arr))%nat = length _arr.
Proof.
  unfold less_of, equal_of, greater_of.
  induction _arr as [|x r IH]; [done|].
  rewrite !filter_cons.
  destruct (compare x pivot) eqn:E; repeat case_decide;
    simpl; try lia; try congruence; naive_solver.
Qed.

Lemma less_of_subset pivot (_arr : list T) x :
  x ∈ less_of pivot _arr → x ∈ _arr.
Proof. unfold less_of. by intros [_ ?]%list_elem_of_filter. Qed.

Lemma greater_of_subset pivot (_arr : list T) x :
  x ∈ greater_of pivot _arr → x ∈ _arr.
Proof. unfold greater_of. by intros [_ ?]%list_elem_of_filter. Qed.

(** A pivot that compares with itself as neither less nor greater lands in
    [equal]. *)
Lemma equal_of_pivot pivot (_arr : list T) :
  pivot ∈ _arr → compare pivot pivot ≠ LESS → compare pivot pivot ≠ GREATER →
  (0 < length (equal_of pivot _arr))%nat.
Proof.
  intros Hin Hl Hg.
  assert (pivot ∈ equal_of pivot _arr) as Hp.
  { unfold equal_of. apply list_elem_of_filter. done. }
  destruct (equal_of pivot _arr); [by apply elem_of_nil in Hp|simpl; lia].
Qed.



(** *** Termination, for a comparator that is reflexive on the array *)

Section Reflexive.
Variable arr : list T.
Hypothesis random_index_lt :
  ∀ k len, (0 < len)%nat → (random_index k len < len)%nat.
Hypothesis compare_refl :
  ∀ x, x ∈ arr → compare x x ≠ LESS ∧ compare x x ≠ GREATER.

Lemma select_loop_returns fuel : ∀ k _arr _n,
  (∀ x, x ∈ _arr → x ∈ arr) →
  1 ≤ _n ≤ Z.of_nat (length _arr) →
  (length _arr ≤ S fuel)%nat →
  ∃ x, select_loop fuel k _arr _n = Ok (Some x) ∧ x ∈ arr.
Proof.
  induction fuel as [|fuel IH]; intros k _arr _n Hsub Hn Hf.
  - destruct _arr as [|x [|y r]]; simpl in *; try lia.
    exists x. split; [done|]. apply Hsub. by left.
  - simpl. case_bool_decide as Hlen.
    + destruct (lookup_lt_is_Some_2 _arr (random_index k (length _arr)))
        as [pivot Hp]; [apply random_index_lt; lia|].
      rewrite Hp.
      assert (pivot ∈ _arr) as Hpin by by eapply list_elem_of_lookup_2.
      destruct (compare_refl pivot (Hsub _ Hpin)) as [Hl Hg].
      pose proof (equal_of_pivot pivot _arr Hpin Hl Hg) as Heq.
      pose proof (partition_length pivot _arr) as Hpart.
      case_bool_decide as H1.
      * apply IH; [|lia|lia].
        intros x Hx. by apply Hsub, (less_of_subset pivot).
      * case_bool_decide as H2.
        { exists pivot. split; [done|]. by apply Hsub. }
        apply IH; [|lia|lia].
        intros x Hx. by apply Hsub, (greater_of_subset pivot).
    + destruct _arr as [|x [|y r]]; simpl in *; try lia.
      exists x. split; [done|]. apply Hsub. by left.
Qed.

Lemma quickSelect_returns fuel n :
  0 ≤ n < Z.of_nat (length arr) → (length arr ≤ S fuel)%nat →
  ∃ x, quickSelect fuel arr n = Ok (Some x) ∧ x ∈ arr.
Proof.
  intros Hn Hf. unfold quickSelect.
  rewrite bool_decide_false by lia.
  rewrite bool_decide_false by lia.
  apply select_loop_returns; [done|lia|done].
Qed.

End Reflexive.

End QuickSelect.

(** Modelled from the spec: the default comparator [compareAsNumbers] of the
    comparators module, on integers. *)
Definition compareAsNumbers (a b : Z) : ComparisonResult :=
  if bool_decide (a < b) then LESS
  else if bool_decide (b < a) then GREATER
  else EQUAL.

Lemma compareAsNumbers_refl a :
  compareAsNumbers a a ≠ LESS ∧ compareAsNumbers a a ≠ GREATER.
Proof. unfold compareAsNumbers. by rewrite !bool_decide_false by lia. Qed.

(** A comparator that calls everything less, and the loop on [[1; 2]]: the
    pivot lands in [less], the working array never shrinks. *)
Definition always_less (a b : Z) : ComparisonResult := LESS.

Lemma always_less_loop random_index fuel : ∀ k,
  select_loop random_index always_less fuel k [1; 2] 1 = Err OutOfFuel
  ∨ select_loop random_index always_less fuel k [1; 2] 1 = Err DanglingRef.
Proof.
  induction fuel as [|fuel IH]; intros k; simpl; [by left|].
  destruct (random_index k 2%nat) as [|[|i]]; simpl; [| |by right].
  - apply IH.
  - apply IH.
Qed.

End QuickSelect.

(** ** Preorder traversal of binary trees *)

Module Preorder.

(** Modelled from the spec: a concrete [BinaryTree]
    ([src/trees/binary-tree.class.ts] only declares the abstract methods, no
    implementation is among the sources).  A tree is empty or a root with a
    left and a right subtree; a position is the path from the root;
    [addRoot] fails with [NotEmpty] on a tree that has a root; [addLeft] and
    [addRight] validate the position and fail with [SlotOccupied] when the
    child exists. *)
Inductive Tree (T : Type) : Type :=
| Leaf
| Branch (left : Tree T) (e : T) (right : Tree T).
Arguments Leaf {T}.
Arguments Branch {T} left e right.

Inductive Dir : Set := L | R.
Definition Pos : Set := list Dir.

Section Tree.
Context {T : Type}.

Definition addRoot (e : T) (t : Tree T) : Res (Tree T * Pos) :=
  match t with
  | Leaf => Ok (Branch Leaf e Leaf, [])
  | Branch _ _ _ => Err (Throw NotEmpty)
  end.

(** Add [e] as the child on side [d] of the node at the end of [path];
    the result is the new tree. *)
Fixpoint add_child (d : Dir) (path : Pos) (e : T) (t : Tree T)
  : Res (Tree T) :=
  match t with
  | Leaf => Err (Throw InvalidPosition)
  | Branch l x r =>
      match path with
      | [] =>
          match d, l, r with
          | L, Leaf, _ => Ok (Branch (Branch Leaf e Leaf) x r)
          | R, _, Leaf => Ok (Branch l x (Branch Leaf e Leaf))
          | _, _, _ => Err (Throw SlotOccupied)
          end
      | L :: rest =>
          match add_child d rest e l with
          | Ok l' => Ok (Branch l' x r)
          | Err x => Err x
          end
      | R :: rest =>
          match add_child d rest e r with
          | Ok r' => Ok (Branch l x r')
          | Err x => Err x
          end
      end
  end.

Definition addLeft (p : Pos) (e : T) (t : Tree T) : Res (Tree T * Pos) :=
  match add_child L p e t with
  | Ok t' => Ok (t', p ++ [L])
  | Err x => Err x
  end.

Definition addRight (p : Pos) (e : T) (t : Tree T) : Res (Tree T * Pos) :=
  match add_child R p e t with
  | Ok t' => Ok (t', p ++ [R])
  | Err x => Err x
  end.

(** The elements of a tree, root first, then the left subtree, then the
    right one. *)
Fixpoint preorder (t : Tree T) : list T :=
  match t with
  | Leaf => []
  | Branch l e r => e :: preorder l ++ preorder r
  end.

Fixpoint nodes (t : Tree T) : nat :=
  match t with
  | Leaf => O
  | Branch l e r => S (nodes l + nodes r)
  end.

Lemma length_preorder t : length (preorder t) = nodes t.
Proof.
  induction t as [|l IHl e r IHr]; simpl; [done|].
  rewrite length_app. lia.
Qed.

End Tree.

Section Preorder.
(** Elements, positions, the owning tree, and the state the visitor's
    callback acts on. *)
Context {T P TR V : Type}.

(** Modelled from the spec: the [IBinaryTreeTraversable] interface
    ([src/trees/traversal.class.ts] is not among the sources): a cursor that
    exposes the current element, its index, the current position, the owning
    tree, and navigation to the child cursors.  The cursors are made on
    demand and the index numbers them in the order they are asked for, so
    [getLeft()] and [getRight()] take and return the next free index. *)
#[local] Unset Elimination Schemes.
Inductive BinaryTraversable : Type := mkTraversable {
  element : T;
  index : nat;
  getPosition : P;
  tree : TR;
  getLeft : nat → option BinaryTraversable * nat;
  getRight : nat → option BinaryTraversable * nat;
}.
#[local] Set Elimination Schemes.

(** [this.callback] of [TreeTraversalAbstract]. *)
Variable callback : T → nat → P → TR → V → V.

(** [PreorderTreeTraversal.traverseBinary]; the state is the visitor's state
    and the next free index. *)
Fixpoint traverseBinary (traversable : BinaryTraversable) (s : V * nat)
  {struct traversable} : V * nat :=
  let s1 :=
    (callback (element traversable) (index traversable)
       (getPosition traversable) (tree traversable) s.1, s.2) in
  let left := getLeft traversable s1.2 in
  let s2 :=
    match left.1 with
    | Some traversableChild => traverseBinary traversableChild (s1.1, left.2)
    | None => (s1.1, left.2)
    end in
  let right := getRight traversable s2.2 in
  match right.1 with
  | Some traversableChild => traverseBinary traversableChild (s2.1, right.2)
  | None => (s2.1, right.2)
  end.

(** [if (traversableChild) this.traverseBinary(traversableChild)] *)
Definition traverse_child (child : option BinaryTraversable * nat) (v : V)
  : V * nat :=
  match child.1 with
  | Some traversableChild => traverseBinary traversableChild (v, child.2)
  | None => (v, child.2)
  end.

Lemma traverseBinary_unfold traversable s :
  traverseBinary traversable s
  = let v1 := callback (element traversable) (index traversable)
                (getPosition traversable) (tree traversable) s.1 in
    let s2 := traverse_child (getLeft traversable s.2) v1 in
    traverse_child (getRight traversable s2.2) s2.1.
Proof. by destruct traversable. Qed.

End Preorder.

Section Cursor.
Context {T V : Type}.

(** Modelled from the spec: the cursor a tree hands out for its node at
    [path], numbered [i]. *)
Fixpoint cursor (tr : Tree T) (path : Pos) (t : Tree T) (i : nat)
  : option (@BinaryTraversable T Pos (Tree T)) :=
  match t with
  | Leaf => None
  | Branch l e r =>
      Some (mkTraversable e i path tr
              (λ c, match cursor tr (path ++ [L]) l c with
                    | Some k => (Some k, S c)
                    | None => (None, c)
                    end)
              (λ c, match cursor tr (path ++ [R]) r c with
                    | Some k => (Some k, S c)
                    | None => (None, c)
                    end))
  end.

(** A traversal of the whole tree: none for an empty tree, else
    [traverseBinary] on the cursor of the root, numbered 0. *)
Definition traverse (callback : T → nat → Pos → Tree T → V → V)
    (t : Tree T) (v : V) : V :=
  match cursor t [] t 0 with
  | Some k => (traverseBinary callback k (v, 1%nat)).1
  | None => v
  end.

End Cursor.

(** A visitor that records the element and the index of every call. *)
Definition record {T} (e : T) (i : nat) (p : Pos) (tr : Tree T)
    (v : list (T * nat)) : list (T * nat) :=
  v ++ [(e, i)].

Section Visits.
Context {T : Type}.

Lemma visits_subtree (tr t : Tree T) : ∀ path c v,
  traverse_child record
    (match cursor tr path t c with
     | Some k => (Some k, S c)
     | None => (None, c)
     end) v
  = (v ++ zip (preorder t) (seq c (nodes t)), (c + nodes t)%nat).
Proof.
  induction t as [|l IHl e r IHr]; intros path c v.
  - simpl. unfold traverse_child. simpl. rewrite app_nil_r. f_equal. lia.
  - unfold traverse_child. simpl cursor. cbn [fst snd].
    rewrite traverseBinary_unfold. cbn [element index getPosition tree
      getLeft getRight fst snd].
    rewrite IHl. cbn [fst snd]. rewrite IHr.
    unfold record at 1. simpl preorder. simpl nodes. simpl seq.
    f_equal; [|lia].
    rewrite <- !app_assoc. f_equal. simpl. f_equal.
    rewrite seq_app, zip_with_app by (by rewrite length_preorder, length_seq).
    done.
Qed.

(** The visitor is called once per node, on the elements in preorder,
    numbered from 0. *)
Lemma traverse_record (t : Tree T) :
  traverse record t [] = zip (preorder t) (seq 0 (nodes t)).
Proof.
  pose proof (visits_subtree t t [] 0 []) as H.
  unfold traverse, traverse_child in *.
  destruct (cursor t [] t 0); simpl in *.
  - by rewrite H.
  - by injection H.
Qed.

End Visits.
End Preorder.

(** * Further definitions: ranks, sequences, general trees *)

(** ** Quick-select picks by rank *)

Module QuickSelectRank.
Import QuickSelect.

Section Filter.
Context {A : Type} (P : A → Prop) `{!∀ x, Decision (P x)}.

Lemma filter_all (l : list A) : (∀ x, x ∈ l → P x) → filter P l = l.
Proof.
  induction l as [|a l IH]; intros Hall; [done|].
  rewrite filter_cons_True by (apply Hall; by left).
  f_equal. apply IH. intros x Hx. apply Hall. by right.
Qed.

Lemma filter_none (l : list A) : (∀ x, x ∈ l → ¬ P x) → filter P l = [].
Proof.
  induction l as [|a l IH]; intros Hall; [done|].
  rewrite filter_cons_False by (apply Hall; by left).
  apply IH. intros x Hx. apply Hall. by right.
Qed.
End Filter.

Section Rank.
Context {T : Type}.
Variable random_index : nat → nat → nat.
Variable compare : T → T → ComparisonResult.

(** The comparator answers for a transitive relation [le]: [compare a b] is
    [GREATER] exactly when [le a b] fails, and [LESS] exactly when [le b a]
    fails. *)
Variable le : T → T → Prop.
Hypothesis le_trans : ∀ a b c, le a b → le b c → le a c.
Hypothesis compare_le : ∀ a b, compare a b ≠ GREATER ↔ le a b.
Hypothesis compare_ge : ∀ a b, compare a b ≠ LESS ↔ le b a.

Lemma le_total a b : le a b ∨ le b a.
Proof.
  destruct (compare a b) eqn:E.
  - left. apply compare_le. congruence.
  - left. apply compare_le. congruence.
  - right. apply compare_ge. congruence.
Qed.

Lemma le_refl a : le a a.
Proof. by destruct (le_total a a). Qed.

Lemma compare_LESS a b : compare a b = LESS ↔ ¬ le b a.
Proof.
  rewrite <- compare_ge. destruct (compare a b); naive_solver.
Qed.

Lemma compare_GREATER a b : compare a b = GREATER ↔ ¬ le a b.
Proof.
  rewrite <- compare_le. destruct (compare a b); naive_solver.
Qed.

Lemma compare_self x : compare x x ≠ LESS ∧ compare x x ≠ GREATER.
Proof. split; [apply compare_ge|apply compare_le]; apply le_refl. Qed.

(** Every filter of the working array is the sum of its parts on the three
    arrays. *)
Lemma filter_partition (P : T → Prop) `{!∀ x, Decision (P x)} pivot _arr :
  length (filter P _arr)
  = (length (filter P (less_of compare pivot _arr))
     + length (filter P (equal_of compare pivot _arr))
     + length (filter P (greater_of compare pivot _arr)))%nat.
Proof.
  unfold less_of, equal_of, greater_of.
  induction _arr as [|x r IH]; [done|].
  rewrite (filter_cons (λ item, compare item pivot = LESS)),
    (filter_cons (λ item, compare item pivot = GREATER)),
    (filter_cons (λ item, compare item pivot ≠ LESS ∧ _)).
  rewrite (filter_cons P x r).
  destruct (compare x pivot) eqn:E; repeat case_decide;
    rewrite ?filter_cons; repeat case_decide;
    simpl; try lia; try congruence; naive_solver.
Qed.

(** Below the pivot, ranks are the ranks in [less]. *)
Lemma rank_in_less x pivot _arr :
  compare x pivot = LESS →
  less_of compare x (less_of compare pivot _arr) = less_of compare x _arr ∧
  equal_of compare x (less_of compare pivot _arr) = equal_of compare x _arr.
Proof.
  intros Hx%compare_LESS. unfold less_of, equal_of. split.
  - apply list_filter_filter_l. intros y Hy%compare_LESS.
    apply compare_LESS. intros Hpy. apply Hy.
    destruct (le_total x pivot) as [?|?]; [|done]. by eapply le_trans.
  - apply list_filter_filter_l. intros y [Hl%compare_ge Hg%compare_le].
    apply compare_LESS. intros Hpy. apply Hx. by eapply le_trans.
Qed.

(** Above the pivot, ranks are the ranks in [greater], shifted by the sizes
    of [less] and [equal]. *)
Lemma rank_in_greater x pivot _arr :
  compare x pivot = GREATER →
  length (less_of compare x _arr)
  = (length (less_of compare pivot _arr)
     + length (equal_of compare pivot _arr)
     + length (less_of compare x (greater_of compare pivot _arr)))%nat ∧
  equal_of compare x (greater_of compare pivot _arr)
  = equal_of compare x _arr.
Proof.
  intros Hx%compare_GREATER. split.
  - unfold less_of at 1.
    rewrite (filter_partition (λ item, compare item x = LESS) pivot).
    f_equal. f_equal.
    + f_equal. apply filter_all. intros y [Hy _]%list_elem_of_filter.
      apply compare_LESS in Hy. apply compare_LESS. intros Hxy. apply Hx.
      destruct (le_total y pivot) as [?|?]; [|done]. by eapply le_trans.
    + f_equal. apply filter_all.
      intros y [[Hl%compare_ge Hg%compare_le] _]%list_elem_of_filter.
      apply compare_LESS. intros Hxy. apply Hx. by eapply le_trans.
  - unfold equal_of, greater_of. apply list_filter_filter_l.
    intros y [Hl%compare_ge Hg%compare_le].
    apply compare_GREATER. intros Hyp. apply Hx. by eapply le_trans.
Qed.

(** What the loop returns has the rank asked for in the working array. *)
Lemma select_loop_rank fuel : ∀ k _arr _n x,
  1 ≤ _n ≤ Z.of_nat (length _arr) →
  select_loop random_index compare fuel k _arr _n = Ok (Some x) →
  x ∈ _arr ∧
  Z.of_nat (length (less_of compare x _arr)) < _n
  ≤ Z.of_nat (length (less_of compare x _arr))
    + Z.of_nat (length (equal_of compare x _arr)).
Proof.
  assert (Hone : ∀ (_arr : list T) _n x,
    1 ≤ _n ≤ Z.of_nat (length _arr) → ¬ (1 < length _arr)%nat →
    head _arr = Some x →
    x ∈ _arr ∧
    Z.of_nat (length (less_of compare x _arr)) < _n
    ≤ Z.of_nat (length (less_of compare x _arr))
      + Z.of_nat (length (equal_of compare x _arr))).
  { intros [|y [|z r]] _n x Hn Hlen Hh; simpl in *; try lia; simplify_eq.
    destruct (compare_self x) as [Hl Hg].
    split; [by left|]. unfold less_of, equal_of.
    rewrite filter_cons_False, filter_cons_True by naive_solver.
    simpl. lia. }
  induction fuel as [|fuel IH]; intros k _arr _n x Hn; simpl;
    case_bool_decide as Hlen; try done.
  { intros [= Hh]. by apply Hone. }
  2:{ intros [= Hh]. by apply Hone. }
  destruct (_arr !! random_index k (length _arr)) as [pivot|] eqn:Hp;
    [|done].
  assert (pivot ∈ _arr) as Hpin by by eapply list_elem_of_lookup_2.
  pose proof (partition_length compare pivot _arr) as Hpart.
  destruct (compare_self pivot) as [Hl Hg].
  pose proof (equal_of_pivot compare pivot _arr Hpin Hl Hg) as Heq.
  case_bool_decide as H1.
  - intros Hr. apply IH in Hr; [|lia].
    destruct Hr as (Hx & Hrank).
    pose proof Hx as [Hxl Hxin]%list_elem_of_filter.
    destruct (rank_in_less x pivot _arr Hxl) as [E1 E2].
    fold (less_of compare pivot _arr) in Hx.
    rewrite E1, E2 in Hrank. done.
  - case_bool_decide as H2.
    + intros [= <-]. split; [done|]. lia.
    + intros Hr. apply IH in Hr; [|lia].
      destruct Hr as (Hx & Hrank).
      pose proof Hx as [Hxl Hxin]%list_elem_of_filter.
      destruct (rank_in_greater x pivot _arr Hxl) as [E1 E2].
      rewrite E2 in Hrank. split; [done|]. lia.
Qed.

(** In a sorted arrangement of the array, the element of a given rank sits
    at that index, up to elements that compare as equal to it. *)
Lemma rank_sorted (arr s : list T) x (n : nat) :
  (length (less_of compare x arr) ≤ n
   < length (less_of compare x arr) + length (equal_of compare x arr))%nat →
  Sorted le s → s ≡ₚ arr →
  ∃ y, s !! n = Some y ∧ le x y ∧ le y x.
Proof.
  intros Hrank Hs Hperm.
  assert (Transitive le) as Htr by (intros a b c; apply le_trans).
  apply Sorted_StronglySorted in Hs; [|done].
  assert (length (less_of compare x s) = length (less_of compare x arr))
    as El by (unfold less_of; by rewrite Hperm).
  assert (length (equal_of compare x s) = length (equal_of compare x arr))
    as Ee by (unfold equal_of; by rewrite Hperm).
  rewrite <- El, <- Ee in Hrank. clear El Ee Hperm arr.
  pose proof (partition_length compare x s) as Hpart.
  destruct (lookup_lt_is_Some_2 s n) as [y Hy]; [lia|].
  exists y. split; [done|].
  pose proof (take_drop_middle _ _ _ Hy) as Hsplit.
  pose proof (length_take_le s n ltac:(lia)) as Htake.
  set (s1 := take n s) in *. set (s2 := drop (S n) s) in *.
  clearbody s1 s2. subst s.
  apply StronglySorted_app in Hs as (Hlow & _ & Hhigh).
  apply StronglySorted_cons in Hhigh as [Hhigh _].
  rewrite Forall_forall in Hhigh.
  assert (∀ z, z ∈ y :: s2 → le y z) as Hup.
  { intros z [->|Hz]%elem_of_cons; [apply le_refl|by apply Hhigh]. }
  assert (∀ z, z ∈ s1 → le z y) as Hdown.
  { intros z Hz. apply Hlow; [done|by left]. }
  pose proof (partition_length compare x s1) as Hpart1.
  unfold less_of, equal_of in Hrank.
  rewrite !filter_app, !length_app in Hrank.
  fold (less_of compare x s1) (equal_of compare x s1) in Hrank.
  destruct (compare y x) eqn:E.
  - (* y is strictly before x: all of s1 and y count as less *)
    exfalso. apply compare_LESS in E.
    assert (Hall : ∀ z, z ∈ s1 → compare z x = LESS).
    { intros z Hz. apply compare_LESS. intros Hxz. apply E.
      eapply le_trans; [done|by apply Hdown]. }
    fold (less_of compare x s1) in Hrank.
    unfold less_of in Hrank at 1.
    rewrite (filter_all _ s1 Hall) in Hrank.
    rewrite filter_cons_True in Hrank by by apply compare_LESS.
    simpl in Hrank. lia.
  - split; [by apply compare_ge; congruence|by apply compare_le; congruence].
  - (* y is strictly after x: nothing from y on counts as less or equal *)
    exfalso. apply compare_GREATER in E.
    assert (Hno : ∀ z, z ∈ y :: s2 → compare z x = GREATER).
    { intros z Hz. apply compare_GREATER. intros Hzx. apply E.
      eapply le_trans; [by apply Hup|done]. }
    rewrite (filter_none (λ item, compare item x = LESS) (y :: s2)) in Hrank
      by (intros z Hz; rewrite (Hno z Hz); done).
    rewrite (filter_none _ (y :: s2)) in Hrank
      by (intros z Hz; rewrite (Hno z Hz); naive_solver).
    simpl in Hrank. lia.
Qed.

Hypothesis random_index_lt :
  ∀ k len, (0 < len)%nat → (random_index k len < len)%nat.

(** [quickSelect] returns an element of rank [n]. *)
Lemma quickSelect_rank fuel arr n :
  0 ≤ n < Z.of_nat (length arr) → (length arr ≤ S fuel)%nat →
  ∃ x, quickSelect random_index compare fuel arr n = Ok (Some x) ∧ x ∈ arr ∧
       Z.of_nat (length (less_of compare x arr)) ≤ n
       < Z.of_nat (length (less_of compare x arr))
         + Z.of_nat (length (equal_of compare x arr)).
Proof.
  intros Hn Hf.
  destruct (quickSelect_returns random_index compare arr random_index_lt
              (λ x _, compare_self x) fuel n Hn Hf) as (x & Hx & Hin).
  exists x. split; [done|]. split; [done|].
  unfold quickSelect in Hx.
  rewrite bool_decide_false in Hx by lia.
  rewrite bool_decide_false in Hx by lia.
  apply select_loop_rank in Hx; [|lia]. lia.
Qed.

Lemma quickSelect_sorted fuel arr n s :
  0 ≤ n < Z.of_nat (length arr) → (length arr ≤ S fuel)%nat →
  Sorted le s → s ≡ₚ arr →
  ∃ x y, quickSelect random_index compare fuel arr n = Ok (Some x) ∧
         s !! Z.to_nat n = Some y ∧ le x y ∧ le y x.
Proof.
  intros Hn Hf Hs Hperm.
  destruct (quickSelect_rank fuel arr n Hn Hf) as (x & Hx & Hin & Hrank).
  destruct (rank_sorted arr s x (Z.to_nat n)) as (y & Hy & Hxy & Hyx);
    [lia|done|done|].
  by exists x, y.
Qed.

End Rank.

(** The comparator of numbers answers for [≤] on integers. *)
Lemma compareAsNumbers_le a b : compareAsNumbers a b ≠ GREATER ↔ a ≤ b.
Proof.
  unfold compareAsNumbers. repeat case_bool_decide; split; intros;
    try done; lia.
Qed.

Lemma compareAsNumbers_ge a b : compareAsNumbers a b ≠ LESS ↔ b ≤ a.
Proof.
  unfold compareAsNumbers. repeat case_bool_decide; split; intros;
    try done; lia.
Qed.

(** On integers, with the comparator of numbers: indexing into the sorted
    array. *)
Lemma quickSelect_numbers random_index fuel arr n :
  (∀ k len, (0 < len)%nat → (random_index k len < len)%nat) →
  0 ≤ n < Z.of_nat (length arr) → (length arr ≤ S fuel)%nat →
  quickSelect random_index compareAsNumbers fuel arr n
  = Ok (merge_sort Z.le arr !! Z.to_nat n).
Proof.
  intros Hrnd Hn Hf.
  destruct (quickSelect_sorted random_index compareAsNumbers Z.le) with
    (fuel := fuel) (arr := arr) (n := n) (s := merge_sort Z.le arr)
    as (x & y & Hx & Hy & Hxy & Hyx); try done.
  - intros a b c. lia.
  - apply compareAsNumbers_le.
  - apply compareAsNumbers_ge.
  - apply Sorted_merge_sort. intros a b. lia.
  - apply merge_sort_Permutation.
  - rewrite Hx, Hy. repeat f_equal. lia.
Qed.

End QuickSelectRank.

(** ** The lists as sequences *)

(** *** Chains by index *)

Section ChainIndex.

(** [insert_at i x l]: [l] with [x] put in front of its [i]-th element. *)
Definition insert_at {A} (i : nat) (x : A) (l : list A) : list A :=
  take i l ++ x :: drop i l.

Lemma length_insert_at {A} i (x : A) l :
  length (insert_at i x l) = S (length l).
Proof.
  unfold insert_at. rewrite length_app. simpl.
  rewrite length_take, length_drop. lia.
Qed.

Lemma insert_at_lookup_lt {A} i j (x : A) l :
  (j < i)%nat → (i ≤ length l)%nat → insert_at i x l !! j = l !! j.
Proof.
  intros Hj Hi. unfold insert_at.
  rewrite lookup_app_l by (rewrite length_take; lia).
  by rewrite lookup_take_lt.
Qed.

Lemma insert_at_lookup_eq {A} i (x : A) l :
  (i ≤ length l)%nat → insert_at i x l !! i = Some x.
Proof.
  intros Hi. unfold insert_at.
  rewrite lookup_app_r by (rewrite length_take; lia).
  rewrite length_take. by replace (i - i `min` length l)%nat with O by lia.
Qed.

Lemma insert_at_lookup_gt {A} i j (x : A) l :
  (i ≤ j)%nat → (i ≤ length l)%nat → insert_at i x l !! S j = l !! j.
Proof.
  intros Hj Hi. unfold insert_at.
  rewrite lookup_app_r by (rewrite length_take; lia).
  rewrite length_take.
  replace (S j - i `min` length l)%nat with (S (j - i)) by lia.
  simpl. rewrite lookup_drop. f_equal. lia.
Qed.

Lemma delete_insert_at {A} i (x : A) l :
  (i ≤ length l)%nat → base.delete i (insert_at i x l) = l.
Proof.
  intros Hi. unfold insert_at.
  rewrite <- (length_take_le l i Hi) at 1.
  by rewrite delete_middle, take_drop.
Qed.

Lemma chain_head N o ch : chain N o ch → o = ch !! O.
Proof. destruct ch; simpl; [done|]. by intros [-> _]. Qed.

Lemma chain_lookup_next N : ∀ ch o i a,
  chain N o ch → ch !! i = Some a → N a = Some (ch !! S i).
Proof.
  induction ch as [|b r IH]; intros o i a Hch Hi; [done|].
  destruct Hch as (-> & nx & Hn & _ & Hch).
  destruct i as [|i]; simpl in *.
  - simplify_eq. rewrite Hn. f_equal. by eapply chain_head.
  - by eapply IH.
Qed.

Lemma NoDup_lookup_middle {A} (l1 l2 : list A) x i :
  NoDup (l1 ++ x :: l2) → (l1 ++ x :: l2) !! i = Some x → i = length l1.
Proof.
  intros Hnd Hi. eapply NoDup_lookup; [done|done|].
  by rewrite list_lookup_middle.
Qed.

Lemma insert_after_lookup ch i p n :
  NoDup ch → ch !! i = Some p → insert_after p n ch = insert_at (S i) n ch.
Proof.
  intros Hnd Hi. unfold insert_at.
  rewrite <- (take_drop_middle _ _ _ Hi) at 1.
  rewrite insert_after_split.
  - rewrite (take_S_r _ _ _ Hi), <- app_assoc. done.
  - intros Hin. apply list_elem_of_lookup_1 in Hin as [j Hj].
    pose proof (lookup_lt_Some _ _ _ Hj) as Hlt. rewrite length_take in Hlt.
    rewrite lookup_take_lt in Hj by lia.
    pose proof (NoDup_lookup _ _ _ _ Hnd Hi Hj). lia.
Qed.

End ChainIndex.

(** *** Doubly linked list *)

Module DoublySeq.
Import Doubly.
Section DoublySeq.
Context {T : Type}.
Implicit Types (l : DList T) (ch : list addr) (els : list T).
Implicit Types (p q : Position).

(** [l] holds the elements [els], in the nodes [ch], in this order. *)
Definition repr l ch els : Prop := strict l ch ∧ holds (heap l) ch els.

(** A client's walk: the position [i] steps of [getAfter] after [p], and
    the position of the [i]-th element, counted from [getFirst]. *)
Fixpoint advance (i : nat) (p : Position) : M (DList T) (option Position) :=
  match i with
  | O => ret (Some p)
  | S i' =>
      q <- getAfter p ;;
      match q with
      | Some q' => advance i' q'
      | None => ret None
      end
  end.

Definition position_at (i : nat) : M (DList T) (option Position) :=
  f <- getFirst ;;
  match f with
  | Some p => advance i p
  | None => ret None
  end.

(** The same from the back, with [getLast] and [getBefore]. *)
Fixpoint retreat (i : nat) (p : Position) : M (DList T) (option Position) :=
  match i with
  | O => ret (Some p)
  | S i' =>
      q <- getBefore p ;;
      match q with
      | Some q' => retreat i' q'
      | None => ret None
      end
  end.

Definition position_from_last (i : nat) : M (DList T) (option Position) :=
  f <- getLast ;;
  match f with
  | Some p => retreat i p
  | None => ret None
  end.

Lemma holds_length h ch els : holds h ch els → length ch = length els.
Proof. apply Forall2_length. Qed.

Lemma holds_frame h h' ch els :
  (∀ a, a ∈ ch → elt h' a = elt h a) → holds h ch els → holds h' ch els.
Proof.
  intros Hfr Hels. induction Hels as [|a e ch els Hae Hels IH]; constructor.
  - rewrite Hfr; [done|by left].
  - apply IH. intros b Hb. apply Hfr. by right.
Qed.

Lemma holds_lookup h ch els i a :
  holds h ch els → ch !! i = Some a → ∃ e, els !! i = Some e ∧ elt h a = Some e.
Proof. intros Hels Hi. by eapply Forall2_lookup_l in Hels. Qed.

Lemma holds_insert_at h ch els i n e :
  holds h ch els → elt h n = Some e →
  holds h (insert_at i n ch) (insert_at i e els).
Proof.
  intros Hels Hn. unfold insert_at. apply Forall2_app.
  - by apply Forall2_take.
  - constructor; [done|]. by apply Forall2_drop.
Qed.

Lemma holds_delete h ch els (i : nat) :
  holds h ch els → holds h (base.delete i ch) (base.delete i els).
Proof. intros Hels. by apply Forall2_delete. Qed.

Lemma strict_holds l ch : strict l ch → ∃ els, holds (heap l) ch els.
Proof.
  intros (_ & Hch & _).
  assert (Hall : ∀ a, a ∈ ch → is_Some (elt (heap l) a)).
  { intros a Ha. destruct (seg_live _ _ _ _ _ Hch Ha) as [[x Hx] _].
    unfold nxt in Hx. unfold elt.
    destruct (heap l !! a); [by eexists|done]. }
  clear Hch. induction ch as [|a r IH].
  - exists []. constructor.
  - destruct IH as [els Hels]; [intros b Hb; apply Hall; by right|].
    destruct (Hall a) as [e He]; [by left|].
    exists (e :: els). by constructor.
Qed.

Lemma built_repr c l : built c l → ∃ ch els, repr l ch els.
Proof.
  intros Hb. destruct (built_strict _ _ Hb) as [ch Hst].
  destruct (strict_holds _ _ Hst) as [els Hels]. by exists ch, els.
Qed.

(** Iteration follows the chain. *)
Lemma iterate_from_holds h : ∀ ch o els fuel,
  chain (nxt h) o ch → iterate_from fuel h o = Some els →
  holds h ch els ∧ (length ch ≤ fuel)%nat.
Proof.
  induction ch as [|a r IH]; intros o els fuel Hch Hit.
  - unfold chain in Hch. simpl in Hch. subst o. destruct fuel; simpl in Hit; simplify_eq;
      (split; [constructor|simpl; lia]).
  - destruct Hch as (-> & nx & Hn & _ & Hch).
    destruct fuel as [|fuel]; simpl in Hit; [done|].
    unfold nxt in Hn. destruct (h !! a) as [nd|] eqn:E; [|done].
    simpl in Hn. assert (next nd = nx) as Hnx by congruence.
    destruct (iterate_from fuel h (next nd)) as [els'|] eqn:Hit';
      simpl in Hit; [|done].
    simplify_eq. destruct (IH _ _ _ Hch Hit') as [Hels Hf].
    split; [|simpl; lia]. constructor; [|done]. unfold elt. by rewrite E.
Qed.

Lemma repr_iterate l ch els fuel :
  strict l ch →
  iterate fuel l = Some els ↔ holds (heap l) ch els ∧ (length ch ≤ fuel)%nat.
Proof.
  intros (_ & Hch & _). split.
  - by apply iterate_from_holds.
  - intros [Hels Hf]. by eapply iterate_from_chain.
Qed.

(** Nodes on the chain are the live ones; their positions are the valid
    ones. *)
Lemma strict_live l ch a : strict l ch → live (heap l) a ↔ a ∈ ch.
Proof.
  intros (_ & Hch & _ & _ & Hcov). split; [apply Hcov|].
  intros Ha. by eapply seg_live.
Qed.

Lemma strict_valid l ch p :
  strict l ch → valid p l ↔ pos_container p = self l ∧ pos_node p ∈ ch.
Proof. intros Hst. by rewrite valid_iff, (strict_live _ _ _ Hst). Qed.

Lemma getAfter_run l ch i a :
  strict l ch → ch !! i = Some a →
  getAfter (mkPosition a (self l)) l
  = (l, Ok ((λ n, mkPosition n (self l)) <$> ch !! S i)).
Proof.
  intros Hst Hi. pose proof Hst as (_ & Hch & _).
  pose proof (chain_lookup_next _ _ _ _ _ Hch Hi) as Hn.
  assert (valid (mkPosition a (self l)) l) as Hv.
  { apply (strict_valid _ _ _ Hst). split; [done|].
    by eapply list_elem_of_lookup_2. }
  unfold getAfter, bind. rewrite Hv. simpl.
  rewrite get_next_nxt, Hn. by destruct (ch !! S i).
Qed.

Lemma advance_run l ch : strict l ch → ∀ i j a,
  ch !! j = Some a →
  advance i (mkPosition a (self l)) l
  = (l, Ok ((λ n, mkPosition n (self l)) <$> ch !! (j + i)%nat)).
Proof.
  intros Hst. induction i as [|i IH]; intros j a Hj; simpl.
  - unfold ret. by rewrite Nat.add_0_r, Hj.
  - unfold bind. rewrite (getAfter_run _ _ _ _ Hst Hj).
    destruct (ch !! S j) as [b|] eqn:E; simpl.
    + rewrite (IH (S j) b E).
      by replace (j + S i)%nat with (S j + i)%nat by lia.
    + unfold ret. rewrite (lookup_ge_None_2 ch (j + S i)%nat); [done|].
      apply lookup_ge_None_1 in E. lia.
Qed.

Lemma position_at_run l ch i :
  strict l ch →
  position_at i l = (l, Ok ((λ n, mkPosition n (self l)) <$> ch !! i)).
Proof.
  intros Hst. pose proof Hst as (_ & Hch & _).
  unfold position_at, bind. rewrite getFirst_run.
  rewrite (chain_head _ _ _ Hch).
  destruct (ch !! O) as [a|] eqn:E; simpl.
  - by rewrite (advance_run _ _ Hst i O a E).
  - unfold ret. rewrite (lookup_ge_None_2 ch i); [done|].
    apply lookup_ge_None_1 in E. lia.
Qed.

(** The predecessor link of a node on the chain. *)
Lemma chain_lookup_prev l ch i a :
  strict l ch → ch !! i = Some a →
  prv (heap l) a = Some (match i with O => None | S j => ch !! j end).
Proof.
  intros Hst Hi. pose proof Hst as (Hinv & Hch & _).
  destruct i as [|j].
  - apply (inv_head _ Hinv). rewrite (chain_head _ _ _ Hch). done.
  - destruct (lookup_lt_is_Some_2 ch j) as [b Hb].
    { apply lookup_lt_Some in Hi. lia. }
    pose proof (chain_lookup_next _ _ _ _ _ Hch Hb) as Hn.
    rewrite Hi in Hn. rewrite Hb.
    apply (inv_next _ Hinv _ _ Hn).
    intros ->. pose proof (NoDup_lookup _ _ _ _ (strict_NoDup _ _ Hst) Hi Hb).
    lia.
Qed.

Lemma getBefore_run l ch i a :
  strict l ch → ch !! i = Some a →
  getBefore (mkPosition a (self l)) l
  = (l, Ok ((λ n, mkPosition n (self l))
            <$> match i with O => None | S j => ch !! j end)).
Proof.
  intros Hst Hi.
  pose proof (chain_lookup_prev _ _ _ _ Hst Hi) as Hp.
  assert (valid (mkPosition a (self l)) l) as Hv.
  { apply (strict_valid _ _ _ Hst). split; [done|].
    by eapply list_elem_of_lookup_2. }
  unfold getBefore, bind. rewrite Hv. simpl.
  rewrite get_prev_prv, Hp. by destruct i as [|j]; [|destruct (ch !! j)].
Qed.

Lemma retreat_run l ch : strict l ch → ∀ i j a,
  ch !! j = Some a →
  retreat i (mkPosition a (self l)) l
  = (l, Ok (if decide (i ≤ j)%nat
            then (λ n, mkPosition n (self l)) <$> ch !! (j - i)%nat
            else None)).
Proof.
  intros Hst. induction i as [|i IH]; intros j a Hj; cbn [retreat].
  - unfold ret. rewrite decide_True by lia. by rewrite Nat.sub_0_r, Hj.
  - unfold bind. rewrite (getBefore_run _ _ _ _ Hst Hj).
    destruct j as [|j]; simpl; [done|].
    destruct (lookup_lt_is_Some_2 ch j) as [b Hb].
    { apply lookup_lt_Some in Hj. lia. }
    rewrite Hb. simpl. rewrite (IH j b Hb).
    destruct (decide (i ≤ j)%nat); [rewrite decide_True by lia|
                                    rewrite decide_False by lia]; done.
Qed.

Lemma position_from_last_run l ch i :
  strict l ch →
  position_from_last i l
  = (l, Ok (if decide (i < length ch)%nat
            then (λ n, mkPosition n (self l)) <$> ch !! (length ch - 1 - i)%nat
            else None)).
Proof.
  intros Hst. pose proof Hst as (_ & _ & Htl & _).
  unfold position_from_last, bind. rewrite getLast_run, Htl.
  destruct (last ch) as [a|] eqn:E; simpl.
  - rewrite last_lookup in E.
    assert (0 < length ch)%nat by (destruct ch; simpl; [done|lia]).
    replace (pred (length ch)) with (length ch - 1)%nat in E by lia.
    rewrite (retreat_run _ _ Hst i _ a E).
    destruct (decide (i < length ch)%nat); [rewrite decide_True by lia|
                                            rewrite decide_False by lia]; done.
  - apply last_None in E as ->. by destruct (decide (i < length [])%nat).
Qed.

(** Insertion between two neighbours of the chain. *)
Lemma inserted_repr e pred succ l ch els i :
  repr l ch els → can_insert l pred succ → (pred = None → succ = head l) →
  spliced pred (fresh (dom (heap l))) ch = insert_at i (fresh (dom (heap l))) ch →
  (fresh (dom (heap l)) ∉ ch) ∧
  repr (inserted e pred succ l)
    (insert_at i (fresh (dom (heap l))) ch) (insert_at i e els).
Proof.
  intros [Hst Hels] Hci Hhd Hsp. pose proof Hst as (_ & Hch & _).
  assert (Hn : fresh (dom (heap l)) ∉ ch).
  { intros Hin. destruct (seg_live _ _ _ _ _ Hch Hin) as [[x Hx] _].
    pose proof (nxt_fresh (heap l)). congruence. }
  split; [done|]. split.
  - rewrite <- Hsp. by apply inserted_strict.
  - apply holds_insert_at.
    + eapply holds_frame; [|done]. intros a Ha. rewrite elt_inserted.
      rewrite decide_False; [done|]. by intros ->.
    + rewrite elt_inserted. by rewrite decide_True.
Qed.

Lemma addFirst_repr e l ch els :
  repr l ch els →
  ∃ n l', addFirst e l = (l', Ok (mkPosition n (self l))) ∧
          self l' = self l ∧ (n ∉ ch) ∧ repr l' (n :: ch) (e :: els).
Proof.
  intros Hr. pose proof Hr as [(Hinv & _) _].
  destruct (addFirst_run e l Hinv) as [Hci Hrun].
  destruct (inserted_repr e None (head l) l ch els O Hr Hci) as [Hn Hr'];
    [done|done|].
  by eexists _, _.
Qed.

Lemma addLast_repr e l ch els :
  repr l ch els →
  ∃ n l', addLast e l = (l', Ok (mkPosition n (self l))) ∧
          self l' = self l ∧ (n ∉ ch) ∧ repr l' (ch ++ [n]) (els ++ [e]).
Proof.
  intros Hr. pose proof Hr as [Hst Hels].
  pose proof Hst as (Hinv & Hch & Htl & _).
  destruct (addLast_run e l Hinv) as [Hci Hrun].
  destruct (inserted_repr e (tail l) None l ch els (length ch) Hr Hci)
    as [Hn Hr'].
  - intros E. rewrite E in Htl. symmetry in Htl.
    apply last_None in Htl as ->. done.
  - rewrite (spliced_last (tail l)) by (done || by eapply strict_NoDup).
    unfold insert_at. by rewrite take_ge, drop_ge by lia.
  - unfold insert_at in Hr'.
    rewrite (holds_length _ _ _ Hels) in Hr' at 3 4.
    rewrite !take_ge, !drop_ge in Hr' by lia.
    by eexists _, _.
Qed.

Lemma addAfter_repr e l ch els i a :
  repr l ch els → ch !! i = Some a →
  ∃ n l', addAfter (mkPosition a (self l)) e l
          = (l', Ok (mkPosition n (self l))) ∧
          self l' = self l ∧ (n ∉ ch) ∧
          repr l' (insert_at (S i) n ch) (insert_at (S i) e els).
Proof.
  intros Hr Hi. pose proof Hr as [Hst Hels]. pose proof Hst as (Hinv & _).
  assert (valid (mkPosition a (self l)) l) as Hv.
  { apply (strict_valid _ _ _ Hst). split; [done|].
    by eapply list_elem_of_lookup_2. }
  destruct (addAfter_cases (mkPosition a (self l)) e l Hinv)
    as [(x & Hx & _)|(_ & nx & Hnx & Hci & Hrun)].
  { rewrite Hv in Hx. done. }
  simpl in *.
  destruct (inserted_repr e (Some a) nx l ch els (S i) Hr Hci) as [Hn Hr'];
    [done| |].
  - simpl. apply insert_after_lookup; [by eapply strict_NoDup|done].
  - by eexists _, _.
Qed.

Lemma addBefore_repr e l ch els i a :
  repr l ch els → ch !! i = Some a →
  ∃ n l', addBefore (mkPosition a (self l)) e l
          = (l', Ok (mkPosition n (self l))) ∧
          self l' = self l ∧ (n ∉ ch) ∧
          repr l' (insert_at i n ch) (insert_at i e els).
Proof.
  intros Hr Hi. pose proof Hr as [Hst Hels]. pose proof Hst as (Hinv & Hch & _).
  assert (valid (mkPosition a (self l)) l) as Hv.
  { apply (strict_valid _ _ _ Hst). split; [done|].
    by eapply list_elem_of_lookup_2. }
  destruct (addBefore_cases (mkPosition a (self l)) e l Hinv)
    as [(x & Hx & _)|(_ & pv & Hpv & Hci & Hrun)].
  { rewrite Hv in Hx. done. }
  simpl in *.
  rewrite (chain_lookup_prev _ _ _ _ Hst Hi) in Hpv.
  destruct (inserted_repr e pv (Some a) l ch els i Hr Hci) as [Hn Hr'].
  - intros ->. destruct i as [|j]; [by rewrite (chain_head _ _ _ Hch)|].
    assert (ch !! j = None) as Hj%lookup_ge_None_1 by congruence.
    apply lookup_lt_Some in Hi. lia.
  - destruct i as [|j]; simplify_eq; [done|].
    destruct (ch !! j) as [b|] eqn:Hb.
    + simpl. apply insert_after_lookup; [by eapply strict_NoDup|done].
    + apply lookup_ge_None_1 in Hb. apply lookup_lt_Some in Hi. lia.
  - by eexists _, _.
Qed.

(** Removal of a node of the chain. *)
Lemma deleted_repr l ch els i n nd :
  repr l ch els → ch !! i = Some n →
  heap l !! n = Some nd → next nd ≠ Some n →
  els !! i = Some (element nd) ∧
  repr (deleted n nd l) (base.delete i ch) (base.delete i els).
Proof.
  intros [Hst Hels] Hi Hnd Hlive.
  destruct (holds_lookup _ _ _ _ _ Hels Hi) as (x & Hx & Hex).
  unfold elt in Hex. rewrite Hnd in Hex. simpl in Hex. simplify_eq.
  split; [done|].
  destruct (deleted_strict _ _ _ _ Hst Hnd Hlive) as (l1 & l2 & -> & Hst').
  pose proof (NoDup_lookup_middle _ _ _ _ (strict_NoDup _ _ Hst) Hi) as ->.
  split.
  - by rewrite delete_middle.
  - apply holds_delete. eapply holds_frame; [|done].
    intros a _. apply elt_deleted.
Qed.

Lemma delete_repr l ch els i a :
  repr l ch els → ch !! i = Some a →
  ∃ x l', delete (mkPosition a (self l)) l = (l', Ok x) ∧
          els !! i = Some x ∧ self l' = self l ∧
          repr l' (base.delete i ch) (base.delete i els).
Proof.
  intros Hr Hi. pose proof Hr as [Hst Hels]. pose proof Hst as (Hinv & _).
  assert (valid (mkPosition a (self l)) l) as Hv.
  { apply (strict_valid _ _ _ Hst). split; [done|].
    by eapply list_elem_of_lookup_2. }
  destruct (delete_cases (mkPosition a (self l)) l Hinv)
    as [(x & Hx & _)|(_ & nd & Hnd & Hlive & Hrun)].
  { rewrite Hv in Hx. done. }
  simpl in *.
  destruct (deleted_repr _ _ _ _ _ _ Hr Hi Hnd Hlive) as [Hx Hr'].
  by eexists _, _.
Qed.

Lemma removeFirst_repr l a ch x els :
  repr l (a :: ch) (x :: els) →
  ∃ l', removeFirst l = (l', Ok x) ∧ self l' = self l ∧ repr l' ch els.
Proof.
  intros Hr. pose proof Hr as [Hst Hels]. pose proof Hst as (Hinv & Hch & _).
  apply chain_head in Hch. simpl in Hch.
  destruct (removeFirst_cases l Hinv)
    as [[Hh _]|(n & nd & Hh & Hnd & Hlive & Hrun)]; [congruence|].
  assert (n = a) as -> by congruence.
  destruct (deleted_repr _ _ _ O _ _ Hr eq_refl Hnd Hlive) as [Hx Hr'].
  simpl in Hx. simplify_eq. by eexists.
Qed.

Lemma removeLast_repr l a ch x els :
  repr l (ch ++ [a]) (els ++ [x]) →
  ∃ l', removeLast l = (l', Ok x) ∧ self l' = self l ∧ repr l' ch els.
Proof.
  intros Hr. pose proof Hr as [Hst Hels]. pose proof Hst as (Hinv & _ & Htl & _).
  rewrite last_snoc in Htl.
  destruct (removeLast_cases l Hinv)
    as [[Hh _]|(n & nd & Hh & Hnd & Hlive & Hrun)]; [congruence|].
  assert (n = a) as -> by congruence.
  assert (length ch = length els) as Hlen.
  { apply holds_length in Hels. rewrite !length_app in Hels. simpl in Hels.
    lia. }
  destruct (deleted_repr _ _ _ (length ch) _ _ Hr
              (list_lookup_middle _ _ _ _ eq_refl) Hnd Hlive) as [Hx Hr'].
  rewrite Hlen in Hx at 1. rewrite list_lookup_middle in Hx by done.
  rewrite delete_middle in Hr'. rewrite Hlen, delete_middle in Hr'.
  rewrite !app_nil_r in Hr'. simplify_eq. by eexists.
Qed.

Lemma removal_empty l :
  repr l [] [] →
  removeFirst l = (l, Err (Throw EmptyContainer)) ∧
  removeLast l = (l, Err (Throw EmptyContainer)).
Proof.
  intros [(_ & Hch & Htl & _) _]. apply chain_head in Hch.
  by split; [apply empty_throws|apply empty_throws].
Qed.

Lemma replace_repr e l ch els i a :
  repr l ch els → ch !! i = Some a →
  ∃ x l', replace (mkPosition a (self l)) e l = (l', Ok x) ∧
          els !! i = Some x ∧ self l' = self l ∧
          repr l' ch (<[i := e]> els).
Proof.
  intros Hr Hi. pose proof Hr as [Hst Hels].
  assert (valid (mkPosition a (self l)) l) as Hv.
  { apply (strict_valid _ _ _ Hst). split; [done|].
    by eapply list_elem_of_lookup_2. }
  destruct (replace_cases (mkPosition a (self l)) e l)
    as [(x & Hx & _)|(_ & old & Hold & Hrun)].
  { rewrite Hv in Hx. done. }
  simpl in *.
  destruct (holds_lookup _ _ _ _ _ Hels Hi) as (x & Hx & Hex).
  assert (x = old) as -> by congruence.
  exists old, (replaced a e l). split; [done|]. split; [done|].
  split; [done|]. split; [by apply replaced_strict|].
  apply Forall2_same_length_lookup_2.
  { rewrite length_insert. by eapply holds_length. }
  intros k b y Hb Hy. unfold replaced. simpl. rewrite elt_alter_element.
  destruct (decide (k = i)) as [->|Hne].
  - assert (b = a) as -> by congruence.
    rewrite list_lookup_insert_eq in Hy
      by (by eapply lookup_lt_Some).
    rewrite decide_True by done. rewrite Hold. simpl. congruence.
  - rewrite list_lookup_insert_ne in Hy by done.
    rewrite decide_False.
    + destruct (holds_lookup _ _ _ _ _ Hels Hb) as (z & Hz & Hez). congruence.
    + intros ->.
      pose proof (NoDup_lookup _ _ _ _ (strict_NoDup _ _ Hst) Hi Hb). lia.
Qed.

Lemma clear_repr fuel l ch els :
  repr l ch els → (length ch ≤ fuel)%nat →
  ∃ l', clear fuel false l = (l', Ok tt) ∧ self l' = self l ∧ repr l' [] [].
Proof.
  intros [Hst Hels] Hf. pose proof Hst as (_ & Hch & _).
  exists (cleared ch l). split.
  - apply clear_run; [done|by eapply strict_NoDup|done].
  - split; [done|]. split; [by apply cleared_strict|constructor].
Qed.

(** From what a client observes to the chain and back. *)
Lemma observe c l fuel els :
  built c l → iterate fuel l = Some els →
  ∃ ch, repr l ch els ∧ (length els ≤ fuel)%nat.
Proof.
  intros Hb Hit. destruct (built_strict _ _ Hb) as [ch Hst].
  destruct (proj1 (repr_iterate l ch els fuel Hst) Hit) as [Hels Hf].
  exists ch. split; [by split|]. by rewrite <- (holds_length _ _ _ Hels).
Qed.

Lemma repr_iterates l ch els fuel :
  repr l ch els → (length els ≤ fuel)%nat → iterate fuel l = Some els.
Proof.
  intros [Hst Hels] Hf. apply (repr_iterate _ _ _ _ Hst).
  split; [done|]. by rewrite (holds_length _ _ _ Hels).
Qed.

Lemma repr_size l ch els : repr l ch els → size l = Z.of_nat (length els).
Proof.
  intros [(_ & _ & _ & Hsz & _) Hels].
  by rewrite Hsz, (holds_length _ _ _ Hels).
Qed.

Lemma position_at_Some l ch i p :
  strict l ch → position_at i l = (l, Ok (Some p)) →
  ch !! i = Some (pos_node p) ∧ p = mkPosition (pos_node p) (self l).
Proof.
  intros Hst. rewrite (position_at_run _ _ _ Hst).
  destruct (ch !! i) as [a|]; simpl; [|done]. by intros [= <-].
Qed.

(** The positions of two lists agree along a map of the indices. *)
Lemma positions_agree l l' ch ch' (i j : nat) :
  strict l ch → strict l' ch' → self l' = self l → ch' !! j = ch !! i →
  (position_at j l').2 = (position_at i l).2.
Proof.
  intros Hst Hst' Hself E.
  rewrite (position_at_run _ _ _ Hst), (position_at_run _ _ _ Hst').
  simpl. by rewrite Hself, E.
Qed.

(** *** Refilling a cleared list

    [lined l ch els]: the chain from [head] is [ch], it ends in [tail] and
    holds [els]; nodes off the chain are not looked at. *)
Definition lined l ch els : Prop :=
  inv l ∧ chain (nxt (heap l)) (head l) ch ∧ tail l = last ch ∧
  holds (heap l) ch els.

Lemma lined_iterate l ch els : lined l ch els → iterate (length els) l = Some els.
Proof.
  intros (_ & Hch & _ & Hels). eapply iterate_from_chain; [done|done|].
  by rewrite (holds_length _ _ _ Hels).
Qed.

Lemma addLast_lined e l ch els :
  lined l ch els →
  ∃ n l', addLast e l = (l', Ok (mkPosition n (self l))) ∧
          lined l' (ch ++ [n]) (els ++ [e]).
Proof.
  intros (Hinv & Hch & Htl & Hels).
  destruct (addLast_run e l Hinv) as [Hci Hrun].
  pose proof (nxt_fresh (heap l)) as Hfn.
  set (n := fresh (dom (heap l))) in *.
  assert (Hn : n ∉ ch).
  { intros Hin. destruct (seg_live _ _ _ _ _ Hch Hin) as [[x Hx] _].
    congruence. }
  assert (HN : ∀ j, nxt (heap (inserted e (tail l) None l)) j
               = if decide (j = n) then Some None
                 else if decide (tail l = Some j) then Some (Some n)
                 else nxt (heap l) j).
  { intros j. apply nxt_inserted. intros q E.
    destruct Hci as [Hp _]. destruct (Hp q E) as [-> _]. done. }
  assert (HE : ∀ j, elt (heap (inserted e (tail l) None l)) j
               = if decide (j = n) then Some e else elt (heap l) j)
    by (intros j; apply elt_inserted).
  assert (HH : head (inserted e (tail l) None l)
               = match tail l with Some _ => head l | None => Some n end)
    by done.
  assert (HT : tail (inserted e (tail l) None l) = Some n) by done.
  pose proof (can_insert_inv e _ _ _ Hinv Hci) as Hinv'.
  destruct (inv_ranked _ Hinv) as [rank Hrank].
  pose proof (seg_NoDup _ _ _ _ _ Hrank Hch) as Hnd.
  set (l' := inserted e (tail l) None l) in *. clearbody l'.
  exists n, l'. split; [done|]. split; [done|].
  split; [|split].
  - rewrite HH. unfold chain. apply seg_app.
    exists (Some n). split.
    + destruct (last ch) as [t|] eqn:E.
      * apply last_Some in E as [r ->]. rewrite Htl.
        apply NoDup_app in Hnd as (_ & Hd & _).
        unfold chain in Hch. apply seg_app in Hch as (mid & Hs1 & Hs2).
        simpl in Hs2. destruct Hs2 as (-> & nx & Hnx & _ & ->).
        apply seg_app. exists (Some t). split.
        { eapply seg_frame; [|done]. intros j Hj. rewrite HN.
          rewrite decide_False by (intros ->; apply Hn; set_solver).
          rewrite decide_False; [done|].
          rewrite Htl. intros [= <-]. apply (Hd _ Hj). by left. }
        simpl. split; [done|]. exists (Some n). split.
        { rewrite HN, decide_False, decide_True; [done|done|].
          intros ->. apply Hn. set_solver. }
        split; [|done]. intros [= ->]. apply Hn. set_solver.
      * apply last_None in E as ->. by rewrite Htl.
    + simpl. split; [done|]. exists None.
      rewrite HN, decide_True by done. done.
  - by rewrite HT, last_snoc.
  - apply Forall2_app.
    + eapply holds_frame; [|done]. intros a Ha. rewrite HE.
      rewrite decide_False; [done|]. by intros ->.
    + constructor; [|constructor]. by rewrite HE, decide_True.
Qed.

Lemma addLast_all_lined arr : ∀ l ch els,
  lined l ch els →
  ∃ l' ch', addLast_all arr l = (l', Ok tt) ∧ lined l' ch' (els ++ arr).
Proof.
  induction arr as [|e arr IH]; intros l ch els Hl; simpl.
  - exists l, ch. by rewrite app_nil_r.
  - destruct (addLast_lined e _ _ _ Hl) as (n & l1 & Hrun & Hl1).
    destruct (IH _ _ _ Hl1) as (l' & ch' & Hrun' & Hl').
    exists l', ch'. unfold bind. rewrite Hrun, Hrun'.
    by rewrite <- app_assoc in Hl'.
Qed.

Lemma clear_lined c l :
  reachable c l →
  ∃ fuel0, ∀ fuel instant, (fuel0 ≤ fuel)%nat →
    ∃ l', clear fuel instant l = (l', Ok tt) ∧ lined l' [] [].
Proof.
  intros Hinv%reachable_inv.
  destruct (inv_chain _ Hinv) as (ch & Hch & Hnd).
  exists (length ch). intros fuel [|] Hf.
  - exists (reset l). split; [apply clear_instant_run|].
    split; [by apply reset_inv|]. repeat split. constructor.
  - exists (cleared ch l). split; [by apply clear_run|].
    split; [by apply cleared_inv|]. repeat split. constructor.
Qed.

(** *** Who writes an element *)

Lemma elt_inserted_old e pred succ l a :
  is_Some (elt (heap l) a) →
  elt (heap (inserted e pred succ l)) a = elt (heap l) a.
Proof.
  intros [x Hx]. rewrite elt_inserted, decide_False; [done|]. intros ->.
  unfold elt in Hx. by rewrite fresh_heap_None in Hx.
Qed.

Lemma exec_elt op l l' r a :
  inv l → exec op l = (l', r) → r ≠ Err OutOfFuel →
  (∀ q e, op = Replace q e → pos_node q ≠ a) →
  is_Some (elt (heap l) a) → elt (heap l') a = elt (heap l) a.
Proof.
  intros Hi He Hr Hrep Ha.
  assert (l' = (exec op l).1) as -> by by rewrite He.
  assert (r = (exec op l).2) as -> by by rewrite He.
  clear He. destruct op; simpl in *; rewrite bind_ret_state;
    rewrite bind_ret_res in Hr.
  - destruct (addAfter_cases p e l Hi)
      as [(x & _ & -> & _)|(_ & nx & _ & ? & ->)];
      [done|by apply elt_inserted_old].
  - destruct (addBefore_cases p e l Hi)
      as [(x & _ & -> & _)|(Hv & pv & Hpv & ? & ->)];
      [done|by apply elt_inserted_old].
  - destruct (addFirst_run e l Hi) as [? ->]. by apply elt_inserted_old.
  - destruct (addLast_run e l Hi) as [? ->]. by apply elt_inserted_old.
  - destruct instant.
    + by rewrite clear_instant_run.
    + destruct (inv_chain _ Hi) as (ch & Hch & Hnd).
      destruct (decide (length ch ≤ fuel)%nat).
      * rewrite (clear_run _ ch) by done. apply elt_deprecate_all.
      * destruct (clear_short fuel ch l) as [l' E]; [done|done|lia|].
        rewrite E in Hr. done.
  - destruct (delete_cases p l Hi)
      as [(x & _ & -> & _)|(_ & nd & ? & ? & ->)]; [done|apply elt_deleted].
  - by rewrite getAfter_state.
  - by rewrite getBefore_state.
  - by rewrite getFirst_run.
  - by rewrite getLast_run.
  - destruct (removeFirst_cases l Hi)
      as [[_ ->]|(n & nd & _ & ? & ? & ->)]; [done|apply elt_deleted].
  - destruct (removeLast_cases l Hi)
      as [[_ ->]|(n & nd & _ & ? & ? & ->)]; [done|apply elt_deleted].
  - destruct (replace_cases p e l)
      as [(x & _ & -> & _)|(_ & old & _ & ->)]; [done|].
    unfold replaced. simpl. rewrite elt_alter_element.
    rewrite decide_False; [done|]. by eapply Hrep.
Qed.

End DoublySeq.
End DoublySeq.

(** *** Singly linked list *)

Module SinglySeq.
Import Singly.
Section SinglySeq.
Context {T : Type}.
Implicit Types (l : SList T) (ch : list addr) (els : list T).
Implicit Types (p q : Position).

(** [lined l ch els]: the chain from [head] is [ch], it ends in [tail] and
    holds [els]; nodes off the chain are not looked at. *)
Definition lined l ch els : Prop :=
  inv l ∧ chain (nxt (heap l)) (head l) ch ∧ tail l = last ch ∧
  holds (heap l) ch els.

(** A client's walk: the position [i] steps of [getAfter] after [p], and
    the position of the [i]-th element, counted from [getFirst]. *)
Fixpoint advance (i : nat) (p : Position) : M (SList T) (option Position) :=
  match i with
  | O => ret (Some p)
  | S i' =>
      q <- getAfter p ;;
      match q with
      | Some q' => advance i' q'
      | None => ret None
      end
  end.

Definition position_at (i : nat) : M (SList T) (option Position) :=
  f <- getFirst ;;
  match f with
  | Some p => advance i p
  | None => ret None
  end.

Lemma sl_holds_length h ch els : holds h ch els → length ch = length els.
Proof. apply Forall2_length. Qed.

Lemma sl_holds_frame h h' ch els :
  (∀ a, a ∈ ch → elt h' a = elt h a) → holds h ch els → holds h' ch els.
Proof.
  intros Hfr Hels. induction Hels as [|a e ch els Hae Hels IH]; constructor.
  - rewrite Hfr; [done|by left].
  - apply IH. intros b Hb. apply Hfr. by right.
Qed.

Lemma sl_holds_lookup h ch els i a :
  holds h ch els → ch !! i = Some a → ∃ e, els !! i = Some e ∧ elt h a = Some e.
Proof. intros Hels Hi. by eapply Forall2_lookup_l in Hels. Qed.

Lemma sl_holds_insert_at h ch els i n e :
  holds h ch els → elt h n = Some e →
  holds h (insert_at i n ch) (insert_at i e els).
Proof.
  intros Hels Hn. unfold insert_at. apply Forall2_app.
  - by apply Forall2_take.
  - constructor; [done|]. by apply Forall2_drop.
Qed.

Lemma sl_chain_holds h o ch : chain (nxt h) o ch → ∃ els, holds h ch els.
Proof.
  intros Hch.
  assert (Hall : ∀ a, a ∈ ch → is_Some (elt h a)).
  { intros a Ha. destruct (seg_live _ _ _ _ _ Hch Ha) as [[x Hx] _].
    unfold nxt in Hx. unfold elt.
    destruct (h !! a); [by eexists|done]. }
  clear Hch. induction ch as [|a r IH].
  - exists []. constructor.
  - destruct IH as [els Hels]; [intros b Hb; apply Hall; by right|].
    destruct (Hall a) as [e He]; [by left|].
    exists (e :: els). by constructor.
Qed.

Lemma sl_reachable_lined c l : reachable c l → ∃ ch els, lined l ch els.
Proof.
  intros Hr. destruct (reachable_tailed _ _ Hr) as (ch & Hch & Htl).
  destruct (sl_chain_holds _ _ _ Hch) as [els Hels].
  exists ch, els. split; [by eapply sl_reachable_inv|done].
Qed.

Lemma sl_lined_NoDup l ch els : lined l ch els → NoDup ch.
Proof.
  intros (Hinv & Hch & _). destruct (inv_rank _ Hinv) as [rank Hrank].
  by eapply seg_NoDup.
Qed.

(** Iteration follows the chain. *)
Lemma sl_iterate_from_holds h : ∀ ch o els fuel,
  chain (nxt h) o ch → iterate_from fuel h o = Some els →
  holds h ch els ∧ (length ch ≤ fuel)%nat.
Proof.
  induction ch as [|a r IH]; intros o els fuel Hch Hit.
  - unfold chain in Hch. simpl in Hch. subst o.
    destruct fuel; simpl in Hit; simplify_eq;
      (split; [constructor|simpl; lia]).
  - destruct Hch as (-> & nx & Hn & _ & Hch).
    destruct fuel as [|fuel]; simpl in Hit; [done|].
    unfold nxt in Hn. destruct (h !! a) as [nd|] eqn:E; [|done].
    simpl in Hn. assert (next nd = nx) as Hnx by congruence.
    destruct (iterate_from fuel h (next nd)) as [els'|] eqn:Hit';
      simpl in Hit; [|done].
    simplify_eq. destruct (IH _ _ _ Hch Hit') as [Hels Hf].
    split; [|simpl; lia]. constructor; [|done]. unfold elt. by rewrite E.
Qed.

Lemma sl_observe c l fuel els :
  reachable c l → iterate fuel l = Some els →
  ∃ ch, lined l ch els ∧ (length els ≤ fuel)%nat.
Proof.
  intros Hr Hit. destruct (reachable_tailed _ _ Hr) as (ch & Hch & Htl).
  destruct (sl_iterate_from_holds _ _ _ _ _ Hch Hit) as [Hels Hf].
  exists ch. split.
  - split; [by eapply sl_reachable_inv|done].
  - by rewrite <- (sl_holds_length _ _ _ Hels).
Qed.

Lemma sl_lined_iterates l ch els fuel :
  lined l ch els → (length els ≤ fuel)%nat → iterate fuel l = Some els.
Proof.
  intros (_ & Hch & _ & Hels) Hf. eapply sl_iterate_from_chain; [done|done|].
  by rewrite (sl_holds_length _ _ _ Hels).
Qed.

Lemma sl_lined_valid l ch els a :
  lined l ch els → a ∈ ch → valid (mkPosition a (self l)) l.
Proof.
  intros (_ & Hch & _) Ha. apply sl_valid_iff. split; [done|].
  by eapply seg_live.
Qed.

Lemma sl_getAfter_run l ch els i a :
  lined l ch els → ch !! i = Some a →
  getAfter (mkPosition a (self l)) l
  = (l, Ok ((λ n, mkPosition n (self l)) <$> ch !! S i)).
Proof.
  intros Hl Hi. pose proof Hl as (_ & Hch & _).
  pose proof (chain_lookup_next _ _ _ _ _ Hch Hi) as Hn.
  assert (valid (mkPosition a (self l)) l) as Hv.
  { eapply sl_lined_valid; [done|]. by eapply list_elem_of_lookup_2. }
  unfold getAfter, bind. rewrite Hv. simpl.
  rewrite sl_get_next_nxt, Hn. by destruct (ch !! S i).
Qed.

Lemma sl_advance_run l ch els : lined l ch els → ∀ i j a,
  ch !! j = Some a →
  advance i (mkPosition a (self l)) l
  = (l, Ok ((λ n, mkPosition n (self l)) <$> ch !! (j + i)%nat)).
Proof.
  intros Hl. induction i as [|i IH]; intros j a Hj; simpl.
  - unfold ret. by rewrite Nat.add_0_r, Hj.
  - unfold bind. rewrite (sl_getAfter_run _ _ _ _ _ Hl Hj).
    destruct (ch !! S j) as [b|] eqn:E; simpl.
    + rewrite (IH (S j) b E).
      by replace (j + S i)%nat with (S j + i)%nat by lia.
    + unfold ret. rewrite (lookup_ge_None_2 ch (j + S i)%nat); [done|].
      apply lookup_ge_None_1 in E. lia.
Qed.

Lemma sl_position_at_run l ch els i :
  lined l ch els →
  position_at i l = (l, Ok ((λ n, mkPosition n (self l)) <$> ch !! i)).
Proof.
  intros Hl. pose proof Hl as (_ & Hch & _).
  unfold position_at, bind. rewrite sl_getFirst_run.
  rewrite (chain_head _ _ _ Hch).
  destruct (ch !! O) as [a|] eqn:E; simpl.
  - by rewrite (sl_advance_run _ _ _ Hl i O a E).
  - unfold ret. rewrite (lookup_ge_None_2 ch i); [done|].
    apply lookup_ge_None_1 in E. lia.
Qed.

Lemma sl_position_at_Some l ch els i p :
  lined l ch els → position_at i l = (l, Ok (Some p)) →
  ch !! i = Some (pos_node p) ∧ p = mkPosition (pos_node p) (self l).
Proof.
  intros Hl. rewrite (sl_position_at_run _ _ _ _ Hl).
  destruct (ch !! i) as [a|]; simpl; [|done]. by intros [= <-].
Qed.

Lemma sl_positions_agree l l' ch ch' els els' (i j : nat) :
  lined l ch els → lined l' ch' els' → self l' = self l →
  ch' !! j = ch !! i →
  (position_at j l').2 = (position_at i l).2.
Proof.
  intros Hl Hl' Hself E.
  rewrite (sl_position_at_run _ _ _ _ Hl), (sl_position_at_run _ _ _ _ Hl').
  simpl. by rewrite Hself, E.
Qed.

(** Insertion behind a node of the chain, or in front of the chain. *)
Lemma sl_inserted_lined e pred succ l ch els i :
  lined l ch els → can_insert l pred succ → (∀ b, pred = Some b → b ∈ ch) →
  spliced pred (fresh (dom (heap l))) ch = insert_at i (fresh (dom (heap l))) ch →
  (fresh (dom (heap l)) ∉ ch) ∧
  lined (inserted e pred succ l)
    (insert_at i (fresh (dom (heap l))) ch) (insert_at i e els).
Proof.
  intros (Hinv & Hch & Htl & Hels) Hci Hin Hsp.
  assert (Hn : fresh (dom (heap l)) ∉ ch).
  { intros Hn. destruct (seg_live _ _ _ _ _ Hch Hn) as [[x Hx] _].
    pose proof (sl_nxt_fresh (heap l)). congruence. }
  split; [done|].
  destruct (inserted_chain e _ _ _ _ Hinv Hch Htl Hci Hin) as (Hch' & Htl' & _).
  rewrite Hsp in Hch', Htl'.
  split; [by apply sl_inserted_inv|]. split; [done|]. split; [done|].
  apply sl_holds_insert_at.
  - eapply sl_holds_frame; [|done]. intros a Ha. rewrite sl_elt_inserted.
    rewrite decide_False; [done|]. by intros ->.
  - rewrite sl_elt_inserted. by rewrite decide_True.
Qed.

Lemma sl_addFirst_lined e l ch els :
  lined l ch els →
  ∃ n l', addFirst e l = (l', Ok (mkPosition n (self l))) ∧
          self l' = self l ∧ (n ∉ ch) ∧ lined l' (n :: ch) (e :: els).
Proof.
  intros Hl. pose proof Hl as (Hinv & _).
  destruct (sl_addFirst_run e l Hinv) as [Hci Hrun].
  destruct (sl_inserted_lined e None (head l) l ch els O Hl Hci) as [Hn Hl'];
    [done|done|].
  by eexists _, _.
Qed.

Lemma sl_addLast_lined e l ch els :
  lined l ch els →
  ∃ n l', addLast e l = (l', Ok (mkPosition n (self l))) ∧
          self l' = self l ∧ (n ∉ ch) ∧ lined l' (ch ++ [n]) (els ++ [e]).
Proof.
  intros Hl. pose proof Hl as (Hinv & Hch & Htl & Hels).
  destruct (sl_addLast_run e l Hinv) as [Hci Hrun].
  destruct (sl_inserted_lined e (tail l) None l ch els (length ch) Hl Hci)
    as [Hn Hl'].
  - intros p Hp. rewrite Htl in Hp. rewrite last_lookup in Hp.
    by eapply list_elem_of_lookup_2.
  - rewrite (sl_spliced_last (tail l)) by (done || by eapply sl_lined_NoDup).
    unfold insert_at. by rewrite take_ge, drop_ge by lia.
  - unfold insert_at in Hl'.
    rewrite (sl_holds_length _ _ _ Hels) in Hl' at 3 4.
    rewrite !take_ge, !drop_ge in Hl' by lia.
    by eexists _, _.
Qed.

Lemma sl_addAfter_lined e l ch els i a :
  lined l ch els → ch !! i = Some a →
  ∃ n l', addAfter (mkPosition a (self l)) e l
          = (l', Ok (mkPosition n (self l))) ∧
          self l' = self l ∧ (n ∉ ch) ∧
          lined l' (insert_at (S i) n ch) (insert_at (S i) e els).
Proof.
  intros Hl Hi. pose proof Hl as (Hinv & _).
  assert (a ∈ ch) as Ha by by eapply list_elem_of_lookup_2.
  pose proof (sl_lined_valid _ _ _ _ Hl Ha) as Hv.
  destruct (sl_addAfter_cases (mkPosition a (self l)) e l Hinv)
    as [(x & Hx & _)|(_ & nx & Hnx & Hci & Hrun)].
  { rewrite Hv in Hx. done. }
  simpl in *.
  destruct (sl_inserted_lined e (Some a) nx l ch els (S i) Hl Hci)
    as [Hn Hl'].
  - by intros p [= <-].
  - simpl. apply insert_after_lookup; [by eapply sl_lined_NoDup|done].
  - by eexists _, _.
Qed.

Lemma sl_removeFirst_lined l a ch x els :
  lined l (a :: ch) (x :: els) →
  ∃ l', removeFirst l = (l', Ok x) ∧ self l' = self l ∧ lined l' ch els.
Proof.
  intros (Hinv & Hch & Htl & Hels).
  pose proof (chain_head _ _ _ Hch) as Hh. simpl in Hh.
  destruct (sl_removeFirst_cases l Hinv)
    as [[Hh' _]|(hd & nx & old & Hh' & Hnx & Hold & Hrun)]; [congruence|].
  assert (hd = a) as -> by congruence.
  apply Forall2_cons_1 in Hels as [Hx Hels].
  assert (old = x) as -> by congruence.
  destruct (removed_chain _ _ _ _ Hinv Hch Htl Hh' Hnx)
    as (r & Hr & Hch' & Htl').
  assert (r = ch) as -> by congruence.
  exists (removed a nx l). split; [done|]. split; [done|].
  split; [by apply removed_inv|]. split; [done|]. split; [done|].
  eapply sl_holds_frame; [|done]. intros b _. apply elt_removed.
Qed.

Lemma sl_replace_lined e l ch els i a :
  lined l ch els → ch !! i = Some a →
  ∃ x l', replace (mkPosition a (self l)) e l = (l', Ok x) ∧
          els !! i = Some x ∧ self l' = self l ∧
          lined l' ch (<[i := e]> els).
Proof.
  intros Hl Hi. pose proof Hl as (Hinv & Hch & Htl & Hels).
  assert (a ∈ ch) as Ha by by eapply list_elem_of_lookup_2.
  pose proof (sl_lined_valid _ _ _ _ Hl Ha) as Hv.
  destruct (sl_replace_cases (mkPosition a (self l)) e l)
    as [(x & Hx & _)|(_ & old & Hold & Hrun)].
  { rewrite Hv in Hx. done. }
  simpl in *.
  destruct (sl_holds_lookup _ _ _ _ _ Hels Hi) as (x & Hx & Hex).
  assert (x = old) as -> by congruence.
  exists old, (replaced a e l). split; [done|]. split; [done|].
  split; [done|]. split; [by apply sl_replaced_inv|].
  split.
  { eapply seg_frame; [|done]. intros j _. unfold replaced. simpl.
    apply sl_nxt_alter_element. }
  split; [done|].
  apply Forall2_same_length_lookup_2.
  { rewrite length_insert. by eapply sl_holds_length. }
  intros k b y Hb Hy. unfold replaced. simpl. rewrite sl_elt_alter_element.
  destruct (decide (k = i)) as [->|Hne].
  - assert (b = a) as -> by congruence.
    rewrite list_lookup_insert_eq in Hy
      by (by eapply lookup_lt_Some).
    rewrite decide_True by done. rewrite Hold. simpl. congruence.
  - rewrite list_lookup_insert_ne in Hy by done.
    rewrite decide_False.
    + destruct (sl_holds_lookup _ _ _ _ _ Hels Hb) as (z & Hz & Hez).
      congruence.
    + intros ->.
      pose proof (NoDup_lookup _ _ _ _ (sl_lined_NoDup _ _ _ Hl) Hi Hb). lia.
Qed.

Lemma sl_addLast_all_lined arr : ∀ l ch els,
  lined l ch els →
  ∃ l' ch', addLast_all arr l = (l', Ok tt) ∧ lined l' ch' (els ++ arr).
Proof.
  induction arr as [|e arr IH]; intros l ch els Hl; simpl.
  - exists l, ch. by rewrite app_nil_r.
  - destruct (sl_addLast_lined e _ _ _ Hl) as (n & l1 & Hrun & _ & _ & Hl1).
    destruct (IH _ _ _ Hl1) as (l' & ch' & Hrun' & Hl').
    exists l', ch'. unfold bind. rewrite Hrun, Hrun'.
    by rewrite <- app_assoc in Hl'.
Qed.

Lemma sl_clear_lined c l :
  reachable c l →
  ∃ fuel0, ∀ fuel instant, (fuel0 ≤ fuel)%nat →
    ∃ l', clear fuel instant l = (l', Ok tt) ∧ lined l' [] [].
Proof.
  intros Hinv%sl_reachable_inv.
  destruct (sl_inv_chain _ Hinv) as (ch & Hch & Hnd).
  exists (length ch). intros fuel [|] Hf.
  - exists (reset l). split; [apply sl_clear_instant_run|].
    split; [by apply sl_reset_inv|]. repeat split. constructor.
  - exists (cleared ch l). split; [by apply sl_clear_run|].
    split; [by apply sl_cleared_inv|]. repeat split. constructor.
Qed.

(** *** Who writes an element *)

Lemma sl_elt_inserted_old e pred succ l a :
  is_Some (elt (heap l) a) →
  elt (heap (inserted e pred succ l)) a = elt (heap l) a.
Proof.
  intros [x Hx]. rewrite sl_elt_inserted, decide_False; [done|]. intros ->.
  pose proof (sl_nxt_fresh (heap l)) as Hf. unfold nxt in Hf.
  unfold elt in Hx. destruct (heap l !! fresh (dom (heap l))); done.
Qed.

Lemma sl_exec_elt op l l' r a :
  inv l → exec op l = (l', r) → r ≠ Err OutOfFuel →
  (∀ q e, op = Replace q e → pos_node q ≠ a) →
  is_Some (elt (heap l) a) → elt (heap l') a = elt (heap l) a.
Proof.
  intros Hi He Hr Hrep Ha.
  assert (l' = (exec op l).1) as -> by by rewrite He.
  assert (r = (exec op l).2) as -> by by rewrite He.
  clear He. destruct op; simpl in *; rewrite sl_bind_ret_state;
    rewrite sl_bind_ret_res in Hr.
  - destruct (sl_addAfter_cases p e l Hi)
      as [(x & _ & -> & _)|(_ & nx & _ & ? & ->)];
      [done|by apply sl_elt_inserted_old].
  - destruct (sl_addFirst_run e l Hi) as [? ->]. by apply sl_elt_inserted_old.
  - destruct (sl_addLast_run e l Hi) as [? ->]. by apply sl_elt_inserted_old.
  - destruct instant.
    + by rewrite sl_clear_instant_run.
    + destruct (sl_inv_chain _ Hi) as (ch & Hch & Hnd).
      destruct (decide (length ch ≤ fuel)%nat).
      * rewrite (sl_clear_run _ ch) by done. apply sl_elt_deprecate_all.
      * destruct (sl_clear_short fuel ch l) as [l' E]; [done|done|lia|].
        rewrite E in Hr. done.
  - by rewrite sl_getAfter_state.
  - by rewrite sl_getFirst_run.
  - by rewrite sl_getLast_run.
  - destruct (sl_removeFirst_cases l Hi)
      as [[_ ->]|(hd & nx & old & _ & _ & _ & ->)]; [done|apply elt_removed].
  - destruct (sl_replace_cases p e l)
      as [(x & _ & -> & _)|(_ & old & _ & ->)]; [done|].
    unfold replaced. simpl. rewrite sl_elt_alter_element.
    rewrite decide_False; [done|]. by eapply Hrep.
Qed.

End SinglySeq.
End SinglySeq.

(** ** Preorder traversal of general trees *)

Module PreorderGeneral.

Section General.
(** Elements, positions, the owning tree, and the state the visitor's
    callback acts on. *)
Context {T P TR V : Type}.

(** Modelled from the spec: the [IGeneralTreeTraversable] interface
    ([src/trees/traversal.class.ts] is not among the sources): a cursor that
    exposes the current element, its index, the current position, the owning
    tree, and [getChildren()], the ordered sequence of the child cursors.
    [for ... of] asks the sequence for one child at a time; the cursors are
    made on demand and the index numbers them in the order they are asked
    for, so each request takes and returns the next free index. *)
#[local] Unset Elimination Schemes.
Inductive GeneralTraversable : Type := mkGeneral {
  element : T;
  index : nat;
  getPosition : P;
  tree : TR;
  getChildren : Children;
}
with Children : Type := mkChildren {
  next_child : nat → option (GeneralTraversable * Children) * nat;
}.
#[local] Set Elimination Schemes.

(** [this.callback] of [TreeTraversalAbstract]. *)
Variable callback : T → nat → P → TR → V → V.

(** [PreorderTreeTraversal.traverseGeneral] and its [for ... of] loop; the
    state is the visitor's state and the next free index. *)
Fixpoint traverseGeneral (traversable : GeneralTraversable) (s : V * nat)
  {struct traversable} : V * nat :=
  let v1 := callback (element traversable) (index traversable)
              (getPosition traversable) (tree traversable) s.1 in
  for_of (getChildren traversable) (v1, s.2)
with for_of (children : Children) (s : V * nat) {struct children} : V * nat :=
  let step := next_child children s.2 in
  match step.1 with
  | Some (child, rest) => for_of rest (traverseGeneral child (s.1, step.2))
  | None => (s.1, step.2)
  end.

(** [for ... of] on a sequence, one request at a time. *)
Lemma traverseGeneral_unfold traversable s :
  traverseGeneral traversable s
  = for_of (getChildren traversable)
      (callback (element traversable) (index traversable)
         (getPosition traversable) (tree traversable) s.1, s.2).
Proof. by destruct traversable. Qed.

Lemma for_of_unfold children s :
  for_of children s
  = match (next_child children s.2).1 with
    | Some (child, rest) =>
        for_of rest (traverseGeneral child (s.1, (next_child children s.2).2))
    | None => (s.1, (next_child children s.2).2)
    end.
Proof. by destruct children. Qed.

(** The binary cursor seen as a general one: its children are the left
    child, if there is one, then the right child, if there is one, each
    asked for when the loop gets to it. *)
Definition no_more : Children := mkChildren (λ c, (None, c)).

Fixpoint as_general (b : @Preorder.BinaryTraversable T P TR)
  : GeneralTraversable :=
  let right_only :=
    mkChildren (λ c,
      let right := Preorder.getRight b c in
      match right.1 with
      | Some r => (Some (as_general r, no_more), right.2)
      | None => (None, right.2)
      end) in
  mkGeneral (Preorder.element b) (Preorder.index b) (Preorder.getPosition b)
    (Preorder.tree b)
    (mkChildren (λ c,
       let left := Preorder.getLeft b c in
       match left.1 with
       | Some l => (Some (as_general l, right_only), left.2)
       | None => next_child right_only left.2
       end)).

Lemma for_of_no_more s : for_of no_more s = s.
Proof. rewrite for_of_unfold. by destruct s. Qed.

Lemma traverse_as_general : ∀ b s,
  traverseGeneral (as_general b) s = Preorder.traverseBinary callback b s.
Proof.
  fix IH 1. intros [e i p t gl gr] s.
  rewrite traverseGeneral_unfold, Preorder.traverseBinary_unfold.
  cbn [as_general element index getPosition tree getChildren
       Preorder.element Preorder.index Preorder.getPosition Preorder.tree
       Preorder.getLeft Preorder.getRight].
  unfold Preorder.traverse_child.
  rewrite for_of_unfold. cbn [next_child fst snd].
  destruct (gl s.2) as [[l|] c]; cbn [fst snd].
  - rewrite (IH l). rewrite for_of_unfold. cbn [next_child fst snd].
    destruct (gr _) as [[r|] c']; cbn [fst snd]; [|done].
    by rewrite for_of_no_more, (IH r).
  - destruct (gr c) as [[r|] c']; cbn [fst snd]; [|done].
    by rewrite for_of_no_more, (IH r).
Qed.

End General.

(** Modelled from the spec: a concrete general tree (no implementation is
    among the sources): a node holds an element and the ordered list of its
    subtrees; a position is the path of child numbers from the root; the
    tree as a whole has a root or is empty. *)
#[local] Unset Elimination Schemes.
Inductive GTree (T : Type) : Type :=
| GNode (e : T) (children : list (GTree T)).
#[local] Set Elimination Schemes.
Arguments GNode {T} e children.

Definition GPos : Set := list nat.

Section GeneralTree.
Context {T : Type}.

Lemma GTree_induction (Pr : GTree T → Prop) :
  (∀ e cs, Forall Pr cs → Pr (GNode e cs)) → ∀ t, Pr t.
Proof.
  intros H. fix IH 1. intros [e cs]. apply H.
  induction cs as [|t cs IHcs]; constructor; [apply IH|apply IHcs].
Qed.

(** The elements of a tree, root first, then the subtrees in their order. *)
Fixpoint gpreorder (t : GTree T) : list T :=
  match t with
  | GNode e cs => e :: flat_map gpreorder cs
  end.

(** Modelled from the spec: the cursor a tree hands out for its node at
    [path], numbered [i], and the sequence of the cursors of the subtrees
    [cs] of that node, from child number [k] on. *)
Fixpoint gcursor (tr : GTree T) (path : GPos) (t : GTree T) (i : nat)
  : @GeneralTraversable T GPos (GTree T) :=
  match t with
  | GNode e cs =>
      mkGeneral e i path tr
        ((fix sequence (k : nat) (cs : list (GTree T)) : Children :=
            match cs with
            | [] => no_more
            | t' :: rest =>
                mkChildren (λ c,
                  (Some (gcursor tr (path ++ [k]) t' c, sequence (S k) rest),
                   S c))
            end) O cs)
  end.

Fixpoint gsequence (tr : GTree T) (path : GPos) (k : nat)
    (cs : list (GTree T)) : @Children T GPos (GTree T) :=
  match cs with
  | [] => no_more
  | t' :: rest =>
      mkChildren (λ c,
        (Some (gcursor tr (path ++ [k]) t' c, gsequence tr path (S k) rest),
         S c))
  end.

Lemma gcursor_unfold tr path e cs i :
  gcursor tr path (GNode e cs) i
  = mkGeneral e i path tr (gsequence tr path O cs).
Proof.
  simpl. f_equal. generalize O. induction cs as [|t' rest IH]; intros k;
    [done|]. simpl. by rewrite IH.
Qed.

(** A traversal of the whole tree: none for an empty tree, else
    [traverseGeneral] on the cursor of the root, numbered 0. *)
Definition gtraverse {V} (callback : T → nat → GPos → GTree T → V → V)
    (root : option (GTree T)) (v : V) : V :=
  match root with
  | Some t => (traverseGeneral callback (gcursor t [] t O) (v, 1%nat)).1
  | None => v
  end.

(** A visitor that records the element and the index of every call. *)
Definition grecord (e : T) (i : nat) (p : GPos) (tr : GTree T)
    (v : list (T * nat)) : list (T * nat) :=
  v ++ [(e, i)].

Lemma gvisits_subtree (tr : GTree T) : ∀ t path i v,
  traverseGeneral grecord (gcursor tr path t i) (v, S i)
  = (v ++ zip (gpreorder t) (seq i (length (gpreorder t))),
     (i + length (gpreorder t))%nat).
Proof.
  induction t as [e cs IH] using GTree_induction. intros path i v.
  rewrite gcursor_unfold, traverseGeneral_unfold.
  cbn [element index getPosition tree getChildren fst snd].
  unfold grecord at 2.
  assert (Hseq : ∀ k v c,
    for_of grecord (gsequence tr path k cs) (v, c)
    = (v ++ zip (flat_map gpreorder cs)
              (seq c (length (flat_map gpreorder cs))),
       (c + length (flat_map gpreorder cs))%nat)).
  { clear v. induction IH as [|t rest Ht _ IHrest]; intros k v c.
    - cbn [gsequence]. rewrite for_of_no_more. simpl.
      rewrite app_nil_r. f_equal. lia.
    - rewrite for_of_unfold. cbn [gsequence next_child fst snd].
      rewrite Ht, IHrest. simpl flat_map.
      rewrite length_app, seq_app, zip_with_app by (by rewrite length_seq).
      rewrite <- app_assoc. f_equal. lia. }
  rewrite Hseq. simpl. rewrite <- app_assoc. f_equal. lia.
Qed.

(** The visitor is called once per node, on the elements in preorder,
    numbered from 0; not at all on the empty tree. *)
Lemma gtraverse_record (root : option (GTree T)) :
  gtraverse grecord root []
  = match root with
    | Some t => zip (gpreorder t) (seq O (length (gpreorder t)))
    | None => []
    end.
Proof.
  destruct root as [t|]; [|done]. unfold gtraverse.
  by rewrite gvisits_subtree.
Qed.

End GeneralTree.
End PreorderGeneral.

(** *** The positions that outlive [clear(false)]

    After [clear(false)], the valid positions are the ones that were valid
    before on nodes that could not be reached from [head]: nodes detached
    by an earlier [clear(true)]. *)

Module Clearing.
Section Clearing.
Context {T : Type}.



End Clearing.
End Clearing.

(** *** The tail of the doubly linked list

    [tailed l]: [tail] is the last node of the chain from [head].  A call
    [uses_stale] a position when it hands [addAfter], [addBefore] or
    [delete] a valid position whose node cannot be reached from [head]: a
    position held from before a [clear(true)]. *)

Module DoublyTail.
Import Doubly.
Section DoublyTail.
Context {T : Type}.
Implicit Types (l : DList T) (ch : list addr).

Definition tailed l : Prop :=
  ∃ ch, chain (nxt (heap l)) (head l) ch ∧ tail l = last ch.

Definition off_chain l (p : Position) : Prop :=
  valid p l ∧ ¬ reach (nxt (heap l)) (head l) (pos_node p).

Definition uses_stale (op : Op T) l : Prop :=
  match op with
  | AddAfter p _ | AddBefore p _ | Delete p => off_chain l p
  | _ => False
  end.

(** The insertions that move an end of the list away from the chain:
    [addAfter] on a stale position of a node without successor, which sets
    [tail], and [addBefore] on a stale position of a node without
    predecessor, which sets [head]. *)
Definition breaks (op : Op T) l : Prop :=
  match op with
  | AddAfter p _ => off_chain l p ∧ nxt (heap l) (pos_node p) = Some None
  | AddBefore p _ => off_chain l p ∧ prv (heap l) (pos_node p) = Some None
  | _ => False
  end.

(** A step that uses no stale position, and the lists reached by such
    steps. *)
Definition fair_step l l' : Prop :=
  ∃ op r, exec op l = (l', r) ∧ r ≠ Err OutOfFuel ∧ ¬ uses_stale op l.

Definition fair (c : cid) l : Prop := rtc fair_step (empty c) l.

Lemma dl_tailed_empty c : tailed (empty c).
Proof. by exists []. Qed.

Lemma inserted_tailed e pred succ l ch :
  inv l → chain (nxt (heap l)) (head l) ch → tail l = last ch →
  can_insert l pred succ → (∀ b, pred = Some b → b ∈ ch) →
  (pred = None → succ = head l) →
  chain (nxt (heap (inserted e pred succ l))) (head (inserted e pred succ l))
    (spliced pred (fresh (dom (heap l))) ch) ∧
  tail (inserted e pred succ l)
  = last (spliced pred (fresh (dom (heap l))) ch).
Proof.
  intros Hi Hch Htl Hci Hpin Hhd.
  destruct (inv_ranked _ Hi) as [rank Hrank].
  pose proof (seg_NoDup _ _ _ _ _ Hrank Hch) as Hnd.
  pose proof (nxt_fresh (heap l)) as Hfn.
  pose proof (prv_fresh (heap l)) as Hfp.
  set (n := fresh (dom (heap l))) in *.
  assert (Hn : n ∉ ch).
  { intros Hin. destruct (seg_live _ _ _ _ _ Hch Hin) as [[x Hx] _]. congruence. }
  assert (HN : ∀ j, nxt (heap (inserted e pred succ l)) j
               = if decide (j = n) then Some succ
                 else if decide (pred = Some j) then Some (Some n)
                 else nxt (heap l) j).
  { intros j. apply nxt_inserted. intros q E.
    destruct Hci as [Hp _]. destruct (Hp q E) as [-> _]. done. }
  assert (Hsn : succ ≠ Some n).
  { intros E. destruct Hci as [_ Hs]. destruct (Hs _ E) as [Hp _].
    congruence. }
  assert (HH : head (inserted e pred succ l)
               = match pred with Some _ => head l | None => Some n end) by done.
  assert (HT : tail (inserted e pred succ l)
               = match succ with Some _ => tail l | None => Some n end) by done.
  set (l' := inserted e pred succ l) in *. clearbody l'.
  unfold spliced. rewrite HH, HT.
  destruct pred as [p|].
  - destruct Hci as [Hp Hs]. destruct (Hp p eq_refl) as [Hpn Hpl].
    pose proof (Hpin p eq_refl) as Hpch.
    apply list_elem_of_split in Hpch as (l1 & l2 & ->).
    apply NoDup_app in Hnd as (Hnd1 & Hnd12 & Hnd2).
    apply NoDup_cons in Hnd2 as [Hp2 Hnd2].
    assert (Hp1 : p ∉ l1).
    { intros Hin. apply (Hnd12 _ Hin). by left. }
    rewrite insert_after_split by done.
    unfold chain in Hch. apply seg_app in Hch as (mid & Hs1 & Hs2).
    simpl in Hs2. destruct Hs2 as (-> & nx & Hnx & _ & Hs2).
    assert (nx = succ) as -> by congruence.
    assert (Hl2 : l2 = [] ↔ succ = None).
    { split; [by eapply seg_end_nil|by eapply seg_nil_end]. }
    split.
    + unfold chain. apply seg_app. exists (Some p). split.
      * eapply seg_frame; [|done]. intros j Hj. rewrite HN.
        rewrite decide_False by set_solver.
        rewrite decide_False; [done|]. intros [= <-]. done.
      * simpl. split; [done|]. exists (Some n). split.
        { rewrite HN, decide_False, decide_True; [done|done|].
          intros ->. set_solver. }
        split; [intros [= E]; set_solver|].
        split; [done|]. exists succ. split.
        { by rewrite HN, decide_True. }
        split; [done|].
        eapply seg_frame; [|done]. intros j Hj. rewrite HN.
        rewrite decide_False by set_solver.
        rewrite decide_False; [done|]. intros [= <-]. done.
    + rewrite Htl, !last_app_cons. destruct succ as [s|].
      * destruct l2 as [|b l2]; [|done].
        destruct Hl2 as [Hl2 _]. by specialize (Hl2 eq_refl).
      * destruct Hl2 as [_ ->]; done.
  - rewrite (Hhd eq_refl) in *. split.
    + unfold chain. simpl. split; [done|].
      exists (head l). split; [by rewrite HN, decide_True|].
      split; [congruence|].
      eapply seg_frame; [|done]. intros j Hj. rewrite HN.
      rewrite decide_False; [done|]. intros ->. done.
    + destruct (head l) as [s|] eqn:E.
      * rewrite Htl. destruct ch as [|b r]; [done|]. done.
      * by rewrite (seg_nil_end _ _ _ Hch eq_refl).
Qed.

Lemma deleted_tailed n nd l ch :
  inv l → chain (nxt (heap l)) (head l) ch → tail l = last ch →
  n ∈ ch → heap l !! n = Some nd → next nd ≠ Some n →
  ∃ c1 c2 : list addr, ch = c1 ++ n :: c2 ∧
    chain (nxt (heap (deleted n nd l))) (head (deleted n nd l)) (c1 ++ c2) ∧
    tail (deleted n nd l) = last (c1 ++ c2).
Proof.
  intros Hi Hch Htl Hin Hn Hl.
  destruct (inv_ranked _ Hi) as [rank Hrank].
  pose proof (seg_NoDup _ _ _ _ _ Hrank Hch) as Hnd.
  assert (Hnn : nxt (heap l) n = Some (next nd)) by (unfold nxt; by rewrite Hn).
  assert (Hnp : prv (heap l) n = Some (prev nd)) by (unfold prv; by rewrite Hn).
  assert (Hl' : nxt (heap l) n ≠ Some (Some n)) by congruence.
  assert (HN : ∀ j, nxt (heap (deleted n nd l)) j
               = if decide (j = n) then Some (Some n)
                 else if decide (prev nd = Some j) then Some (next nd)
                 else nxt (heap l) j).
  { intros j. apply nxt_deleted; [done|]. intros q E.
    rewrite E in Hnp. rewrite (inv_prev _ Hi _ _ Hnp Hl'). done. }
  assert (HH : head (deleted n nd l)
               = match prev nd with Some _ => head l | None => next nd end)
    by done.
  assert (HT : tail (deleted n nd l)
               = match next nd with Some _ => tail l | None => prev nd end)
    by done.
  set (l' := deleted n nd l) in *. clearbody l'.
  apply list_elem_of_split in Hin as (l1 & l2 & ->).
  exists l1, l2. split; [done|].
  apply NoDup_app in Hnd as (Hnd1 & Hnd12 & Hnd2).
  apply NoDup_cons in Hnd2 as [Hn2 Hnd2].
  assert (Hn1 : n ∉ l1).
  { intros Hin. apply (Hnd12 _ Hin). by left. }
  unfold chain in Hch. apply seg_app in Hch as (mid & Hs1 & Hs2).
  simpl in Hs2. destruct Hs2 as (-> & nx & Hnx & _ & Hs2).
  assert (nx = next nd) as -> by congruence.
  assert (Hl2 : l2 = [] ↔ next nd = None).
  { split; [by eapply seg_end_nil|by eapply seg_nil_end]. }
  rewrite HH, HT.
  destruct l1 as [|q0 l1' _] using rev_ind.
  - simpl in Hs1. simpl.
    assert (prev nd = None) as Epv.
    { destruct (inv_head _ Hi _ Hs1) as [Hp _]. congruence. }
    rewrite Epv. split.
    + eapply seg_frame; [|done]. intros j Hj. rewrite HN.
      rewrite decide_False by set_solver.
      rewrite decide_False by (by rewrite Epv). done.
    + rewrite Htl. simpl. destruct (next nd) as [s|].
      * destruct l2 as [|b l2]; [|done].
        destruct Hl2 as [Hl2 _]. by specialize (Hl2 eq_refl).
      * destruct Hl2 as [_ ->]; done.
  - apply seg_app in Hs1 as (mid & Hs1 & Hs1').
    simpl in Hs1'. destruct Hs1' as (-> & nq & Hnq & Hql & ->).
    assert (n ≠ q0) as Hnq0 by set_solver.
    assert (prev nd = Some q0) as Epv.
    { destruct (inv_next _ Hi _ _ Hnq Hnq0) as [Hp _]. congruence. }
    rewrite Epv.
    assert (Hq2 : q0 ∉ l2).
    { intros Hin. apply (Hnd12 q0); [set_solver|by right]. }
    assert (Hq1 : q0 ∉ l1').
    { apply NoDup_app in Hnd1 as (_ & Hd & _). intros Hin.
      apply (Hd _ Hin). by left. }
    split.
    + unfold chain. rewrite <- app_assoc. apply seg_app.
      exists (Some q0). split.
      * eapply seg_frame; [|done]. intros j Hj. rewrite HN.
        rewrite decide_False by set_solver.
        rewrite decide_False; [done|]. rewrite Epv. intros [= <-]. done.
      * simpl. split; [done|]. exists (next nd). split.
        { rewrite HN, decide_False, decide_True; done. }
        split.
        { intros E. destruct l2 as [|b l2].
          - destruct Hl2 as [Hl2 _]. specialize (Hl2 eq_refl). congruence.
          - simpl in Hs2. destruct Hs2 as (E2 & _). set_solver. }
        eapply seg_frame; [|done]. intros j Hj. rewrite HN.
        rewrite decide_False by set_solver.
        rewrite decide_False; [done|]. rewrite Epv. intros [= <-]. done.
    + rewrite Htl. rewrite last_app_cons. destruct (next nd) as [s|].
      * destruct l2 as [|b l2].
        { destruct Hl2 as [Hl2 _]. by specialize (Hl2 eq_refl). }
        rewrite last_app_cons. done.
      * destruct Hl2 as [_ ->]; [|done].
        rewrite app_nil_r, last_snoc. done.
Qed.

(** A valid position that is not stale is on the chain. *)
Lemma on_chain l ch p :
  chain (nxt (heap l)) (head l) ch → valid p l → ¬ off_chain l p →
  pos_node p ∈ ch.
Proof.
  intros Hch Hv Hoff. destruct (decide (pos_node p ∈ ch)) as [?|Hn]; [done|].
  exfalso. apply Hoff. split; [done|]. by rewrite (chain_reach _ _ _ _ Hch).
Qed.

(** The node in front of a node of the chain. *)
Lemma chain_prev l ch a pv :
  inv l → chain (nxt (heap l)) (head l) ch → a ∈ ch →
  prv (heap l) a = Some pv →
  (∀ b, pv = Some b → b ∈ ch) ∧ (pv = None → Some a = head l).
Proof.
  intros Hi Hch Ha Hpv.
  destruct (seg_pred _ _ _ _ _ Hch Ha) as [Hh|(w & Hw & Hwa)].
  - destruct (inv_head _ Hi _ Hh) as [Hp _].
    assert (pv = None) as -> by congruence. done.
  - assert (a ≠ w).
    { intros ->. destruct (seg_live _ _ _ _ _ Hch Hw). congruence. }
    destruct (inv_next _ Hi _ _ Hwa) as [Hp _]; [done|].
    assert (pv = Some w) as -> by congruence.
    split; [by intros b [= <-]|done].
Qed.

(** Every call that uses no stale position keeps the tail at the end of
    the chain. *)
Lemma exec_tailed op l l' r :
  inv l → tailed l → exec op l = (l', r) → r ≠ Err OutOfFuel →
  ¬ uses_stale op l → tailed l'.
Proof.
  intros Hi (ch & Hch & Htl) He Hr Hfair.
  assert (l' = (exec op l).1) as -> by by rewrite He.
  assert (r = (exec op l).2) as -> by by rewrite He.
  clear He. destruct op; simpl in *; rewrite bind_ret_state;
    rewrite bind_ret_res in Hr.
  - destruct (addAfter_cases p e l Hi)
      as [(x & _ & -> & _)|(Hv & nx & Hnx & Hci & ->)]; [by exists ch|].
    pose proof (on_chain _ _ _ Hch Hv Hfair) as Hin.
    eexists. eapply inserted_tailed; [done..| |done].
    by intros b [= <-].
  - destruct (addBefore_cases p e l Hi)
      as [(x & _ & -> & _)|(Hv & pv & Hpv & Hci & ->)]; [by exists ch|].
    pose proof (on_chain _ _ _ Hch Hv Hfair) as Hin.
    destruct (chain_prev _ _ _ _ Hi Hch Hin Hpv) as [H1 H2].
    eexists. by eapply inserted_tailed.
  - destruct (addFirst_run e l Hi) as [Hci ->].
    eexists. by eapply inserted_tailed.
  - destruct (addLast_run e l Hi) as [Hci ->].
    eexists. eapply inserted_tailed; [done..| |].
    + intros b Hb. rewrite Htl in Hb. rewrite last_lookup in Hb.
      by eapply list_elem_of_lookup_2.
    + intros E. rewrite E in Htl. symmetry in Htl.
      apply last_None in Htl as ->. done.
  - destruct instant.
    + rewrite clear_instant_run. by exists [].
    + destruct (inv_chain _ Hi) as (ch' & Hch' & Hnd).
      destruct (decide (length ch' ≤ fuel)%nat).
      * rewrite (clear_run _ ch') by done. by exists [].
      * destruct (clear_short fuel ch' l) as [l' E]; [done|done|lia|].
        rewrite E in Hr. done.
  - destruct (delete_cases p l Hi)
      as [(x & _ & -> & _)|(Hv & nd & Hnd & Hl & ->)]; [by exists ch|].
    pose proof (on_chain _ _ _ Hch Hv Hfair) as Hin.
    destruct (deleted_tailed _ _ _ _ Hi Hch Htl Hin Hnd Hl)
      as (c1 & c2 & _ & Hch' & Htl').
    by exists (c1 ++ c2).
  - rewrite getAfter_state. by exists ch.
  - rewrite getBefore_state. by exists ch.
  - rewrite getFirst_run. by exists ch.
  - rewrite getLast_run. by exists ch.
  - destruct (removeFirst_cases l Hi)
      as [[_ ->]|(n & nd & Hh & Hnd & Hl & ->)]; [by exists ch|].
    assert (n ∈ ch) as Hin.
    { rewrite (chain_head _ _ _ Hch) in Hh. by eapply list_elem_of_lookup_2. }
    destruct (deleted_tailed _ _ _ _ Hi Hch Htl Hin Hnd Hl)
      as (c1 & c2 & _ & Hch' & Htl').
    by exists (c1 ++ c2).
  - destruct (removeLast_cases l Hi)
      as [[_ ->]|(n & nd & Ht & Hnd & Hl & ->)]; [by exists ch|].
    assert (n ∈ ch) as Hin.
    { rewrite Htl, last_lookup in Ht. by eapply list_elem_of_lookup_2. }
    destruct (deleted_tailed _ _ _ _ Hi Hch Htl Hin Hnd Hl)
      as (c1 & c2 & _ & Hch' & Htl').
    by exists (c1 ++ c2).
  - destruct (replace_cases p e l)
      as [(x & _ & -> & _)|(_ & old & _ & ->)]; [by exists ch|].
    exists ch. split; [|done]. unfold replaced. simpl.
    eapply seg_frame; [|done]. intros j _. apply nxt_alter_element.
Qed.

Lemma fair_step_step l l' : fair_step l l' → step l l'.
Proof. intros (op & r & He & Hr & _). by exists op, r. Qed.

Lemma fair_reachable c l : fair c l → reachable c l.
Proof.
  apply rtc_subrel. intros x y. apply fair_step_step.
Qed.

(** On every list reached without the use of a stale position, [tail] is
    the last node of the chain from [head]. *)
Lemma fair_tailed c l : fair c l → tailed l.
Proof.
  intros H.
  assert (G : ∀ l0, rtc fair_step l0 l → inv l0 → tailed l0 → tailed l).
  { clear. intros l0 Hs. induction Hs as [|x y z Hxy _ IH]; [done|].
    intros Hi Ht.
    pose proof (step_inv _ _ Hi (fair_step_step _ _ Hxy)) as Hi'.
    destruct Hxy as (op & r & He & Hr & Hf).
    apply IH; [done|]. exact (exec_tailed op x y r Hi Ht He Hr Hf). }
  apply (G (empty c)); [done|apply inv_empty|apply dl_tailed_empty].
Qed.

(** The lists built without [clear(true)] are among them: all their valid
    positions are on the chain. *)
Lemma built_fair c l : built c l → fair c l.
Proof.
  intros Hb. unfold built in Hb. revert l Hb.
  apply (rtc_ind_r (λ l, fair c l)); [apply rtc_refl|].
  intros y z Hy Hyz IH.
  assert (built c y) as Hby by done.
  eapply rtc_r; [exact IH|].
  destruct Hyz as (op & r & He & Hr & Hq).
  exists op, r. split; [done|]. split; [done|].
  destruct (built_strict _ _ Hby) as [ch Hst].
  pose proof Hst as (_ & Hch & _ & _ & Hcov).
  assert (∀ p, ¬ off_chain y p) as Hon.
  { intros p [Hv Hn]. apply Hn. rewrite (chain_reach _ _ _ _ Hch).
    apply Hcov. by apply valid_iff in Hv as [_ ?]. }
  destruct op; simpl; first [apply Hon | intros []].
Qed.

(** An insertion between two nodes off the chain leaves the chain and both
    ends as they are. *)
Lemma inserted_off_chain e b s l ch :
  chain (nxt (heap l)) (head l) ch → can_insert l (Some b) (Some s) →
  b ∉ ch →
  chain (nxt (heap (inserted e (Some b) (Some s) l)))
    (head (inserted e (Some b) (Some s) l)) ch ∧
  tail (inserted e (Some b) (Some s) l) = tail l.
Proof.
  intros Hch Hci Hb. split; [|done].
  pose proof (nxt_fresh (heap l)) as Hfn.
  assert (Hn : fresh (dom (heap l)) ∉ ch).
  { intros Hin. destruct (seg_live _ _ _ _ _ Hch Hin) as [[x Hx] _].
    congruence. }
  assert (HH : head (inserted e (Some b) (Some s) l) = head l) by done.
  rewrite HH. eapply seg_frame; [|done]. intros j Hj.
  rewrite nxt_inserted.
  - rewrite decide_False by (by intros ->).
    rewrite decide_False; [done|]. by intros [= <-].
  - intros q [= <-]. destruct Hci as [Hp _].
    destruct (Hp b eq_refl) as [-> _]. done.
Qed.

(** Off the chain stays off the chain: the successor of a live node that
    is not on the chain from [head] is not on it either. *)
Lemma off_chain_next l ch a m :
  inv l → chain (nxt (heap l)) (head l) ch →
  a ∉ ch → nxt (heap l) a = Some (Some m) → m ≠ a → m ∉ ch.
Proof.
  intros Hi Hch Ha Hn Hne Hm.
  destruct (inv_next _ Hi _ _ Hn Hne) as [Hp _].
  destruct (seg_pred _ _ _ _ _ Hch Hm) as [Hh|(w & Hw & Hwm)].
  - destruct (inv_head _ Hi _ Hh) as [Hp' _]. congruence.
  - assert (m ≠ w).
    { intros ->. destruct (seg_live _ _ _ _ _ Hch Hw). congruence. }
    destruct (inv_next _ Hi _ _ Hwm) as [Hp' _]; [done|].
    assert (w = a) as -> by congruence. done.
Qed.

Lemma off_chain_seg l ch : inv l → chain (nxt (heap l)) (head l) ch →
  ∀ r a e, seg (nxt (heap l)) (Some a) r e → a ∉ ch → ∀ x, x ∈ r → x ∉ ch.
Proof.
  intros Hi Hch. induction r as [|b r IH]; intros a e Hs Ha x Hx.
  { by apply elem_of_nil in Hx. }
  destruct Hs as ([= <-] & nx & Hn & Hne & Hs).
  apply elem_of_cons in Hx as [->|Hx]; [done|].
  destruct nx as [m|].
  - eapply (IH m); [done| |done].
    eapply off_chain_next; [done..|]. congruence.
  - destruct r; [by apply elem_of_nil in Hx|]. by destruct Hs.
Qed.

(** On a list whose [tail] is the last node of the chain from [head], a
    successful insertion keeps it so exactly when it does not move an end
    away from the chain. *)
Lemma insertion_tailed op l l' q :
  inv l → tailed l → exec op l = (l', Ok (RPos q)) →
  tailed l' ↔ ¬ breaks op l.
Proof.
  intros Hi Ht He. pose proof Ht as (ch & Hch & Htl).
  assert (Hkeep : ¬ uses_stale op l → tailed l').
  { intros Hf. by eapply exec_tailed. }
  assert (l' = (exec op l).1) as El by by rewrite He.
  assert (Ok (RPos q) = (exec op l).2) as Er by by rewrite He.
  clear He. destruct op; simpl in *; rewrite bind_ret_state in El;
    rewrite bind_ret_res in Er.
  - (* addAfter *)
    destruct (addAfter_cases p e l Hi)
      as [(x & _ & Hx & _)|(Hv & nx & Hnx & Hci & Hrun)].
    { rewrite Hx in Er. done. }
    rewrite Hrun in El. simpl in El. subst l'.
    destruct (decide (pos_node p ∈ ch)) as [Hin|Hout].
    { split; [|intros _; apply Hkeep; intros [_ Hn]; apply Hn;
                by rewrite (chain_reach _ _ _ _ Hch)].
      intros _ [[_ Hn] _]. apply Hn. by rewrite (chain_reach _ _ _ _ Hch). }
    destruct nx as [s|].
    + split; [intros _ [_ E]; congruence|]. intros _.
      destruct (inserted_off_chain e _ s l ch Hch Hci Hout) as [H1 H2].
      exists ch. split; [done|]. by rewrite H2.
    + split; [|intros Hnb; exfalso; apply Hnb; split; [split|]; try done;
                by rewrite (chain_reach _ _ _ _ Hch)].
      intros (ch' & Hch' & Htl') _.
      assert (Hn : fresh (dom (heap l)) ∉ ch).
      { intros Hn. destruct (seg_live _ _ _ _ _ Hch Hn) as [[x Hx] _].
        pose proof (nxt_fresh (heap l)). congruence. }
      assert (ch' = ch) as ->.
      { eapply seg_det; [exact Hch'|].
        change (head (inserted e (Some (pos_node p)) None l)) with (head l).
        eapply seg_frame; [|exact Hch]. intros j Hj.
        rewrite nxt_inserted by (intros b [= <-]; by rewrite Hnx).
        rewrite decide_False by (by intros ->).
        rewrite decide_False; [done|]. by intros [= <-]. }
      apply Hn. simpl in Htl'. symmetry in Htl'. rewrite last_lookup in Htl'.
      by eapply list_elem_of_lookup_2.
  - (* addBefore *)
    destruct (addBefore_cases p e l Hi)
      as [(x & _ & Hx & _)|(Hv & pv & Hpv & Hci & Hrun)].
    { rewrite Hx in Er. done. }
    rewrite Hrun in El. simpl in El. subst l'.
    assert (Hlive : live (heap l) (pos_node p))
      by (by apply valid_iff in Hv as [_ ?]).
    destruct (decide (pos_node p ∈ ch)) as [Hin|Hout].
    { split; [|intros _; apply Hkeep; intros [_ Hn]; apply Hn;
                by rewrite (chain_reach _ _ _ _ Hch)].
      intros _ [[_ Hn] _]. apply Hn. by rewrite (chain_reach _ _ _ _ Hch). }
    destruct pv as [w|].
    + split; [intros _ [_ E]; congruence|]. intros _.
      assert (Hwout : w ∉ ch).
      { intros Hw. destruct Hlive as [_ Hl].
        pose proof (inv_prev _ Hi _ _ Hpv Hl) as Hwn.
        destruct (seg_succ _ _ _ _ _ _ Hch Hw Hwn); done. }
      destruct (inserted_off_chain e _ _ l ch Hch Hci Hwout) as [H1 H2].
      exists ch. split; [done|]. by rewrite H2.
    + split; [|intros Hnb; exfalso; apply Hnb; split; [split|]; try done;
                by rewrite (chain_reach _ _ _ _ Hch)].
      intros (ch' & Hch' & Htl') _.
      pose proof (can_insert_inv e _ _ _ Hi Hci) as Hi'.
      destruct (inv_ranked _ Hi') as [rank Hrank].
      pose proof (seg_NoDup _ _ _ _ _ Hrank Hch') as Hnd.
      assert (HN : ∀ j, nxt (heap (inserted e None (Some (pos_node p)) l)) j
                   = if decide (j = fresh (dom (heap l)))
                     then Some (Some (pos_node p)) else nxt (heap l) j).
      { intros j. rewrite nxt_inserted by done.
        case_decide; [done|]. by rewrite decide_False. }
      change (head (inserted e None (Some (pos_node p)) l))
        with (Some (fresh (dom (heap l)))) in Hch'.
      change (tail (inserted e None (Some (pos_node p)) l))
        with (tail l) in Htl'.
      set (l' := inserted e None (Some (pos_node p)) l) in *. clearbody l'.
      destruct ch' as [|n r]; [done|].
      destruct Hch' as ([= <-] & nx & Hnx & _ & Hr).
      rewrite HN, decide_True in Hnx by done. simplify_eq.
      apply NoDup_cons in Hnd as [Hnr _].
      assert (Hr' : seg (nxt (heap l)) (Some (pos_node p)) r None).
      { eapply seg_frame; [|exact Hr]. intros j Hj. rewrite HN.
        rewrite decide_False; [done|]. by intros ->. }
      destruct r as [|a r]; [done|].
      destruct (last (a :: r)) as [z|] eqn:Ez; [|by apply last_None in Ez].
      assert (z ∈ a :: r) as Hz.
      { rewrite last_lookup in Ez. by eapply list_elem_of_lookup_2. }
      pose proof (off_chain_seg _ _ Hi Hch _ _ _ Hr' Hout z Hz) as Hzout.
      apply Hzout. rewrite Htl in Htl'.
      change (last (fresh (dom (heap l)) :: a :: r)) with (last (a :: r))
        in Htl'.
      rewrite Ez in Htl'. rewrite last_lookup in Htl'.
      by eapply list_elem_of_lookup_2.
  - split; [by intros _ []|]. intros _. apply Hkeep. by intros [].
  - split; [by intros _ []|]. intros _. apply Hkeep. by intros [].
  - by destruct (clear fuel instant l) as [? [|]].
  - by destruct (delete p l) as [? [|]].
  - by destruct (getAfter p l) as [? [|]].
  - by destruct (getBefore p l) as [? [|]].
  - by destruct (getFirst l) as [? [|]].
  - by destruct (getLast l) as [? [|]].
  - by destruct (removeFirst l) as [? [|]].
  - by destruct (removeLast l) as [? [|]].
  - by destruct (replace p e l) as [? [|]].
Qed.

End DoublyTail.
End DoublyTail.

(** * The properties of the specification *)

(** ** Position liveness *)

(** C1.  In a singly or a doubly linked list reached by any public calls,
    after [removeFirst], [removeLast] or [delete] has removed an element,
    its node is deprecated ([isDeprecated] answers true), every position on
    that node fails validation with [InvalidPosition] from then on, whatever
    is called next; every other position that was valid is still valid and
    [replace] through it succeeds and returns the element it held. *)
Theorem C1_position_liveness :
  (∀ (T : Type) (c : nat) (l l' : Singly.SList T) (op : Singly.Op T) (e : T),
     Singly.reachable c l → Singly.is_removal op = true →
     Singly.exec op l = (l', Ok (Singly.RElt e)) →
     ∃ n, Singly.removed_node op l = Some n ∧
       Singly.elt (Singly.heap l) n = Some e ∧
       Singly.isDeprecated n l' = (l', Ok true) ∧
       (∀ l'' p, rtc Singly.step l' l'' → pos_node p = n →
          Singly.validate p l'' = (l'', Err (Throw InvalidPosition))) ∧
       (∀ p, Singly.valid p l → pos_node p ≠ n →
          Singly.valid p l' ∧
          ∀ x, ∃ old,
            Singly.elt (Singly.heap l') (pos_node p) = Some old ∧
            Singly.replace p x l'
            = (Singly.replaced (pos_node p) x l', Ok old) ∧
            Singly.valid p (Singly.replaced (pos_node p) x l'))) ∧
  (∀ (T : Type) (c : nat) (l l' : Doubly.DList T) (op : Doubly.Op T) (e : T),
     Doubly.reachable c l → Doubly.is_removal op = true →
     Doubly.exec op l = (l', Ok (Doubly.RElt e)) →
     ∃ n, Doubly.removed_node op l = Some n ∧
       Doubly.elt (Doubly.heap l) n = Some e ∧
       Doubly.isDeprecated n l' = (l', Ok true) ∧
       (∀ l'' p, rtc Doubly.step l' l'' → pos_node p = n →
          Doubly.validate p l'' = (l'', Err (Throw InvalidPosition))) ∧
       (∀ p, Doubly.valid p l → pos_node p ≠ n →
          Doubly.valid p l' ∧
          ∀ x, ∃ old,
            Doubly.elt (Doubly.heap l') (pos_node p) = Some old ∧
            Doubly.replace p x l'
            = (Doubly.replaced (pos_node p) x l', Ok old) ∧
            Doubly.valid p (Doubly.replaced (pos_node p) x l'))).
Proof.
  split.
  - intros T c l l' op e. apply Singly.sl_removal_liveness.
  - intros T c l l' op e. apply Doubly.removal_liveness.
Qed.

(** ** No partial mutation *)

(** C2.  In both lists, a call of any public method that throws an
    [ADSError] leaves the store, [head], [tail] and [size] exactly as they
    were.  The calls that throw are the ones of the specification: with a
    position that [validate] rejects, [addAfter], [addBefore], [delete],
    [replace], [getAfter] and [getBefore] throw [InvalidPosition] before
    they write anything; on a list without head (tail), [removeFirst]
    ([removeLast]) throws [EmptyContainer]. *)
Theorem C2_failure_leaves_list_unchanged :
  (∀ (T : Type) (l l' : Singly.SList T) (op : Singly.Op T) (e : ADSError),
     Singly.exec op l = (l', Err (Throw e)) → l' = l) ∧
  (∀ (T : Type) (l l' : Doubly.DList T) (op : Doubly.Op T) (e : ADSError),
     Doubly.exec op l = (l', Err (Throw e)) → l' = l) ∧
  (∀ (T : Type) (l : Singly.SList T) (p : Position) (e : T),
     Singly.validate p l = (l, Err (Throw InvalidPosition)) →
     Singly.addAfter p e l = (l, Err (Throw InvalidPosition)) ∧
     Singly.replace p e l = (l, Err (Throw InvalidPosition)) ∧
     Singly.getAfter p l = (l, Err (Throw InvalidPosition))) ∧
  (∀ (T : Type) (l : Doubly.DList T) (p : Position) (e : T),
     Doubly.validate p l = (l, Err (Throw InvalidPosition)) →
     Doubly.addAfter p e l = (l, Err (Throw InvalidPosition)) ∧
     Doubly.addBefore p e l = (l, Err (Throw InvalidPosition)) ∧
     Doubly.delete p l = (l, Err (Throw InvalidPosition)) ∧
     Doubly.replace p e l = (l, Err (Throw InvalidPosition)) ∧
     Doubly.getAfter p l = (l, Err (Throw InvalidPosition)) ∧
     Doubly.getBefore p l = (l, Err (Throw InvalidPosition))) ∧
  (∀ (T : Type) (l : Singly.SList T),
     Singly.head l = None →
     Singly.removeFirst l = (l, Err (Throw EmptyContainer))) ∧
  (∀ (T : Type) (l : Doubly.DList T),
     (Doubly.head l = None →
      Doubly.removeFirst l = (l, Err (Throw EmptyContainer))) ∧
     (Doubly.tail l = None →
      Doubly.removeLast l = (l, Err (Throw EmptyContainer)))).
Proof.
  split; [|split; [|split; [|split; [|split]]]].
  - intros T l l' op e. apply Singly.sl_safe_exec.
  - intros T l l' op e. apply Doubly.safe_exec.
  - intros T l p e. apply Singly.sl_invalid_position_throws.
  - intros T l p e. apply Doubly.invalid_position_throws.
  - intros T l. apply Singly.sl_empty_throws.
  - intros T l. apply Doubly.empty_throws.
Qed.

(** ** Size *)

(** C3.  After any finite sequence of [addFirst], [addLast], [addAfter],
    [addBefore], [removeFirst], [removeLast] and [delete] calls on an empty
    list, [size] is the number of live nodes one meets from [head] along
    successor links: the list [ch] names each of them once. *)
Theorem C3_size_counts_live_nodes :
  (∀ (T : Type) (c : nat) (ops : list (Singly.Op T)),
     Forall (λ op, Singly.structural op = true) ops →
     let l := Singly.run ops (Singly.empty c) in
     ∃ ch, NoDup ch ∧
       (∀ a, a ∈ ch ↔ reach (Singly.nxt (Singly.heap l)) (Singly.head l) a
                      ∧ Singly.live (Singly.heap l) a) ∧
       Singly.size l = Z.of_nat (length ch)) ∧
  (∀ (T : Type) (c : nat) (ops : list (Doubly.Op T)),
     Forall (λ op, Doubly.structural op = true) ops →
     let l := Doubly.run ops (Doubly.empty c) in
     ∃ ch, NoDup ch ∧
       (∀ a, a ∈ ch ↔ reach (Doubly.nxt (Doubly.heap l)) (Doubly.head l) a
                      ∧ Doubly.live (Doubly.heap l) a) ∧
       Doubly.size l = Z.of_nat (length ch)).
Proof.
  split.
  - intros T c ops. apply Singly.sl_run_size.
  - intros T c ops. apply Doubly.run_size.
Qed.

(** ** Empty lists *)

(** C4.  On a freshly constructed empty list [removeFirst] (and, in the
    doubly linked list, [removeLast]; the singly linked list has none) throws
    [EmptyContainer], while [getFirst] and [getLast] return the absent value;
    none of them changes the list. *)
Theorem C4_empty_container_law (T : Type) (c : nat) :
  Singly.new_list (T:=T) c [] = (Singly.empty c, Ok tt) ∧
  Singly.removeFirst (T:=T) (Singly.empty c)
  = (Singly.empty c, Err (Throw EmptyContainer)) ∧
  Singly.getFirst (T:=T) (Singly.empty c) = (Singly.empty c, Ok None) ∧
  Singly.getLast (T:=T) (Singly.empty c) = (Singly.empty c, Ok None) ∧
  Doubly.new_list (T:=T) c [] = (Doubly.empty c, Ok tt) ∧
  Doubly.removeFirst (T:=T) (Doubly.empty c)
  = (Doubly.empty c, Err (Throw EmptyContainer)) ∧
  Doubly.removeLast (T:=T) (Doubly.empty c)
  = (Doubly.empty c, Err (Throw EmptyContainer)) ∧
  Doubly.getFirst (T:=T) (Doubly.empty c) = (Doubly.empty c, Ok None) ∧
  Doubly.getLast (T:=T) (Doubly.empty c) = (Doubly.empty c, Ok None).
Proof. repeat split. Qed.

(** ** Clearing *)




(** ** Symmetry of the links *)

(** C6.  In every doubly linked list reached by public calls, for every
    live node [a]: if [a.next] is a node [m] then [m] is live and
    [m.prev == a]; if [a.prev] is a node [m] (then [a] is not the head) then
    [m] is live and [m.next == a]. *)
Theorem C6_doubly_linked_symmetry
    (T : Type) (c : nat) (l : Doubly.DList T) (a : nat) :
  Doubly.reachable c l → Doubly.live (Doubly.heap l) a →
  (∀ m, Doubly.nxt (Doubly.heap l) a = Some (Some m) →
        Doubly.prv (Doubly.heap l) m = Some (Some a)
        ∧ Doubly.live (Doubly.heap l) m) ∧
  (∀ m, Doubly.prv (Doubly.heap l) a = Some (Some m) →
        Doubly.head l ≠ Some a
        ∧ Doubly.nxt (Doubly.heap l) m = Some (Some a)
        ∧ Doubly.live (Doubly.heap l) m).
Proof.
  intros Hr Ha.
  destruct (Doubly.reachable_symmetric c l a Hr Ha) as [Hn Hp].
  split; [done|]. intros m Hm. split; [|by apply Hp].
  intros Hh.
  destruct (Doubly.inv_head _ (Doubly.reachable_inv _ _ Hr) _ Hh) as [E _].
  congruence.
Qed.

(** ** Preorder *)

(** The tree of the specification: [addRoot(1)], [addLeft(root, 2)],
    [addRight(root, 3)], [addLeft(pos(2), 4)]. *)
Definition spec_tree : Res (Preorder.Tree Z * Preorder.Pos) :=
  match Preorder.addRoot 1 Preorder.Leaf with
  | Ok (t1, root) =>
      match Preorder.addLeft root 2 t1 with
      | Ok (t2, pos2) =>
          match Preorder.addRight root 3 t2 with
          | Ok (t3, _) => Preorder.addLeft pos2 4 t3
          | Err x => Err x
          end
      | Err x => Err x
      end
  | Err x => Err x
  end.

(** C7.  The four calls build a tree; the preorder traversal of it calls the
    visitor exactly four times, on the elements 1, 2, 4, 3 in this order,
    with the indices 0, 1, 2, 3.  For every traversable, [traverseBinary]
    calls the visitor on the current node first, then traverses the left
    child if there is one, then the right child if there is one; so on every
    tree the visitor sees the elements in preorder, numbered from 0. *)
Theorem C7_preorder_order :
  (∃ t p, spec_tree = Ok (t, p) ∧
     Preorder.traverse Preorder.record t []
     = [(1, 0%nat); (2, 1%nat); (4, 2%nat); (3, 3%nat)]) ∧
  (∀ (T P TR V : Type) (callback : T → nat → P → TR → V → V)
     (traversable : @Preorder.BinaryTraversable T P TR) (s : V * nat),
     Preorder.traverseBinary callback traversable s
     = let v1 := callback (Preorder.element traversable)
                   (Preorder.index traversable)
                   (Preorder.getPosition traversable)
                   (Preorder.tree traversable) s.1 in
       let s2 := Preorder.traverse_child callback
                   (Preorder.getLeft traversable s.2) v1 in
       Preorder.traverse_child callback
         (Preorder.getRight traversable s2.2) s2.1) ∧
  (∀ (T : Type) (t : Preorder.Tree T),
     Preorder.traverse Preorder.record t []
     = zip (Preorder.preorder t) (seq 0 (Preorder.nodes t))).
Proof.
  split; [|split].
  - by eexists _, _.
  - intros. apply Preorder.traverseBinary_unfold.
  - intros. apply Preorder.traverse_record.
Qed.

(** ** Iteration *)

(** C8.  For every array, the list constructed from it (singly or doubly
    linked) yields, when iterated, exactly the elements of the array in
    their order, none for the empty array; fuel for one step per element
    is enough. *)
Theorem C8_construct_then_iterate (T : Type) (c : nat) (arr : list T) (k : nat) :
  (∃ l, Singly.new_list c arr = (l, Ok tt) ∧
        Singly.iterate (length arr + k) l = Some arr) ∧
  (∃ l, Doubly.new_list c arr = (l, Ok tt) ∧
        Doubly.iterate (length arr + k) l = Some arr).
Proof.
  split; [apply Singly.sl_new_list_iterate|apply Doubly.new_list_iterate].
Qed.

(** ** The tail *)

(** The doubly linked list [[1]], its first position, [clear(true)], then
    [addAfter] through that position. *)
Definition stale_list : Doubly.DList Z :=
  (Doubly.exec (Doubly.Clear 0 true) (Doubly.new_list 0 [1]).1).1.
Definition stale_insert : Doubly.DList Z * Res (Doubly.Ret Z) :=
  Doubly.exec (Doubly.AddAfter (mkPosition 0 0) 2) stale_list.

(** C9, as stated, fails on the doubly linked list: after [clear(true)] a
    position held from before is still valid; [addAfter] through it succeeds
    and sets [tail] to the new node, while [head] stays absent, so that no
    node at all is reachable from [head]. *)
Lemma C9_stale_position_moves_tail :
  Doubly.reachable 0 stale_list ∧
  Doubly.getFirst (Doubly.new_list 0 [1]).1
  = ((Doubly.new_list 0 [1]).1, Ok (Some (mkPosition 0 0))) ∧
  stale_insert.2 = Ok (Doubly.RPos (mkPosition 1 0)) ∧
  Doubly.head stale_insert.1 = None ∧
  Doubly.tail stale_insert.1 = Some 1%nat ∧
  ¬ ∃ ch, chain (Doubly.nxt (Doubly.heap stale_insert.1))
            (Doubly.head stale_insert.1) ch
          ∧ Doubly.tail stale_insert.1 = last ch.
Proof.
  split.
  { eapply rtc_r; [apply (Doubly.new_list_reachable 0 [1])|].
    exists (Doubly.Clear 0 true), (Ok Doubly.RUnit). by split. }
  split; [done|]. split; [done|]. split; [done|]. split; [done|].
  intros (ch & Hch & Htl).
  assert (ch = []) as -> by by eapply seg_nil_end.
  vm_compute in Htl. discriminate.
Qed.

(** C9, amended.  In the singly linked list, after every successful
    insertion on a list reached by any public calls, and in the doubly
    linked list after every successful insertion on a list built without
    [clear(true)], [tail] is the last node of the chain from [head].  In
    both lists, on every list reached by any public calls, [addAfter] on the
    position that [getLast] returns succeeds and the next [getLast] returns
    the position of the added element.  In the doubly linked list reached
    by any public calls, [clear(true)] included: when [tail] is the last
    node of the chain from [head], it is so again after a successful
    insertion exactly when the insertion is not an [addAfter] through a
    valid position of a node that cannot be reached from [head] and has no
    successor, nor an [addBefore] through such a position of a node without
    predecessor; and [tail] is the last node of the chain from [head] on
    every list reached by calls none of which hands [addAfter], [addBefore]
    or [delete] a valid position of a node that cannot be reached from
    [head], as are all the lists built without [clear(true)], and so after
    every successful insertion on such a list that is not one of the two
    above. *)
Theorem C9_tail_follows_insertions :
  (∀ (T : Type) (c : nat) (l l' : Singly.SList T) (op : Singly.Op T) q,
     Singly.reachable c l → Singly.exec op l = (l', Ok (Singly.RPos q)) →
     ∃ ch, chain (Singly.nxt (Singly.heap l')) (Singly.head l') ch
           ∧ Singly.tail l' = last ch) ∧
  (∀ (T : Type) (c : nat) (l l' : Doubly.DList T) (op : Doubly.Op T) q,
     Doubly.built c l → Doubly.exec op l = (l', Ok (Doubly.RPos q)) →
     ∃ ch, chain (Doubly.nxt (Doubly.heap l')) (Doubly.head l') ch
           ∧ Doubly.tail l' = last ch) ∧
  (∀ (T : Type) (c : nat) (l : Singly.SList T) (p : Position) (e : T),
     Singly.reachable c l → Singly.getLast l = (l, Ok (Some p)) →
     ∃ l' q, Singly.addAfter p e l = (l', Ok q) ∧
             Singly.getLast l' = (l', Ok (Some q)) ∧
             Singly.elt (Singly.heap l') (pos_node q) = Some e) ∧
  (∀ (T : Type) (c : nat) (l : Doubly.DList T) (p : Position) (e : T),
     Doubly.reachable c l → Doubly.getLast l = (l, Ok (Some p)) →
     ∃ l' q, Doubly.addAfter p e l = (l', Ok q) ∧
             Doubly.getLast l' = (l', Ok (Some q)) ∧
             Doubly.elt (Doubly.heap l') (pos_node q) = Some e) ∧
  (∀ (T : Type) (c : nat) (l l' : Doubly.DList T) (op : Doubly.Op T) q,
     Doubly.reachable c l → DoublyTail.tailed l →
     Doubly.exec op l = (l', Ok (Doubly.RPos q)) →
     DoublyTail.tailed l' ↔ ¬ DoublyTail.breaks op l) ∧
  (∀ (T : Type) (c : nat) (l : Doubly.DList T),
     DoublyTail.fair c l → Doubly.reachable c l ∧ DoublyTail.tailed l) ∧
  (∀ (T : Type) (c : nat) (l : Doubly.DList T),
     Doubly.built c l → DoublyTail.fair c l) ∧
  (∀ (T : Type) (c : nat) (l l' : Doubly.DList T) (op : Doubly.Op T) q,
     DoublyTail.fair c l → Doubly.exec op l = (l', Ok (Doubly.RPos q)) →
     ¬ DoublyTail.breaks op l →
     ∃ ch, chain (Doubly.nxt (Doubly.heap l')) (Doubly.head l') ch
           ∧ Doubly.tail l' = last ch).
Proof.
  split; [|split; [|split; [|split; [|split; [|split; [|split]]]]]].
  - intros T c l l' op q. apply Singly.sl_insertion_tail.
  - intros T c l l' op q. apply Doubly.insertion_tail.
  - intros T c l p e Hr. apply Singly.sl_addAfter_last.
    by eapply Singly.sl_reachable_inv.
  - intros T c l p e Hr. apply Doubly.addAfter_last.
    by eapply Doubly.reachable_inv.
  - intros T c l l' op q Hr. apply DoublyTail.insertion_tailed.
    by eapply Doubly.reachable_inv.
  - intros T c l Hf. split.
    + by apply DoublyTail.fair_reachable.
    + by eapply DoublyTail.fair_tailed.
  - intros T c l. apply DoublyTail.built_fair.
  - intros T c l l' op q Hf He Hnb.
    apply (DoublyTail.insertion_tailed op l l' q); [| |done|done].
    + eapply Doubly.reachable_inv. by apply DoublyTail.fair_reachable.
    + by eapply DoublyTail.fair_tailed.
Qed.

(** ** Quick-select *)

(** Outside the contract of comparators: with the comparator that calls
    everything less, the pivot lands in [less], the working array [[1; 2]]
    never shrinks, and [quickSelect] returns for no amount of fuel. *)
Lemma always_less_never_returns :
  ¬ ∃ fuel r,
      QuickSelect.quickSelect (λ _ _, O) QuickSelect.always_less fuel [1; 2] 0
      = Ok r.
Proof.
  intros (fuel & r & H).
  change (QuickSelect.select_loop (λ _ _, O) QuickSelect.always_less fuel 0
            [1; 2] 1 = Ok r) in H.
  destruct (QuickSelect.always_less_loop (λ _ _, O) fuel 0) as [E|E];
    rewrite E in H; discriminate.
Qed.


(** * The theorems at work on concrete lists *)

Definition singly_123 : Singly.SList Z := (Singly.new_list 0 [10; 20; 30]).1.
Definition doubly_123 : Doubly.DList Z := (Doubly.new_list 0 [10; 20; 30]).1.

(** [removeFirst] on the singly linked list [[10; 20; 30]] and [delete] of
    the middle element of the doubly linked one: the position of the removed
    element is invalid afterwards, the position of the last element is still
    valid. *)
Lemma C1_position_liveness_witness :
  (Singly.reachable 0 singly_123 ∧
   Singly.exec Singly.RemoveFirst singly_123
   = ((Singly.exec Singly.RemoveFirst singly_123).1, Ok (Singly.RElt 10)) ∧
   Singly.validate (mkPosition 0 0)
     (Singly.exec Singly.RemoveFirst singly_123).1
   = ((Singly.exec Singly.RemoveFirst singly_123).1,
      Err (Throw InvalidPosition)) ∧
   Singly.valid (mkPosition 2 0)
     (Singly.exec Singly.RemoveFirst singly_123).1) ∧
  (Doubly.reachable 0 doubly_123 ∧
   Doubly.exec (Doubly.Delete (mkPosition 1 0)) doubly_123
   = ((Doubly.exec (Doubly.Delete (mkPosition 1 0)) doubly_123).1,
      Ok (Doubly.RElt 20)) ∧
   Doubly.validate (mkPosition 1 0)
     (Doubly.exec (Doubly.Delete (mkPosition 1 0)) doubly_123).1
   = ((Doubly.exec (Doubly.Delete (mkPosition 1 0)) doubly_123).1,
      Err (Throw InvalidPosition)) ∧
   Doubly.valid (mkPosition 2 0)
     (Doubly.exec (Doubly.Delete (mkPosition 1 0)) doubly_123).1).
Proof.
  split.
  - assert (Hr : Singly.reachable 0 singly_123)
      by apply Singly.sl_new_list_reachable.
    assert (He : Singly.exec Singly.RemoveFirst singly_123
                 = ((Singly.exec Singly.RemoveFirst singly_123).1,
                    Ok (Singly.RElt 10))) by (vm_compute; reflexivity).
    destruct (proj1 C1_position_liveness Z 0%nat singly_123 _
                Singly.RemoveFirst 10 Hr eq_refl He)
      as (n & Hn & _ & _ & Hinv & Hval).
    assert (n = 0%nat) as -> by (vm_compute in Hn; congruence).
    split; [exact Hr|]. split; [exact He|]. split.
    + apply Hinv; [apply rtc_refl|reflexivity].
    + apply (Hval (mkPosition 2 0)); [vm_compute; reflexivity|discriminate].
  - assert (Hr : Doubly.reachable 0 doubly_123)
      by apply Doubly.new_list_reachable.
    assert (He : Doubly.exec (Doubly.Delete (mkPosition 1 0)) doubly_123
                 = ((Doubly.exec (Doubly.Delete (mkPosition 1 0))
                       doubly_123).1,
                    Ok (Doubly.RElt 20))) by (vm_compute; reflexivity).
    destruct (proj2 C1_position_liveness Z 0%nat doubly_123 _
                (Doubly.Delete (mkPosition 1 0)) 20 Hr eq_refl He)
      as (n & Hn & _ & _ & Hinv & Hval).
    assert (n = 1%nat) as -> by (vm_compute in Hn; congruence).
    split; [exact Hr|]. split; [exact He|]. split.
    + apply Hinv; [apply rtc_refl|reflexivity].
    + apply (Hval (mkPosition 2 0)); [vm_compute; reflexivity|discriminate].
Defined.

(** [addAfter] with a position of another container on the singly linked
    list, and [removeFirst] on the empty doubly linked list. *)
Lemma C2_failure_leaves_list_unchanged_witness :
  (Singly.exec (Singly.AddAfter (mkPosition 0 7) 5) singly_123
   = (singly_123, Err (Throw InvalidPosition))) ∧
  (Doubly.exec (T:=Z) Doubly.RemoveFirst (Doubly.empty 0)
   = (Doubly.empty 0, Err (Throw EmptyContainer))).
Proof.
  split.
  - assert (He : Singly.exec (Singly.AddAfter (mkPosition 0 7) 5) singly_123
                 = ((Singly.exec (Singly.AddAfter (mkPosition 0 7) 5)
                       singly_123).1, Err (Throw InvalidPosition)))
      by (vm_compute; reflexivity).
    etransitivity; [exact He|].
    rewrite (proj1 C2_failure_leaves_list_unchanged Z _ _ _ _ He).
    reflexivity.
  - assert (He : Doubly.exec (T:=Z) Doubly.RemoveFirst (Doubly.empty 0)
                 = ((Doubly.exec (T:=Z) Doubly.RemoveFirst
                       (Doubly.empty 0)).1, Err (Throw EmptyContainer)))
      by (vm_compute; reflexivity).
    etransitivity; [exact He|].
    rewrite (proj1 (proj2 C2_failure_leaves_list_unchanged) Z _ _ _ _ He).
    reflexivity.
Defined.

Definition singly_calls : list (Singly.Op Z) :=
  [Singly.AddLast 1; Singly.AddFirst 2; Singly.RemoveFirst;
   Singly.AddAfter (mkPosition 0 0) 5].
Definition doubly_calls : list (Doubly.Op Z) :=
  [Doubly.AddLast 1; Doubly.AddFirst 2; Doubly.AddBefore (mkPosition 0 0) 3;
   Doubly.RemoveLast; Doubly.Delete (mkPosition 1 0)].

Lemma C3_size_counts_live_nodes_witness :
  (Forall (λ op, Singly.structural op = true) singly_calls ∧
   ∃ ch : list nat, NoDup ch ∧
     Singly.size (Singly.run singly_calls (Singly.empty 0))
     = Z.of_nat (length ch)) ∧
  (Forall (λ op, Doubly.structural op = true) doubly_calls ∧
   ∃ ch : list nat, NoDup ch ∧
     Doubly.size (Doubly.run doubly_calls (Doubly.empty 0))
     = Z.of_nat (length ch)).
Proof.
  split.
  - assert (Hf : Forall (λ op, Singly.structural op = true) singly_calls)
      by (repeat constructor).
    split; [exact Hf|].
    destruct (proj1 C3_size_counts_live_nodes Z 0%nat singly_calls Hf)
      as (ch & Hnd & _ & Hsz).
    exists ch. split; [exact Hnd|exact Hsz].
  - assert (Hf : Forall (λ op, Doubly.structural op = true) doubly_calls)
      by (repeat constructor).
    split; [exact Hf|].
    destruct (proj2 C3_size_counts_live_nodes Z 0%nat doubly_calls Hf)
      as (ch & Hnd & _ & Hsz).
    exists ch. split; [exact Hnd|exact Hsz].
Defined.


Lemma C6_doubly_linked_symmetry_witness :
  Doubly.reachable 0 doubly_123 ∧
  Doubly.live (Doubly.heap doubly_123) 1 ∧
  Doubly.prv (Doubly.heap doubly_123) 2 = Some (Some 1%nat) ∧
  Doubly.nxt (Doubly.heap doubly_123) 0 = Some (Some 1%nat).
Proof.
  assert (Hr : Doubly.reachable 0 doubly_123)
    by apply Doubly.new_list_reachable.
  assert (Hl : Doubly.live (Doubly.heap doubly_123) 1).
  { split; [exists (Some 2%nat); vm_compute; reflexivity|].
    vm_compute. discriminate. }
  destruct (C6_doubly_linked_symmetry Z 0%nat doubly_123 1%nat Hr Hl)
    as [Hn Hp].
  split; [exact Hr|]. split; [exact Hl|]. split.
  - apply (Hn 2%nat). vm_compute. reflexivity.
  - apply (Hp 0%nat). vm_compute. reflexivity.
Defined.

Lemma C9_tail_follows_insertions_witness :
  (Singly.reachable 0 singly_123 ∧
   ∃ ch, chain
           (Singly.nxt
              (Singly.heap (Singly.exec (Singly.AddLast 40) singly_123).1))
           (Singly.head (Singly.exec (Singly.AddLast 40) singly_123).1) ch
         ∧ Singly.tail (Singly.exec (Singly.AddLast 40) singly_123).1
           = last ch) ∧
  (Doubly.built 0 doubly_123 ∧
   ∃ ch, chain
           (Doubly.nxt
              (Doubly.heap
                 (Doubly.exec (Doubly.AddBefore (mkPosition 0 0) 5)
                    doubly_123).1))
           (Doubly.head
              (Doubly.exec (Doubly.AddBefore (mkPosition 0 0) 5)
                 doubly_123).1) ch
         ∧ Doubly.tail
             (Doubly.exec (Doubly.AddBefore (mkPosition 0 0) 5)
                doubly_123).1
           = last ch) ∧
  (DoublyTail.fair 0 (Doubly.exec (Doubly.Clear 0 true) doubly_123).1 ∧
   DoublyTail.tailed (Doubly.exec (Doubly.Clear 0 true) doubly_123).1 ∧
   DoublyTail.tailed
     (Doubly.exec (Doubly.AddLast 40)
        (Doubly.exec (Doubly.Clear 0 true) doubly_123).1).1 ∧
   ¬ DoublyTail.tailed
       (Doubly.exec (Doubly.AddAfter (mkPosition 2 0) 40)
          (Doubly.exec (Doubly.Clear 0 true) doubly_123).1).1).
Proof.
  split; [|split].
  - assert (Hr : Singly.reachable 0 singly_123)
      by apply Singly.sl_new_list_reachable.
    split; [exact Hr|].
    apply (proj1 C9_tail_follows_insertions Z 0%nat singly_123 _
             (Singly.AddLast 40) (mkPosition 3 0) Hr).
    vm_compute. reflexivity.
  - assert (Hb : Doubly.built 0 doubly_123)
      by apply Doubly.new_list_built.
    split; [exact Hb|].
    apply (proj1 (proj2 C9_tail_follows_insertions) Z 0%nat doubly_123 _
             (Doubly.AddBefore (mkPosition 0 0) 5) (mkPosition 3 0) Hb).
    vm_compute. reflexivity.
  - pose proof C9_tail_follows_insertions
      as (_ & _ & _ & _ & Hiff & Hfair & Hbuilt & _).
    assert (Hf : DoublyTail.fair 0
                   (Doubly.exec (Doubly.Clear 0 true) doubly_123).1).
    { eapply rtc_r; [apply (Hbuilt Z), Doubly.new_list_built|].
      exists (Doubly.Clear 0 true), (Ok Doubly.RUnit).
      split; [reflexivity|]. split; [discriminate|].
      intros []. }
    destruct (Hfair Z 0%nat _ Hf) as [Hr Ht].
    split; [exact Hf|]. split; [exact Ht|]. split.
    + apply (Hiff Z 0%nat _ _ (Doubly.AddLast 40) (mkPosition 3 0) Hr Ht).
      * reflexivity.
      * intros [].
    + intros Ht'.
      apply (Hiff Z 0%nat _ _ (Doubly.AddAfter (mkPosition 2 0) 40)
               (mkPosition 3 0) Hr Ht) in Ht'.
      * apply Ht'. split; [split|].
        { reflexivity. }
        { intros Hreach. inversion Hreach. }
        { reflexivity. }
      * reflexivity.
Defined.


(** * Further properties *)


(** ** The doubly linked list as a sequence *)

(** X1.  On a doubly linked list built without [clear(true)] whose iteration
    yields [els]: [addFirst(e)] makes it yield [e :: els] and returns the
    position that [getFirst] then returns; the old positions follow, each one
    step further from the front.  [addLast(e)] makes it yield [els ++ [e]]
    and returns the position reached from [getFirst] by [length els] steps of
    [getAfter]; the old positions stay where they were. *)
Theorem doubly_add_at_ends
    (T : Type) (c : nat) (l : Doubly.DList T) (fuel : nat) (els : list T)
    (e : T) :
  Doubly.built c l → Doubly.iterate fuel l = Some els →
  (∃ l' q, Doubly.addFirst e l = (l', Ok q) ∧
     Doubly.iterate (S fuel) l' = Some (e :: els) ∧
     Doubly.size l' = Z.of_nat (length els) + 1 ∧
     DoublySeq.position_at 0 l' = (l', Ok (Some q)) ∧
     ∀ j, (DoublySeq.position_at (S j) l').2
          = (DoublySeq.position_at j l).2) ∧
  (∃ l' q, Doubly.addLast e l = (l', Ok q) ∧
     Doubly.iterate (S fuel) l' = Some (els ++ [e]) ∧
     Doubly.size l' = Z.of_nat (length els) + 1 ∧
     DoublySeq.position_at (length els) l' = (l', Ok (Some q)) ∧
     ∀ j, (j < length els)%nat →
          (DoublySeq.position_at j l').2 = (DoublySeq.position_at j l).2).
Proof.
  intros Hb Hit.
  destruct (DoublySeq.observe _ _ _ _ Hb Hit) as (ch & Hr & Hf).
  pose proof Hr as [Hst Hels].
  pose proof (DoublySeq.holds_length _ _ _ Hels) as Hlen.
  split.
  - destruct (DoublySeq.addFirst_repr e _ _ _ Hr)
      as (n & l' & Hrun & Hself & Hn & Hr').
    pose proof Hr' as [Hst' _].
    exists l', (mkPosition n (Doubly.self l)).
    split; [done|]. split.
    { apply (DoublySeq.repr_iterates _ _ _ _ Hr'). simpl. lia. }
    split.
    { rewrite (DoublySeq.repr_size _ _ _ Hr'). simpl length. lia. }
    split.
    { rewrite (DoublySeq.position_at_run _ _ _ Hst'). simpl.
      by rewrite Hself. }
    intros j. by apply (DoublySeq.positions_agree _ _ _ _ _ _ Hst Hst').
  - destruct (DoublySeq.addLast_repr e _ _ _ Hr)
      as (n & l' & Hrun & Hself & Hn & Hr').
    pose proof Hr' as [Hst' _].
    exists l', (mkPosition n (Doubly.self l)).
    split; [done|]. split.
    { apply (DoublySeq.repr_iterates _ _ _ _ Hr'). rewrite length_app.
      simpl. lia. }
    split.
    { rewrite (DoublySeq.repr_size _ _ _ Hr'), length_app. simpl length.
      lia. }
    split.
    { rewrite (DoublySeq.position_at_run _ _ _ Hst'). rewrite <- Hlen.
      rewrite list_lookup_middle by done. simpl. by rewrite Hself. }
    intros j Hj. apply (DoublySeq.positions_agree _ _ _ _ _ _ Hst Hst');
      [done|]. apply lookup_app_l. lia.
Qed.

(** X2.  On a doubly linked list built without [clear(true)] whose iteration
    yields [els], let [p] be the position [i] steps of [getAfter] after
    [getFirst].  [addAfter(p, e)] puts [e] right behind the [i]-th element
    and [addBefore(p, e)] right in front of it; the position returned is the
    one of the new element, and every old position keeps its place in the
    order, one step further from the front when it is behind the new
    element. *)
Theorem doubly_add_at_position
    (T : Type) (c : nat) (l : Doubly.DList T) (fuel : nat) (els : list T)
    (i : nat) (p : Position) (e : T) :
  Doubly.built c l → Doubly.iterate fuel l = Some els →
  DoublySeq.position_at i l = (l, Ok (Some p)) →
  (∃ l' q, Doubly.addAfter p e l = (l', Ok q) ∧
     Doubly.iterate (S fuel) l'
     = Some (take (S i) els ++ e :: drop (S i) els) ∧
     DoublySeq.position_at (S i) l' = (l', Ok (Some q)) ∧
     ∀ j, (DoublySeq.position_at (if decide (j ≤ i)%nat then j else S j) l').2
          = (DoublySeq.position_at j l).2) ∧
  (∃ l' q, Doubly.addBefore p e l = (l', Ok q) ∧
     Doubly.iterate (S fuel) l' = Some (take i els ++ e :: drop i els) ∧
     DoublySeq.position_at i l' = (l', Ok (Some q)) ∧
     ∀ j, (DoublySeq.position_at (if decide (j < i)%nat then j else S j) l').2
          = (DoublySeq.position_at j l).2).
Proof.
  intros Hb Hit Hp.
  destruct (DoublySeq.observe _ _ _ _ Hb Hit) as (ch & Hr & Hf).
  pose proof Hr as [Hst Hels].
  pose proof (DoublySeq.holds_length _ _ _ Hels) as Hlen.
  destruct (DoublySeq.position_at_Some _ _ _ _ Hst Hp) as [Hi ->].
  pose proof (lookup_lt_Some _ _ _ Hi) as Hlt.
  split.
  - destruct (DoublySeq.addAfter_repr e _ _ _ _ _ Hr Hi)
      as (n & l' & Hrun & Hself & Hn & Hr').
    pose proof Hr' as [Hst' _].
    exists l', (mkPosition n (Doubly.self l)).
    split; [done|]. split.
    { apply (DoublySeq.repr_iterates _ _ _ _ Hr').
      rewrite length_insert_at. lia. }
    split.
    { rewrite (DoublySeq.position_at_run _ _ _ Hst').
      rewrite insert_at_lookup_eq by lia. simpl. by rewrite Hself. }
    intros j. apply (DoublySeq.positions_agree _ _ _ _ _ _ Hst Hst');
      [done|].
    case_decide.
    + apply insert_at_lookup_lt; lia.
    + apply insert_at_lookup_gt; lia.
  - destruct (DoublySeq.addBefore_repr e _ _ _ _ _ Hr Hi)
      as (n & l' & Hrun & Hself & Hn & Hr').
    pose proof Hr' as [Hst' _].
    exists l', (mkPosition n (Doubly.self l)).
    split; [done|]. split.
    { apply (DoublySeq.repr_iterates _ _ _ _ Hr').
      rewrite length_insert_at. lia. }
    split.
    { rewrite (DoublySeq.position_at_run _ _ _ Hst').
      rewrite insert_at_lookup_eq by lia. simpl. by rewrite Hself. }
    intros j. apply (DoublySeq.positions_agree _ _ _ _ _ _ Hst Hst');
      [done|].
    case_decide.
    + apply insert_at_lookup_lt; lia.
    + apply insert_at_lookup_gt; lia.
Qed.

(** X3.  On a doubly linked list built without [clear(true)] whose iteration
    yields [els], [delete] on the position of the [i]-th element returns
    that element and takes it out of the sequence; the positions in front of
    it stay where they are, the ones behind it come one step closer to the
    front. *)
Theorem doubly_delete_at_position
    (T : Type) (c : nat) (l : Doubly.DList T) (fuel : nat) (els : list T)
    (i : nat) (p : Position) :
  Doubly.built c l → Doubly.iterate fuel l = Some els →
  DoublySeq.position_at i l = (l, Ok (Some p)) →
  ∃ l' x, Doubly.delete p l = (l', Ok x) ∧ els !! i = Some x ∧
    Doubly.iterate fuel l' = Some (take i els ++ drop (S i) els) ∧
    Doubly.size l' = Z.of_nat (length els) - 1 ∧
    ∀ j, (DoublySeq.position_at j l').2
         = (DoublySeq.position_at (if decide (j < i)%nat then j else S j) l).2.
Proof.
  intros Hb Hit Hp.
  destruct (DoublySeq.observe _ _ _ _ Hb Hit) as (ch & Hr & Hf).
  pose proof Hr as [Hst Hels].
  pose proof (DoublySeq.holds_length _ _ _ Hels) as Hlen.
  destruct (DoublySeq.position_at_Some _ _ _ _ Hst Hp) as [Hi ->].
  pose proof (lookup_lt_Some _ _ _ Hi) as Hlt.
  destruct (DoublySeq.delete_repr _ _ _ _ _ Hr Hi)
    as (x & l' & Hrun & Hx & Hself & Hr').
  pose proof Hr' as [Hst' _].
  assert (length (base.delete i els) = pred (length els)) as Hdl.
  { rewrite length_delete; [lia|by eexists]. }
  exists l', x. split; [done|]. split; [done|]. split.
  { rewrite <- delete_take_drop.
    apply (DoublySeq.repr_iterates _ _ _ _ Hr'). lia. }
  split.
  { rewrite (DoublySeq.repr_size _ _ _ Hr'), Hdl. lia. }
  intros j. apply (DoublySeq.positions_agree _ _ _ _ _ _ Hst Hst'); [done|].
  case_decide.
  - by apply list_lookup_delete_lt.
  - apply list_lookup_delete_ge. lia.
Qed.

(** X4.  On a doubly linked list built without [clear(true)] whose iteration
    yields [els]: when [els] is empty, [removeFirst] and [removeLast] throw
    and leave the list as it is; [removeFirst] returns the first element and
    leaves the rest, [removeLast] returns the last element and leaves the
    ones in front of it; the positions of the elements left keep their
    order. *)
Theorem doubly_remove_at_ends
    (T : Type) (c : nat) (l : Doubly.DList T) (fuel : nat) (els : list T) :
  Doubly.built c l → Doubly.iterate fuel l = Some els →
  (els = [] →
   Doubly.removeFirst l = (l, Err (Throw EmptyContainer)) ∧
   Doubly.removeLast l = (l, Err (Throw EmptyContainer))) ∧
  (∀ x r, els = x :: r →
     ∃ l', Doubly.removeFirst l = (l', Ok x) ∧
           Doubly.iterate fuel l' = Some r ∧
           ∀ j, (DoublySeq.position_at j l').2
                = (DoublySeq.position_at (S j) l).2) ∧
  (∀ r x, els = r ++ [x] →
     ∃ l', Doubly.removeLast l = (l', Ok x) ∧
           Doubly.iterate fuel l' = Some r ∧
           ∀ j, (j < length r)%nat →
                (DoublySeq.position_at j l').2
                = (DoublySeq.position_at j l).2).
Proof.
  intros Hb Hit.
  destruct (DoublySeq.observe _ _ _ _ Hb Hit) as (ch & Hr & Hf).
  pose proof Hr as [Hst Hels].
  split; [|split].
  - intros ->. apply Forall2_nil_inv_r in Hels as ->.
    by apply DoublySeq.removal_empty.
  - intros x r ->. apply Forall2_cons_inv_r in Hels as (a & ch' & _ & _ & ->).
    destruct (DoublySeq.removeFirst_repr _ _ _ _ _ Hr)
      as (l' & Hrun & Hself & Hr').
    pose proof Hr' as [Hst' _].
    exists l'. split; [done|]. split.
    { apply (DoublySeq.repr_iterates _ _ _ _ Hr'). simpl in Hf. lia. }
    intros j. by apply (DoublySeq.positions_agree _ _ _ _ _ _ Hst Hst').
  - intros r x ->.
    apply Forall2_app_inv_r in Hels as (ch' & la & _ & Hla & ->).
    apply Forall2_cons_inv_r in Hla as (a & la' & _ & Hnil & ->).
    apply Forall2_nil_inv_r in Hnil as ->.
    destruct (DoublySeq.removeLast_repr _ _ _ _ _ Hr)
      as (l' & Hrun & Hself & Hr').
    pose proof Hr' as [Hst' Hels'].
    exists l'. split; [done|]. split.
    { apply (DoublySeq.repr_iterates _ _ _ _ Hr').
      rewrite length_app in Hf. lia. }
    intros j Hj. apply (DoublySeq.positions_agree _ _ _ _ _ _ Hst Hst');
      [done|]. symmetry. apply lookup_app_l.
    by rewrite (DoublySeq.holds_length _ _ _ Hels').
Qed.

(** X5.  On a doubly linked list built without [clear(true)] whose iteration
    yields [els], [replace(p, e)] on the position of the [i]-th element
    returns that element and puts [e] in its place; the size and all
    positions stay as they are. *)
Theorem doubly_replace_at_position
    (T : Type) (c : nat) (l : Doubly.DList T) (fuel : nat) (els : list T)
    (i : nat) (p : Position) (e : T) :
  Doubly.built c l → Doubly.iterate fuel l = Some els →
  DoublySeq.position_at i l = (l, Ok (Some p)) →
  ∃ l' x, Doubly.replace p e l = (l', Ok x) ∧ els !! i = Some x ∧
    Doubly.iterate fuel l' = Some (<[i := e]> els) ∧
    Doubly.size l' = Doubly.size l ∧
    ∀ j, (DoublySeq.position_at j l').2 = (DoublySeq.position_at j l).2.
Proof.
  intros Hb Hit Hp.
  destruct (DoublySeq.observe _ _ _ _ Hb Hit) as (ch & Hr & Hf).
  pose proof Hr as [Hst Hels].
  destruct (DoublySeq.position_at_Some _ _ _ _ Hst Hp) as [Hi ->].
  destruct (DoublySeq.replace_repr e _ _ _ _ _ Hr Hi)
    as (x & l' & Hrun & Hx & Hself & Hr').
  pose proof Hr' as [Hst' _].
  exists l', x. split; [done|]. split; [done|]. split.
  { apply (DoublySeq.repr_iterates _ _ _ _ Hr'). by rewrite length_insert. }
  split.
  { rewrite (DoublySeq.repr_size _ _ _ Hr'), (DoublySeq.repr_size _ _ _ Hr).
    by rewrite length_insert. }
  intros j. by apply (DoublySeq.positions_agree _ _ _ _ _ _ Hst Hst').
Qed.

(** X6.  On a doubly linked list built without [clear(true)] whose iteration
    yields [els]: walking from [getFirst] by [getAfter] gives a position
    after [i] steps exactly when [i] is below the number of elements; the
    valid positions are the ones so reached; [getAfter] and [getBefore]
    move one step along this walk, with no position in front of the first
    and none behind the last; walking back from [getLast] by [getBefore]
    visits the same positions in the opposite order. *)
Theorem doubly_positions_in_order
    (T : Type) (c : nat) (l : Doubly.DList T) (fuel : nat) (els : list T) :
  Doubly.built c l → Doubly.iterate fuel l = Some els →
  (∀ i, ∃ o, DoublySeq.position_at i l = (l, Ok o) ∧
             (is_Some o ↔ (i < length els)%nat)) ∧
  (∀ p, Doubly.valid p l ↔ ∃ i, DoublySeq.position_at i l = (l, Ok (Some p))) ∧
  (∀ i p, DoublySeq.position_at i l = (l, Ok (Some p)) →
     Doubly.getAfter p l = DoublySeq.position_at (S i) l ∧
     Doubly.getBefore p l
     = match i with
       | O => (l, Ok None)
       | S j => DoublySeq.position_at j l
       end) ∧
  (∀ i, (i < length els)%nat →
     DoublySeq.position_from_last i l
     = DoublySeq.position_at (length els - 1 - i) l).
Proof.
  intros Hb Hit.
  destruct (DoublySeq.observe _ _ _ _ Hb Hit) as (ch & Hr & Hf).
  pose proof Hr as [Hst Hels].
  pose proof (DoublySeq.holds_length _ _ _ Hels) as Hlen.
  split; [|split; [|split]].
  - intros i. eexists. split; [by apply DoublySeq.position_at_run|].
    rewrite fmap_is_Some, <- Hlen. apply lookup_lt_is_Some.
  - intros p. rewrite (DoublySeq.strict_valid _ _ _ Hst). split.
    + intros [Hc [i Hi]%list_elem_of_lookup_1]. exists i.
      rewrite (DoublySeq.position_at_run _ _ _ Hst), Hi. simpl.
      destruct p as [a k]; simpl in *. by rewrite Hc.
    + intros [i Hi].
      destruct (DoublySeq.position_at_Some _ _ _ _ Hst Hi) as [Ha Hp].
      split; [by rewrite Hp|by eapply list_elem_of_lookup_2].
  - intros i p Hi.
    destruct (DoublySeq.position_at_Some _ _ _ _ Hst Hi) as [Ha ->].
    rewrite (DoublySeq.getAfter_run _ _ _ _ Hst Ha).
    rewrite (DoublySeq.getBefore_run _ _ _ _ Hst Ha).
    rewrite (DoublySeq.position_at_run _ _ _ Hst). split; [done|].
    destruct i as [|j]; [done|].
    by rewrite (DoublySeq.position_at_run _ _ _ Hst).
  - intros i Hi. rewrite (DoublySeq.position_from_last_run _ _ _ Hst).
    rewrite (DoublySeq.position_at_run _ _ _ Hst).
    rewrite decide_True by lia. by rewrite Hlen.
Qed.

(** X7.  A doubly linked list reached by any calls can be cleared, in either
    mode, and refilled: after [clear], adding the elements of an array with
    [addLast] one by one makes the iteration yield exactly that array. *)
Theorem doubly_clear_then_refill
    (T : Type) (c : nat) (l : Doubly.DList T) :
  Doubly.reachable c l →
  ∃ fuel0, ∀ fuel instant, (fuel0 ≤ fuel)%nat →
    ∃ l', Doubly.clear fuel instant l = (l', Ok tt) ∧
      ∀ arr, ∃ l'', Doubly.addLast_all arr l' = (l'', Ok tt) ∧
                    Doubly.iterate (length arr) l'' = Some arr.
Proof.
  intros Hr. destruct (DoublySeq.clear_lined _ _ Hr) as [fuel0 H].
  exists fuel0. intros fuel instant Hf.
  destruct (H fuel instant Hf) as (l' & Hc & Hl).
  exists l'. split; [done|]. intros arr.
  destruct (DoublySeq.addLast_all_lined arr _ _ _ Hl) as (l'' & ch & Hrun & Hl'').
  exists l''. split; [done|]. by apply (DoublySeq.lined_iterate _ _ _ Hl'').
Qed.

(** X8.  In a doubly linked list reached by any calls, the element of a node
    is written by [replace] on a position of that node and by nothing else:
    every other call, whether it returns or throws, leaves the element of
    every node as it was, also of the nodes it removes. *)
Theorem doubly_only_replace_writes_elements
    (T : Type) (c : nat) (l l' : Doubly.DList T) (op : Doubly.Op T)
    (r : Res (Doubly.Ret T)) (a : nat) (x : T) :
  Doubly.reachable c l → Doubly.exec op l = (l', r) → r ≠ Err OutOfFuel →
  (∀ q e, op = Doubly.Replace q e → pos_node q ≠ a) →
  Doubly.elt (Doubly.heap l) a = Some x →
  Doubly.elt (Doubly.heap l') a = Some x.
Proof.
  intros Hr He Hf Hrep Hx. rewrite <- Hx.
  eapply DoublySeq.exec_elt; [by eapply Doubly.reachable_inv|done..|].
  by eexists.
Qed.

(** ** The singly linked list as a sequence *)

(** X9.  On a singly linked list reached by any calls whose iteration yields
    [els]: [addFirst(e)] makes it yield [e :: els] and returns the position
    that [getFirst] then returns; [addLast(e)] makes it yield [els ++ [e]]
    and returns the position reached from [getFirst] by [length els] steps
    of [getAfter]; the old positions keep their order. *)
Theorem singly_add_at_ends
    (T : Type) (c : nat) (l : Singly.SList T) (fuel : nat) (els : list T)
    (e : T) :
  Singly.reachable c l → Singly.iterate fuel l = Some els →
  (∃ l' q, Singly.addFirst e l = (l', Ok q) ∧
     Singly.iterate (S fuel) l' = Some (e :: els) ∧
     SinglySeq.position_at 0 l' = (l', Ok (Some q)) ∧
     ∀ j, (SinglySeq.position_at (S j) l').2
          = (SinglySeq.position_at j l).2) ∧
  (∃ l' q, Singly.addLast e l = (l', Ok q) ∧
     Singly.iterate (S fuel) l' = Some (els ++ [e]) ∧
     SinglySeq.position_at (length els) l' = (l', Ok (Some q)) ∧
     ∀ j, (j < length els)%nat →
          (SinglySeq.position_at j l').2 = (SinglySeq.position_at j l).2).
Proof.
  intros Hr Hit.
  destruct (SinglySeq.sl_observe _ _ _ _ Hr Hit) as (ch & Hl & Hf).
  pose proof Hl as (_ & _ & _ & Hels).
  pose proof (SinglySeq.sl_holds_length _ _ _ Hels) as Hlen.
  split.
  - destruct (SinglySeq.sl_addFirst_lined e _ _ _ Hl)
      as (n & l' & Hrun & Hself & Hn & Hl').
    exists l', (mkPosition n (Singly.self l)).
    split; [done|]. split.
    { apply (SinglySeq.sl_lined_iterates _ _ _ _ Hl'). simpl. lia. }
    split.
    { rewrite (SinglySeq.sl_position_at_run _ _ _ _ Hl'). simpl.
      by rewrite Hself. }
    intros j. by apply (SinglySeq.sl_positions_agree _ _ _ _ _ _ _ _ Hl Hl').
  - destruct (SinglySeq.sl_addLast_lined e _ _ _ Hl)
      as (n & l' & Hrun & Hself & Hn & Hl').
    exists l', (mkPosition n (Singly.self l)).
    split; [done|]. split.
    { apply (SinglySeq.sl_lined_iterates _ _ _ _ Hl'). rewrite length_app.
      simpl. lia. }
    split.
    { rewrite (SinglySeq.sl_position_at_run _ _ _ _ Hl'). rewrite <- Hlen.
      rewrite list_lookup_middle by done. simpl. by rewrite Hself. }
    intros j Hj.
    apply (SinglySeq.sl_positions_agree _ _ _ _ _ _ _ _ Hl Hl'); [done|].
    apply lookup_app_l. lia.
Qed.

(** X10.  On a singly linked list reached by any calls whose iteration yields
    [els], let [p] be the position [i] steps of [getAfter] after [getFirst].
    [addAfter(p, e)] puts [e] right behind the [i]-th element and returns
    the position of the new element; every old position keeps its place in
    the order, one step further from the front when it is behind the new
    element. *)
Theorem singly_addAfter_at_position
    (T : Type) (c : nat) (l : Singly.SList T) (fuel : nat) (els : list T)
    (i : nat) (p : Position) (e : T) :
  Singly.reachable c l → Singly.iterate fuel l = Some els →
  SinglySeq.position_at i l = (l, Ok (Some p)) →
  ∃ l' q, Singly.addAfter p e l = (l', Ok q) ∧
    Singly.iterate (S fuel) l'
    = Some (take (S i) els ++ e :: drop (S i) els) ∧
    SinglySeq.position_at (S i) l' = (l', Ok (Some q)) ∧
    ∀ j, (SinglySeq.position_at (if decide (j ≤ i)%nat then j else S j) l').2
         = (SinglySeq.position_at j l).2.
Proof.
  intros Hr Hit Hp.
  destruct (SinglySeq.sl_observe _ _ _ _ Hr Hit) as (ch & Hl & Hf).
  pose proof Hl as (_ & _ & _ & Hels).
  pose proof (SinglySeq.sl_holds_length _ _ _ Hels) as Hlen.
  destruct (SinglySeq.sl_position_at_Some _ _ _ _ _ Hl Hp) as [Hi ->].
  pose proof (lookup_lt_Some _ _ _ Hi) as Hlt.
  destruct (SinglySeq.sl_addAfter_lined e _ _ _ _ _ Hl Hi)
    as (n & l' & Hrun & Hself & Hn & Hl').
  exists l', (mkPosition n (Singly.self l)).
  split; [done|]. split.
  { apply (SinglySeq.sl_lined_iterates _ _ _ _ Hl').
    rewrite length_insert_at. lia. }
  split.
  { rewrite (SinglySeq.sl_position_at_run _ _ _ _ Hl').
    rewrite insert_at_lookup_eq by lia. simpl. by rewrite Hself. }
  intros j.
  apply (SinglySeq.sl_positions_agree _ _ _ _ _ _ _ _ Hl Hl'); [done|].
  case_decide.
  - apply insert_at_lookup_lt; lia.
  - apply insert_at_lookup_gt; lia.
Qed.

(** X11.  On a singly linked list reached by any calls whose iteration yields
    [els]: when [els] is empty, [removeFirst] throws and leaves the list as
    it is; else it returns the first element and leaves the rest, whose
    positions keep their order. *)
Theorem singly_removeFirst_sequence
    (T : Type) (c : nat) (l : Singly.SList T) (fuel : nat) (els : list T) :
  Singly.reachable c l → Singly.iterate fuel l = Some els →
  (els = [] → Singly.removeFirst l = (l, Err (Throw EmptyContainer))) ∧
  (∀ x r, els = x :: r →
     ∃ l', Singly.removeFirst l = (l', Ok x) ∧
           Singly.iterate fuel l' = Some r ∧
           ∀ j, (SinglySeq.position_at j l').2
                = (SinglySeq.position_at (S j) l).2).
Proof.
  intros Hr Hit.
  destruct (SinglySeq.sl_observe _ _ _ _ Hr Hit) as (ch & Hl & Hf).
  pose proof Hl as (_ & Hch & _ & Hels).
  split.
  - intros ->. apply Forall2_nil_inv_r in Hels as ->.
    apply chain_head in Hch. by apply Singly.sl_empty_throws.
  - intros x r ->. apply Forall2_cons_inv_r in Hels as (a & ch' & _ & _ & ->).
    destruct (SinglySeq.sl_removeFirst_lined _ _ _ _ _ Hl)
      as (l' & Hrun & Hself & Hl').
    exists l'. split; [done|]. split.
    { apply (SinglySeq.sl_lined_iterates _ _ _ _ Hl'). simpl in Hf. lia. }
    intros j. by apply (SinglySeq.sl_positions_agree _ _ _ _ _ _ _ _ Hl Hl').
Qed.

(** X12.  On a singly linked list reached by any calls whose iteration yields
    [els], [replace(p, e)] on the position of the [i]-th element returns
    that element and puts [e] in its place; all positions stay as they
    are. *)
Theorem singly_replace_at_position
    (T : Type) (c : nat) (l : Singly.SList T) (fuel : nat) (els : list T)
    (i : nat) (p : Position) (e : T) :
  Singly.reachable c l → Singly.iterate fuel l = Some els →
  SinglySeq.position_at i l = (l, Ok (Some p)) →
  ∃ l' x, Singly.replace p e l = (l', Ok x) ∧ els !! i = Some x ∧
    Singly.iterate fuel l' = Some (<[i := e]> els) ∧
    Singly.size l' = Singly.size l ∧
    ∀ j, (SinglySeq.position_at j l').2 = (SinglySeq.position_at j l).2.
Proof.
  intros Hr Hit Hp.
  destruct (SinglySeq.sl_observe _ _ _ _ Hr Hit) as (ch & Hl & Hf).
  destruct (SinglySeq.sl_position_at_Some _ _ _ _ _ Hl Hp) as [Hi ->].
  destruct (SinglySeq.sl_replace_lined e _ _ _ _ _ Hl Hi)
    as (x & l' & Hrun & Hx & Hself & Hl').
  assert (l' = Singly.replaced (pos_node p) e l) as El.
  { destruct (Singly.sl_replace_cases
                (mkPosition (pos_node p) (Singly.self l)) e l)
      as [(y & _ & Hy & _)|(_ & old & _ & Hy)]; rewrite Hy in Hrun;
      by simplify_eq. }
  exists l', x. split; [done|]. split; [done|]. split.
  { apply (SinglySeq.sl_lined_iterates _ _ _ _ Hl'). by rewrite length_insert. }
  split; [by rewrite El|].
  intros j. by apply (SinglySeq.sl_positions_agree _ _ _ _ _ _ _ _ Hl Hl').
Qed.

(** X13.  On a singly linked list reached by any calls whose iteration yields
    [els]: walking from [getFirst] by [getAfter] gives a position after [i]
    steps exactly when [i] is below the number of elements; the positions
    so reached are valid, [getAfter] moves one step along this walk, and
    [getLast] is where the walk ends.  On a list built without
    [clear(true)] no other position is valid. *)
Theorem singly_positions_in_order
    (T : Type) (c : nat) (l : Singly.SList T) (fuel : nat) (els : list T) :
  Singly.reachable c l → Singly.iterate fuel l = Some els →
  (∀ i, ∃ o, SinglySeq.position_at i l = (l, Ok o) ∧
             (is_Some o ↔ (i < length els)%nat)) ∧
  (∀ i p, SinglySeq.position_at i l = (l, Ok (Some p)) →
     Singly.valid p l ∧
     Singly.getAfter p l = SinglySeq.position_at (S i) l) ∧
  Singly.getLast l = SinglySeq.position_at (length els - 1) l ∧
  (Singly.built c l →
   ∀ p, Singly.valid p l → ∃ i, SinglySeq.position_at i l = (l, Ok (Some p))).
Proof.
  intros Hr Hit.
  destruct (SinglySeq.sl_observe _ _ _ _ Hr Hit) as (ch & Hl & Hf).
  pose proof Hl as (_ & Hch & Htl & Hels).
  pose proof (SinglySeq.sl_holds_length _ _ _ Hels) as Hlen.
  split; [|split; [|split]].
  - intros i. eexists. split; [by eapply SinglySeq.sl_position_at_run|].
    rewrite fmap_is_Some, <- Hlen. apply lookup_lt_is_Some.
  - intros i p Hi.
    destruct (SinglySeq.sl_position_at_Some _ _ _ _ _ Hl Hi) as [Ha ->].
    split.
    + eapply SinglySeq.sl_lined_valid; [done|].
      by eapply list_elem_of_lookup_2.
    + rewrite (SinglySeq.sl_getAfter_run _ _ _ _ _ Hl Ha).
      by rewrite (SinglySeq.sl_position_at_run _ _ _ _ Hl).
  - rewrite Singly.sl_getLast_run, (SinglySeq.sl_position_at_run _ _ _ _ Hl).
    rewrite Htl, last_lookup, <- Hlen.
    by replace (pred (length ch)) with (length ch - 1)%nat by lia.
  - intros Hb p Hv. destruct (Singly.sl_built_strict _ _ Hb) as [ch' Hst].
    pose proof Hst as (_ & Hch' & _ & _ & Hcov).
    assert (ch' = ch) as -> by by eapply seg_det.
    apply Singly.sl_valid_iff in Hv as [Hc Hlive].
    destruct (list_elem_of_lookup_1 _ _ (Hcov _ Hlive)) as [i Hi].
    exists i. rewrite (SinglySeq.sl_position_at_run _ _ _ _ Hl), Hi. simpl.
    destruct p as [a k]; simpl in *. by rewrite Hc.
Qed.

(** X14.  A singly linked list reached by any calls can be cleared, in either
    mode, and refilled: after [clear], adding the elements of an array with
    [addLast] one by one makes the iteration yield exactly that array. *)
Theorem singly_clear_then_refill
    (T : Type) (c : nat) (l : Singly.SList T) :
  Singly.reachable c l →
  ∃ fuel0, ∀ fuel instant, (fuel0 ≤ fuel)%nat →
    ∃ l', Singly.clear fuel instant l = (l', Ok tt) ∧
      ∀ arr, ∃ l'', Singly.addLast_all arr l' = (l'', Ok tt) ∧
                    Singly.iterate (length arr) l'' = Some arr.
Proof.
  intros Hr. destruct (SinglySeq.sl_clear_lined _ _ Hr) as [fuel0 H].
  exists fuel0. intros fuel instant Hf.
  destruct (H fuel instant Hf) as (l' & Hc & Hl).
  exists l'. split; [done|]. intros arr.
  destruct (SinglySeq.sl_addLast_all_lined arr _ _ _ Hl)
    as (l'' & ch & Hrun & Hl'').
  exists l''. split; [done|].
  by apply (SinglySeq.sl_lined_iterates _ _ _ _ Hl'').
Qed.

(** X15.  In a singly linked list reached by any calls, the element of a node
    is written by [replace] on a position of that node and by nothing else:
    every other call, whether it returns or throws, leaves the element of
    every node as it was, also of the node it removes. *)
Theorem singly_only_replace_writes_elements
    (T : Type) (c : nat) (l l' : Singly.SList T) (op : Singly.Op T)
    (r : Res (Singly.Ret T)) (a : nat) (x : T) :
  Singly.reachable c l → Singly.exec op l = (l', r) → r ≠ Err OutOfFuel →
  (∀ q e, op = Singly.Replace q e → pos_node q ≠ a) →
  Singly.elt (Singly.heap l) a = Some x →
  Singly.elt (Singly.heap l') a = Some x.
Proof.
  intros Hr He Hf Hrep Hx. rewrite <- Hx.
  eapply SinglySeq.sl_exec_elt; [by eapply Singly.sl_reachable_inv|done..|].
  by eexists.
Qed.

(** ** Calls at the ends are calls at positions *)

(** X16.  On a list reached by any calls: in the doubly linked list,
    [addFirst(e)] does what [addBefore(getFirst(), e)] does and [addLast(e)]
    what [addAfter(getLast(), e)] does, [removeFirst()] what
    [delete(getFirst())] does and [removeLast()] what [delete(getLast())]
    does: the same list results and the same value is returned.  In the
    singly linked list, [addLast(e)] does what [addAfter(getLast(), e)]
    does. *)
Theorem end_calls_are_positional :
  (∀ (T : Type) (c : nat) (l : Doubly.DList T) (p : Position) (e : T),
     Doubly.reachable c l →
     (Doubly.getFirst l = (l, Ok (Some p)) →
      Doubly.addBefore p e l = Doubly.addFirst e l ∧
      Doubly.delete p l = Doubly.removeFirst l) ∧
     (Doubly.getLast l = (l, Ok (Some p)) →
      Doubly.addAfter p e l = Doubly.addLast e l ∧
      Doubly.delete p l = Doubly.removeLast l)) ∧
  (∀ (T : Type) (c : nat) (l : Singly.SList T) (p : Position) (e : T),
     Singly.reachable c l →
     Singly.getLast l = (l, Ok (Some p)) →
     Singly.addAfter p e l = Singly.addLast e l).
Proof.
  split.
  - intros T c l p e Hi%Doubly.reachable_inv. split.
    + rewrite Doubly.getFirst_run. intros [= Hp].
      destruct (Doubly.head l) as [a|] eqn:Hh; [|done].
      simpl in Hp. simplify_eq.
      destruct (Doubly.inv_head _ Hi _ Hh) as [Hpv Hlv].
      assert (Doubly.valid (mkPosition a (Doubly.self l)) l) as Hv.
      { apply Doubly.valid_iff. split; [done|]. by apply Doubly.head_live. }
      split.
      * destruct (Doubly.addBefore_cases (mkPosition a (Doubly.self l)) e l Hi)
          as [(x & Hx & _)|(_ & pv & Hpv' & _ & ->)].
        { rewrite Hv in Hx. done. }
        simpl in *. destruct (Doubly.addFirst_run e l Hi) as [_ ->].
        rewrite Hh. by assert (pv = None) as -> by congruence.
      * destruct (Doubly.delete_cases (mkPosition a (Doubly.self l)) l Hi)
          as [(x & Hx & _)|(_ & nd & Hnd & _ & ->)].
        { rewrite Hv in Hx. done. }
        simpl in *.
        destruct (Doubly.removeFirst_cases l Hi)
          as [[Hn _]|(n & nd' & Hn & Hnd' & _ & ->)]; [congruence|].
        by simplify_eq.
    + rewrite Doubly.getLast_run. intros [= Hp].
      destruct (Doubly.tail l) as [a|] eqn:Ht; [|done].
      simpl in Hp. simplify_eq.
      pose proof (Doubly.inv_tail _ Hi _ Ht) as Hnx.
      assert (Doubly.valid (mkPosition a (Doubly.self l)) l) as Hv.
      { apply Doubly.valid_iff. split; [done|]. by apply Doubly.tail_live. }
      split.
      * destruct (Doubly.addAfter_cases (mkPosition a (Doubly.self l)) e l Hi)
          as [(x & Hx & _)|(_ & nx & Hnx' & _ & ->)].
        { rewrite Hv in Hx. done. }
        simpl in *. destruct (Doubly.addLast_run e l Hi) as [_ ->].
        rewrite Ht. by assert (nx = None) as -> by congruence.
      * destruct (Doubly.delete_cases (mkPosition a (Doubly.self l)) l Hi)
          as [(x & Hx & _)|(_ & nd & Hnd & _ & ->)].
        { rewrite Hv in Hx. done. }
        simpl in *.
        destruct (Doubly.removeLast_cases l Hi)
          as [[Hn _]|(n & nd' & Hn & Hnd' & _ & ->)]; [congruence|].
        by simplify_eq.
  - intros T c l p e Hi%Singly.sl_reachable_inv.
    rewrite Singly.sl_getLast_run. intros [= Hp].
    destruct (Singly.tail l) as [a|] eqn:Ht; [|done].
    simpl in Hp. simplify_eq.
    pose proof (Singly.inv_tail _ Hi _ Ht) as Hnx.
    assert (Singly.valid (mkPosition a (Singly.self l)) l) as Hv.
    { apply Singly.sl_valid_iff. split; [done|]. simpl.
      split; [by eexists|]. rewrite Hnx. done. }
    destruct (Singly.sl_addAfter_cases (mkPosition a (Singly.self l)) e l Hi)
      as [(x & Hx & _)|(_ & nx & Hnx' & _ & ->)].
    { rewrite Hv in Hx. done. }
    simpl in *. destruct (Singly.sl_addLast_run e l Hi) as [_ ->].
    rewrite Ht. by assert (nx = None) as -> by congruence.
Qed.

(** ** Quick-select *)


(** X18.  On integers with the comparator of numbers, whatever pivots are
    picked, [quickSelect(arr, n)] is the element at index [n] of the sorted
    array. *)
Theorem quickSelect_numbers_is_sorted_index
    (random_index : nat → nat → nat) (fuel : nat) (arr : list Z) (n : Z) :
  (∀ k len, (0 < len)%nat → (random_index k len < len)%nat) →
  0 ≤ n < Z.of_nat (length arr) → (length arr ≤ S fuel)%nat →
  QuickSelect.quickSelect random_index QuickSelect.compareAsNumbers fuel arr n
  = Ok (merge_sort Z.le arr !! Z.to_nat n).
Proof. apply QuickSelectRank.quickSelect_numbers. Qed.

(** ** Preorder traversal of general trees *)

(** X19.  [traverseGeneral] calls the visitor on the current node, then
    traverses the children in the order of [getChildren()], each child with
    its whole subtree before the next one.  So on every general tree the
    visitor is called once per node, on the elements in preorder (a node
    before its subtrees, the subtrees in their order), numbered from 0, and
    not at all on the empty tree. *)
Theorem traverseGeneral_preorder :
  (∀ (T P TR V : Type) (callback : T → nat → P → TR → V → V)
     (traversable : @PreorderGeneral.GeneralTraversable T P TR) (s : V * nat),
     PreorderGeneral.traverseGeneral callback traversable s
     = PreorderGeneral.for_of callback
         (PreorderGeneral.getChildren traversable)
         (callback (PreorderGeneral.element traversable)
            (PreorderGeneral.index traversable)
            (PreorderGeneral.getPosition traversable)
            (PreorderGeneral.tree traversable) s.1, s.2)) ∧
  (∀ (T P TR V : Type) (callback : T → nat → P → TR → V → V)
     (children : @PreorderGeneral.Children T P TR) (s : V * nat),
     PreorderGeneral.for_of callback children s
     = match (PreorderGeneral.next_child children s.2).1 with
       | Some (child, rest) =>
           PreorderGeneral.for_of callback rest
             (PreorderGeneral.traverseGeneral callback child
                (s.1, (PreorderGeneral.next_child children s.2).2))
       | None => (s.1, (PreorderGeneral.next_child children s.2).2)
       end) ∧
  (∀ (T : Type) (root : option (PreorderGeneral.GTree T)),
     PreorderGeneral.gtraverse PreorderGeneral.grecord root []
     = match root with
       | Some t =>
           zip (PreorderGeneral.gpreorder t)
             (seq O (length (PreorderGeneral.gpreorder t)))
       | None => []
       end) ∧
  PreorderGeneral.gtraverse PreorderGeneral.grecord
    (Some (PreorderGeneral.GNode 1
             [PreorderGeneral.GNode 2 [PreorderGeneral.GNode 4 []];
              PreorderGeneral.GNode 3 []; PreorderGeneral.GNode 5 []])) []
  = [(1, 0%nat); (2, 1%nat); (4, 2%nat); (3, 3%nat); (5, 4%nat)].
Proof.
  split; [|split; [|split]].
  - intros. apply PreorderGeneral.traverseGeneral_unfold.
  - intros. apply PreorderGeneral.for_of_unfold.
  - intros. apply PreorderGeneral.gtraverse_record.
  - reflexivity.
Qed.

(** X20.  The two entry points agree on binary trees: [traverseGeneral] on a
    binary cursor seen as a general one, whose children are its left child,
    if there is one, then its right child, if there is one, makes the same
    calls of the visitor, in the same order and with the same indices, as
    [traverseBinary] on that cursor. *)
Theorem traverseGeneral_agrees_with_traverseBinary
    (T P TR V : Type) (callback : T → nat → P → TR → V → V)
    (traversable : @Preorder.BinaryTraversable T P TR) (s : V * nat) :
  PreorderGeneral.traverseGeneral callback
    (PreorderGeneral.as_general traversable) s
  = Preorder.traverseBinary callback traversable s.
Proof. apply PreorderGeneral.traverse_as_general. Qed.


(** ** Adding, then removing what was added *)

(** X21.  On a doubly linked list built without [clear(true)] whose
    iteration yields [els], removing what was just added gives the element
    back and restores the sequence and the positions: [addFirst(e)] then
    [removeFirst()], [addLast(e)] then [removeLast()], and, for a position
    [p] on the list, [addAfter(p, e)] or [addBefore(p, e)] then [delete] on
    the position returned. *)
Theorem doubly_add_then_remove_restores
    (T : Type) (c : nat) (l : Doubly.DList T) (fuel : nat) (els : list T)
    (e : T) :
  Doubly.built c l → Doubly.iterate fuel l = Some els →
  (∃ l1 q l2, Doubly.addFirst e l = (l1, Ok q) ∧
     Doubly.removeFirst l1 = (l2, Ok e) ∧
     Doubly.iterate fuel l2 = Some els ∧ Doubly.size l2 = Doubly.size l ∧
     ∀ j, (DoublySeq.position_at j l2).2 = (DoublySeq.position_at j l).2) ∧
  (∃ l1 q l2, Doubly.addLast e l = (l1, Ok q) ∧
     Doubly.removeLast l1 = (l2, Ok e) ∧
     Doubly.iterate fuel l2 = Some els ∧ Doubly.size l2 = Doubly.size l ∧
     ∀ j, (DoublySeq.position_at j l2).2 = (DoublySeq.position_at j l).2) ∧
  (∀ i p, DoublySeq.position_at i l = (l, Ok (Some p)) →
     (∃ l1 q l2, Doubly.addAfter p e l = (l1, Ok q) ∧
        Doubly.delete q l1 = (l2, Ok e) ∧
        Doubly.iterate fuel l2 = Some els ∧ Doubly.size l2 = Doubly.size l ∧
        ∀ j, (DoublySeq.position_at j l2).2
             = (DoublySeq.position_at j l).2) ∧
     (∃ l1 q l2, Doubly.addBefore p e l = (l1, Ok q) ∧
        Doubly.delete q l1 = (l2, Ok e) ∧
        Doubly.iterate fuel l2 = Some els ∧ Doubly.size l2 = Doubly.size l ∧
        ∀ j, (DoublySeq.position_at j l2).2
             = (DoublySeq.position_at j l).2)).
Proof.
  intros Hb Hit.
  destruct (DoublySeq.observe _ _ _ _ Hb Hit) as (ch & Hr & Hf).
  pose proof Hr as [Hst Hels].
  pose proof (DoublySeq.holds_length _ _ _ Hels) as Hlen.
  assert (Hback : ∀ l2, Doubly.self l2 = Doubly.self l →
    DoublySeq.repr l2 ch els →
    Doubly.iterate fuel l2 = Some els ∧ Doubly.size l2 = Doubly.size l ∧
    ∀ j, (DoublySeq.position_at j l2).2 = (DoublySeq.position_at j l).2).
  { intros l2 Hself Hr2. pose proof Hr2 as [Hst2 _].
    split; [by apply (DoublySeq.repr_iterates _ _ _ _ Hr2)|].
    split.
    { by rewrite (DoublySeq.repr_size _ _ _ Hr2),
        (DoublySeq.repr_size _ _ _ Hr). }
    intros j. by apply (DoublySeq.positions_agree _ _ _ _ _ _ Hst Hst2). }
  split; [|split].
  - destruct (DoublySeq.addFirst_repr e _ _ _ Hr)
      as (n & l1 & Hrun & Hself & Hn & Hr1).
    destruct (DoublySeq.removeFirst_repr _ _ _ _ _ Hr1)
      as (l2 & Hrun2 & Hself2 & Hr2).
    exists l1, (mkPosition n (Doubly.self l)), l2.
    split; [done|]. split; [done|]. apply Hback; [congruence|done].
  - destruct (DoublySeq.addLast_repr e _ _ _ Hr)
      as (n & l1 & Hrun & Hself & Hn & Hr1).
    destruct (DoublySeq.removeLast_repr _ _ _ _ _ Hr1)
      as (l2 & Hrun2 & Hself2 & Hr2).
    exists l1, (mkPosition n (Doubly.self l)), l2.
    split; [done|]. split; [done|]. apply Hback; [congruence|done].
  - intros i p Hp.
    destruct (DoublySeq.position_at_Some _ _ _ _ Hst Hp) as [Hi ->].
    pose proof (lookup_lt_Some _ _ _ Hi) as Hlt.
    split.
    + destruct (DoublySeq.addAfter_repr e _ _ _ _ _ Hr Hi)
        as (n & l1 & Hrun & Hself & Hn & Hr1).
      destruct (DoublySeq.delete_repr l1 _ _ (S i) n Hr1)
        as (x & l2 & Hrun2 & Hx & Hself2 & Hr2).
      { apply insert_at_lookup_eq. lia. }
      rewrite insert_at_lookup_eq in Hx by lia.
      rewrite !delete_insert_at in Hr2 by lia.
      rewrite Hself in Hrun2. simplify_eq.
      exists l1, (mkPosition n (Doubly.self l)), l2.
      split; [done|]. split; [done|]. apply Hback; [congruence|done].
    + destruct (DoublySeq.addBefore_repr e _ _ _ _ _ Hr Hi)
        as (n & l1 & Hrun & Hself & Hn & Hr1).
      destruct (DoublySeq.delete_repr l1 _ _ i n Hr1)
        as (x & l2 & Hrun2 & Hx & Hself2 & Hr2).
      { apply insert_at_lookup_eq. lia. }
      rewrite insert_at_lookup_eq in Hx by lia.
      rewrite !delete_insert_at in Hr2 by lia.
      rewrite Hself in Hrun2. simplify_eq.
      exists l1, (mkPosition n (Doubly.self l)), l2.
      split; [done|]. split; [done|]. apply Hback; [congruence|done].
Qed.

(** X22.  On a singly linked list reached by any calls whose iteration
    yields [els]: [addFirst(e)] then [removeFirst()] gives [e] back and
    restores the sequence and the positions; [addLast(e)] then
    [removeFirst()] returns the old first element, or [e] when the list was
    empty, and leaves the other elements followed by [e]. *)
Theorem singly_add_then_removeFirst
    (T : Type) (c : nat) (l : Singly.SList T) (fuel : nat) (els : list T)
    (e : T) :
  Singly.reachable c l → Singly.iterate fuel l = Some els →
  (∃ l1 q l2, Singly.addFirst e l = (l1, Ok q) ∧
     Singly.removeFirst l1 = (l2, Ok e) ∧
     Singly.iterate fuel l2 = Some els ∧ Singly.size l2 = Singly.size l ∧
     ∀ j, (SinglySeq.position_at j l2).2 = (SinglySeq.position_at j l).2) ∧
  (∃ l1 q l2 x, Singly.addLast e l = (l1, Ok q) ∧
     Singly.removeFirst l1 = (l2, Ok x) ∧
     head (els ++ [e]) = Some x ∧
     Singly.iterate fuel l2 = Some (tail (els ++ [e]))).
Proof.
  intros Hr Hit.
  destruct (SinglySeq.sl_observe _ _ _ _ Hr Hit) as (ch & Hl & Hf).
  pose proof Hl as (Hinv & _ & _ & Hels).
  split.
  - destruct (SinglySeq.sl_addFirst_lined e _ _ _ Hl)
      as (n & l1 & Hrun & Hself & Hn & Hl1).
    destruct (SinglySeq.sl_removeFirst_lined _ _ _ _ _ Hl1)
      as (l2 & Hrun2 & Hself2 & Hl2).
    exists l1, (mkPosition n (Singly.self l)), l2.
    split; [done|]. split; [done|].
    split; [by apply (SinglySeq.sl_lined_iterates _ _ _ _ Hl2)|].
    split.
    { destruct (Singly.sl_addFirst_run e l Hinv) as [_ E1].
      rewrite E1 in Hrun. injection Hrun as <- _.
      pose proof Hl1 as (Hinv1 & _).
      destruct (Singly.sl_removeFirst_cases _ Hinv1)
        as [[_ E2]|(hd & nx & old & _ & _ & _ & E2)];
        rewrite E2 in Hrun2; simplify_eq. simpl. lia. }
    intros j.
    apply (SinglySeq.sl_positions_agree _ _ _ _ _ _ _ _ Hl Hl2); [congruence|done].
  - destruct (SinglySeq.sl_addLast_lined e _ _ _ Hl)
      as (n & l1 & Hrun & Hself & Hn & Hl1).
    destruct els as [|x r]; destruct ch as [|a ch'];
      try (by apply Forall2_length in Hels).
    + destruct (SinglySeq.sl_removeFirst_lined _ _ _ _ _ Hl1)
        as (l2 & Hrun2 & Hself2 & Hl2).
      exists l1, (mkPosition n (Singly.self l)), l2, e.
      split; [done|]. split; [done|]. split; [done|].
      apply (SinglySeq.sl_lined_iterates _ _ _ _ Hl2). simpl. lia.
    + destruct (SinglySeq.sl_removeFirst_lined _ _ _ _ _ Hl1)
        as (l2 & Hrun2 & Hself2 & Hl2).
      exists l1, (mkPosition n (Singly.self l)), l2, x.
      split; [done|]. split; [done|]. split; [done|].
      apply (SinglySeq.sl_lined_iterates _ _ _ _ Hl2).
      simpl in *. rewrite length_app. simpl. lia.
Qed.

(** * The further properties at work on concrete inputs *)

Definition doubly_789 : Doubly.DList Z := (Doubly.new_list 0 [7; 8; 9]).1.
Definition singly_789 : Singly.SList Z := (Singly.new_list 0 [7; 8; 9]).1.

Lemma doubly_add_at_ends_witness :
  Doubly.built 0 doubly_789 ∧ Doubly.iterate 3 doubly_789 = Some [7; 8; 9] ∧
  (∃ l' q, Doubly.addFirst 5 doubly_789 = (l', Ok q) ∧
           Doubly.iterate 4 l' = Some [5; 7; 8; 9]) ∧
  (∃ l' q, Doubly.addLast 5 doubly_789 = (l', Ok q) ∧
           Doubly.iterate 4 l' = Some [7; 8; 9; 5]).
Proof.
  assert (Hb : Doubly.built 0 doubly_789) by apply Doubly.new_list_built.
  assert (Hit : Doubly.iterate 3 doubly_789 = Some [7; 8; 9])
    by (vm_compute; reflexivity).
  destruct (doubly_add_at_ends Z 0%nat doubly_789 3%nat [7; 8; 9] 5 Hb Hit)
    as [(l1 & q1 & H1 & H2 & _) (l2 & q2 & H3 & H4 & _)].
  split; [exact Hb|]. split; [exact Hit|]. split.
  - exists l1, q1. split; [exact H1|exact H2].
  - exists l2, q2. split; [exact H3|exact H4].
Defined.

Lemma doubly_add_at_position_witness :
  Doubly.built 0 doubly_789 ∧ Doubly.iterate 3 doubly_789 = Some [7; 8; 9] ∧
  DoublySeq.position_at 1 doubly_789
  = (doubly_789, Ok (Some (mkPosition 1 0))) ∧
  (∃ l' q, Doubly.addAfter (mkPosition 1 0) 5 doubly_789 = (l', Ok q) ∧
           Doubly.iterate 4 l' = Some [7; 8; 5; 9]) ∧
  (∃ l' q, Doubly.addBefore (mkPosition 1 0) 5 doubly_789 = (l', Ok q) ∧
           Doubly.iterate 4 l' = Some [7; 5; 8; 9]).
Proof.
  assert (Hb : Doubly.built 0 doubly_789) by apply Doubly.new_list_built.
  assert (Hit : Doubly.iterate 3 doubly_789 = Some [7; 8; 9])
    by (vm_compute; reflexivity).
  assert (Hp : DoublySeq.position_at 1 doubly_789
               = (doubly_789, Ok (Some (mkPosition 1 0))))
    by (vm_compute; reflexivity).
  destruct (doubly_add_at_position Z 0%nat doubly_789 3%nat [7; 8; 9] 1%nat
              (mkPosition 1 0) 5 Hb Hit Hp)
    as [(l1 & q1 & H1 & H2 & _) (l2 & q2 & H3 & H4 & _)].
  split; [exact Hb|]. split; [exact Hit|]. split; [exact Hp|]. split.
  - exists l1, q1. split; [exact H1|exact H2].
  - exists l2, q2. split; [exact H3|exact H4].
Defined.

Lemma doubly_delete_at_position_witness :
  Doubly.built 0 doubly_789 ∧ Doubly.iterate 3 doubly_789 = Some [7; 8; 9] ∧
  DoublySeq.position_at 1 doubly_789
  = (doubly_789, Ok (Some (mkPosition 1 0))) ∧
  ∃ l', Doubly.delete (mkPosition 1 0) doubly_789 = (l', Ok 8) ∧
        Doubly.iterate 3 l' = Some [7; 9].
Proof.
  assert (Hb : Doubly.built 0 doubly_789) by apply Doubly.new_list_built.
  assert (Hit : Doubly.iterate 3 doubly_789 = Some [7; 8; 9])
    by (vm_compute; reflexivity).
  assert (Hp : DoublySeq.position_at 1 doubly_789
               = (doubly_789, Ok (Some (mkPosition 1 0))))
    by (vm_compute; reflexivity).
  destruct (doubly_delete_at_position Z 0%nat doubly_789 3%nat [7; 8; 9]
              1%nat (mkPosition 1 0) Hb Hit Hp)
    as (l' & x & H1 & Hx & H2 & _).
  split; [exact Hb|]. split; [exact Hit|]. split; [exact Hp|].
  exists l'. injection Hx as <-. split; [exact H1|exact H2].
Defined.

Lemma doubly_remove_at_ends_witness :
  Doubly.built 0 doubly_789 ∧ Doubly.iterate 3 doubly_789 = Some [7; 8; 9] ∧
  (∃ l', Doubly.removeFirst doubly_789 = (l', Ok 7) ∧
         Doubly.iterate 3 l' = Some [8; 9]) ∧
  (∃ l', Doubly.removeLast doubly_789 = (l', Ok 9) ∧
         Doubly.iterate 3 l' = Some [7; 8]).
Proof.
  assert (Hb : Doubly.built 0 doubly_789) by apply Doubly.new_list_built.
  assert (Hit : Doubly.iterate 3 doubly_789 = Some [7; 8; 9])
    by (vm_compute; reflexivity).
  destruct (doubly_remove_at_ends Z 0%nat doubly_789 3%nat [7; 8; 9] Hb Hit)
    as (_ & Hfirst & Hlast).
  destruct (Hfirst 7 [8; 9] eq_refl) as (l1 & H1 & H2 & _).
  destruct (Hlast [7; 8] 9 eq_refl) as (l2 & H3 & H4 & _).
  split; [exact Hb|]. split; [exact Hit|]. split.
  - exists l1. split; [exact H1|exact H2].
  - exists l2. split; [exact H3|exact H4].
Defined.

Lemma doubly_replace_at_position_witness :
  Doubly.built 0 doubly_789 ∧ Doubly.iterate 3 doubly_789 = Some [7; 8; 9] ∧
  DoublySeq.position_at 2 doubly_789
  = (doubly_789, Ok (Some (mkPosition 2 0))) ∧
  ∃ l', Doubly.replace (mkPosition 2 0) 4 doubly_789 = (l', Ok 9) ∧
        Doubly.iterate 3 l' = Some [7; 8; 4].
Proof.
  assert (Hb : Doubly.built 0 doubly_789) by apply Doubly.new_list_built.
  assert (Hit : Doubly.iterate 3 doubly_789 = Some [7; 8; 9])
    by (vm_compute; reflexivity).
  assert (Hp : DoublySeq.position_at 2 doubly_789
               = (doubly_789, Ok (Some (mkPosition 2 0))))
    by (vm_compute; reflexivity).
  destruct (doubly_replace_at_position Z 0%nat doubly_789 3%nat [7; 8; 9]
              2%nat (mkPosition 2 0) 4 Hb Hit Hp)
    as (l' & x & H1 & Hx & H2 & _).
  split; [exact Hb|]. split; [exact Hit|]. split; [exact Hp|].
  exists l'. injection Hx as <-. split; [exact H1|exact H2].
Defined.

Lemma doubly_positions_in_order_witness :
  Doubly.built 0 doubly_789 ∧ Doubly.iterate 3 doubly_789 = Some [7; 8; 9] ∧
  (Doubly.valid (mkPosition 1 0) doubly_789
   ↔ ∃ i, DoublySeq.position_at i doubly_789
          = (doubly_789, Ok (Some (mkPosition 1 0)))) ∧
  DoublySeq.position_from_last 0 doubly_789
  = DoublySeq.position_at 2 doubly_789.
Proof.
  assert (Hb : Doubly.built 0 doubly_789) by apply Doubly.new_list_built.
  assert (Hit : Doubly.iterate 3 doubly_789 = Some [7; 8; 9])
    by (vm_compute; reflexivity).
  destruct (doubly_positions_in_order Z 0%nat doubly_789 3%nat [7; 8; 9]
              Hb Hit) as (_ & Hv & _ & Hl).
  split; [exact Hb|]. split; [exact Hit|]. split.
  - apply Hv.
  - apply (Hl 0%nat). simpl. lia.
Defined.

Lemma doubly_clear_then_refill_witness :
  Doubly.reachable 0 doubly_789 ∧
  ∃ fuel0, ∀ fuel instant, (fuel0 ≤ fuel)%nat →
    ∃ l', Doubly.clear fuel instant doubly_789 = (l', Ok tt) ∧
      ∃ l'', Doubly.addLast_all [1; 2] l' = (l'', Ok tt) ∧
             Doubly.iterate 2 l'' = Some [1; 2].
Proof.
  assert (Hr : Doubly.reachable 0 doubly_789)
    by apply Doubly.new_list_reachable.
  split; [exact Hr|].
  destruct (doubly_clear_then_refill Z 0%nat doubly_789 Hr) as [fuel0 H].
  exists fuel0. intros fuel instant Hf.
  destruct (H fuel instant Hf) as (l' & Hc & Hfill).
  exists l'. split; [exact Hc|]. apply (Hfill [1; 2]).
Defined.

Lemma doubly_only_replace_writes_elements_witness :
  Doubly.reachable 0 doubly_789 ∧
  Doubly.elt (Doubly.heap doubly_789) 0 = Some 7 ∧
  Doubly.elt (Doubly.heap (Doubly.exec Doubly.RemoveFirst doubly_789).1) 0
  = Some 7.
Proof.
  assert (Hr : Doubly.reachable 0 doubly_789)
    by apply Doubly.new_list_reachable.
  assert (Hx : Doubly.elt (Doubly.heap doubly_789) 0 = Some 7)
    by (vm_compute; reflexivity).
  split; [exact Hr|]. split; [exact Hx|].
  apply (doubly_only_replace_writes_elements Z 0%nat doubly_789 _
           Doubly.RemoveFirst (Doubly.exec Doubly.RemoveFirst doubly_789).2
           0%nat 7 Hr).
  - vm_compute. reflexivity.
  - vm_compute. discriminate.
  - intros q e. discriminate.
  - exact Hx.
Defined.

Lemma singly_add_at_ends_witness :
  Singly.reachable 0 singly_789 ∧ Singly.iterate 3 singly_789 = Some [7; 8; 9] ∧
  (∃ l' q, Singly.addFirst 5 singly_789 = (l', Ok q) ∧
           Singly.iterate 4 l' = Some [5; 7; 8; 9]) ∧
  (∃ l' q, Singly.addLast 5 singly_789 = (l', Ok q) ∧
           Singly.iterate 4 l' = Some [7; 8; 9; 5]).
Proof.
  assert (Hr : Singly.reachable 0 singly_789)
    by apply Singly.sl_new_list_reachable.
  assert (Hit : Singly.iterate 3 singly_789 = Some [7; 8; 9])
    by (vm_compute; reflexivity).
  destruct (singly_add_at_ends Z 0%nat singly_789 3%nat [7; 8; 9] 5 Hr Hit)
    as [(l1 & q1 & H1 & H2 & _) (l2 & q2 & H3 & H4 & _)].
  split; [exact Hr|]. split; [exact Hit|]. split.
  - exists l1, q1. split; [exact H1|exact H2].
  - exists l2, q2. split; [exact H3|exact H4].
Defined.

Lemma singly_addAfter_at_position_witness :
  Singly.reachable 0 singly_789 ∧ Singly.iterate 3 singly_789 = Some [7; 8; 9] ∧
  SinglySeq.position_at 1 singly_789
  = (singly_789, Ok (Some (mkPosition 1 0))) ∧
  ∃ l' q, Singly.addAfter (mkPosition 1 0) 5 singly_789 = (l', Ok q) ∧
          Singly.iterate 4 l' = Some [7; 8; 5; 9].
Proof.
  assert (Hr : Singly.reachable 0 singly_789)
    by apply Singly.sl_new_list_reachable.
  assert (Hit : Singly.iterate 3 singly_789 = Some [7; 8; 9])
    by (vm_compute; reflexivity).
  assert (Hp : SinglySeq.position_at 1 singly_789
               = (singly_789, Ok (Some (mkPosition 1 0))))
    by (vm_compute; reflexivity).
  destruct (singly_addAfter_at_position Z 0%nat singly_789 3%nat [7; 8; 9]
              1%nat (mkPosition 1 0) 5 Hr Hit Hp)
    as (l1 & q1 & H1 & H2 & _).
  split; [exact Hr|]. split; [exact Hit|]. split; [exact Hp|].
  exists l1, q1. split; [exact H1|exact H2].
Defined.

Lemma singly_removeFirst_sequence_witness :
  Singly.reachable 0 singly_789 ∧ Singly.iterate 3 singly_789 = Some [7; 8; 9] ∧
  ∃ l', Singly.removeFirst singly_789 = (l', Ok 7) ∧
        Singly.iterate 3 l' = Some [8; 9].
Proof.
  assert (Hr : Singly.reachable 0 singly_789)
    by apply Singly.sl_new_list_reachable.
  assert (Hit : Singly.iterate 3 singly_789 = Some [7; 8; 9])
    by (vm_compute; reflexivity).
  destruct (singly_removeFirst_sequence Z 0%nat singly_789 3%nat [7; 8; 9]
              Hr Hit) as (_ & Hfirst).
  destruct (Hfirst 7 [8; 9] eq_refl) as (l1 & H1 & H2 & _).
  split; [exact Hr|]. split; [exact Hit|].
  exists l1. split; [exact H1|exact H2].
Defined.

Lemma singly_replace_at_position_witness :
  Singly.reachable 0 singly_789 ∧ Singly.iterate 3 singly_789 = Some [7; 8; 9] ∧
  SinglySeq.position_at 2 singly_789
  = (singly_789, Ok (Some (mkPosition 2 0))) ∧
  ∃ l', Singly.replace (mkPosition 2 0) 4 singly_789 = (l', Ok 9) ∧
        Singly.iterate 3 l' = Some [7; 8; 4].
Proof.
  assert (Hr : Singly.reachable 0 singly_789)
    by apply Singly.sl_new_list_reachable.
  assert (Hit : Singly.iterate 3 singly_789 = Some [7; 8; 9])
    by (vm_compute; reflexivity).
  assert (Hp : SinglySeq.position_at 2 singly_789
               = (singly_789, Ok (Some (mkPosition 2 0))))
    by (vm_compute; reflexivity).
  destruct (singly_replace_at_position Z 0%nat singly_789 3%nat [7; 8; 9]
              2%nat (mkPosition 2 0) 4 Hr Hit Hp)
    as (l' & x & H1 & Hx & H2 & _).
  split; [exact Hr|]. split; [exact Hit|]. split; [exact Hp|].
  exists l'. injection Hx as <-. split; [exact H1|exact H2].
Defined.

Lemma singly_positions_in_order_witness :
  Singly.reachable 0 singly_789 ∧ Singly.iterate 3 singly_789 = Some [7; 8; 9] ∧
  Singly.getLast singly_789 = SinglySeq.position_at 2 singly_789 ∧
  (SinglySeq.position_at 1 singly_789
   = (singly_789, Ok (Some (mkPosition 1 0))) →
   Singly.getAfter (mkPosition 1 0) singly_789
   = SinglySeq.position_at 2 singly_789).
Proof.
  assert (Hr : Singly.reachable 0 singly_789)
    by apply Singly.sl_new_list_reachable.
  assert (Hit : Singly.iterate 3 singly_789 = Some [7; 8; 9])
    by (vm_compute; reflexivity).
  destruct (singly_positions_in_order Z 0%nat singly_789 3%nat [7; 8; 9]
              Hr Hit) as (_ & Hstep & Hlast & _).
  split; [exact Hr|]. split; [exact Hit|]. split; [exact Hlast|].
  intros Hp. apply (Hstep 1%nat _ Hp).
Defined.

Lemma singly_clear_then_refill_witness :
  Singly.reachable 0 singly_789 ∧
  ∃ fuel0, ∀ fuel instant, (fuel0 ≤ fuel)%nat →
    ∃ l', Singly.clear fuel instant singly_789 = (l', Ok tt) ∧
      ∃ l'', Singly.addLast_all [1; 2] l' = (l'', Ok tt) ∧
             Singly.iterate 2 l'' = Some [1; 2].
Proof.
  assert (Hr : Singly.reachable 0 singly_789)
    by apply Singly.sl_new_list_reachable.
  split; [exact Hr|].
  destruct (singly_clear_then_refill Z 0%nat singly_789 Hr) as [fuel0 H].
  exists fuel0. intros fuel instant Hf.
  destruct (H fuel instant Hf) as (l' & Hc & Hfill).
  exists l'. split; [exact Hc|]. apply (Hfill [1; 2]).
Defined.

Lemma singly_only_replace_writes_elements_witness :
  Singly.reachable 0 singly_789 ∧
  Singly.elt (Singly.heap singly_789) 0 = Some 7 ∧
  Singly.elt (Singly.heap (Singly.exec Singly.RemoveFirst singly_789).1) 0
  = Some 7.
Proof.
  assert (Hr : Singly.reachable 0 singly_789)
    by apply Singly.sl_new_list_reachable.
  assert (Hx : Singly.elt (Singly.heap singly_789) 0 = Some 7)
    by (vm_compute; reflexivity).
  split; [exact Hr|]. split; [exact Hx|].
  apply (singly_only_replace_writes_elements Z 0%nat singly_789 _
           Singly.RemoveFirst (Singly.exec Singly.RemoveFirst singly_789).2
           0%nat 7 Hr).
  - vm_compute. reflexivity.
  - vm_compute. discriminate.
  - intros q e. discriminate.
  - exact Hx.
Defined.

Lemma end_calls_are_positional_witness :
  (Doubly.reachable 0 doubly_789 ∧
   Doubly.getLast doubly_789 = (doubly_789, Ok (Some (mkPosition 2 0))) ∧
   Doubly.addAfter (mkPosition 2 0) 5 doubly_789
   = Doubly.addLast 5 doubly_789 ∧
   Doubly.delete (mkPosition 2 0) doubly_789
   = Doubly.removeLast doubly_789) ∧
  (Singly.reachable 0 singly_789 ∧
   Singly.getLast singly_789 = (singly_789, Ok (Some (mkPosition 2 0))) ∧
   Singly.addAfter (mkPosition 2 0) 5 singly_789
   = Singly.addLast 5 singly_789).
Proof.
  split.
  - assert (Hr : Doubly.reachable 0 doubly_789)
      by apply Doubly.new_list_reachable.
    assert (Hl : Doubly.getLast doubly_789
                 = (doubly_789, Ok (Some (mkPosition 2 0))))
      by (vm_compute; reflexivity).
    destruct (proj2 (proj1 end_calls_are_positional Z 0%nat doubly_789
                       (mkPosition 2 0) 5 Hr) Hl) as [H1 H2].
    split; [exact Hr|]. split; [exact Hl|]. split; [exact H1|exact H2].
  - assert (Hr : Singly.reachable 0 singly_789)
      by apply Singly.sl_new_list_reachable.
    assert (Hl : Singly.getLast singly_789
                 = (singly_789, Ok (Some (mkPosition 2 0))))
      by (vm_compute; reflexivity).
    split; [exact Hr|]. split; [exact Hl|].
    apply (proj2 end_calls_are_positional Z 0%nat singly_789
             (mkPosition 2 0) 5 Hr Hl).
Defined.


Lemma quickSelect_numbers_is_sorted_index_witness :
  0 ≤ 3 < Z.of_nat (length [5; 3; 1; 4; 2]) ∧
  QuickSelect.quickSelect (λ _ len, Nat.pred len) QuickSelect.compareAsNumbers
    4 [5; 3; 1; 4; 2] 3
  = Ok (Some 4).
Proof.
  assert (Hn : 0 ≤ 3 < Z.of_nat (length [5; 3; 1; 4; 2])) by (simpl; lia).
  split; [exact Hn|].
  rewrite (quickSelect_numbers_is_sorted_index (λ _ len, Nat.pred len) 4%nat
             [5; 3; 1; 4; 2] 3).
  - vm_compute. reflexivity.
  - intros k len Hlen. lia.
  - exact Hn.
  - simpl. lia.
Defined.

Lemma doubly_add_then_remove_restores_witness :
  Doubly.built 0 doubly_789 ∧ Doubly.iterate 3 doubly_789 = Some [7; 8; 9] ∧
  DoublySeq.position_at 1 doubly_789
  = (doubly_789, Ok (Some (mkPosition 1 0))) ∧
  (∃ l1 q l2, Doubly.addLast 5 doubly_789 = (l1, Ok q) ∧
     Doubly.removeLast l1 = (l2, Ok 5) ∧
     Doubly.iterate 3 l2 = Some [7; 8; 9]) ∧
  (∃ l1 q l2, Doubly.addBefore (mkPosition 1 0) 5 doubly_789 = (l1, Ok q) ∧
     Doubly.delete q l1 = (l2, Ok 5) ∧
     Doubly.iterate 3 l2 = Some [7; 8; 9]).
Proof.
  assert (Hb : Doubly.built 0 doubly_789) by apply Doubly.new_list_built.
  assert (Hit : Doubly.iterate 3 doubly_789 = Some [7; 8; 9])
    by (vm_compute; reflexivity).
  assert (Hp : DoublySeq.position_at 1 doubly_789
               = (doubly_789, Ok (Some (mkPosition 1 0))))
    by (vm_compute; reflexivity).
  destruct (doubly_add_then_remove_restores Z 0%nat doubly_789 3%nat
              [7; 8; 9] 5 Hb Hit) as (_ & Hlast & Hpos).
  destruct Hlast as (l1 & q1 & l2 & H1 & H2 & H3 & _).
  destruct (Hpos 1%nat _ Hp) as [_ (l3 & q3 & l4 & H4 & H5 & H6 & _)].
  split; [exact Hb|]. split; [exact Hit|]. split; [exact Hp|]. split.
  - exists l1, q1, l2. split; [exact H1|]. split; [exact H2|exact H3].
  - exists l3, q3, l4. split; [exact H4|]. split; [exact H5|exact H6].
Defined.

Lemma singly_add_then_removeFirst_witness :
  Singly.reachable 0 singly_789 ∧ Singly.iterate 3 singly_789 = Some [7; 8; 9] ∧
  (∃ l1 q l2, Singly.addFirst 5 singly_789 = (l1, Ok q) ∧
     Singly.removeFirst l1 = (l2, Ok 5) ∧
     Singly.iterate 3 l2 = Some [7; 8; 9]) ∧
  (∃ l1 q l2, Singly.addLast 5 singly_789 = (l1, Ok q) ∧
     Singly.removeFirst l1 = (l2, Ok 7) ∧
     Singly.iterate 3 l2 = Some [8; 9; 5]).
Proof.
  assert (Hr : Singly.reachable 0 singly_789)
    by apply Singly.sl_new_list_reachable.
  assert (Hit : Singly.iterate 3 singly_789 = Some [7; 8; 9])
    by (vm_compute; reflexivity).
  destruct (singly_add_then_removeFirst Z 0%nat singly_789 3%nat [7; 8; 9] 5
              Hr Hit)
    as [(l1 & q1 & l2 & H1 & H2 & H3 & _) (l3 & q3 & l4 & x & H4 & H5 & Hx & H6)].
  split; [exact Hr|]. split; [exact Hit|]. split.
  - exists l1, q1, l2. split; [exact H1|]. split; [exact H2|exact H3].
  - exists l3, q3, l4. injection Hx as <-.
    split; [exact H4|]. split; [exact H5|exact H6].
Defined.
